(** * RE/flex pattern compiler ([lib/pattern.cpp]): a shallow embedding

    The development follows the compilation pipeline of [reflex::Pattern]:
    source cursor, positions and position sets, the recursive-descent parser
    ([parse], [parse1] .. [parse4]), the DFA builder's acceptance bookkeeping
    ([compile_transition]), character-set complement ([flip]), edge compaction
    ([compact_dfa]) and opcode counting ([encode_dfa]).

    Machine integers are written as [Z]; where the source relies on a width
    (the 16-bit [Index]) the wrap-around is written out. *)

From Stdlib Require Import ZArith List String Ascii Bool Lia FunctionalExtensionality.
From Equations Require Import Equations.
Import ListNotations.

Local Open Scope Z_scope.
Local Open Scope bool_scope.

(** ** Basic types *)

(** [Char] is [unsigned int], [Location] is [size_t], [Index] is a 16-bit
    unsigned integer (it is printed with [%hu] throughout the source). *)
Definition Char := Z.
Definition Location := Z.
Definition Index := Z.

(** The code of a character literal, as [static_cast<unsigned char>]. *)
Definition ch (a : ascii) : Char := Z.of_N (N_of_ascii a).

(** Modelled from the spec: the constant [IMAX] of pattern.h (not part of the
    sources at hand), the largest value of the Index range. *)
Definition IMAX : Z := 65535.

(** Truncation of a value stored into an [Index] variable. *)
Definition to_Index (k : Z) : Index := k mod (IMAX + 1).

(** ** Errors and options *)

Inductive Code := REGEX_SYNTAX | REGEX_RANGE | REGEX_LIST | CODE_OVERFLOW.

Definition Code_eqb (a b : Code) : bool :=
  match a, b with
  | REGEX_SYNTAX, REGEX_SYNTAX | REGEX_RANGE, REGEX_RANGE
  | REGEX_LIST, REGEX_LIST | CODE_OVERFLOW, CODE_OVERFLOW => true
  | _, _ => false
  end.

(** [Pattern::Error]: the error code, the message and the location in the
    regex (the pattern pointer is the pattern the computation runs on). *)
Record Error := mkError {
  err_code : Code;
  err_message : string;
  err_loc : Location
}.

(** [Pattern::Option], the fields of [opt_]. *)
Module Opt.
Record Option := mk {
  b : bool;          (* disable escapes in bracket lists *)
  e : Char;          (* escape character, 0 for none *)
  f : list string;   (* output files *)
  i : bool;          (* case insensitive *)
  l : bool;          (* lex mode: [/] lookahead *)
  m : bool;          (* multi-line *)
  n : string;        (* table name *)
  q : bool;          (* quotations *)
  r : bool;          (* raise errors *)
  s : bool;          (* dotall *)
  w : bool;          (* write errors to stderr *)
  x : bool           (* free-spacing *)
}.

Definition set_i (o : Option) (v : bool) : Option :=
  mk (b o) (e o) (f o) v (l o) (m o) (n o) (q o) (r o) (s o) (w o) (x o).
Definition set_l (o : Option) (v : bool) : Option :=
  mk (b o) (e o) (f o) (i o) v (m o) (n o) (q o) (r o) (s o) (w o) (x o).
Definition set_m (o : Option) (v : bool) : Option :=
  mk (b o) (e o) (f o) (i o) (l o) v (n o) (q o) (r o) (s o) (w o) (x o).
Definition set_q (o : Option) (v : bool) : Option :=
  mk (b o) (e o) (f o) (i o) (l o) (m o) (n o) v (r o) (s o) (w o) (x o).
Definition set_s (o : Option) (v : bool) : Option :=
  mk (b o) (e o) (f o) (i o) (l o) (m o) (n o) (q o) (r o) v (w o) (x o).
Definition set_x (o : Option) (v : bool) : Option :=
  mk (b o) (e o) (f o) (i o) (l o) (m o) (n o) (q o) (r o) (s o) (w o) v.

(** The settings of [init_options] before the option string is read. *)
Definition default : Option :=
  mk false 92 [] false false false EmptyString false false false false false.
End Opt.

(** ** Character classification ([<cctype>], "C" locale) *)

Definition in_range (lo hi c : Char) : bool := (lo <=? c) && (c <=? hi).

Definition isspace (c : Char) : bool := in_range 9 13 c || (c =? 32).
Definition isdigit (c : Char) : bool := in_range 48 57 c.
Definition isupper (c : Char) : bool := in_range 65 90 c.
Definition islower (c : Char) : bool := in_range 97 122 c.
Definition isalpha (c : Char) : bool := isupper c || islower c.
Definition isalnum (c : Char) : bool := isalpha c || isdigit c.
Definition isxdigit (c : Char) : bool :=
  isdigit c || in_range 65 70 c || in_range 97 102 c.
Definition toupper (c : Char) : Char := if islower c then c - 32 else c.
Definition tolower (c : Char) : Char := if isupper c then c + 32 else c.

(** [strchr(set, c) != NULL] for a character [c] other than the terminator. *)
Fixpoint strchr (set : string) (c : Char) : bool :=
  match set with
  | EmptyString => false
  | String a rest => (ch a =? c) || strchr rest c
  end.

(** ** Positions

    Modelled from the spec: [struct Position] of pattern.h (not part of the
    sources at hand).  A position carries the location of an atom (the rule
    number, for an accepting position), the iteration index, the flags
    [accept], [anchor], [greedy], [ticked] and the lazy tag.  The total order
    compares the lazy tag first, then [accept], [anchor], [greedy], [ticked],
    the iteration index and the location: [trim_lazy] walks a position set from
    its end and expects the lazy positions there. *)
Module Position.

Record t := mk {
  loc : Location;
  iter : Index;
  accept : bool;
  anchor : bool;
  lazy : Location;
  greedy : bool;
  ticked : bool
}.

(** [Position(k)]: the plain position of location (or rule number) [k]. *)
Definition of_loc (k : Z) : t := mk k 0 false false 0 false false.

(** [accepts()]: the rule number shares the field of the location. *)
Definition accepts (p : t) : Index := loc p.

(** [p.iter(i)]: the copy of [p] that many iterations further. *)
Definition add_iter (p : t) (i : Index) : t :=
  mk (loc p) (to_Index (iter p + i)) (accept p) (anchor p) (lazy p) (greedy p) (ticked p).
Definition set_ticked (p : t) (v : bool) : t :=
  mk (loc p) (iter p) (accept p) (anchor p) (lazy p) (greedy p) v.
Definition set_greedy (p : t) (v : bool) : t :=
  mk (loc p) (iter p) (accept p) (anchor p) (lazy p) v (ticked p).
Definition set_anchor (p : t) (v : bool) : t :=
  mk (loc p) (iter p) (accept p) v (lazy p) (greedy p) (ticked p).
Definition set_accept (p : t) (v : bool) : t :=
  mk (loc p) (iter p) v (anchor p) (lazy p) (greedy p) (ticked p).
Definition set_lazy (p : t) (k : Location) : t :=
  mk (loc p) (iter p) (accept p) (anchor p) k (greedy p) (ticked p).

(** [pos()]: location and iteration index only. *)
Definition pos (p : t) : t := mk (loc p) (iter p) false false 0 false false.

(** The fields in the order of comparison, flags as 0 and 1. *)
Definition b2z (v : bool) : Z := if v then 1 else 0.

Definition key (p : t) : list Z :=
  [lazy p; b2z (accept p); b2z (anchor p); b2z (greedy p); b2z (ticked p);
   iter p; loc p].

Fixpoint lex (a b : list Z) : comparison :=
  match a, b with
  | x :: a', y :: b' =>
      match Z.compare x y with
      | Eq => lex a' b'
      | c => c
      end
  | [], [] => Eq
  | [], _ :: _ => Lt
  | _ :: _, [] => Gt
  end.

Definition compare (p q : t) : comparison := lex (key p) (key q).

Definition eqb (p q : t) : bool :=
  match compare p q with Eq => true | _ => false end.

(** [p >= q] *)
Definition geb (p q : t) : bool :=
  match compare p q with Lt => false | _ => true end.

End Position.

(** ** Position sets ([std::set<Position>]): strictly increasing lists *)

Definition Positions := list Position.t.

Fixpoint insert (p : Position.t) (s : Positions) : Positions :=
  match s with
  | [] => [p]
  | q :: rest =>
      match Position.compare p q with
      | Lt => p :: s
      | Eq => s
      | Gt => q :: insert p rest
      end
  end.

(** [set_insert(s1, s2)]: [s1.insert(s2.begin(), s2.end())] *)
Definition set_insert (s1 s2 : Positions) : Positions :=
  fold_left (fun acc p => insert p acc) s2 s1.

Definition empty (s : Positions) : bool :=
  match s with [] => true | _ => false end.

Fixpoint mem (p : Position.t) (s : Positions) : bool :=
  match s with
  | [] => false
  | q :: rest => Position.eqb p q || mem p rest
  end.

(** ** The follow map ([std::map<Position,Positions>]): increasing keys *)

Definition Follow := list (Position.t * Positions).

Fixpoint follow_find (k : Position.t) (fp : Follow) : option Positions :=
  match fp with
  | [] => None
  | (k', s) :: rest =>
      match Position.compare k k' with
      | Eq => Some s
      | Lt => None
      | Gt => follow_find k rest
      end
  end.

(** [followpos[k]] read as a value: the empty set when there is no entry. *)
Definition follow_at (k : Position.t) (fp : Follow) : Positions :=
  match follow_find k fp with Some s => s | None => [] end.

(** [followpos[k]] used as a reference and updated by [g]; the entry is
    created when it is missing. *)
Fixpoint follow_update (k : Position.t) (g : Positions -> Positions) (fp : Follow)
    : Follow :=
  match fp with
  | [] => [(k, g [])]
  | (k', s) :: rest =>
      match Position.compare k k' with
      | Eq => (k', g s) :: rest
      | Lt => (k, g []) :: fp
      | Gt => (k', s) :: follow_update k g rest
      end
  end.

(** ** Ranges ([ORanges<T>])

    Modelled from the spec: the class template [ORanges] of ranges.h (not part
    of the sources at hand), a sorted set of disjoint ranges.  As the source
    reads it back ([j->second - 1], "open ended [lo,hi)"), a stored pair is
    half-open while [insert] and [find] take inclusive bounds; an inserted range
    is merged with the ranges it overlaps or touches. *)
Definition Ranges := list (Z * Z).

Fixpoint ranges_add (lo hi1 : Z) (r : Ranges) : Ranges :=
  match r with
  | [] => [(lo, hi1)]
  | (a, b) :: rest =>
      if b <? lo then (a, b) :: ranges_add lo hi1 rest
      else if hi1 <? a then (lo, hi1) :: r
      else ranges_add (Z.min lo a) (Z.max hi1 b) rest
  end.

(** [insert(lo, hi)] and [insert(v)] *)
Definition ranges_insert (lo hi : Z) (r : Ranges) : Ranges := ranges_add lo (hi + 1) r.
Definition ranges_insert1 (v : Z) (r : Ranges) : Ranges := ranges_insert v v r.

(** [find(lo, hi)]: the index of the first stored range that meets [lo..hi],
    [None] for [end()].  The index is what [std::distance(begin(), j)] gives. *)
Fixpoint ranges_find_from (idx : Z) (lo hi : Z) (r : Ranges) : option Z :=
  match r with
  | [] => None
  | (a, b) :: rest =>
      if (lo <? b) && (a <=? hi) then Some idx
      else ranges_find_from (idx + 1) lo hi rest
  end.
Definition ranges_find (lo hi : Z) (r : Ranges) : option Z := ranges_find_from 0 lo hi r.
Definition ranges_find1 (v : Z) (r : Ranges) : option Z := ranges_find v v r.

Definition found (o : option Z) : bool :=
  match o with Some _ => true | None => false end.

(** ** Maps from a key to ranges ([std::map<int,Ranges>]) *)

Definition Map := list (Z * Ranges).

Fixpoint map_find (k : Z) (mp : Map) : option Ranges :=
  match mp with
  | [] => None
  | (k', r) :: rest =>
      if k =? k' then Some r
      else if k <? k' then None
      else map_find k rest
  end.

Definition map_at (k : Z) (mp : Map) : Ranges :=
  match map_find k mp with Some r => r | None => [] end.

(** [mp[k]] used as a reference and updated by [g]. *)
Fixpoint map_update (k : Z) (g : Ranges -> Ranges) (mp : Map) : Map :=
  match mp with
  | [] => [(k, g [])]
  | (k', r) :: rest =>
      if k =? k' then (k', g r) :: rest
      else if k <? k' then (k, g []) :: mp
      else (k', r) :: map_update k g rest
  end.

(** Modelled from the spec: [is_modified] of pattern.h, whether location [loc]
    lies in a recorded scope of modifier [mode]. *)
Definition is_modified (mode : Char) (modifiers : Map) (loc : Location) : bool :=
  match map_find mode modifiers with
  | Some r => found (ranges_find1 loc r)
  | None => false
  end.

(** ** The state of a compilation and its monad

    [opt_] is the pattern's option record ([parse4] changes it), [followpos]
    and [modifiers] are the tables the parser fills, [lookahead] is the range
    set of the rule being parsed, and [shown] is what [Error::display] has
    written to the error stream, latest first. *)
Record PState := mkPState {
  opt_ : Opt.Option;
  followpos : Follow;
  modifiers : Map;
  lookahead : Ranges;
  shown : list Error
}.

Definition with_opt (st : PState) (o : Opt.Option) : PState :=
  mkPState o (followpos st) (modifiers st) (lookahead st) (shown st).
Definition with_followpos (st : PState) (fp : Follow) : PState :=
  mkPState (opt_ st) fp (modifiers st) (lookahead st) (shown st).
Definition with_modifiers (st : PState) (mp : Map) : PState :=
  mkPState (opt_ st) (followpos st) mp (lookahead st) (shown st).
Definition with_lookahead (st : PState) (r : Ranges) : PState :=
  mkPState (opt_ st) (followpos st) (modifiers st) r (shown st).
Definition with_shown (st : PState) (es : list Error) : PState :=
  mkPState (opt_ st) (followpos st) (modifiers st) (lookahead st) es.

(** A call returns, or leaves by [throw e]; either way the state it reached is
    kept.  The third outcome belongs to the embedding only: loops and the
    parser's recursion are driven by a step budget, and [OutOfFuel] says the
    budget was too small. *)
Inductive Outcome (A : Type) :=
| Return (a : A) (st : PState)
| Thrown (e : Error) (st : PState)
| OutOfFuel.
Arguments Return {A} a st.
Arguments Thrown {A} e st.
Arguments OutOfFuel {A}.

Definition M (A : Type) := PState -> Outcome A.

Definition ret {A} (a : A) : M A := fun st => Return a st.

Definition bind {A B} (c : M A) (k : A -> M B) : M B :=
  fun st =>
    match c st with
    | Return a st' => k a st'
    | Thrown e st' => Thrown e st'
    | OutOfFuel => OutOfFuel
    end.

Notation "x <- c ;; k" := (bind c (fun x => k))
  (at level 61, c at next level, right associativity).
Notation "' pat <- c ;; k" := (bind c (fun x => match x with pat => k end))
  (at level 61, pat pattern, c at next level, right associativity).
Notation "c ;;; k" := (bind c (fun _ => k))
  (at level 61, right associativity).

Definition get_opt : M Opt.Option := fun st => Return (opt_ st) st.
Definition get_lookahead : M Ranges := fun st => Return (lookahead st) st.
Definition get_followpos : M Follow := fun st => Return (followpos st) st.
Definition modify (g : PState -> PState) : M unit := fun st => Return tt (g st).
Definition out_of_fuel {A} : M A := fun _ => OutOfFuel.

(** ** [Pattern::error] *)
Definition error (code : Code) (message : string) (loc : Location) : M unit :=
  fun st =>
    let e := mkError code message loc in
    let st' := if Opt.w (opt_ st) then with_shown st (e :: shown st) else st in
    if Opt.r (opt_ st) || Code_eqb code CODE_OVERFLOW
    then Thrown e st'
    else Return tt st'.

Definition throws {A} (o : Outcome A) : Prop := exists e st, o = Thrown e st.

(** ** [Pattern::operator[]] *)

(** [std::vector::at]: [None] stands for [std::out_of_range]. *)
Definition vector_at (v : list Location) (k : Z) : option Location :=
  if k <? 0 then None else nth_error v (Z.to_nat k).

(** [std::string::substr(pos, len)]: throws when [pos] is past the end, and
    stops at the end of the string. *)
Definition substr (str : string) (pos len : Z) : option string :=
  if Z.of_nat (String.length str) <? pos then None
  else Some (substring (Z.to_nat pos) (Z.to_nat len) str).

(** Subtraction of two [size_t] values (64 bits): it wraps around when the
    second is the larger. *)
Definition size_t_sub (a b : Z) : Z := if b <=? a then a - b else a - b + 2 ^ 64.

(** Modelled from the spec: [size()] of pattern.h, the number of top-level
    alternatives, one recorded end point each. *)
Definition size (end_ : list Location) : Z := Z.of_nat (List.length end_).

(** [operator[](choice)]; [None] stands for an exception of the library. *)
Definition subpattern (rex_ : string) (end_ : list Location) (choice : Index)
    : option string :=
  if choice =? 0 then Some rex_
  else if (1 <=? choice) && (choice <=? size end_) then
    match vector_at end_ (choice - 1) with
    | None => None
    | Some loc =>
        let prev :=
          if 2 <=? choice
          then option_map (fun e => e + 1) (vector_at end_ (choice - 2))
          else Some 0 in
        match prev with
        | None => None
        | Some prev => substr rex_ prev (size_t_sub loc prev)
        end
    end
  else Some EmptyString.

(** ** The parser *)

(** The by-reference arguments of [parse1] .. [parse4] that belong to one
    sub-expression: the cursor and the position functions computed for it. *)
Record Frame := mkFrame {
  loc : Location;
  firstpos : Positions;
  lastpos : Positions;
  nullable : bool;
  lazypos : Positions;
  iter : Index
}.

Definition with_loc (fr : Frame) (k : Location) : Frame :=
  mkFrame k (firstpos fr) (lastpos fr) (nullable fr) (lazypos fr) (iter fr).
Definition with_firstpos (fr : Frame) (s : Positions) : Frame :=
  mkFrame (loc fr) s (lastpos fr) (nullable fr) (lazypos fr) (iter fr).
Definition with_lastpos (fr : Frame) (s : Positions) : Frame :=
  mkFrame (loc fr) (firstpos fr) s (nullable fr) (lazypos fr) (iter fr).
Definition with_nullable (fr : Frame) (v : bool) : Frame :=
  mkFrame (loc fr) (firstpos fr) (lastpos fr) v (lazypos fr) (iter fr).
Definition with_lazypos (fr : Frame) (s : Positions) : Frame :=
  mkFrame (loc fr) (firstpos fr) (lastpos fr) (nullable fr) s (iter fr).
Definition with_iter (fr : Frame) (k : Index) : Frame :=
  mkFrame (loc fr) (firstpos fr) (lastpos fr) (nullable fr) (lazypos fr) k.

Definition Parser := bool -> Frame -> M Frame.

Definition eqc (c : Char) (a : ascii) : bool := c =? ch a.
Arguments eqc c a%_char.

(** [followpos[k].insert(p)] and [set_insert(followpos[k], s)] *)
Definition follow_insert (k p : Position.t) : Follow -> Follow :=
  follow_update k (insert p).
Definition follow_set_insert (k : Position.t) (s : Positions) : Follow -> Follow :=
  follow_update k (fun t => set_insert t s).
Definition modify_followpos (g : Follow -> Follow) : M unit :=
  modify (fun st => with_followpos st (g (followpos st))).

(** [for p in pos: set_insert(followpos[p->pos()], s)] *)
Definition follow_all (pos s : Positions) (fp : Follow) : Follow :=
  fold_left (fun fp p => follow_set_insert (Position.pos p) s fp) pos fp.

(** [lazy(lazypos, pos, pos1)] *)
Definition lazy3 (lazypos pos pos1 : Positions) : Positions :=
  fold_left
    (fun pos1 p =>
       fold_left
         (fun pos1 q => insert (Position.set_lazy p (Position.loc q)) pos1)
         lazypos pos1)
    pos pos1.

(** [lazy(lazypos, pos)] *)
Definition lazy2 (lazypos pos : Positions) : Positions :=
  if negb (empty lazypos) then lazy3 lazypos pos [] else pos.

(** [greedy(pos)] *)
Definition greedy (pos : Positions) : Positions :=
  fold_left
    (fun pos1 p => insert (Position.set_greedy (Position.set_lazy p 0) true) pos1)
    pos [].

(** The integers [lo, lo+1, ..] below [hi], for the counting [for] loops. *)
Definition upto (lo hi : Z) : list Z :=
  map (fun k => lo + Z.of_nat k) (seq 0 (Z.to_nat (hi - lo))).

Section Parser.

(** The regex being compiled ([rex_]). *)
Variable rex_ : string.

(** The indeterminate values of the locals [nullable], [iter], [nullable1] and
    [iter1], which [parse], [parse1] and [parse2] declare without an
    initialiser; the argument is the location at which the call started. *)
Variable indeterminate : Location -> bool * Index.

(** Modelled from the spec: the cursor functions [at], [escape_at],
    [escapes_at] and [find_at] of pattern.h. [at] gives 0 past the end. *)
Definition at_ (k : Location) : Char :=
  if k <? 0 then 0
  else match String.get (Z.to_nat k) rex_ with Some a => ch a | None => 0 end.

Definition escape_at (o : Opt.Option) (k : Location) : Char :=
  if negb (Opt.e o =? 0) && (at_ k =? Opt.e o) then at_ (k + 1) else 0.

Definition escapes_at (o : Opt.Option) (k : Location) (escapes : string) : Char :=
  let c := escape_at o k in
  if negb (c =? 0) && strchr escapes c then c else 0.

Fixpoint find_char (c : Char) (str : string) (idx from : Z) : option Z :=
  match str with
  | EmptyString => None
  | String a rest =>
      if (from <=? idx) && (ch a =? c) then Some idx
      else find_char c rest (idx + 1) from
  end.

Definition find_at (k : Location) (a : ascii) : option Location :=
  find_char (ch a) rex_ 0 k.

(** [while (!stop(loc)) ++loc;] *)
Fixpoint scan (n : nat) (stop : Location -> bool) (k : Location) : M Location :=
  match n with
  | O => out_of_fuel
  | S n' => if stop k then ret k else scan n' stop (k + 1)
  end.

(** [for (i = 0; i < count && p(at(loc)); ++i) ++loc;] *)
Fixpoint skip_upto (count : nat) (p : Char -> bool) (k : Location) : Location :=
  match count with
  | O => k
  | S count' => if p (at_ k) then skip_upto count' p (k + 1) else k
  end.

(** *** [parse_esc] *)

(** The forms [\p{..}], [\u{..}] and [\x{..}]; [k] is at the letter. *)
Definition parse_esc_braces (n : nat) (p : Char -> bool) (message : string)
    (k : Location) : M Location :=
  k <- scan n (fun j => negb (p (at_ j))) (k + 2) ;;
  if eqc (at_ k) "}" then ret (k + 1)
  else error REGEX_SYNTAX message k ;;; ret k.

Definition parse_esc (n : nat) (k : Location) : M Location :=
  o <- get_opt ;;
  let c0 := at_ k in
  let k := k + 1 in
  let c := at_ k in
  if (c0 =? Opt.e o) && negb (Opt.e o =? 0) && negb (c =? 0) then
    if eqc c "0" then ret (skip_upto 3 isdigit (k + 1))
    else if eqc c "p" && eqc (at_ (k + 1)) "{" then
      parse_esc_braces n isalnum "malformed \p{}" k
    else if eqc c "u" && eqc (at_ (k + 1)) "{" then
      parse_esc_braces n isxdigit "malformed \u{}" k
    else if eqc c "x" && eqc (at_ (k + 1)) "{" then
      parse_esc_braces n isxdigit "malformed \x{}" k
    else if eqc c "x" then ret (skip_upto 2 isxdigit (k + 1))
    else
      let k := if eqc c "c" then k + 1 else k in
      if negb (at_ k =? 0) then ret (k + 1)
      else error REGEX_SYNTAX "malformed \c" k ;;; ret k
  else ret k.

(** *** [parse3]: an atom and its quantifier *)

(** The branch for [*], [+] and [?]; [c] is the quantifier at [loc]. *)
Definition quantifier (c : Char) (fr : Frame) : M Frame :=
  let fr := if eqc c "*" || eqc c "?" then with_nullable fr true else fr in
  let fr := with_loc fr (loc fr + 1) in
  let fr :=
    if eqc (at_ (loc fr)) "?" then
      let fr := with_lazypos fr (insert (Position.of_loc (loc fr)) (lazypos fr)) in
      let fr :=
        if nullable fr
        then with_firstpos fr (lazy2 (lazypos fr) (firstpos fr))
        else fr in
      with_loc fr (loc fr + 1)
    else with_firstpos fr (greedy (firstpos fr)) in
  if eqc c "+" && negb (nullable fr) && negb (empty (lazypos fr)) then
    let firstpos1 := lazy3 (lazypos fr) (firstpos fr) [] in
    modify_followpos (follow_all (lastpos fr) firstpos1) ;;;
    ret (with_firstpos fr (set_insert (firstpos fr) firstpos1))
  else if eqc c "*" || eqc c "+" then
    modify_followpos (follow_all (lastpos fr) (firstpos fr)) ;;;
    ret fr
  else ret fr.

(** [for (i = 0; i < count && isdigit(c = at(++loc)); ++i) k = 10 * k + (c - '0');]
    where [wrap] is the truncation to the type of [k]. *)
Fixpoint digits (count : nat) (wrap : Z -> Z) (k : Z) (j : Location) : Z * Location :=
  match count with
  | O => (k, j)
  | S count' =>
      let j := j + 1 in
      let c := at_ j in
      if isdigit c then digits count' wrap (wrap (10 * k + (c - ch "0"))) j
      else (k, j)
  end.

(** The virtual replication of a sub-regex by [{n,m}] on the follow map. *)
Definition replicate_follow (b_pos : Position.t) (it m : Index) (fp : Follow) : Follow :=
  let followpos1 : Follow :=
    fold_left
      (fun fp1 entry =>
         if Position.geb (fst entry) b_pos then
           fold_left
             (fun fp1 i =>
                fold_left
                  (fun fp1 p =>
                     follow_insert (Position.add_iter (fst entry) (to_Index (it * i)))
                                   (Position.add_iter p (to_Index (it * i))) fp1)
                  (snd entry) fp1)
             (upto 1 m) fp1
         else fp1)
      fp [] in
  fold_left (fun fp entry => follow_set_insert (fst entry) (snd entry) fp) followpos1 fp.

(** [for k in lastpos: for j in pfirstpos:
      followpos[k->pos().iter(a)].insert(j->iter(b))] *)
Definition link (lastpos pfirstpos : Positions) (a b : Index) (fp : Follow) : Follow :=
  fold_left
    (fun fp k =>
       fold_left
         (fun fp j =>
            follow_insert (Position.add_iter (Position.pos k) a) (Position.add_iter j b) fp)
         pfirstpos fp)
    lastpos fp.

(** The branch for [{n,m}]; [loc] is at the opening brace. *)
Definition repeat_range (b_pos : Position.t) (fr : Frame) : M Frame :=
  let '(k, j) := digits 7 (fun z => z) 0 (loc fr) in
  (if IMAX <? k then error REGEX_RANGE "{min,max} range overflow" j else ret tt) ;;;
  let n := to_Index k in
  let '(m, unlimited, j) :=
    if eqc (at_ j) "," then
      if isdigit (at_ (j + 1)) then
        let '(m, j) := digits 7 to_Index 0 j in (m, false, j)
      else (n, true, j + 1)
    else (n, false, j) in
  let fr := with_loc fr j in
  if eqc (at_ j) "}" then
    let nullable1 := nullable fr in
    let fr := if n =? 0 then with_nullable fr true else fr in
    (if m <? n then error REGEX_RANGE "min > max in range {min,max}" j else ret tt) ;;;
    let fr := with_loc fr (j + 1) in
    let fr :=
      if eqc (at_ (loc fr)) "?" then
        let fr := with_lazypos fr (insert (Position.of_loc (loc fr)) (lazypos fr)) in
        let fr :=
          if nullable fr
          then with_firstpos fr (lazy2 (lazypos fr) (firstpos fr))
          else fr in
        with_loc fr (loc fr + 1)
      else if (n <? m) && empty (lazypos fr)
      then with_firstpos fr (greedy (firstpos fr))
      else fr in
    let pfirstpos :=
      if negb (nullable fr) && negb (empty (lazypos fr))
      then lazy3 (lazypos fr) (firstpos fr) []
      else firstpos fr in
    if nullable fr && unlimited then
      modify_followpos (follow_all (lastpos fr) pfirstpos) ;;;
      ret fr
    else if 0 <? m then
      (if IMAX <=? iter fr * m
       then error REGEX_RANGE "{min,max} range overflow" (loc fr) else ret tt) ;;;
      let it := iter fr in
      modify_followpos (replicate_follow b_pos it m) ;;;
      modify_followpos
        (fun fp =>
           fold_left
             (fun fp i => link (lastpos fr) pfirstpos (to_Index (it * i)) (to_Index (it * i + it)) fp)
             (upto 0 (m - 1)) fp) ;;;
      (if unlimited
       then modify_followpos
              (link (lastpos fr) pfirstpos (to_Index (it * m - it)) (to_Index (it * m - it)))
       else ret tt) ;;;
      let fr :=
        if nullable1 then
          with_firstpos fr
            (fold_left
               (fun fs i =>
                  fold_left (fun fs k => insert (Position.add_iter k (to_Index (it * i))) fs)
                            pfirstpos fs)
               (upto 1 m) (firstpos fr))
        else fr in
      let lastpos1 :=
        fold_left
          (fun ls i =>
             fold_left (fun ls k => insert (Position.add_iter k (to_Index (it * i))) ls)
                       (lastpos fr) ls)
          (upto (if nullable fr then 0 else to_Index (n - 1)) m) [] in
      ret (with_iter (with_lastpos fr lastpos1) (to_Index (it * m)))
    else
      ret (with_lazypos (with_lastpos (with_firstpos fr []) []) [])
  else
    error REGEX_SYNTAX "malformed range {min,max}" (loc fr) ;;; ret fr.

Definition parse3 (n : nat) (parse4 : Parser) : Parser :=
  fun begin fr =>
    let b_pos := Position.of_loc (loc fr) in
    fr <- parse4 begin fr ;;
    o <- get_opt ;;
    k <- (if Opt.x o then scan n (fun j => negb (isspace (at_ j))) (loc fr)
          else ret (loc fr)) ;;
    let fr := with_loc fr k in
    let c := at_ k in
    if eqc c "*" || eqc c "+" || eqc c "?" then quantifier c fr
    else if eqc c "{" then repeat_range b_pos fr
    else if eqc c "}" then
      error REGEX_SYNTAX "missing {" (loc fr) ;;; ret (with_loc fr (loc fr + 1))
    else ret fr.

(** *** [parse2]: concatenation *)

(** The leading loop of [parse2], which collects the anchors that open a
    concatenation; it gives back [begin], [a_pos] and the cursor. *)
Fixpoint anchors (n : nat) (a_pos : Positions) (k : Location)
    : M (bool * Positions * Location) :=
  match n with
  | O => out_of_fuel
  | S n' =>
      o <- get_opt ;;
      k <- (if Opt.x o then scan n (fun j => negb (isspace (at_ j))) k else ret k) ;;
      if eqc (at_ k) "^" then
        anchors n' (insert (Position.of_loc k) a_pos) (k + 1)
      else if negb (escapes_at o k "ABb<>" =? 0) then
        anchors n' (insert (Position.of_loc k) a_pos) (k + 2)
      else
        ret (negb (negb (escapes_at o k "ij" =? 0)), a_pos, k)
  end.

(** The [while] loop of [parse2]: [fr] is the concatenation so far, [fr1]
    holds the locals [firstpos1], [lastpos1], [nullable1], [lazypos1] and
    [iter1], and the cursor is that of [fr]. *)
Fixpoint parse2_loop (n : nat) (parse3 : Parser) (fr fr1 : Frame)
    (l_pos : option Position.t) : M (Frame * option Position.t) :=
  match n with
  | O => out_of_fuel
  | S n' =>
      let c := at_ (loc fr) in
      if negb (c =? 0) && negb (eqc c "|") && negb (eqc c ")") then
        o <- get_opt ;;
        let '(l_pos, k) :=
          match l_pos with
          | None =>
              if eqc c "/" && Opt.l o
                 && (negb (Opt.x o) || negb (eqc (at_ (loc fr + 1)) "*"))
              then (Some (Position.of_loc (loc fr)), loc fr + 1)
              else (l_pos, loc fr)
          | Some _ => (l_pos, loc fr)
          end in
        fr1 <- parse3 false (with_loc fr1 k) ;;
        let fr1 :=
          match l_pos with
          | Some lp => if eqc c "/" then with_firstpos fr1 (insert lp (firstpos fr1)) else fr1
          | None => fr1
          end in
        let fr1 :=
          if negb (empty (lazypos fr)) then
            let firstpos2 := lazy3 (lazypos fr) (firstpos fr1) [] in
            with_firstpos fr1 (set_insert (firstpos fr1) firstpos2)
          else fr1 in
        let fr :=
          if nullable fr
          then with_firstpos fr (set_insert (firstpos fr) (firstpos fr1))
          else fr in
        modify_followpos (follow_all (lastpos fr) (firstpos fr1)) ;;;
        let '(fr, fr1) :=
          if nullable fr1
          then (with_lastpos fr (set_insert (lastpos fr) (lastpos fr1)), fr1)
          else (with_nullable (with_lastpos fr (lastpos fr1)) false,
                with_lastpos fr1 (lastpos fr)) in
        let fr := with_lazypos fr (set_insert (lazypos fr) (lazypos fr1)) in
        let fr := if iter fr <? iter fr1 then with_iter fr (iter fr1) else fr in
        parse2_loop n' parse3 (with_loc fr (loc fr1)) fr1 l_pos
      else ret (fr, l_pos)
  end.

(** The body of [for p in a_pos] at the end of [parse2]. *)
Definition splice_anchor (o : Opt.Option) (la : Ranges) (p : Position.t)
    (acc : Frame * Follow) : Frame * Follow :=
  let '(fr, fp) := acc in
  let fp :=
    fold_left
      (fun fp k =>
         if (eqc (at_ (Position.loc k)) ")"
             || (Opt.l o && eqc (at_ (Position.loc k)) "/"))
            && found (ranges_find1 (Position.loc k) la)
         then follow_insert (Position.pos p) k fp
         else fp)
      (lastpos fr) fp in
  let fp :=
    fold_left
      (fun fp k =>
         follow_insert (Position.pos k)
           (Position.set_anchor p
              (negb (nullable fr)
               || negb (Position.eqb (Position.pos k) (Position.pos p))))
           fp)
      (lastpos fr) fp in
  let fr := with_lastpos fr (insert p []) in
  let fr :=
    if nullable fr
    then with_nullable (with_firstpos fr (insert p (firstpos fr))) false
    else fr in
  (fr, fp).

Definition parse2 (n : nat) (parse3 : Parser) : Parser :=
  fun begin fr =>
    '(begin, a_pos, k) <-
      (if begin then anchors n [] (loc fr) else ret (begin, [], loc fr)) ;;
    fr <- parse3 begin (with_loc fr k) ;;
    let '(nullable1, iter1) := indeterminate k in
    '(fr, l_pos) <- parse2_loop n parse3 fr (mkFrame (loc fr) [] [] nullable1 [] iter1) None ;;
    o <- get_opt ;;
    la <- get_lookahead ;;
    fp <- get_followpos ;;
    let '(fr, fp) := fold_left (fun acc p => splice_anchor o la p acc) a_pos (fr, fp) in
    modify_followpos (fun _ => fp) ;;;
    match l_pos with
    | Some l_pos =>
        let t := Position.set_ticked l_pos true in
        modify_followpos
          (fun fp => fold_left (fun fp p => follow_insert (Position.pos p) t fp) (lastpos fr) fp) ;;;
        modify (fun st =>
                  with_lookahead st
                    (ranges_insert (Position.loc l_pos) (Position.loc l_pos) (lookahead st))) ;;;
        ret (with_lastpos fr (insert t (lastpos fr)))
    | None => ret fr
    end.

(** *** [parse1]: alternation *)

Fixpoint parse1_loop (n : nat) (parse2 : Parser) (begin : bool) (fr fr1 : Frame)
    : M Frame :=
  match n with
  | O => out_of_fuel
  | S n' =>
      if eqc (at_ (loc fr)) "|" then
        fr1 <- parse2 begin (with_loc fr1 (loc fr + 1)) ;;
        let fr := with_firstpos fr (set_insert (firstpos fr) (firstpos fr1)) in
        let fr := with_lastpos fr (set_insert (lastpos fr) (lastpos fr1)) in
        let fr := with_lazypos fr (set_insert (lazypos fr) (lazypos fr1)) in
        let fr := if nullable fr1 then with_nullable fr true else fr in
        let fr := if iter fr <? iter fr1 then with_iter fr (iter fr1) else fr in
        parse1_loop n' parse2 begin (with_loc fr (loc fr1)) fr1
      else ret fr
  end.

Definition parse1 (n : nat) (parse2 : Parser) : Parser :=
  fun begin fr =>
    let '(nullable1, iter1) := indeterminate (loc fr) in
    fr <- parse2 begin fr ;;
    parse1_loop n parse2 begin fr (mkFrame (loc fr) [] [] nullable1 [] iter1).

(** *** [parse4]: atoms and groups *)

(** The double quote and the backslash. *)
Definition dquote : Char := 34.
Definition backslash : Char := 92.

(** [(?# ...)]: the cursor is at [#]; gives back the last character read. *)
Definition parse4_comment (n : nat) (fr : Frame) : M (Char * Frame) :=
  k <- scan n (fun j => (at_ j =? 0) || eqc (at_ j) ")") (loc fr + 1) ;;
  let c := at_ k in
  ret (c, with_loc fr (if eqc c ")" then k + 1 else k)).

(** [(?^ ...)]: the cursor is at [^]. *)
Definition parse4_negative (parse1 : Parser) (begin : bool) (fr : Frame) : M Frame :=
  fr <- parse1 begin (with_loc fr (loc fr + 1)) ;;
  modify_followpos
    (fun fp =>
       fold_left
         (fun fp p =>
            follow_insert (Position.pos p) (Position.set_accept (Position.of_loc 0) true) fp)
         (lastpos fr) fp) ;;;
  ret fr.

(** [(?= ...)]: the cursor is at [=]. *)
Definition parse4_lookahead (parse1 : Parser) (begin : bool) (fr : Frame) : M Frame :=
  let l_pos := Position.of_loc (loc fr - 2) in
  fr <- parse1 begin (with_loc fr (loc fr + 1)) ;;
  let fr := with_firstpos fr (insert l_pos (firstpos fr)) in
  let fr := if nullable fr then with_lastpos fr (insert l_pos (lastpos fr)) else fr in
  la <- get_lookahead ;;
  (if negb (found (ranges_find (Position.loc l_pos) (loc fr) la))
   then modify (fun st =>
                  with_lookahead st
                    (ranges_insert (Position.loc l_pos) (loc fr) (lookahead st)))
   else ret tt) ;;;
  let t := Position.set_ticked (Position.of_loc (loc fr)) true in
  modify_followpos
    (fun fp => fold_left (fun fp p => follow_insert (Position.pos p) t fp) (lastpos fr) fp) ;;;
  let fr := with_lastpos fr (insert t (lastpos fr)) in
  ret (if nullable fr
       then with_lastpos (with_firstpos fr (insert t (firstpos fr))) (insert l_pos (lastpos fr))
       else fr).

(** The first [do] loop of a modifier group: it reads the flag list. *)
Fixpoint modifier_flags (n : nat) (c : Char) (k : Location) : M (Char * Location) :=
  match n with
  | O => out_of_fuel
  | S n' =>
      (if eqc c "i" then modify (fun st => with_opt st (Opt.set_i (opt_ st) true))
       else if eqc c "l" then modify (fun st => with_opt st (Opt.set_l (opt_ st) true))
       else if eqc c "m" then modify (fun st => with_opt st (Opt.set_m (opt_ st) true))
       else if eqc c "q" then modify (fun st => with_opt st (Opt.set_q (opt_ st) true))
       else if eqc c "s" then modify (fun st => with_opt st (Opt.set_s (opt_ st) true))
       else if eqc c "x" then modify (fun st => with_opt st (Opt.set_x (opt_ st) true))
       else error REGEX_SYNTAX "unrecognized modifier" k) ;;;
      let k := k + 1 in
      let c := at_ k in
      if negb (c =? 0) && negb (eqc c ":") && negb (eqc c ")")
      then modifier_flags n' c k
      else ret (c, k)
  end.

(** The second [do] loop: it records the scope of each flag from [m_loc]. *)
Fixpoint modifier_scopes (n : nat) (m_loc k : Location) : M Char :=
  match n with
  | O => out_of_fuel
  | S n' =>
      let c := at_ m_loc in
      let m_loc := m_loc + 1 in
      (if negb (c =? 0) && negb (eqc c "q") && negb (eqc c "x")
          && negb (eqc c ":") && negb (eqc c ")")
       then modify (fun st =>
                      with_modifiers st
                        (map_update c (ranges_insert m_loc k) (modifiers st)))
       else ret tt) ;;;
      if negb (c =? 0) && negb (eqc c ":") && negb (eqc c ")")
      then modifier_scopes n' m_loc k
      else ret c
  end.

(** [(?imqsx...:...)] and [(?imqsx...)]: the cursor is at the first flag [c]. *)
Definition parse4_modifiers (n : nat) (parse1 parse2 : Parser) (begin : bool)
    (c : Char) (fr : Frame) : M (Char * Frame) :=
  let m_loc := loc fr in
  o <- get_opt ;;
  let opt_i := Opt.i o in
  let opt_q := Opt.q o in
  let opt_m := Opt.m o in
  let opt_s := Opt.s o in
  let opt_x := Opt.x o in
  '(c, k) <- modifier_flags n c (loc fr) ;;
  let k := if negb (c =? 0) then k + 1 else k in
  let fr := with_loc fr k in
  if (m_loc =? 2) && eqc c ")" then
    fr <- parse2 begin fr ;;
    ret (c, fr)
  else
    fr <- parse1 begin fr ;;
    c <- modifier_scopes n m_loc (loc fr) ;;
    modify (fun st =>
              with_opt st
                (Opt.set_x (Opt.set_s (Opt.set_m (Opt.set_q (Opt.set_i (opt_ st)
                   opt_i) opt_q) opt_m) opt_s) opt_x)) ;;;
    ret (c, fr).

(** The loop over the items of a bracket list. *)
Fixpoint list_items (n : nat) (c : Char) (k : Location) : M (Char * Location) :=
  match n with
  | O => out_of_fuel
  | S n' =>
      if negb (c =? 0) then
        let k :=
          if eqc c "[" && eqc (at_ (k + 1)) ":" then
            match find_at (k + 2) ":" with
            | Some c_loc => if eqc (at_ (c_loc + 1)) "]" then c_loc + 1 else k
            | None => k
            end
          else k in
        let k := k + 1 in
        let c := at_ k in
        if eqc c "]" then ret (c, k + 1) else list_items n' c k
      else ret (c, k)
  end.

(** A bracket list: the cursor is at the opening bracket. *)
Definition parse4_list (n : nat) (fr : Frame) : M Frame :=
  let p := Position.of_loc (loc fr) in
  let fr := with_nullable (with_lastpos (with_firstpos fr (insert p (firstpos fr)))
                             (insert p (lastpos fr))) false in
  let k := loc fr + 1 in
  let c := at_ k in
  let '(c, k) := if eqc c "^" then (at_ (k + 1), k + 1) else (c, k) in
  '(c, k) <- list_items n c k ;;
  (if c =? 0 then error REGEX_SYNTAX "missing ]" k else ret tt) ;;;
  ret (with_loc fr k).

(** Whether the quotation goes on at character [c] of location [k]. *)
Definition in_quote (o : Opt.Option) (quoted : bool) (c : Char) (k : Location) : bool :=
  negb (c =? 0)
  && (negb quoted || negb (c =? dquote))
  && (quoted || negb (c =? Opt.e o) || negb (eqc (at_ (k + 1)) "E")).

(** The [do] loop over the characters of a quotation. *)
Fixpoint quote_chars (n : nat) (o : Opt.Option) (quoted : bool) (c : Char)
    (k : Location) (p : option Position.t) : M (Char * Location * Position.t) :=
  match n with
  | O => out_of_fuel
  | S n' =>
      let k := if (c =? backslash) && (at_ (k + 1) =? dquote) && quoted then k + 1 else k in
      (match p with
       | Some p => modify_followpos (follow_insert p (Position.of_loc k))
       | None => ret tt
       end) ;;;
      let p := Position.of_loc k in
      let k := k + 1 in
      let c := at_ k in
      if in_quote o quoted c k then quote_chars n' o quoted c k (Some p)
      else ret (c, k, p)
  end.

(** A quotation ["..."] or [\Q...\E]: the cursor is at its first character. *)
Definition parse4_quote (n : nat) (o : Opt.Option) (c : Char) (fr : Frame) : M Frame :=
  let quoted := c =? dquote in
  let k := if negb quoted then loc fr + 1 else loc fr in
  let q_loc := k in
  let k := k + 1 in
  let c := at_ k in
  '(c, k, fr) <-
    (if in_quote o quoted c k then
       let fr := with_firstpos fr (insert (Position.of_loc k) (firstpos fr)) in
       '(c, k, p) <- quote_chars n o quoted c k None ;;
       ret (c, k, with_nullable (with_lastpos fr (insert p (lastpos fr))) false)
     else ret (c, k, fr)) ;;
  modify (fun st =>
            with_modifiers st (map_update (ch "q") (ranges_insert q_loc k) (modifiers st))) ;;;
  if negb (c =? 0) then
    let k := if negb quoted then k + 1 else k in
    ret (with_loc fr (if negb (at_ k =? 0) then k + 1 else k))
  else
    error REGEX_SYNTAX
      (if quoted then String.append "missing " (String (ascii_of_nat 34) EmptyString)
       else "missing \E") k ;;;
    ret (with_loc fr k).

(** [parse4], given the parsers it calls for the inside of a group. *)
Definition parse4_body (n : nat) (parse1 parse2 : Parser) : Parser :=
  fun begin fr =>
    let fr := mkFrame (loc fr) [] [] true [] 1 in
    let c := at_ (loc fr) in
    o <- get_opt ;;
    if eqc c "(" then
      let fr := with_loc fr (loc fr + 1) in
      '(c, fr) <-
        (if eqc (at_ (loc fr)) "?" then
           let fr := with_loc fr (loc fr + 1) in
           let c := at_ (loc fr) in
           if eqc c "#" then parse4_comment n fr
           else if eqc c "^" then
             fr <- parse4_negative parse1 begin fr ;; ret (c, fr)
           else if eqc c "=" then
             fr <- parse4_lookahead parse1 begin fr ;; ret (c, fr)
           else if eqc c ":" then
             fr <- parse1 begin (with_loc fr (loc fr + 1)) ;; ret (c, fr)
           else parse4_modifiers n parse1 parse2 begin c fr
         else
           fr <- parse1 begin fr ;; ret (c, fr)) ;;
      if negb (eqc c ")") then
        if eqc (at_ (loc fr)) ")" then ret (with_loc fr (loc fr + 1))
        else error REGEX_SYNTAX "missing )" (loc fr) ;;; ret fr
      else ret fr
    else if eqc c "[" then parse4_list n fr
    else if ((c =? dquote) && Opt.q o) || eqc (escape_at o (loc fr)) "Q" then
      parse4_quote n o c fr
    else if eqc c "#" && Opt.x o then
      k <- scan n (fun j => (at_ j =? 0) || (at_ j =? 10)) (loc fr + 1) ;;
      ret (with_loc fr (if at_ k =? 10 then k + 1 else k))
    else if eqc c "/" && Opt.l o && Opt.x o && eqc (at_ (loc fr + 1)) "*" then
      k <- scan n (fun j => (at_ j =? 0)
                            || (eqc (at_ j) "*" && eqc (at_ (j + 1)) "/")) (loc fr + 2) ;;
      if negb (at_ k =? 0) then ret (with_loc fr (k + 2))
      else error REGEX_SYNTAX "missing */" k ;;; ret (with_loc fr k)
    else if isspace c && Opt.x o then ret (with_loc fr (loc fr + 1))
    else if negb (c =? 0) && negb (eqc c "|") && negb (eqc c ")")
            && negb (eqc c "?") && negb (eqc c "*") && negb (eqc c "+") then
      (if begin && (eqc c "$" || negb (escapes_at o (loc fr) "AZBb<>ij" =? 0))
       then error REGEX_SYNTAX "empty pattern" (loc fr + 1) else ret tt) ;;;
      let p := Position.of_loc (loc fr) in
      let fr := with_nullable (with_lastpos (with_firstpos fr (insert p (firstpos fr)))
                                 (insert p (lastpos fr))) false in
      k <- parse_esc n (loc fr) ;;
      ret (with_loc fr k)
    else if negb begin || negb (c =? 0) then
      error REGEX_SYNTAX "empty pattern" (loc fr) ;;; ret fr
    else ret fr.

(** The mutual recursion of [parse1] .. [parse4], tied on the step budget. *)
Fixpoint parse4 (n : nat) : Parser :=
  match n with
  | O => fun _ _ => out_of_fuel
  | S n' =>
      let p3 := parse3 n' (parse4 n') in
      let p2 := parse2 n' p3 in
      let p1 := parse1 n' p2 in
      parse4_body n' p1 p2
  end.

Definition parse3_ (n : nat) : Parser := parse3 n (parse4 n).
Definition parse2_ (n : nat) : Parser := parse2 n (parse3_ n).
Definition parse1_ (n : nat) : Parser := parse1 n (parse2_ n).

(** *** [parse]: the rules of the pattern *)

(** What [parse] hands over besides the state: the start positions, the rule
    end points [end_] and the lookahead ranges of every rule. *)
Record Parsed := mkParsed {
  startpos : Positions;
  end_ : list Location;
  lookaheads : Map
}.

(** [Position(choice).accept(true)], lazy for each lazy position if any. *)
Definition accepting (choice : Index) (lazypos : Positions) : Positions :=
  let a := Position.set_accept (Position.of_loc choice) true in
  if empty lazypos then [a]
  else map (fun p => Position.set_lazy a (Position.loc p)) lazypos.

(** The [do] loop of [parse]; [fr] carries [loc], [firstpos], [lastpos],
    [nullable] and [iter] from one rule to the next. *)
Fixpoint parse_rules (n : nat) (choice : Index) (fr : Frame) (acc : Parsed) : M Parsed :=
  match n with
  | O => out_of_fuel
  | S n' =>
      modify (fun st => with_lookahead st (map_at choice (lookaheads acc))) ;;;
      fr <- parse2_ n true (with_lazypos fr []) ;;
      la <- get_lookahead ;;
      let sp := set_insert (startpos acc) (firstpos fr) in
      let sp :=
        if nullable fr
        then fold_left (fun sp a => insert a sp) (accepting choice (lazypos fr)) sp
        else sp in
      modify_followpos
        (fun fp =>
           fold_left
             (fun fp p =>
                fold_left (fun fp a => follow_insert (Position.pos p) a fp)
                          (accepting choice (lazypos fr)) fp)
             (lastpos fr) fp) ;;;
      let acc :=
        mkParsed sp (end_ acc ++ [loc fr])
                 (map_update choice (fun _ => la) (lookaheads acc)) in
      if eqc (at_ (loc fr)) "|"
      then parse_rules n' (to_Index (choice + 1)) (with_loc fr (loc fr + 1)) acc
      else ret acc
  end.

Definition parse (n : nat) : M Parsed :=
  let '(nullable0, iter0) := indeterminate 0 in
  parse_rules n 1 (mkFrame 0 [] [] nullable0 [] iter0) (mkParsed [] [] []).

End Parser.

(** The state in which [init] starts the parser, and a run of the parser on a
    regex with the given options. *)
Definition initial (o : Opt.Option) : PState := mkPState o [] [] [] [].

Definition run_parse (rex_ : string) (o : Opt.Option) (n : nat) : Outcome Parsed :=
  parse rex_ (fun _ => (false, 0)) n (initial o).

(** ** Character sets

    [Chars] is [ORanges<Char>] (the build without [BITS]): bytes and meta
    characters as ranges. *)
Definition Chars := Ranges.

(** Modelled from the spec: [META_MIN] and [is_meta] of pattern.h; the meta
    characters lie above the bytes, and [meta_label] names those from
    [META_MIN + 1] on. *)
Definition META_MIN : Char := 256.
Definition is_meta (c : Char) : bool := META_MIN <? c.

(** [Pattern::flip] *)
Definition flip (chars : Chars) : Chars :=
  let '(flipped, c) :=
    fold_left
      (fun (acc : Chars * Char) (i : Z * Z) =>
         let '(flipped, c) := acc in
         ((if c <? fst i then ranges_insert c (fst i - 1) flipped else flipped), snd i))
      chars ([], 0) in
  if c <=? 255 then ranges_insert c 255 flipped else flipped.

(** Membership of a character in a set of ranges. *)
Definition contains (chars : Chars) (c : Char) : bool := found (ranges_find1 c chars).

(** ** DFA states

    The states of a DFA are kept in the order of the [next] links; a state
    pointer is the position of the state in that order, [None] for [NULL].
    [left] and [right] are the links of the search tree over the states.
    [edges] is [std::map<Char,std::pair<Char,State*>>]: increasing keys [lo],
    each with its [hi] and target. *)
Definition Edge := (Char * (Char * option nat))%type.
Definition Edges := list Edge.

Record State := mkState {
  positions : Positions;
  left : option nat;
  right : option nat;
  edges : Edges;
  index : Index;
  accept : Index;
  heads : list Z;
  tails : list Z;
  redo : bool
}.

(** [State(pos)] *)
Definition new_State (pos : Positions) : State :=
  mkState pos None None [] 0 0 [] [] false.

Definition with_left (s : State) (t : option nat) : State :=
  mkState (positions s) t (right s) (edges s) (index s) (accept s) (heads s) (tails s) (redo s).
Definition with_right (s : State) (t : option nat) : State :=
  mkState (positions s) (left s) t (edges s) (index s) (accept s) (heads s) (tails s) (redo s).
Definition with_edges (s : State) (e : Edges) : State :=
  mkState (positions s) (left s) (right s) e (index s) (accept s) (heads s) (tails s) (redo s).
Definition with_index (s : State) (k : Index) : State :=
  mkState (positions s) (left s) (right s) (edges s) k (accept s) (heads s) (tails s) (redo s).
Definition with_accept (s : State) (k : Index) : State :=
  mkState (positions s) (left s) (right s) (edges s) (index s) k (heads s) (tails s) (redo s).
Definition with_redo (s : State) (v : bool) : State :=
  mkState (positions s) (left s) (right s) (edges s) (index s) (accept s) (heads s) (tails s) v.
Definition with_heads (s : State) (h : list Z) : State :=
  mkState (positions s) (left s) (right s) (edges s) (index s) (accept s) h (tails s) (redo s).
Definition with_tails (s : State) (t : list Z) : State :=
  mkState (positions s) (left s) (right s) (edges s) (index s) (accept s) (heads s) t (redo s).

Definition target_eqb (a b : option nat) : bool :=
  match a, b with
  | Some x, Some y => Nat.eqb x y
  | None, None => true
  | _, _ => false
  end.

(** [edges[lo] = v] *)
Fixpoint edges_set (lo : Char) (v : Char * option nat) (e : Edges) : Edges :=
  match e with
  | [] => [(lo, v)]
  | (lo', v') :: rest =>
      if lo =? lo' then (lo', v) :: rest
      else if lo <? lo' then (lo, v) :: e
      else (lo', v') :: edges_set lo v rest
  end.

(** ** [compact_dfa] *)

(** The inner [while] of [compact_dfa] for the edge [i]: [hi] is the local of
    that name, [t] the target of [i], [ihi] the current [i->second.first] and
    [rest] the edges from [j] on.  It gives the final [i->second.first] and
    what is left of the edges after [i]. *)
Fixpoint merge_run (hi : Char) (t : option nat) (ihi : Char) (rest : Edges)
    : Char * Edges :=
  match rest with
  | [] => (ihi, [])
  | (lo2, (hi2, t2)) :: rest' =>
      if lo2 <=? hi + 1 then
        if target_eqb t2 t then merge_run hi2 t hi2 rest'
        else
          let '(h, r) := merge_run hi2 t ihi rest' in
          (h, (lo2, (hi2, t2)) :: r)
      else (ihi, rest)
  end.

(** The [for] loop over the edges of one state. *)
Equations? compact_edges (e : Edges) : Edges by wf (List.length e) lt :=
compact_edges [] := [];
compact_edges ((lo, (hi, t)) :: rest) :=
  if 255 <=? hi then (lo, (hi, t)) :: rest
  else (lo, (fst (merge_run hi t hi rest), t))
         :: compact_edges (snd (merge_run hi t hi rest)).
Proof.
  assert (H : forall r h i, (List.length (snd (merge_run h t i r)) <= List.length r)%nat).
  { induction r as [|[lo2 [hi2 t2]] r IH]; intros h i; simpl; [lia|].
    destruct (lo2 <=? h + 1); [|simpl; lia].
    destruct (target_eqb t2 t).
    - specialize (IH hi2 hi2). lia.
    - specialize (IH hi2 i). destruct (merge_run hi2 t i r). simpl in *. lia. }
  specialize (H rest hi hi). simpl. lia.
Qed.

Definition compact_dfa (dfa : list State) : list State :=
  map (fun s => with_edges s (compact_edges (edges s))) dfa.

(** ** [encode_dfa] *)

(** The loop over the edges in the first pass: the local [hi] and [nop_]. *)
Definition count_edges (e : Edges) (nop_ : Index) : Char * Index :=
  fold_left
    (fun (acc : Char * Index) (i : Edge) =>
       let '(hi, nop_) := acc in
       let hi := if fst i =? hi then fst (snd i) + 1 else hi in
       let nop_ := to_Index (nop_ + 1) in
       let nop_ :=
         if is_meta (fst i) then to_Index (nop_ + (fst (snd i) - fst i)) else nop_ in
       (hi, nop_))
    e (0, nop_).

(** The first pass on one state; the dead-state edge is added when needed. *)
Definition count_state (s : State) (nop_ : Index) : M (State * Index) :=
  let s := with_index s nop_ in
  let '(hi, nop_) := count_edges (edges s) nop_ in
  let '(s, nop_) :=
    if hi <=? 255
    then (with_edges s (edges_set hi (255, None) (edges s)), to_Index (nop_ + 1))
    else (s, nop_) in
  let nop_ :=
    to_Index
      (nop_ + to_Index (Z.of_nat (List.length (heads s)) + Z.of_nat (List.length (tails s))
                        + (if (0 <? accept s) || redo s then 1 else 0))) in
  (if nop_ <? index s then error CODE_OVERFLOW "out of code memory" 0 else ret tt) ;;;
  ret (s, nop_).

Fixpoint count_states (dfa : list State) (nop_ : Index) : M (list State * Index) :=
  match dfa with
  | [] => ret ([], nop_)
  | s :: rest =>
      '(s, nop_) <- count_state s nop_ ;;
      '(rest, nop_) <- count_states rest nop_ ;;
      ret (s :: rest, nop_)
  end.

(** Modelled from the spec: the opcode words built by [opcode_take],
    [opcode_redo], [opcode_tail], [opcode_head] and [opcode_goto] of pattern.h,
    kept as their tagged forms. *)
Inductive Opcode :=
| REDO
| TAKE (rule : Index)
| TAIL (idx : Index)
| HEAD (idx : Index)
| GOTO (lo hi : Char) (target : Index).

(** The opcodes of one edge; a meta edge gives one opcode per meta character. *)
Definition encode_edge (dfa : list State) (i : Edge) : list Opcode :=
  let lo := fst i in
  let hi := fst (snd i) in
  let target_index :=
    match snd (snd i) with
    | Some t => match nth_error dfa t with Some s => index s | None => IMAX end
    | None => IMAX
    end in
  if negb (is_meta lo) then [GOTO lo hi target_index]
  else map (fun c => GOTO c c target_index) (lo :: upto (lo + 1) (hi + 1)).

(** The second pass on one state. *)
Definition encode_state (dfa : list State) (s : State) : list Opcode :=
  (if redo s then [REDO] else if 0 <? accept s then [TAKE (accept s)] else [])
  ++ map (fun i => TAIL (to_Index i)) (tails s)
  ++ map (fun i => HEAD (to_Index i)) (heads s)
  ++ flat_map (encode_edge dfa) (rev (edges s)).

(** [encode_dfa]: the states with their indices and dead-state edges, [nop_]
    and the opcode table. *)
Definition encode_dfa (dfa : list State) : M (list State * Index * list Opcode) :=
  '(dfa, nop_) <- count_states dfa 0 ;;
  ret (dfa, nop_, flat_map (encode_state dfa) dfa).

(** ** The algebra of character sets

    Modelled from the spec: the set operations of [ORanges] (ranges.h): union
    [|=], difference [-=], intersection [&], [intersects] and [any]. *)
Definition chars_union (a b : Chars) : Chars :=
  fold_left (fun acc (i : Z * Z) => ranges_add (fst i) (snd i) acc) b a.

Fixpoint ranges_remove (lo hi1 : Z) (r : Ranges) : Ranges :=
  match r with
  | [] => []
  | (a, b) :: rest =>
      (if a <? Z.min b lo then [(a, Z.min b lo)] else [])
      ++ (if Z.max a hi1 <? b then [(Z.max a hi1, b)] else [])
      ++ ranges_remove lo hi1 rest
  end.

Definition chars_minus (a b : Chars) : Chars :=
  fold_left (fun acc (i : Z * Z) => ranges_remove (fst i) (snd i) acc) b a.

Definition chars_inter (a b : Chars) : Chars := chars_minus a (chars_minus a b).

Definition any (a : Chars) : bool := match a with [] => false | _ => true end.

Definition intersects (a b : Chars) : bool := any (chars_inter a b).

Fixpoint chars_eqb (a b : Chars) : bool :=
  match a, b with
  | [], [] => true
  | (x, y) :: a', (x', y') :: b' => (x =? x') && (y =? y') && chars_eqb a' b'
  | _, _ => false
  end.

(** Equality and inclusion of position sets, and the order of [std::set]
    ([operator<] is the lexicographic comparison of the elements). *)
Fixpoint positions_compare (a b : Positions) : comparison :=
  match a, b with
  | [], [] => Eq
  | [], _ :: _ => Lt
  | _ :: _, [] => Gt
  | p :: a', q :: b' =>
      match Position.compare p q with
      | Eq => positions_compare a' b'
      | c => c
      end
  end.

Definition positions_eqb (a b : Positions) : bool :=
  match positions_compare a b with Eq => true | _ => false end.

Definition is_subset (a b : Positions) : bool := forallb (fun p => mem p b) a.

(** [std::set<Location>::insert] *)
Fixpoint zset_insert (v : Z) (s : list Z) : list Z :=
  match s with
  | [] => [v]
  | w :: rest =>
      if v <? w then v :: s
      else if v =? w then s
      else w :: zset_insert v rest
  end.

(** ** [Pattern::posix] *)
Definition posix (index : Z) (chars : Chars) : Chars :=
  let ins lo hi (c : Chars) := ranges_insert lo hi c in
  if index =? 0 then ins 0 127 chars
  else if index =? 1 then ins 133 133 (ins 32 32 (ins 9 13 chars))
  else if index =? 2 then ins 97 102 (ins 65 70 (ins 48 57 chars))
  else if index =? 3 then ins 127 127 (ins 0 31 chars)
  else if index =? 4 then ins 32 126 chars
  else if index =? 5 then ins 97 122 (ins 65 90 (ins 48 57 chars))
  else if index =? 6 then ins 97 122 (ins 65 90 chars)
  else if index =? 7 then ins 32 32 (ins 9 9 chars)
  else if index =? 8 then ins 48 57 chars
  else if index =? 9 then ins 33 126 chars
  else if index =? 10 then ins 97 122 chars
  else if index =? 11 then ins 123 126 (ins 91 96 (ins 58 64 (ins 33 47 chars)))
  else if index =? 12 then ins 65 90 chars
  else if index =? 13 then ins 95 95 (ins 97 122 (ins 65 90 (ins 48 57 chars)))
  else chars.

Definition posix_class : list string :=
  ["ASCII"; "Space"; "Xdigit"; "Cntrl"; "Print"; "Alnum"; "Alpha"; "Blank";
   "Digit"; "Graph"; "Lower"; "Punct"; "Upper"; "Word"]%string.

(** Modelled from the spec: the meta characters of pattern.h, in the order of
    the table [meta_label]. *)
Definition META_NWB : Char := META_MIN + 1.
Definition META_NWE : Char := META_MIN + 2.
Definition META_BWB : Char := META_MIN + 3.
Definition META_EWB : Char := META_MIN + 4.
Definition META_BWE : Char := META_MIN + 5.
Definition META_EWE : Char := META_MIN + 6.
Definition META_BOL : Char := META_MIN + 7.
Definition META_EOL : Char := META_MIN + 8.
Definition META_BOB : Char := META_MIN + 9.
Definition META_EOB : Char := META_MIN + 10.
Definition META_IND : Char := META_MIN + 11.
Definition META_DED : Char := META_MIN + 12.

(** The offset of [c] in [str] as [strchr] finds it (the terminator counts). *)
Fixpoint strchr_index (str : string) (c : Char) (idx : Z) : option Z :=
  match str with
  | EmptyString => if c =? 0 then Some idx else None
  | String a rest => if ch a =? c then Some idx else strchr_index rest c (idx + 1)
  end.

(** The tail of a string from an offset ([c_str() + k]). *)
Fixpoint string_from (k : nat) (str : string) : string :=
  match k, str with
  | O, _ => str
  | S k', String _ rest => string_from k' rest
  | S _, EmptyString => EmptyString
  end.

(** [pos.insert(x)] while the reverse iterator of [trim_lazy] stands on [p]:
    [before] holds the positions up to [p], [after] those behind it. *)
Definition insert_around (x p : Position.t) (before after : Positions)
    : Positions * Positions :=
  match Position.compare x p with
  | Gt => (before, insert x after)
  | _ => (insert x before, after)
  end.

(** [while (p != pos.rend() && p->lazy() == l) pos.erase(--p.base());] on the
    reversed list of the positions up to [p]. *)
Fixpoint erase_lazy (l : Location) (rev_before : Positions) : Positions :=
  match rev_before with
  | [] => []
  | p :: rest => if Position.lazy p =? l then erase_lazy l rest else rev_before
  end.

(** [Pattern::trim_lazy]: [rev_before] is the set up to the reverse iterator,
    largest first, and [after] what the iterator has passed. *)
Fixpoint trim_lazy_loop (n : nat) (rev_before after : Positions) : option Positions :=
  match n with
  | O => None
  | S n' =>
      match rev_before with
      | [] => Some after
      | p :: rest =>
          if negb (Position.lazy p =? 0) then
            let l := Position.lazy p in
            if Position.accept p || Position.anchor p then
              let '(before, after) :=
                insert_around (Position.set_lazy p 0) p (rev rev_before) after in
              let rev_before := List.tl (rev before) in
              trim_lazy_loop n' (erase_lazy l rev_before) after
            else if negb (Position.greedy p) then Some (rev rev_before ++ after)
            else
              let '(before, after) :=
                insert_around (Position.set_lazy p 0) p (rev rev_before) after in
              trim_lazy_loop n' (List.tl (rev before)) (p :: after)
          else Some (rev rev_before ++ after)
      end
  end.

Definition trim_lazy (pos : Positions) : M Positions :=
  fun st =>
    match trim_lazy_loop (S (2 * List.length pos)) (rev pos) [] with
    | Some pos => Return pos st
    | None => OutOfFuel
    end.

(** ** The DFA builder *)

Definition Move := (Chars * Positions)%type.
Definition Moves := list Move.

Section Compiler.

Variable rex_ : string.

(** The library function [strtoul(str, NULL, base)]. *)
Variable strtoul : string -> Z -> Z.

(** Modelled from the spec: [eq_at] of pattern.h, whether the regex holds the
    string [str] at location [k]. *)
Definition eq_at (k : Location) (str : string) : bool :=
  (0 <=? k) && String.eqb (substring (Z.to_nat k) (String.length str) rex_) str.

(** The first class name that matches at [k], as the loops over
    [posix_class] find it; [skip] letters of each name are left out. *)
Fixpoint find_class (k : Location) (skip : nat) (names : list string) (idx : Z) : Z :=
  match names with
  | [] => idx
  | name :: rest =>
      if eq_at k (string_from skip name) then idx
      else find_class k skip rest (idx + 1)
  end.

(** *** [compile_esc] *)
Definition compile_esc (k : Location) (chars : Chars) : M (Char * Chars) :=
  let c := at_ rex_ k in
  let finish (c : Char) :=
    ret (c, if c <=? 255 then ranges_insert1 c chars else chars) in
  if eqc c "0" then
    finish (strtoul (substring (Z.to_nat (k + 1)) 3 rex_) 8 mod 2 ^ 32)
  else if (eqc c "x" || eqc c "u") && eqc (at_ rex_ (k + 1)) "{" then
    finish (strtoul (string_from 2 rex_) 16 mod 2 ^ 32)
  else if eqc c "x" && isxdigit (at_ rex_ (k + 1)) then
    finish (strtoul (substring (Z.to_nat (k + 1)) 2 rex_) 16 mod 2 ^ 32)
  else if eqc c "c" then finish (at_ rex_ (k + 1) mod 32)
  else if eqc c "e" then finish 27
  else if eqc c "_" then
    ret (c, ranges_insert1 c (posix 6 chars))
  else if eqc c "p" && eqc (at_ rex_ (k + 1)) "{" then
    let i := find_class (k + 2) 0 posix_class 0 in
    if i <? 14 then ret (META_EOL, posix i chars)
    else error REGEX_SYNTAX "unrecognized character class" k ;;; ret (META_EOL, chars)
  else
    match strchr_index "abtnvfr" c 0 with
    | Some s => finish (s + 7)
    | None =>
        match strchr_index "__sSxX________hHdD__lL__uUwW" c 0 with
        | Some s =>
            let chars := posix (s / 2) chars in
            ret (META_EOL, if s mod 2 =? 1 then flip chars else chars)
        | None => finish c
        end
    end.

(** *** [compile_list] *)

(** [for (Char a = lo; a <= c; ++a)] adding the other case of each letter. *)
Definition insert_other_case (lo c : Char) (chars : Chars) : Chars :=
  fold_left
    (fun chars a =>
       if isupper a then ranges_insert1 (tolower a) chars
       else if islower a then ranges_insert1 (toupper a) chars
       else chars)
    (upto lo (c + 1)) chars.

(** The loop over the items of a bracket list; [c] is [at(loc)]. *)
Fixpoint compile_list_items (n : nat) (modifiers : Map) (k : Location)
    (prev lo : Char) (chars : Chars) : M (Char * Chars) :=
  match n with
  | O => out_of_fuel
  | S n' =>
      let c := at_ rex_ k in
      if negb (c =? 0) && (negb (eqc c "]") || (prev =? META_BOL)) then
        if eqc c "-" && negb (is_meta prev) && is_meta lo then
          compile_list_items n' modifiers (k + 1) prev prev chars
        else
          o <- get_opt ;;
          '(c, k, chars) <-
            (match (if eqc c "[" && eqc (at_ rex_ (k + 1)) ":"
                    then find_at rex_ (k + 2) ":" else None) with
             | Some c_loc =>
                 if eqc (at_ rex_ (c_loc + 1)) "]" then
                   if c_loc =? k + 3 then
                     '(c, chars) <- compile_esc (k + 2) chars ;;
                     ret (c, c_loc + 1, chars)
                   else
                     let i := find_class (k + 3) 1 posix_class 0 in
                     chars <-
                       (if i <? 14 then ret (posix i chars)
                        else error REGEX_SYNTAX "unrecognized POSIX character class" k ;;;
                             ret chars) ;;
                     ret (META_EOL, c_loc + 1, chars)
                 else if (c =? Opt.e o) && negb (Opt.e o =? 0) && negb (Opt.b o) then
                   '(c, chars) <- compile_esc (k + 1) chars ;;
                   k <- parse_esc rex_ n k ;;
                   ret (c, k - 1, chars)
                 else ret (c, k, chars)
             | None =>
                 if (c =? Opt.e o) && negb (Opt.e o =? 0) && negb (Opt.b o) then
                   '(c, chars) <- compile_esc (k + 1) chars ;;
                   k <- parse_esc rex_ n k ;;
                   ret (c, k - 1, chars)
                 else ret (c, k, chars)
             end) ;;
          '(c, chars) <-
            (if negb (is_meta c) then
               if negb (is_meta lo) then
                 chars <-
                   (if lo <=? c then ret (ranges_insert lo c chars)
                    else error REGEX_LIST "inverted character range in list" k ;;;
                         ret chars) ;;
                 ret (META_EOL,
                      if Opt.i o || is_modified (ch "i") modifiers k
                      then insert_other_case lo c chars else chars)
               else if isalpha c && (Opt.i o || is_modified (ch "i") modifiers k) then
                 ret (c, ranges_insert1 (tolower c) (ranges_insert1 (toupper c) chars))
               else ret (c, ranges_insert1 c chars)
             else ret (c, chars)) ;;
          compile_list_items n' modifiers (k + 1) c META_EOL chars
      else ret (lo, chars)
  end.

Definition compile_list (n : nat) (k : Location) (chars : Chars) (modifiers : Map)
    : M Chars :=
  let complement := eqc (at_ rex_ k) "^" in
  let k := if complement then k + 1 else k in
  '(lo, chars) <- compile_list_items n modifiers k META_BOL META_EOL chars ;;
  let chars := if negb (is_meta lo) then ranges_insert1 (ch "-") chars else chars in
  ret (if complement then flip chars else chars).

(** *** [transition] *)

(** The [while] loop of [transition]: [seen] are the moves before the iterator
    and [todo] those from the iterator on; a move pushed to the back of the
    list joins [todo]. *)
Fixpoint transition_loop (n : nat) (chars : Chars) (follow : Positions)
    (rest : Chars) (seen todo : Moves) : option (Chars * Moves) :=
  match n with
  | O => None
  | S n' =>
      match todo with
      | [] => Some (rest, seen)
      | i :: todo' =>
          if positions_eqb (snd i) follow then
            transition_loop n' chars follow (chars_union rest (fst i)) seen todo'
          else if intersects chars (fst i) then
            let common := chars_inter chars (fst i) in
            if is_subset follow (snd i) then
              transition_loop n' chars follow (chars_minus rest common) (seen ++ [i]) todo'
            else if chars_eqb (fst i) common && is_subset (snd i) follow then
              transition_loop n' chars follow rest seen todo'
            else
              let rest := chars_minus rest common in
              let first := chars_minus (fst i) common in
              if any first then
                let back := (common, set_insert (snd i) follow) in
                transition_loop n' chars follow rest
                                (seen ++ [(first, snd i)]) (todo' ++ [back])
              else
                transition_loop n' chars follow rest
                                (seen ++ [(common, set_insert (snd i) follow)]) todo'
          else transition_loop n' chars follow rest (seen ++ [i]) todo'
      end
  end.

Definition transition (n : nat) (moves : Moves) (chars : Chars) (follow : Positions)
    : M Moves :=
  fun st =>
    match transition_loop n chars follow chars [] moves with
    | Some (rest, moves) =>
        Return (if any rest then moves ++ [(rest, follow)] else moves) st
    | None => OutOfFuel
    end.

(** *** [compile_transition] *)

(** The lookahead indices of location [k]: for each rule in turn, the index of
    the range that holds [k], counted over the ranges of all rules
    ([n + std::distance(i->second.begin(), j)]). *)
Definition lookahead_indices (lookahead : Map) (k : Location) : list Index :=
  snd (fold_left
         (fun (acc : Z * list Index) (i : Z * Ranges) =>
            let '(n, found) := acc in
            (n + Z.of_nat (List.length (snd i)),
             match ranges_find1 k (snd i) with
             | Some j => found ++ [to_Index (n + j)]
             | None => found
             end))
         lookahead (0, [])).

Definition add_heads (s : State) (idx : list Index) : State :=
  with_heads s (fold_left (fun h i => zset_insert i h) idx (heads s)).
Definition add_tails (s : State) (idx : list Index) : State :=
  with_tails s (fold_left (fun t i => zset_insert i t) idx (tails s)).

(** The accepting case: [k] is an accepting position. *)
Definition compile_accept (k : Position.t) (s : State) : State :=
  let accept_ := Position.accepts k in
  let s :=
    if (accept s =? 0) || (accept_ <? accept s) then with_accept s accept_ else s in
  if accept_ =? 0 then with_redo s true else s.

(** The follow set of a position that has an entry [i] in the follow map; for
    a lazy position the lazy copy of the entry is made once and kept.  [None]
    is the [continue] for a position both lazy and greedy. *)
Definition lazy_follow (k : Position.t) (i : Positions) : M (option Positions) :=
  if negb (Position.lazy k =? 0) then
    if Position.greedy k then ret None
    else
      fp <- get_followpos ;;
      match follow_find k fp with
      | Some j => ret (Some j)
      | None =>
          let j :=
            fold_left
              (fun j p =>
                 insert (if Position.ticked p then p
                         else Position.set_lazy p (Position.lazy k)) j)
              i [] in
          modify_followpos (follow_update k (fun _ => j)) ;;;
          ret (Some j)
      end
  else ret (Some i).

(** The character set matched at the location of position [k]. *)
Definition chars_at (n : nat) (modifiers : Map) (k : Position.t) (literal : bool)
    : M Chars :=
  let loc := Position.loc k in
  let c := at_ rex_ loc in
  o <- get_opt ;;
  let meta (v : Char) : M Chars := ret (ranges_insert1 v []) in
  if literal then ret (ranges_insert1 c [])
  else if eqc c "." then
    if Opt.s o || is_modified (ch "s") modifiers loc
    then ret (ranges_insert 0 255 [])
    else ret (ranges_insert 11 255 (ranges_insert 0 9 []))
  else if eqc c "^" then
    meta (if Opt.m o || is_modified (ch "m") modifiers loc then META_BOL else META_BOB)
  else if eqc c "$" then
    meta (if Opt.m o || is_modified (ch "m") modifiers loc then META_EOL else META_EOB)
  else if eqc c "[" && (escapes_at rex_ o loc "AZBb<>ij" =? 0) then
    compile_list n (loc + 1) [] modifiers
  else
    let esc := escape_at rex_ o loc in
    if eqc esc "i" then meta META_IND
    else if eqc esc "j" then meta META_DED
    else if eqc esc "A" then meta META_BOB
    else if eqc esc "Z" then meta META_EOB
    else if eqc esc "B" then meta (if Position.anchor k then META_NWB else META_NWE)
    else if eqc esc "b" then
      ret (if Position.anchor k then ranges_insert META_BWB META_EWB []
           else ranges_insert META_BWE META_EWE [])
    else if eqc esc "<" then meta (if Position.anchor k then META_BWB else META_BWE)
    else if eqc esc ">" then meta (if Position.anchor k then META_EWB else META_EWE)
    else if esc =? 0 then
      if isalpha c && (Opt.i o || is_modified (ch "i") modifiers loc)
      then ret (ranges_insert1 (tolower c) (ranges_insert1 (toupper c) []))
      else ret (ranges_insert1 c [])
    else
      '(_, chars) <- compile_esc (loc + 1) [] ;; ret chars.

(** The body of the loop of [compile_transition] for the position [k]. *)
Definition compile_position (n : nat) (modifiers lookahead : Map) (k : Position.t)
    (acc : State * Moves) : M (State * Moves) :=
  let '(s, moves) := acc in
  if Position.accept k then ret (compile_accept k s, moves)
  else
    let loc := Position.loc k in
    let c := at_ rex_ loc in
    let literal := is_modified (ch "q") modifiers loc in
    o <- get_opt ;;
    if eqc c "/" && Opt.l o && negb literal then
      ret (if negb (Position.ticked k)
           then add_heads s (lookahead_indices lookahead loc)
           else add_tails s (lookahead_indices lookahead loc), moves)
    else if eqc c "(" && negb literal then
      ret (add_heads s (lookahead_indices lookahead loc), moves)
    else if eqc c ")" && negb literal then
      ret (add_tails s (lookahead_indices lookahead loc), moves)
    else
      fp <- get_followpos ;;
      match follow_find (Position.pos k) fp with
      | None => ret (s, moves)
      | Some i =>
          follow <- lazy_follow k i ;;
          match follow with
          | None => ret (s, moves)
          | Some follow =>
              chars <- chars_at n modifiers k literal ;;
              moves <- transition n moves chars follow ;;
              ret (s, moves)
          end
      end.

Fixpoint compile_positions (n : nat) (modifiers lookahead : Map) (ks : Positions)
    (acc : State * Moves) : M (State * Moves) :=
  match ks with
  | [] => ret acc
  | k :: rest =>
      acc <- compile_position n modifiers lookahead k acc ;;
      compile_positions n modifiers lookahead rest acc
  end.

Definition compile_transition (n : nat) (s : State) (modifiers lookahead : Map)
    : M (State * Moves) :=
  compile_positions n modifiers lookahead (positions s) (s, []).

(** *** [compile] *)

(** [list[k] = v] *)
Fixpoint set_nth {A} (k : nat) (v : A) (l : list A) : list A :=
  match l, k with
  | [], _ => []
  | _ :: rest, O => v :: rest
  | a :: rest, S k' => a :: set_nth k' v rest
  end.

(** The binary search for the state of position set [pos], from state [t]:
    the state found, or the link ([left] when the flag is set) to hang a new
    state on. *)
Fixpoint search (n : nat) (dfa : list State) (pos : Positions) (t : nat)
    : option (nat + nat * bool) :=
  match n with
  | O => None
  | S n' =>
      match nth_error dfa t with
      | None => None
      | Some s =>
          match positions_compare pos (positions s) with
          | Lt => match left s with
                  | Some t' => search n' dfa pos t'
                  | None => Some (inr (t, true))
                  end
          | Gt => match right s with
                  | Some t' => search n' dfa pos t'
                  | None => Some (inr (t, false))
                  end
          | Eq => Some (inl t)
          end
      end
  end.

(** The target state of a move: the state found, or a new state at the back. *)
Definition target (dfa : list State) (pos : Positions) : M (list State * nat) :=
  fun st =>
    match search (S (List.length dfa)) dfa pos 0 with
    | Some (inl t) => Return (dfa, t) st
    | Some (inr (parent, on_left)) =>
        let t := List.length dfa in
        let dfa :=
          match nth_error dfa parent with
          | Some s =>
              set_nth parent (if on_left then with_left s (Some t)
                              else with_right s (Some t)) dfa
          | None => dfa
          end in
        Return (dfa ++ [new_State pos], t) st
    | None => OutOfFuel
    end.

(** The counters and the table [acc_] kept by [compile]. *)
Record Counts := mkCounts {
  vno_ : Z;
  eno_ : Z;
  acc_ : list bool
}.

(** The edges of state [cur] for one move. *)
Definition commit_move (cur : nat) (move : Move) (acc : list State * Z)
    : M (list State * Z) :=
  let '(dfa, eno) := acc in
  pos <- trim_lazy (snd move) ;;
  if negb (empty pos) then
    '(dfa, t) <- target dfa pos ;;
    match nth_error dfa cur with
    | Some s =>
        let e :=
          fold_left
            (fun e (j : Z * Z) => edges_set (fst j) (snd j - 1, Some t) e)
            (fst move) (edges s) in
        let eno := fold_left (fun eno (j : Z * Z) => eno + (snd j - fst j)) (fst move) eno in
        ret (set_nth cur (with_edges s e) dfa, eno)
    | None => ret (dfa, eno)
    end
  else ret (dfa, eno).

Fixpoint commit_moves (cur : nat) (moves : Moves) (acc : list State * Z)
    : M (list State * Z) :=
  match moves with
  | [] => ret acc
  | move :: rest => acc <- commit_move cur move acc ;; commit_moves cur rest acc
  end.

(** The loop of [compile] over the states, from state [cur] on. *)
Fixpoint compile_states (n : nat) (modifiers lookahead : Map) (size_ : Z)
    (cur : nat) (dfa : list State) (cnt : Counts) : M (list State * Counts) :=
  match n with
  | O => out_of_fuel
  | S n' =>
      match nth_error dfa cur with
      | None => ret (dfa, cnt)
      | Some s =>
          '(s, moves) <- compile_transition n s modifiers lookahead ;;
          '(dfa, eno) <- commit_moves cur moves (set_nth cur s dfa, eno_ cnt) ;;
          let acc :=
            if (0 <? accept s) && (accept s <=? size_)
            then set_nth (Z.to_nat (accept s - 1)) true (acc_ cnt)
            else acc_ cnt in
          compile_states n' modifiers lookahead size_ (S cur) dfa
                         (mkCounts (vno_ cnt + 1) eno acc)
      end
  end.

Definition compile (n : nat) (start : State) (modifiers lookahead : Map)
    (end_ : list Location) : M (list State * Counts) :=
  pos <- trim_lazy (positions start) ;;
  let start :=
    mkState pos (left start) (right start) (edges start) (index start) (accept start)
            (heads start) (tails start) (redo start) in
  compile_states n modifiers lookahead (size end_) 0 [start]
                 (mkCounts 0 0 (repeat false (List.length end_))).

End Compiler.

(** ** [init_options] *)

(** Whether a string holds the character [c] ([find] is not [npos]). *)
Fixpoint has_char (c : Char) (str : string) : bool :=
  match str with
  | EmptyString => false
  | String a rest => (ch a =? c) || has_char c rest
  end.

(** [strlen]: the number of characters before the first NUL. *)
Fixpoint strlen (str : string) : nat :=
  match str with
  | EmptyString => O
  | String a rest => if ch a =? 0 then O else S (strlen rest)
  end.

Section Options.

(** What a read past the terminating NUL of the option string gives.  The
    program does not determine it: it is whatever the memory behind the
    string holds.  The argument is the offset from the start of the string. *)
Variable beyond : Z -> Char.

(** [opt[k]]: a character of the string, its terminating NUL, or what lies
    beyond. *)
Definition opt_at (opt : string) (k : Z) : Char :=
  if k <=? Z.of_nat (strlen opt) then at_ opt k else beyond k.

(** The inner loop of the cases [f] and [n]: [s] and [t] are the offsets of
    the two pointers into the option string. *)
Fixpoint options_names (n : nat) (opt : string) (s t : Z) (o : Opt.Option)
    : option (Z * Opt.Option) :=
  match n with
  | O => None
  | S n' =>
      if negb (eqc (opt_at opt s) ";") && negb (opt_at opt s =? 0) then
        let c := opt_at opt t in
        if eqc c "," || isspace c || eqc c ";" || (c =? 0) then
          let o :=
            if s + 1 <? t then
              let name := substring (Z.to_nat (s + 1)) (Z.to_nat (t - s - 1)) opt in
              if negb (has_char (ch ".") name)
              then Opt.mk (Opt.b o) (Opt.e o) (Opt.f o) (Opt.i o) (Opt.l o) (Opt.m o)
                          name (Opt.q o) (Opt.r o) (Opt.s o) (Opt.w o) (Opt.x o)
              else Opt.mk (Opt.b o) (Opt.e o) (Opt.f o ++ [name]) (Opt.i o) (Opt.l o)
                          (Opt.m o) (Opt.n o) (Opt.q o) (Opt.r o) (Opt.s o) (Opt.w o)
                          (Opt.x o)
            else o in
          options_names n' opt t (t + 1) o
        else options_names n' opt s (t + 1) o
      else Some (s, o)
  end.

(** The loop over the characters of the option string.  After the case [e]
    the pointer stands on the character taken as the escape character, and
    the loop steps over it: when that character is the terminating NUL, the
    next read is past the end of the string. *)
Fixpoint options_loop (n : nat) (opt : string) (s : Z) (o : Opt.Option)
    : option Opt.Option :=
  match n with
  | O => None
  | S n' =>
      let c := opt_at opt s in
      if c =? 0 then Some o
      else if eqc c "b" then
        options_loop n' opt (s + 1)
          (Opt.mk true (Opt.e o) (Opt.f o) (Opt.i o) (Opt.l o) (Opt.m o) (Opt.n o)
                  (Opt.q o) (Opt.r o) (Opt.s o) (Opt.w o) (Opt.x o))
      else if eqc c "e" then
        let s := s + (if eqc (opt_at opt (s + 1)) "=" then 1 else 0) + 1 in
        options_loop n' opt (s + 1)
          (Opt.mk (Opt.b o) (if eqc (opt_at opt s) ";" then 0 else opt_at opt s) (Opt.f o)
                  (Opt.i o) (Opt.l o) (Opt.m o) (Opt.n o) (Opt.q o) (Opt.r o) (Opt.s o)
                  (Opt.w o) (Opt.x o))
      else if eqc c "i" then options_loop n' opt (s + 1) (Opt.set_i o true)
      else if eqc c "l" then options_loop n' opt (s + 1) (Opt.set_l o true)
      else if eqc c "m" then options_loop n' opt (s + 1) (Opt.set_m o true)
      else if eqc c "q" then options_loop n' opt (s + 1) (Opt.set_q o true)
      else if eqc c "r" then
        options_loop n' opt (s + 1)
          (Opt.mk (Opt.b o) (Opt.e o) (Opt.f o) (Opt.i o) (Opt.l o) (Opt.m o) (Opt.n o)
                  (Opt.q o) true (Opt.s o) (Opt.w o) (Opt.x o))
      else if eqc c "s" then options_loop n' opt (s + 1) (Opt.set_s o true)
      else if eqc c "w" then
        options_loop n' opt (s + 1)
          (Opt.mk (Opt.b o) (Opt.e o) (Opt.f o) (Opt.i o) (Opt.l o) (Opt.m o) (Opt.n o)
                  (Opt.q o) (Opt.r o) (Opt.s o) true (Opt.x o))
      else if eqc c "x" then options_loop n' opt (s + 1) (Opt.set_x o true)
      else if eqc c "f" || eqc c "n" then
        let s := s + (if eqc (opt_at opt (s + 1)) "=" then 1 else 0) in
        match options_names n opt s s o with
        | Some (s, o) => options_loop n' opt (s - 1 + 1) o
        | None => None
        end
      else options_loop n' opt (s + 1) o
  end.

(** [init_options(opt)]; the argument is [None] for a null pointer. *)
Definition init_options (n : nat) (opt : option string) : option Opt.Option :=
  match opt with
  | Some opt => options_loop n opt 0 Opt.default
  | None => Some Opt.default
  end.

End Options.

(** The option string ends in [e] or in [e=]: the strings on which
    [init_options] takes the terminating NUL as the escape character. *)
Definition ends_in_e (opt : string) : bool :=
  let len := Z.of_nat (strlen opt) in
  eqc (at_ opt (len - 1)) "e"
  || (eqc (at_ opt (len - 2)) "e" && eqc (at_ opt (len - 1)) "=").

(** ** [assemble] and [init] *)

(** What a compilation leaves in the pattern object. *)
Record Pattern := mkPattern {
  pat_opt : Opt.Option;
  pat_end : list Location;
  pat_acc : list bool;
  pat_vno : Z;
  pat_eno : Z;
  pat_nop : Index;
  pat_opc : list Opcode
}.

(** [assemble]: the edges are compacted and the DFA is encoded.  ([export_dfa]
    and [export_code] only write files, [delete_dfa] frees the states.) *)
Definition assemble (dfa : list State) : M (Index * list Opcode) :=
  '(_, nop_, opc) <- encode_dfa (compact_dfa dfa) ;;
  ret (nop_, opc).

Section Init.

Variable rex_ : string.
Variable indeterminate : Location -> bool * Index.
Variable strtoul : string -> Z -> Z.

(** What the memory behind the option string holds (see [opt_at]). *)
Variable beyond : Z -> Char.

(** The first two steps of [init]: the parser, then the DFA builder on the
    start state [State start(startpos)]. *)
Definition build (n : nat) : M (Parsed * list State * Counts) :=
  parsed <- parse rex_ indeterminate n ;;
  st <- (fun st => Return st st) ;;
  '(dfa, cnt) <- compile rex_ strtoul n (new_State (startpos parsed))
                         (modifiers st) (lookaheads parsed) (end_ parsed) ;;
  ret (parsed, dfa, cnt).

(** [init(opt)] for a pattern made from a regex ([opc_] is null on entry). *)
Definition init (n : nat) (opt : option string) : Outcome Pattern :=
  match init_options beyond n opt with
  | None => OutOfFuel
  | Some o =>
      ('(parsed, dfa, cnt) <- build n ;;
       '(nop_, opc) <- assemble dfa ;;
       o <- get_opt ;;
       ret (mkPattern o (end_ parsed) (acc_ cnt) (vno_ cnt) (eno_ cnt) nop_ opc))
        (initial o)
  end.

End Init.

(** ** Well-formedness of the data, as used in the statements *)

(** A character set as [ORanges] keeps it: increasing half-open ranges, none
    empty, with a gap between any two; [lb] bounds the first range from below. *)
Fixpoint canonical_from (lb : Z) (r : Ranges) : Prop :=
  match r with
  | [] => True
  | (a, b) :: rest => lb <= a /\ a < b /\ canonical_from (b + 1) rest
  end.

(** A set of bytes: no range goes beyond [0xff]. *)
Definition byte_set (r : Ranges) : Prop := Forall (fun i => snd i <= 256) r.

(** The complement of a canonical set within the bytes from [c] on, written
    by recursion on the ranges. *)
Fixpoint flip_from (c : Char) (r : Chars) : Chars :=
  match r with
  | [] => if c <=? 255 then [(c, 256)] else []
  | (a, b) :: rest =>
      if c <? a then (c, a) :: flip_from b rest else flip_from b rest
  end.


(** The edges of a state as the builder leaves them: increasing keys and
    pairwise disjoint intervals [lo..hi], the first not below [lb]. *)
Fixpoint disjoint_from (lb : Z) (e : Edges) : Prop :=
  match e with
  | [] => True
  | (lo, (hi, _)) :: rest => lb <= lo /\ lo <= hi /\ disjoint_from (hi + 1) rest
  end.

(** How far the inner loop of [compact_dfa] gets from an edge ending at [hi]:
    the end of the last edge of the run of touching edges. *)
Fixpoint reach (hi : Char) (rest : Edges) : Char :=
  match rest with
  | [] => hi
  | (lo2, (hi2, _)) :: rest' => if lo2 <=? hi + 1 then reach hi2 rest' else hi
  end.

(** No edge that starts up to [B + 1] goes to [t] or ends beyond [B]. *)
Definition clear (B : Char) (t : option nat) (e : Edges) : Prop :=
  Forall (fun i : Edge =>
            fst i <= B + 1 ->
            target_eqb (snd (snd i)) t = false /\ fst (snd i) <= B) e.


(** Whether some edge of a state takes the character [c]. *)
Definition covers (e : Edges) (c : Char) : bool :=
  existsb (fun i : Edge => (fst i <=? c) && (c <=? fst (snd i))) e.

(** An edge map: increasing keys [lo], each with [lo <= hi]. *)
Fixpoint valid_from (lb : Z) (e : Edges) : Prop :=
  match e with
  | [] => True
  | (lo, (hi, _)) :: rest => lb <= lo /\ lo <= hi /\ valid_from (lo + 1) rest
  end.

(** The end of the run of edges that covers the characters from [h] on without
    a gap, each edge starting where the run has got to: the value of the local
    [hi] of the first pass of [encode_dfa], which starts the run at 0. *)
Definition cover_from (h : Char) (e : Edges) : Char :=
  fold_left (fun hi (i : Edge) => if fst i =? hi then fst (snd i) + 1 else hi) e h.


(** The rule numbers of the accepting positions of a set, in its order. *)
Definition accepts_of (ks : Positions) : list Index :=
  map Position.accepts (filter Position.accept ks).

(** The least element of a list, 0 for the empty list. *)
Definition minimum (l : list Z) : Z :=
  match l with
  | [] => 0
  | a :: rest => fold_left Z.min rest a
  end.

(** What follows the last 0 of a list (the whole list when it has no 0). *)
Fixpoint after_last_zero (l : list Z) : list Z :=
  match l with
  | [] => []
  | a :: rest =>
      if existsb (Z.eqb 0) rest then after_last_zero rest
      else if a =? 0 then rest
      else a :: rest
  end.


(** The options that no flag list touches. *)
Definition fixed_part (st : PState) :=
  (Opt.b (opt_ st), Opt.e (opt_ st), Opt.f (opt_ st), Opt.n (opt_ st),
   Opt.r (opt_ st), Opt.w (opt_ st)).

(** A parser that moves the cursor forward only and leaves those options. *)
Definition good (P : Parser) : Prop :=
  forall b fr st fr' st',
    P b fr st = Return fr' st' ->
    loc fr <= loc fr' /\ fixed_part st' = fixed_part st.


(** The global form of a modifier group: a flag list that starts at location
    2, right after the [(?] that opens the pattern, and ends with [)]. *)
Definition global_modifiers (rex_ : string) (n : nat) (c : Char) (fr : Frame)
    (st : PState) : Prop :=
  loc fr = 2 /\
  exists k st1, modifier_flags rex_ n c (loc fr) st = Return (ch ")", k) st1.


(** ** The flag [l] is never switched off *)

(** A computation that, when it returns, has left the option [l] set if it
    was set. *)
Definition keeps_l {A} (c : M A) : Prop :=
  forall st a st',
    c st = Return a st' -> Opt.l (opt_ st) = true -> Opt.l (opt_ st') = true.

(** A parser all of whose calls leave the option [l] set. *)
Definition keeps_l_parser (P : Parser) : Prop := forall b fr, keeps_l (P b fr).

(** The flag list of a modifier group names the flag [a]: it is the first
    flag [c], read at [k], or a later character of the list, before the [:],
    the [)] or the NUL that ends the list. *)
Definition flag_named (rex_ : string) (c : Char) (k : Location) (a : ascii) : Prop :=
  eqc c a = true \/
  exists j, k < j /\ eqc (at_ rex_ j) a = true /\
    forall i, k < i <= j ->
      negb (at_ rex_ i =? 0) && negb (eqc (at_ rex_ i) ":")
      && negb (eqc (at_ rex_ i) ")") = true.


(** The end points that [parse] records for the rules of a pattern, the first
    rule starting at [start]: each rule ends at or after its start, and every
    end point but the last is the location of the [|] before the next rule. *)
Fixpoint rule_ends (rex_ : string) (start : Location) (ends : list Location) : Prop :=
  match ends with
  | [] => True
  | e :: rest =>
      start <= e /\
      match rest with
      | [] => True
      | _ :: _ => eqc (at_ rex_ e) "|" = true
      end /\
      rule_ends rex_ (e + 1) rest
  end.

(** Where rule [choice] starts, given the end points. *)
Definition rule_start (ends : list Location) (choice : Index) : Location :=
  if 2 <=? choice then nth (Z.to_nat (choice - 2)) ends 0 + 1 else 0.

(** ** What a parser reads of the frame it is given *)

(** The frame as a callee sees it that reads the cursor only. *)
Definition cursor (fr : Frame) : Frame := mkFrame (loc fr) [] [] false [] 0.

(** A parser that reads nothing of its frame but the cursor [loc]: the other
    fields ([firstpos], [lastpos], [nullable], [lazypos], [iter]) are written
    before they are read. *)
Definition cursor_only (P : Parser) : Prop :=
  forall begin fr fr' st, loc fr = loc fr' -> P begin fr st = P begin fr' st.


(** The update of [state->accept] for one accepting position. *)
Definition accept_step (acc a : Index) : Index :=
  if (acc =? 0) || (a <? acc) then a else acc.

(** ** What a computation does with the options and the error stream

    A computation is orderly when it leaves the options that no flag list
    touches as they are ([b], [e], [f], [n], [r], [w]), throws only an error
    that option [r] lets through or one of code [CODE_OVERFLOW], and writes to
    the error stream only when option [w] is set. *)
Definition orderly {A} (c : M A) : Prop :=
  forall st,
    match c st with
    | Return _ st' =>
        fixed_part st' = fixed_part st /\
        (Opt.w (opt_ st) = false -> shown st' = shown st)
    | Thrown e st' =>
        (Opt.r (opt_ st) = true \/ err_code e = CODE_OVERFLOW) /\
        (Opt.w (opt_ st) = false -> shown st' = shown st)
    | OutOfFuel => True
    end.

(** The state a call ends in, whether it returns or throws. *)
Definition final {A} (r : Outcome A) : option PState :=
  match r with
  | Return _ st => Some st
  | Thrown _ st => Some st
  | OutOfFuel => None
  end.

(** A parser all of whose calls are orderly. *)
Definition orderly_parser (P : Parser) : Prop := forall b fr, orderly (P b fr).

(** ** The size of the opcode table

    The number of opcode words the second pass of [encode_dfa] writes for an
    edge, for the edges of a state, for a state and for a DFA. *)
Definition edge_words (i : Edge) : Z :=
  if is_meta (fst i) then 1 + Z.max 0 (fst (snd i) - fst i) else 1.

Definition edges_words (e : Edges) : Z := fold_right (fun i n => edge_words i + n) 0 e.

Definition state_words (s : State) : Z :=
  (if redo s || (0 <? accept s) then 1 else 0)
  + Z.of_nat (List.length (tails s)) + Z.of_nat (List.length (heads s))
  + edges_words (edges s).

Definition dfa_words (dfa : list State) : Z :=
  fold_right (fun s n => state_words s + n) 0 dfa.

(** ** The transition a character takes

    [encode_dfa] writes the edges of a state from the last to the first of
    the edge map, and a matcher takes the first GOTO whose range holds the
    character: of the edges that hold a character, the last one of the map
    decides. *)

(** Whether the interval of an edge holds the character [c]. *)
Definition holds (i : Edge) (c : Char) : bool := (fst i <=? c) && (c <=? fst (snd i)).

(** The target of the last edge of the map that holds [c]. *)
Fixpoint last_edge (e : Edges) (c : Char) : option (option nat) :=
  match e with
  | [] => None
  | i :: rest =>
      match last_edge rest c with
      | Some t => Some t
      | None => if holds i c then Some (snd (snd i)) else None
      end
  end.

(** The target of the first GOTO of a list of opcodes that holds [c]. *)
Fixpoint first_goto (ops : list Opcode) (c : Char) : option Index :=
  match ops with
  | [] => None
  | GOTO lo hi t :: rest =>
      if (lo <=? c) && (c <=? hi) then Some t else first_goto rest c
  | _ :: rest => first_goto rest c
  end.

(** The index that [encode_dfa] writes for a target state, [IMAX] for none. *)
Definition target_index (dfa : list State) (t : option nat) : Index :=
  match t with
  | Some t => match nth_error dfa t with Some s => index s | None => IMAX end
  | None => IMAX
  end.

(** ** The flags of an option string *)

(** The options [o] with every flag set whose letter occurs in [opt]. *)
Definition set_flags (opt : string) (o : Opt.Option) : Opt.Option :=
  Opt.mk (Opt.b o || has_char (ch "b") opt) (Opt.e o) (Opt.f o)
         (Opt.i o || has_char (ch "i") opt) (Opt.l o || has_char (ch "l") opt)
         (Opt.m o || has_char (ch "m") opt) (Opt.n o)
         (Opt.q o || has_char (ch "q") opt) (Opt.r o || has_char (ch "r") opt)
         (Opt.s o || has_char (ch "s") opt) (Opt.w o || has_char (ch "w") opt)
         (Opt.x o || has_char (ch "x") opt).

(** ** What a computation returns *)

(** Every value the computation returns satisfies [Q]. *)
Definition returns {A} (c : M A) (Q : A -> Prop) : Prop :=
  forall st a st', c st = Return a st' -> Q a.

(** Where a concatenation ends: at the end of the regex, at [|] or at [)]. *)
Definition concat_end (rex_ : string) (k : Location) : bool :=
  (at_ rex_ k =? 0) || eqc (at_ rex_ k) "|" || eqc (at_ rex_ k) ")".

(** ** The DFA that [compile] builds *)

(** The states of [d] are still there in [d'], each with the rule it accepts. *)
Definition extends (d d' : list State) : Prop :=
  (List.length d <= List.length d')%nat /\
  forall j s, nth_error d j = Some s ->
              exists s', nth_error d' j = Some s' /\ accept s' = accept s.

(** What [compile_transition] leaves of a state: all but [accept], [redo],
    [heads] and [tails]. *)
Definition same_frame (s s' : State) : Prop :=
  positions s' = positions s /\ left s' = left s /\ right s' = right s /\
  edges s' = edges s /\ index s' = index s.

(** Every edge of the state goes to a state below [bound]. *)
Definition edges_below (bound : nat) (s : State) : Prop :=
  Forall (fun e : Edge => exists t, snd (snd e) = Some t /\ (t < bound)%nat) (edges s).

(** Every edge of every state goes to a state of the DFA. *)
Definition targets_exist (d : list State) : Prop :=
  Forall (edges_below (List.length d)) d.

(** ** The errors a computation reports

    A computation reports the codes [l] when every error it throws and every
    error it adds to the error stream has one of these codes. *)
Definition reports (l : list Code) {A} (c : M A) : Prop :=
  forall st,
    match c st with
    | Return _ st' =>
        exists new, shown st' = new ++ shown st /\
                    Forall (fun e => In (err_code e) l) new
    | Thrown e st' =>
        In (err_code e) l /\
        exists new, shown st' = new ++ shown st /\
                    Forall (fun e => In (err_code e) l) new
    | OutOfFuel => True
    end.

(** A parser all of whose calls report the codes [l]. *)
Definition reports_parser (l : list Code) (P : Parser) : Prop :=
  forall b fr, reports l (P b fr).

(** ** Character sets as sets of characters *)

(** Every stored range holds a character. *)
Definition proper (r : Ranges) : Prop := Forall (fun i : Z * Z => fst i < snd i) r.

(** ** The moves of a state as a map from characters to positions *)

(** The number of moves whose character set holds [c]. *)
Definition holders (c : Char) (moves : Moves) : nat :=
  List.length (filter (fun m : Move => contains (fst m) c) moves).

(** Whether the moves take the character [c] to the position [p]. *)
Definition takes (moves : Moves) (c : Char) (p : Position.t) : bool :=
  existsb (fun m : Move => contains (fst m) c && mem p (snd m)) moves.

(** What the loop of [transition] has made of the moves so far: the moves
    passed, those still to visit, and [follow] for the characters of [rest]
    and for those of [chars] in a move still to visit. *)
Definition loop_takes (chars : Chars) (follow : Positions) (rest : Chars)
    (seen todo : Moves) (c : Char) (p : Position.t) : bool :=
  takes seen c p || takes todo c p ||
  ((contains rest c || (contains chars c && (0 <? holders c todo)%nat)) && mem p follow).

(** What holds of the loop of [transition] at each turn. *)
Definition loop_inv (chars : Chars) (follow : Positions) (rest : Chars)
    (seen todo : Moves) : Prop :=
  proper rest /\
  Forall (fun m : Move => proper (fst m) /\ any (fst m) = true) (seen ++ todo) /\
  (forall c, (holders c (seen ++ todo) <= 1)%nat) /\
  (forall c, contains rest c = true -> holders c seen = 0%nat) /\
  (forall c, contains rest c = true ->
             contains chars c = true \/ holders c todo = 0%nat) /\
  (forall c m, In m todo -> contains chars c = true -> contains (fst m) c = true ->
               contains rest c = true \/ is_subset follow (snd m) = true).

(** The turns of the loop of [transition] that a move can take: a move whose
    positions hold [follow] is visited once, any other at most twice. *)
Fixpoint turns (follow : Positions) (todo : Moves) : nat :=
  match todo with
  | [] => 0
  | m :: rest => (if is_subset follow (snd m) then 1 else 2) + turns follow rest
  end%nat.

(** ** Canonical character sets in the DFA builder *)

(** What [compile_esc] and the loop of [compile_list] keep: a character that
    is not negative and a canonical set. *)
Definition char_and_set (r : Char * Chars) : Prop :=
  0 <= fst r /\ canonical_from 0 (snd r).

(** ** Moves that make a deterministic state *)

(** Moves with canonical, non-empty character sets of which at most one holds
    any character. *)
Definition tidy (moves : Moves) : Prop :=
  Forall (fun m : Move => canonical_from 0 (fst m) /\ any (fst m) = true) moves /\
  forall c, (holders c moves <= 1)%nat.

(** The DFA while [compile] makes the edges of state [cur] from its moves:
    the states before [cur] have disjoint edges, those after it have none yet,
    and the edges of [cur] are disjoint and hold only characters of the moves
    [done]. *)
Definition edges_so_far (cur : nat) (done : Moves) (dfa : list State) : Prop :=
  (cur < List.length dfa)%nat /\
  forall j s, nth_error dfa j = Some s ->
    ((j < cur)%nat -> disjoint_from 0 (edges s)) /\
    ((cur < j)%nat -> edges s = []) /\
    (j = cur -> disjoint_from 0 (edges s) /\
                forall c, covers (edges s) c = true -> (1 <= holders c done)%nat).

(** The DFA when [compile] comes to state [cur]. *)
Definition edges_before (cur : nat) (dfa : list State) : Prop :=
  forall j s, nth_error dfa j = Some s ->
    ((j < cur)%nat -> disjoint_from 0 (edges s)) /\
    ((cur <= j)%nat -> edges s = []).

(** ** The search tree over the states *)

(** The states [nodes] make a search tree from the link [root]: each state
    has the states of smaller position sets on its left and those of larger
    ones on its right. *)
Inductive tree (d : list State) : option nat -> list nat -> Prop :=
| tree_leaf : tree d None []
| tree_node t s l r :
    nth_error d t = Some s ->
    tree d (left s) l ->
    tree d (right s) r ->
    (forall j sj, In j l -> nth_error d j = Some sj ->
                  positions_compare (positions sj) (positions s) = Lt) ->
    (forall j sj, In j r -> nth_error d j = Some sj ->
                  positions_compare (positions sj) (positions s) = Gt) ->
    tree d (Some t) (t :: l ++ r).

(** What the search tree looks at in a state. *)
Definition shape (s : State) : Positions * option nat * option nat :=
  (positions s, left s, right s).

(** Every state is in the search tree from the start state, and no two states
    have the same positions. *)
Definition searchable (d : list State) : Prop :=
  (exists nodes, tree d (Some 0%nat) nodes /\
                 forall j, (j < List.length d)%nat -> In j nodes) /\
  NoDup (map positions d).

(** The DFA with a new state of positions [pos] hung on the state [p]. *)
Definition hang (d : list State) (pos : Positions) (p : nat) (on_left : bool)
    (sp : State) : list State :=
  set_nth p (if on_left then with_left sp (Some (List.length d))
             else with_right sp (Some (List.length d))) d
  ++ [new_State pos].

(** ** The number of transitions *)

(** The number of characters in a set of ranges. *)
Definition range_chars (r : Chars) : Z :=
  fold_right (fun (j : Z * Z) acc => (snd j - fst j) + acc) 0 r.

(** The number of characters on the edges of a state, and of a DFA. *)
Definition edge_chars (e : Edges) : Z :=
  fold_right (fun (i : Edge) acc => (fst (snd i) - fst i + 1) + acc) 0 e.

Definition dfa_chars (d : list State) : Z :=
  fold_right (fun s acc => edge_chars (edges s) + acc) 0 d.

(** ** The follow map only grows *)

(** Every follow link of [fp] is a link of [fp']. *)
Definition follow_sub (fp fp' : Follow) : Prop :=
  forall k x, In x (follow_at k fp) -> In x (follow_at k fp').

(** A computation that, when it returns, has kept every follow link. *)
Definition grows {A} (c : M A) : Prop :=
  forall st a st', c st = Return a st' -> follow_sub (followpos st) (followpos st').

(** A parser all of whose calls keep every follow link. *)
Definition grows_parser (P : Parser) : Prop := forall b fr, grows (P b fr).

(** ** The edges made from the moves *)

(** The state has an edge that holds the character [c] and goes to [t]. *)
Definition goes (s : State) (c : Char) (t : option nat) : Prop :=
  exists lo hi, In (lo, (hi, t)) (edges s) /\ lo <= c <= hi.

(** The positions of a move as [compile] trims them, when they are not
    empty. *)
Definition trimmed (m : Move) (pos : Positions) : Prop :=
  trim_lazy_loop (S (2 * List.length (snd m))) (rev (snd m)) [] = Some pos /\
  pos <> [].

(** The states of [d] are still there in [d'], each with its positions and
    edges. *)
Definition keeps (d d' : list State) : Prop :=
  forall j s, nth_error d j = Some s ->
    exists s', nth_error d' j = Some s' /\ positions s' = positions s /\
               edges s' = edges s.

(** The edges of state [cur] are those of the moves [done]: the state has
    disjoint edges for characters of these moves only, every edge goes to the
    state of the trimmed positions of the move that holds the character, and
    every character of a move with positions left has its edge. *)
Definition made (cur : nat) (done : Moves) (d : list State) : Prop :=
  exists s,
    nth_error d cur = Some s /\
    disjoint_from 0 (edges s) /\
    (forall c, covers (edges s) c = true -> (1 <= holders c done)%nat) /\
    (forall c t, goes s c t ->
       exists m pos j sj,
         In m done /\ contains (fst m) c = true /\ trimmed m pos /\
         t = Some j /\ nth_error d j = Some sj /\ positions sj = pos) /\
    (forall m pos c, In m done -> trimmed m pos -> contains (fst m) c = true ->
       exists j sj, goes s c (Some j) /\ nth_error d j = Some sj /\ positions sj = pos).

(** ** A regex that is a plain word *)

(** Every character of the string is a letter or a digit. *)
Definition word (rex_ : string) : Prop :=
  forall k, 0 <= k < Z.of_nat (String.length rex_) -> isalnum (at_ rex_ k) = true.

(** The first [len] characters are letters or digits, and what comes next is
    the end of the regex or a [)]. *)
Definition word_before (rex_ : string) (len : nat) : Prop :=
  (forall k, 0 <= k < Z.of_nat len -> isalnum (at_ rex_ k) = true) /\
  (at_ rex_ (Z.of_nat len) = 0 \/ at_ rex_ (Z.of_nat len) = ch ")").

(** The states in which the escape character is no letter or digit. *)
Definition plain (st : PState) : Prop := isalnum (Opt.e (opt_ st)) = false.

(** The frame of the atom at location [k]. *)
Definition atom_at (k : Location) : Frame :=
  mkFrame (k + 1) [Position.of_loc k] [Position.of_loc k] false [] 1.

(** The frame of the concatenation of the atoms before location [k]. *)
Definition atoms_upto (k : Location) : Frame :=
  mkFrame k [Position.of_loc 0] [Position.of_loc (k - 1)] false [] 1.

(** What the concatenation of [m] more atoms from location [k] on adds to
    the follow map: each atom follows the one before it. *)
Fixpoint links (m : nat) (k : Location) (fp : Follow) : Follow :=
  match m with
  | O => fp
  | S m' =>
      links m' (k + 1) (follow_all [Position.of_loc (k - 1)] [Position.of_loc k] fp)
  end.

(** The follow map that the parser leaves for a word of [len] characters,
    from an empty map: the links of the atoms, and the accepting position of
    rule 1 after the last atom. *)
Definition word_follow (len : nat) : Follow :=
  follow_insert (Position.of_loc (Z.of_nat len - 1))
                (Position.set_accept (Position.of_loc 1) true)
                (links (len - 1) 1 []).

(** ** The DFA of a plain word *)

(** The characters that a letter or digit [c] of the regex matches: both
    cases of a letter under option [i]. *)
Definition word_chars (o : Opt.Option) (c : Char) : Chars :=
  if isalpha c && Opt.i o
  then [(toupper c, toupper c + 1); (tolower c, tolower c + 1)]
  else [(c, c + 1)].

(** The edges for these characters to state [t]. *)
Definition word_edges (o : Opt.Option) (c : Char) (t : nat) : Edges :=
  if isalpha c && Opt.i o
  then [(toupper c, (toupper c, Some t)); (tolower c, (tolower c, Some t))]
  else [(c, (c, Some t))].

(** The number of characters on these edges, and on the edges of the first
    [k] states of the DFA of a word. *)
Definition word_count (o : Opt.Option) (c : Char) : Z :=
  if isalpha c && Opt.i o then 2 else 1.

Fixpoint word_eno (o : Opt.Option) (rex_ : string) (k : nat) : Z :=
  match k with
  | O => 0
  | S k' => word_eno o rex_ k' + word_count o (at_ rex_ (Z.of_nat k'))
  end.

(** The position set of state [k] of the DFA of a word of [len] characters:
    the character at [k], and after the last one the accepting position of
    rule 1. *)
Definition word_pos (len k : nat) : Position.t :=
  if (k <? len)%nat then Position.of_loc (Z.of_nat k)
  else Position.set_accept (Position.of_loc 1) true.

(** State [k] of the DFA of the word [rex_]: it takes the character at [k] to
    state [k + 1], which hangs on its right in the search tree. *)
Definition word_state (o : Opt.Option) (rex_ : string) (k : nat) : State :=
  mkState [Position.of_loc (Z.of_nat k)] None (Some (S k))
          (word_edges o (at_ rex_ (Z.of_nat k)) (S k)) 0 0 [] [] false.

(** The last state accepts rule 1 and has no edges. *)
Definition word_final : State :=
  mkState [Position.set_accept (Position.of_loc 1) true] None None [] 0 1 [] [] false.

(** The DFA of a word of [len] characters at the start of [rex_]. *)
Definition word_dfa (o : Opt.Option) (rex_ : string) (len : nat) : list State :=
  map (word_state o rex_) (seq 0 len) ++ [word_final].

(** The DFA while state [k] is the last one made. *)
Definition word_building (o : Opt.Option) (rex_ : string) (len k : nat) : list State :=
  map (word_state o rex_) (seq 0 k) ++ [new_State [word_pos len k]].

(** * Properties *)

(** ** The monad *)

Lemma Code_eqb_eq a b : Code_eqb a b = true <-> a = b.
Proof. destruct a, b; simpl; split; congruence. Qed.

Lemma bind_Return {A B} (c : M A) (k : A -> M B) st b st' :
  bind c k st = Return b st' ->
  exists a st1, c st = Return a st1 /\ k a st1 = Return b st'.
Proof.
  unfold bind. destruct (c st) as [a st1| |]; try discriminate.
  intros H. exists a, st1. split; [reflexivity|exact H].
Qed.

Lemma error_Return code message k st u st' :
  error code message k st = Return u st' ->
  opt_ st' = opt_ st /\ followpos st' = followpos st /\
  modifiers st' = modifiers st /\ lookahead st' = lookahead st /\
  Opt.r (opt_ st) = false.
Proof.
  unfold error. destruct (Opt.r (opt_ st)) eqn:Hr; simpl; [intros H; discriminate|].
  destruct (Code_eqb code CODE_OVERFLOW); [intros H; discriminate|].
  intros H. inversion H; subst. destruct (Opt.w (opt_ st)); simpl; auto.
Qed.

(** ** Errors *)

(** C1: an error of code [CODE_OVERFLOW] is thrown whatever option [r] is; an
    error of any other code is thrown if and only if option [r] is set. *)
Theorem error_throw_policy :
  forall (st : PState) (code : Code) (message : string) (k : Location),
    (code = CODE_OVERFLOW -> throws (error code message k st)) /\
    (code <> CODE_OVERFLOW ->
     (throws (error code message k st) <-> Opt.r (opt_ st) = true)).
Proof.
  intros st code message k. unfold throws, error. split.
  - intros ->. rewrite orb_true_r. eauto.
  - intros Hc.
    assert (Hf : Code_eqb code CODE_OVERFLOW = false).
    { destruct (Code_eqb code CODE_OVERFLOW) eqn:E; [|reflexivity].
      apply Code_eqb_eq in E. contradiction. }
    rewrite Hf, orb_false_r.
    destruct (Opt.r (opt_ st)); split; intros H; eauto; try discriminate.
    destruct H as (e & st' & H). discriminate.
Qed.

(** The overflow check of [encode_dfa] uses that code: when the opcode count
    wraps around in a state, the encoder throws under any options. *)
Lemma count_state_overflow (s : State) (nop_ : Index) (st : PState) :
  (exists r, count_state s nop_ st = Return r st) \/
  (exists e, count_state s nop_ st = Thrown e
               (if Opt.w (opt_ st) then with_shown st (e :: shown st) else st)
             /\ err_code e = CODE_OVERFLOW).
Proof.
  unfold count_state.
  destruct (count_edges (edges (with_index s nop_)) nop_) as [hi nop1].
  match goal with
  | |- context [if ?c then (?a, ?b) else (?a', ?b')] => destruct (if c then (a, b) else (a', b')) as [s1 nop2]
  end.
  unfold bind.
  match goal with |- context [if ?c then error _ _ _ else ret tt] => destruct c end.
  - right. unfold error. rewrite orb_true_r. simpl. eexists. split; reflexivity.
  - left. unfold ret. eexists. reflexivity.
Qed.

(** ** Character sets: [flip] *)

Lemma canonical_from_weaken r : forall lb lb',
  lb' <= lb -> canonical_from lb r -> canonical_from lb' r.
Proof.
  destruct r as [|[a b] rest]; simpl; [tauto|].
  intros lb lb' Hle (H1 & H2 & H3). repeat split; [lia|assumption|assumption].
Qed.

Lemma ranges_add_append r : forall lo hi1,
  Forall (fun i => snd i < lo) r -> ranges_add lo hi1 r = r ++ [(lo, hi1)].
Proof.
  induction r as [|[a b] rest IH]; intros lo hi1 H; simpl; [reflexivity|].
  inversion H as [|x l Hb Hrest]; subst; simpl in Hb.
  destruct (Z.ltb_spec b lo); [|lia]. rewrite IH by assumption. reflexivity.
Qed.

(** On a canonical set, [flip] is the recursive complement. *)
Lemma flip_fold r : forall lb flipped c,
  c <= lb -> canonical_from lb r -> Forall (fun i => snd i < c) flipped ->
  (let '(f, c') :=
     fold_left
       (fun (acc : Chars * Char) (i : Z * Z) =>
          let '(flipped, c) := acc in
          ((if c <? fst i then ranges_insert c (fst i - 1) flipped else flipped), snd i))
       r (flipped, c) in
   if c' <=? 255 then ranges_insert c' 255 f else f)
  = flipped ++ flip_from c r.
Proof.
  induction r as [|[a b] rest IH]; intros lb flipped c Hc Hr Hf; simpl.
  - destruct (c <=? 255).
    + unfold ranges_insert. apply ranges_add_append. assumption.
    + rewrite app_nil_r. reflexivity.
  - simpl in Hr. destruct Hr as (Ha & Hab & Hrest).
    destruct (Z.ltb_spec c a).
    + unfold ranges_insert. replace (a - 1 + 1) with a by lia.
      rewrite ranges_add_append by assumption.
      rewrite (IH (b + 1)); [|lia|assumption|].
      * rewrite <- app_assoc. reflexivity.
      * apply Forall_app. split.
        -- eapply Forall_impl; [|exact Hf]. simpl. intros; lia.
        -- constructor; [simpl; lia|constructor].
    + apply (IH (b + 1)); [lia|assumption|].
      eapply Forall_impl; [|exact Hf]. simpl. intros; lia.
Qed.

Lemma flip_flip_from r : canonical_from 0 r -> flip r = flip_from 0 r.
Proof.
  intros H. unfold flip.
  pose proof (flip_fold r 0 [] 0 (Z.le_refl 0) H (Forall_nil _)) as E.
  simpl in E. exact E.
Qed.

Lemma flip_from_canonical r : forall c lb,
  c <= lb -> canonical_from lb r -> canonical_from c (flip_from c r).
Proof.
  induction r as [|[a b] rest IH]; intros c lb Hc Hr; simpl.
  - destruct (Z.leb_spec c 255); simpl; [lia|trivial].
  - simpl in Hr. destruct Hr as (Ha & Hab & Hrest).
    destruct (Z.ltb_spec c a); simpl.
    + repeat split; [lia|assumption|].
      apply canonical_from_weaken with (lb := b); [lia|].
      apply (IH b (b + 1)); [lia|assumption].
    + apply canonical_from_weaken with (lb := b); [lia|].
      apply (IH b (b + 1)); [lia|assumption].
Qed.

Lemma flip_from_twice rest : forall b d,
  canonical_from (b + 1) rest -> byte_set rest -> d < b -> b <= 256 ->
  flip_from d (flip_from b rest) = (d, b) :: rest.
Proof.
  induction rest as [|[a' b'] rest' IH]; intros b d Hr Hb Hd Hb256; simpl.
  - destruct (Z.leb_spec b 255); simpl.
    + destruct (Z.ltb_spec d b); [|lia]. reflexivity.
    + destruct (Z.leb_spec d 255); [|lia]. f_equal. f_equal. lia.
  - simpl in Hr. destruct Hr as (Ha & Hab & Hrest).
    inversion Hb as [|x l Hb' Hbrest]; subst; simpl in Hb'.
    destruct (Z.ltb_spec b a'); [|lia]. simpl.
    destruct (Z.ltb_spec d b); [|lia].
    rewrite IH; [reflexivity|assumption|assumption|lia|lia].
Qed.

Lemma contains_cons a b rest x :
  contains ((a, b) :: rest) x = ((x <? b) && (a <=? x)) || contains rest x.
Proof.
  unfold contains, ranges_find1, ranges_find. simpl.
  destruct ((x <? b) && (a <=? x)); simpl; [reflexivity|].
  assert (G : forall r i j, found (ranges_find_from i x x r) = found (ranges_find_from j x x r)).
  { induction r as [|[a0 b0] r IH]; intros i j; simpl; [reflexivity|].
    destruct ((x <? b0) && (a0 <=? x)); [reflexivity|apply IH]. }
  apply G.
Qed.

Lemma contains_lower r : forall lb x,
  canonical_from lb r -> contains r x = true -> lb <= x.
Proof.
  induction r as [|[a b] rest IH]; intros lb x Hr Hx.
  - discriminate.
  - simpl in Hr. destruct Hr as (Ha & Hab & Hrest).
    rewrite contains_cons in Hx. apply orb_true_iff in Hx. destruct Hx as [Hx|Hx].
    + apply andb_true_iff in Hx. destruct Hx as [_ Hx]. apply Z.leb_le in Hx. lia.
    + specialize (IH _ _ Hrest Hx). lia.
Qed.

Lemma flip_from_contains r : forall c lb x,
  c <= lb -> canonical_from lb r -> byte_set r ->
  contains (flip_from c r) x = (c <=? x) && (x <=? 255) && negb (contains r x).
Proof.
  induction r as [|[a b] rest IH]; intros c lb x Hc Hr Hb.
  - simpl. destruct (Z.leb_spec c 255).
    + rewrite contains_cons. unfold contains. simpl.
      destruct (Z.ltb_spec x 256), (Z.leb_spec c x), (Z.leb_spec x 255); simpl; try reflexivity; lia.
    + unfold contains. simpl.
      destruct (Z.leb_spec c x), (Z.leb_spec x 255); simpl; try reflexivity; lia.
  - simpl in Hr. destruct Hr as (Ha & Hab & Hrest).
    inversion Hb as [|i l Hb' Hbrest]; subst; simpl in Hb'.
    assert (Hlow : contains rest x = true -> b + 1 <= x)
      by (apply contains_lower; assumption).
    simpl. destruct (Z.ltb_spec c a).
    + rewrite !contains_cons, (IH b (b + 1)) by (assumption || lia).
      destruct (contains rest x); simpl.
      * specialize (Hlow eq_refl).
        destruct (Z.ltb_spec x a), (Z.leb_spec c x), (Z.leb_spec b x),
          (Z.leb_spec x 255), (Z.ltb_spec x b), (Z.leb_spec a x);
          simpl; try reflexivity; lia.
      * destruct (Z.ltb_spec x a), (Z.leb_spec c x), (Z.leb_spec b x),
          (Z.leb_spec x 255), (Z.ltb_spec x b), (Z.leb_spec a x);
          simpl; try reflexivity; lia.
    + rewrite contains_cons, (IH b (b + 1)) by (assumption || lia).
      destruct (contains rest x); simpl.
      * specialize (Hlow eq_refl).
        destruct (Z.leb_spec c x), (Z.leb_spec b x),
          (Z.leb_spec x 255), (Z.ltb_spec x b), (Z.leb_spec a x);
          simpl; try reflexivity; lia.
      * destruct (Z.leb_spec c x), (Z.leb_spec b x),
          (Z.leb_spec x 255), (Z.ltb_spec x b), (Z.leb_spec a x);
          simpl; try reflexivity; lia.
Qed.

(** C10: on a set of byte ranges, [flip] gives the complement within the bytes
    0..0xff, and flipping twice gives the set back. *)
Theorem flip_complement_involution :
  forall chars : Chars,
    canonical_from 0 chars -> byte_set chars ->
    (forall c, contains (flip chars) c
               = (0 <=? c) && (c <=? 255) && negb (contains chars c)) /\
    flip (flip chars) = chars.
Proof.
  intros chars Hc Hb. split.
  - intros c. rewrite flip_flip_from by assumption.
    apply (flip_from_contains chars 0 0); [lia|assumption|assumption].
  - rewrite (flip_flip_from chars) by assumption.
    rewrite flip_flip_from
      by (apply (flip_from_canonical chars 0 0); [lia|assumption]).
    destruct chars as [|[a b] rest]; [reflexivity|].
    simpl in Hc. destruct Hc as (Ha & Hab & Hrest).
    inversion Hb as [|i l Hb' Hbrest]; subst; simpl in Hb'.
    simpl. destruct (Z.ltb_spec 0 a).
    + simpl. apply flip_from_twice; assumption || lia.
    + replace a with 0 by lia. apply flip_from_twice; assumption || lia.
Qed.

(** The digits [0-9] flipped twice. *)
Lemma flip_complement_involution_digits :
  (forall c, contains (flip [(48, 58)]) c
             = (0 <=? c) && (c <=? 255) && negb (contains [(48, 58)] c)) /\
  flip (flip [(48, 58)]) = [(48, 58)].
Proof.
  apply (flip_complement_involution [(48, 58)]).
  - simpl. lia.
  - repeat constructor. simpl. lia.
Defined.

(** ** [compact_dfa] *)

Lemma disjoint_from_weaken e : forall lb lb',
  lb' <= lb -> disjoint_from lb e -> disjoint_from lb' e.
Proof.
  destruct e as [|[lo [hi t]] rest]; simpl; [tauto|].
  intros lb lb' Hle (H1 & H2 & H3). repeat split; [lia|assumption|assumption].
Qed.

Lemma disjoint_from_lower e : forall lb,
  disjoint_from lb e -> Forall (fun i : Edge => lb <= fst i) e.
Proof.
  induction e as [|[lo [hi t]] rest IH]; intros lb H; constructor.
  - simpl in *. tauto.
  - simpl in H. destruct H as (H1 & H2 & H3).
    eapply Forall_impl; [|apply (IH _ H3)]. simpl. intros; lia.
Qed.

Lemma merge_run_length rest : forall hi t ihi,
  (List.length (snd (merge_run hi t ihi rest)) <= List.length rest)%nat.
Proof.
  induction rest as [|[lo2 [hi2 t2]] rest IH]; intros hi t ihi; simpl; [lia|].
  destruct (lo2 <=? hi + 1); [|simpl; lia].
  destruct (target_eqb t2 t).
  - specialize (IH hi2 t hi2). lia.
  - specialize (IH hi2 t ihi). destruct (merge_run hi2 t ihi rest). simpl in *. lia.
Qed.

Lemma merge_run_In rest : forall hi t ihi i,
  In i (snd (merge_run hi t ihi rest)) -> In i rest.
Proof.
  induction rest as [|[lo2 [hi2 t2]] rest IH]; intros hi t ihi i; simpl; [tauto|].
  destruct (lo2 <=? hi + 1); [|simpl; tauto].
  destruct (target_eqb t2 t).
  - intros H. right. eapply IH; exact H.
  - specialize (IH hi2 t ihi i). destruct (merge_run hi2 t ihi rest). simpl in *.
    intros [H|H]; [left; assumption|right; apply IH; assumption].
Qed.

Lemma merge_run_Forall (P : Edge -> Prop) rest hi t ihi :
  Forall P rest -> Forall P (snd (merge_run hi t ihi rest)).
Proof.
  intros H. apply Forall_forall. intros i Hi.
  apply merge_run_In in Hi. revert i Hi. apply Forall_forall. assumption.
Qed.

Lemma merge_run_disjoint rest : forall lb hi t ihi,
  disjoint_from lb rest -> disjoint_from lb (snd (merge_run hi t ihi rest)).
Proof.
  induction rest as [|[lo2 [hi2 t2]] rest IH]; intros lb hi t ihi H; simpl; [trivial|].
  simpl in H. destruct H as (H1 & H2 & H3).
  destruct (lo2 <=? hi + 1); [|simpl; tauto].
  destruct (target_eqb t2 t).
  - apply disjoint_from_weaken with (lb := hi2 + 1); [lia|]. apply IH. assumption.
  - specialize (IH (hi2 + 1) hi2 t ihi H3).
    destruct (merge_run hi2 t ihi rest). simpl in *. tauto.
Qed.

(** Below the bound of a clear list, the inner loop merges nothing. *)
Lemma merge_run_clear B t e : forall hi ihi,
  clear B t e -> hi <= B -> merge_run hi t ihi e = (ihi, e).
Proof.
  induction e as [|[lo2 [hi2 t2]] rest IH]; intros hi ihi Hc Hhi; simpl; [reflexivity|].
  inversion Hc as [|i l Hi Hrest]; subst. simpl in Hi.
  destruct (Z.leb_spec lo2 (hi + 1)); [|reflexivity].
  destruct Hi as [Ht Hh]; [lia|]. rewrite Ht.
  rewrite IH by assumption. reflexivity.
Qed.

(** Below the bound of a clear list, an edge is not extended beyond it. *)
Lemma merge_run_capped B t0 rest : forall hi t ihi,
  clear B t0 rest -> hi <= B -> ihi <= B -> fst (merge_run hi t ihi rest) <= B.
Proof.
  induction rest as [|[lo2 [hi2 t2]] rest IH]; intros hi t ihi Hc Hhi Hihi; simpl;
    [assumption|].
  inversion Hc as [|i l Hi Hrest]; subst. simpl in Hi.
  destruct (Z.leb_spec lo2 (hi + 1)); [|assumption].
  destruct Hi as [Ht Hh]; [lia|].
  destruct (target_eqb t2 t).
  - apply IH; assumption.
  - specialize (IH hi2 t ihi Hrest Hh Hihi).
    destruct (merge_run hi2 t ihi rest). simpl in *. assumption.
Qed.

Lemma compact_edges_clear B t : forall n e,
  (List.length e <= n)%nat -> clear B t e -> clear B t (compact_edges e).
Proof.
  induction n as [|n IH]; intros e Hn Hc.
  - destruct e; [simp compact_edges; constructor|simpl in Hn; lia].
  - destruct e as [|[lo [hi t1]] rest]; [simp compact_edges; constructor|].
    simp compact_edges. destruct (255 <=? hi); [assumption|].
    inversion Hc as [|i l Hi Hrest]; subst. simpl in Hi.
    constructor.
    + simpl. intros Hlo. destruct (Hi Hlo) as [Ht Hh]. split; [assumption|].
      eapply merge_run_capped; eassumption.
    + apply IH.
      * pose proof (merge_run_length rest hi t1 hi). simpl in Hn. lia.
      * apply merge_run_Forall. assumption.
Qed.

(** The first pass over disjoint edges leaves a clear list behind an edge. *)
Lemma merge_run_reach rest : forall lb hi t ihi,
  disjoint_from lb rest -> hi < lb -> ihi <= hi ->
  fst (merge_run hi t ihi rest) <= reach hi rest /\
  clear (reach hi rest) t (snd (merge_run hi t ihi rest)) /\
  hi <= reach hi rest.
Proof.
  induction rest as [|[lo2 [hi2 t2]] rest IH]; intros lb hi t ihi Hd Hlb Hi; simpl.
  - repeat split; [assumption|constructor|lia].
  - simpl in Hd. destruct Hd as (H1 & H2 & H3).
    destruct (Z.leb_spec lo2 (hi + 1)).
    + destruct (target_eqb t2 t) eqn:Et.
      * destruct (IH (hi2 + 1) hi2 t hi2 H3) as (Ha & Hb & Hc); [lia|lia|].
        repeat split; [assumption|assumption|lia].
      * destruct (IH (hi2 + 1) hi2 t ihi H3) as (Ha & Hb & Hc); [lia|lia|].
        destruct (merge_run hi2 t ihi rest) as [h r]. simpl in *.
        repeat split; [assumption| |lia].
        constructor; [simpl; intros _; split; assumption|assumption].
    + simpl. repeat split; [assumption| |lia].
      constructor; [simpl; intros; lia|].
      apply disjoint_from_lower in H3.
      eapply Forall_impl; [|exact H3]. simpl. intros; lia.
Qed.

Lemma compact_edges_idempotent : forall n e lb,
  (List.length e <= n)%nat -> disjoint_from lb e ->
  compact_edges (compact_edges e) = compact_edges e.
Proof.
  induction n as [|n IH]; intros e lb Hn Hd.
  - destruct e; [simp compact_edges; reflexivity|simpl in Hn; lia].
  - destruct e as [|[lo [hi t]] rest]; [simp compact_edges; reflexivity|].
    simp compact_edges. destruct (Z.leb_spec 255 hi) as [Hhi|Hhi].
    + simp compact_edges. destruct (Z.leb_spec 255 hi); [reflexivity|lia].
    + simpl in Hd. destruct Hd as (H1 & H2 & H3).
      destruct (merge_run_reach rest (hi + 1) hi t hi H3) as (Ha & Hb & Hc);
        [lia|lia|].
      pose proof (merge_run_length rest hi t hi) as Hlen.
      simp compact_edges.
      destruct (255 <=? fst (merge_run hi t hi rest)); [reflexivity|].
      rewrite (merge_run_clear (reach hi rest) t).
      * simpl. f_equal. apply IH with (lb := hi + 1).
        -- simpl in Hn. lia.
        -- apply merge_run_disjoint. assumption.
      * apply compact_edges_clear with (n := List.length rest); [lia|assumption].
      * assumption.
Qed.

(** C7: [compact_dfa] is idempotent: on a DFA whose states have disjoint
    edges, a second run of the edge merge leaves every edge map as the first
    run made it. *)
Theorem compact_dfa_idempotent :
  forall dfa : list State,
    Forall (fun s => disjoint_from 0 (edges s)) dfa ->
    compact_dfa (compact_dfa dfa) = compact_dfa dfa.
Proof.
  intros dfa H. unfold compact_dfa. rewrite map_map.
  apply map_ext_in. intros s Hs.
  rewrite Forall_forall in H. specialize (H s Hs).
  destruct s; unfold with_edges; simpl in *. f_equal.
  apply compact_edges_idempotent with (n := List.length edges0) (lb := 0);
    [lia|assumption].
Qed.

(** A state whose edges [0-1] and [4-5] go to one state and [2-3] to another. *)
Lemma compact_dfa_idempotent_example :
  let s := with_edges (new_State [])
             [(0, (1, Some 1%nat)); (2, (3, Some 2%nat)); (4, (5, Some 1%nat))] in
  edges (hd s (compact_dfa [s])) = [(0, (5, Some 1%nat)); (2, (3, Some 2%nat))] /\
  compact_dfa (compact_dfa [s]) = compact_dfa [s].
Proof.
  split; [reflexivity|].
  apply (compact_dfa_idempotent
           [with_edges (new_State [])
              [(0, (1, Some 1%nat)); (2, (3, Some 2%nat)); (4, (5, Some 1%nat))]]).
  repeat constructor; simpl; lia.
Defined.

(** Disjointness matters: on overlapping intervals, which no state of a DFA
    has, a second run can merge further. *)
Lemma compact_edges_overlapping :
  let e := [(1, (13, Some 1%nat)); (2, (6, Some 1%nat)); (7, (12, Some 2%nat));
            (10, (10, Some 1%nat)); (13, (13, Some 1%nat))] in
  compact_edges (compact_edges e) <> compact_edges e.
Proof. vm_compute. discriminate. Qed.

(** ** [encode_dfa]: the dead-state edge *)

Lemma count_edges_cover e : forall h nop_,
  fst (fold_left
         (fun (acc : Char * Index) (i : Edge) =>
            let '(hi, nop_) := acc in
            let hi := if fst i =? hi then fst (snd i) + 1 else hi in
            let nop_ := to_Index (nop_ + 1) in
            let nop_ :=
              if is_meta (fst i) then to_Index (nop_ + (fst (snd i) - fst i)) else nop_ in
            (hi, nop_))
         e (h, nop_))
  = cover_from h e.
Proof.
  unfold cover_from.
  induction e as [|i rest IH]; intros h nop_; simpl; [reflexivity|]. apply IH.
Qed.

Lemma count_edges_fst e nop_ : fst (count_edges e nop_) = cover_from 0 e.
Proof. unfold count_edges. apply count_edges_cover. Qed.

Lemma cover_from_cons h i rest :
  cover_from h (i :: rest)
  = cover_from (if fst i =? h then fst (snd i) + 1 else h) rest.
Proof. reflexivity. Qed.

Lemma cover_from_ge e : forall lb h, valid_from lb e -> h <= cover_from h e.
Proof.
  induction e as [|[lo [hi t]] rest IH]; intros lb h Hv; [simpl; unfold cover_from; simpl; lia|].
  rewrite cover_from_cons. simpl in *. destruct Hv as (H1 & H2 & H3).
  destruct (Z.eqb_spec lo h).
  - specialize (IH _ (hi + 1) H3). lia.
  - apply (IH _ h H3).
Qed.

Lemma cover_from_jump e : forall lb h,
  valid_from lb e -> cover_from h e = h \/ lb < cover_from h e.
Proof.
  induction e as [|[lo [hi t]] rest IH]; intros lb h Hv; [left; reflexivity|].
  rewrite cover_from_cons. simpl in *. destruct Hv as (H1 & H2 & H3).
  destruct (Z.eqb_spec lo h).
  - right. pose proof (cover_from_ge rest _ (hi + 1) H3). lia.
  - destruct (IH _ h H3); [left; assumption|right; lia].
Qed.

(** The key of the dead-state edge is not the key of an edge of the state. *)
Lemma cover_from_fresh e : forall lb h,
  valid_from lb e -> ~ In (cover_from h e) (map fst e).
Proof.
  induction e as [|[lo [hi t]] rest IH]; intros lb h Hv; [simpl; tauto|].
  rewrite cover_from_cons. simpl in *. destruct Hv as (H1 & H2 & H3).
  intros [Hk|Hk].
  - destruct (Z.eqb_spec lo h).
    + pose proof (cover_from_ge rest _ (hi + 1) H3). lia.
    + destruct (cover_from_jump rest _ h H3); lia.
  - revert Hk. apply (IH _ _ H3).
Qed.

(** Every character below the end of the run is taken by an edge. *)
Lemma cover_from_covered e : forall h c,
  c < cover_from h e -> c < h \/ covers e c = true.
Proof.
  induction e as [|[lo [hi t]] rest IH]; intros h c Hc; [left; exact Hc|].
  rewrite cover_from_cons in Hc. simpl in Hc.
  destruct (IH _ _ Hc) as [H|H].
  - destruct (Z.eqb_spec lo h); [|left; assumption].
    destruct (Z_lt_ge_dec c h); [left; assumption|right].
    simpl. destruct (Z.leb_spec lo c), (Z.leb_spec c hi); simpl; try reflexivity; lia.
  - right. simpl. rewrite H. apply orb_true_r.
Qed.

Lemma disjoint_from_valid e : forall lb, disjoint_from lb e -> valid_from lb e.
Proof.
  induction e as [|[lo [hi t]] rest IH]; intros lb H; simpl in *; [trivial|].
  destruct H as (H1 & H2 & H3). repeat split; [assumption|assumption|].
  specialize (IH _ H3). destruct rest as [|[lo' [hi' t']] rest']; simpl in *; [trivial|].
  destruct IH as (I1 & I2 & I3). repeat split; [lia|assumption|assumption].
Qed.

(** With disjoint edges, the character at the end of the run is taken by no
    edge: it is the least character without an edge. *)
Lemma cover_from_uncovered e : forall lb h,
  disjoint_from lb e -> h <= lb -> covers e (cover_from h e) = false.
Proof.
  induction e as [|[lo [hi t]] rest IH]; intros lb h Hd Hh; [reflexivity|].
  rewrite cover_from_cons. simpl in *. destruct Hd as (H1 & H2 & H3).
  pose proof (disjoint_from_valid _ _ H3) as Hv.
  destruct (Z.eqb_spec lo h).
  - rewrite (IH (hi + 1)) by (assumption || lia).
    pose proof (cover_from_ge rest _ (hi + 1) Hv).
    destruct (Z.leb_spec lo (cover_from (hi + 1) rest)),
      (Z.leb_spec (cover_from (hi + 1) rest) hi); simpl; try reflexivity; lia.
  - rewrite (IH (hi + 1)) by (assumption || lia).
    destruct (cover_from_jump rest _ h Hv);
      destruct (Z.leb_spec lo (cover_from h rest)),
        (Z.leb_spec (cover_from h rest) hi); simpl; try reflexivity; lia.
Qed.

Lemma edges_set_fresh k v e :
  ~ In k (map fst e) -> List.length (edges_set k v e) = S (List.length e).
Proof.
  induction e as [|[lo' v'] rest IH]; intros H; simpl; [reflexivity|].
  simpl in H. destruct (Z.eqb_spec k lo'); [exfalso; apply H; left; congruence|].
  destruct (k <? lo'); simpl; [reflexivity|]. rewrite IH; [reflexivity|tauto].
Qed.

Lemma edges_set_In k v e : In (k, v) (edges_set k v e).
Proof.
  induction e as [|[lo' v'] rest IH]; simpl; [left; reflexivity|].
  destruct (Z.eqb_spec k lo'); [left; congruence|].
  destruct (k <? lo'); simpl; [left; reflexivity|right; assumption].
Qed.

(** C5, as the code has it: the first pass of [encode_dfa] adds exactly one
    dead-state edge, from [hi] to 0xff with a null target, if and only if the
    run of edges that covers the bytes from 0 on without a gap ends at some
    [hi <= 0xff]; every byte below [hi] has an edge, and with disjoint edges
    [hi] itself has none.  A state whose run reaches beyond 0xff gets no edge. *)
Theorem count_state_dead_edge :
  forall (s : State) (nop_ : Index) (st : PState) s' nop' st',
    valid_from 0 (edges s) ->
    count_state s nop_ st = Return (s', nop') st' ->
    let hi := cover_from 0 (edges s) in
    (forall c, 0 <= c < hi -> covers (edges s) c = true) /\
    (disjoint_from 0 (edges s) -> covers (edges s) hi = false) /\
    (hi <= 255 ->
     edges s' = edges_set hi (255, None) (edges s) /\
     In (hi, (255, None)) (edges s') /\
     ~ In hi (map fst (edges s)) /\
     List.length (edges s') = S (List.length (edges s))) /\
    (255 < hi -> edges s' = edges s).
Proof.
  intros s nop_ st s' nop' st' Hv Hrun hi.
  assert (He : edges s' = if hi <=? 255 then edges_set hi (255, None) (edges s)
                          else edges s).
  { unfold count_state in Hrun.
    destruct (count_edges (edges (with_index s nop_)) nop_) as [h n1] eqn:Ec.
    assert (Hh : h = hi).
    { change (edges (with_index s nop_)) with (edges s) in Ec.
      pose proof (count_edges_fst (edges s) nop_) as E.
      rewrite Ec in E. exact E. }
    subst h. fold hi in Hrun.
    destruct (hi <=? 255).
    - apply bind_Return in Hrun. destruct Hrun as (u & st1 & _ & Hrun).
      unfold ret in Hrun. inversion Hrun; subst. reflexivity.
    - apply bind_Return in Hrun. destruct Hrun as (u & st1 & _ & Hrun).
      unfold ret in Hrun. inversion Hrun; subst. reflexivity. }
  pose proof (cover_from_fresh (edges s) 0 0 Hv) as Hfresh. fold hi in Hfresh.
  repeat split.
  - intros c Hc. destruct (cover_from_covered (edges s) 0 c); [fold hi; lia|lia|assumption].
  - intros Hd. apply (cover_from_uncovered (edges s) 0 0); [assumption|lia].
  - destruct (Z.leb_spec hi 255); [assumption|lia].
  - rewrite He. destruct (Z.leb_spec hi 255); [apply edges_set_In|lia].
  - assumption.
  - rewrite He. destruct (Z.leb_spec hi 255); [apply edges_set_fresh; assumption|lia].
  - intros H. rewrite He. destruct (Z.leb_spec hi 255); [lia|reflexivity].
Qed.

(** The state of the list [[^a]]: edges for 0..0x60 and 0x62..0xff. *)
Lemma count_state_dead_edge_example :
  let s := with_edges (new_State []) [(0, (96, Some 1%nat)); (98, (255, Some 1%nat))] in
  exists s' nop' st',
    count_state s 0 (initial Opt.default) = Return (s', nop') st' /\
    cover_from 0 (edges s) = 97 /\
    edges s' = [(0, (96, Some 1%nat)); (97, (255, None)); (98, (255, Some 1%nat))].
Proof.
  cbv zeta.
  destruct (count_state
              (with_edges (new_State []) [(0, (96, Some 1%nat)); (98, (255, Some 1%nat))])
              0 (initial Opt.default)) as [[s' nop'] st'| |] eqn:E;
    try (vm_compute in E; discriminate).
  exists s', nop', st'. split; [reflexivity|]. split; [reflexivity|].
  assert (Hv : valid_from 0
                 (edges (with_edges (new_State [])
                           [(0, (96, Some 1%nat)); (98, (255, Some 1%nat))])))
    by (simpl; lia).
  pose proof (count_state_dead_edge _ _ _ _ _ _ Hv E) as H.
  cbv zeta in H. destruct H as (_ & _ & H & _).
  destruct H as (H & _); [vm_compute; discriminate|]. exact H.
Defined.

(** C5 as stated fails: the edges of this state take the byte 0xff, and the
    state still gets the dead-state edge (from 0x61, the one byte without an
    edge). *)
Lemma dead_edge_although_0xff_covered :
  let s := with_edges (new_State []) [(0, (96, Some 1%nat)); (98, (255, Some 1%nat))] in
  covers (edges s) 255 = true /\
  exists s' nop' st',
    count_state s 0 (initial Opt.default) = Return (s', nop') st' /\
    In (97, (255, None)) (edges s') /\
    List.length (edges s') = S (List.length (edges s)).
Proof.
  cbv zeta. split; [reflexivity|].
  eexists _, _, _. split; [vm_compute; reflexivity|].
  split; [simpl; tauto|reflexivity].
Qed.

(** ** [compile_transition]: the accepted rule of a state *)

Ltac inv_ret H := unfold ret in H; inversion H; subst; clear H.

(** Takes a successful run apart, one [bind] or test at a time. *)
Ltac step_run H :=
  match type of H with
  | bind _ _ _ = Return _ _ =>
      let a := fresh "a" in
      let st := fresh "st" in
      let Ha := fresh "Ha" in
      apply bind_Return in H; destruct H as (a & st & Ha & H)
  | (if ?c then _ else _) _ = Return _ _ => destruct c eqn:?
  | (match ?x with _ => _ end) _ = Return _ _ => destruct x eqn:?
  | (let '(_, _) := ?x in _) _ = Return _ _ => destruct x eqn:?
  | ret _ _ = Return _ _ => inv_ret H
  | out_of_fuel _ = Return _ _ => discriminate H
  end.

Lemma compile_accept_accept k s :
  accept (compile_accept k s) = accept_step (accept s) (Position.accepts k).
Proof.
  unfold compile_accept, accept_step.
  destruct ((accept s =? 0) || (Position.accepts k <? accept s));
    destruct (Position.accepts k =? 0); reflexivity.
Qed.

Lemma compile_position_accept rex_ strtoul n modifiers lookahead k s moves st s' moves' st' :
  compile_position rex_ strtoul n modifiers lookahead k (s, moves) st
    = Return (s', moves') st' ->
  accept s' = if Position.accept k then accept_step (accept s) (Position.accepts k)
              else accept s.
Proof.
  unfold compile_position. intros H.
  destruct (Position.accept k).
  - inv_ret H. apply compile_accept_accept.
  - repeat step_run H; try reflexivity;
      try (destruct (negb (Position.ticked k)); reflexivity).
Qed.

Lemma compile_positions_accept rex_ strtoul n modifiers lookahead ks :
  forall s moves st s' moves' st',
    compile_positions rex_ strtoul n modifiers lookahead ks (s, moves) st
      = Return (s', moves') st' ->
    accept s' = fold_left accept_step (accepts_of ks) (accept s).
Proof.
  induction ks as [|k rest IH]; intros s moves st s' moves' st' H; simpl in H.
  - inv_ret H. reflexivity.
  - apply bind_Return in H. destruct H as ([s1 moves1] & st1 & H1 & H).
    apply compile_position_accept in H1. apply IH in H. rewrite H.
    unfold accepts_of. simpl. destruct (Position.accept k); simpl; rewrite H1; reflexivity.
Qed.

Lemma after_last_zero_no_zero l :
  existsb (Z.eqb 0) l = false -> after_last_zero l = l.
Proof.
  destruct l as [|a rest]; cbn [existsb after_last_zero]; [reflexivity|].
  intros H. apply orb_false_iff in H. destruct H as [Ha Hr]. rewrite Hr.
  rewrite Z.eqb_sym, Ha. reflexivity.
Qed.

Lemma fold_min_comm l : forall a b,
  fold_left Z.min l (Z.min a b) = fold_left Z.min (b :: l) a.
Proof. reflexivity. Qed.

(** The loop over the accepting positions computes the least rule number
    after the last rule 0. *)
Lemma fold_accept_step l : forall acc,
  0 <= acc -> Forall (fun a => 0 <= a) l ->
  fold_left accept_step l acc = minimum (after_last_zero (acc :: l)).
Proof.
  induction l as [|a rest IH]; intros acc Hacc Hl.
  - simpl. destruct (Z.eqb_spec acc 0); [assumption|reflexivity].
  - inversion Hl as [|x r Ha Hrest]; subst.
    change (fold_left accept_step (a :: rest) acc)
      with (fold_left accept_step rest (accept_step acc a)).
    assert (Hs : 0 <= accept_step acc a).
    { unfold accept_step. destruct ((acc =? 0) || (a <? acc)); assumption. }
    rewrite (IH _ Hs Hrest).
    change (after_last_zero (acc :: a :: rest))
      with (if existsb (Z.eqb 0) (a :: rest) then after_last_zero (a :: rest)
            else if acc =? 0 then a :: rest else acc :: a :: rest).
    change (after_last_zero (accept_step acc a :: rest))
      with (if existsb (Z.eqb 0) rest then after_last_zero rest
            else if accept_step acc a =? 0 then rest else accept_step acc a :: rest).
    cbn [existsb].
    destruct (existsb (Z.eqb 0) rest) eqn:Ez.
    + rewrite orb_true_r. cbn [after_last_zero]. rewrite Ez. reflexivity.
    + rewrite orb_false_r.
      destruct (Z.eqb_spec 0 a) as [E0|E0].
      * subst a. cbn [after_last_zero]. rewrite Ez. rewrite Z.eqb_refl.
        assert (Hz : accept_step acc 0 = 0).
        { unfold accept_step. destruct (Z.eqb_spec acc 0); simpl; [reflexivity|].
          destruct (Z.ltb_spec 0 acc); [reflexivity|lia]. }
        rewrite Hz, Z.eqb_refl. reflexivity.
      * unfold accept_step.
        destruct (Z.eqb_spec acc 0); simpl.
        -- destruct (Z.eqb_spec a 0); [lia|reflexivity].
        -- destruct (Z.ltb_spec a acc).
           ++ destruct (Z.eqb_spec a 0); [lia|]. simpl. f_equal. lia.
           ++ destruct (Z.eqb_spec acc 0); [lia|]. simpl. f_equal. lia.
Qed.




(** ** Positions, position sets and the follow map *)

Lemma lex_eq a : forall b, Position.lex a b = Eq -> a = b.
Proof.
  induction a as [|x a IH]; intros [|y b] H; simpl in H; try discriminate; [reflexivity|].
  destruct (Z.compare_spec x y); try discriminate. subst. f_equal. apply IH. assumption.
Qed.

Lemma lex_refl a : Position.lex a a = Eq.
Proof. induction a as [|x a IH]; simpl; [reflexivity|]. rewrite Z.compare_refl. assumption. Qed.

Lemma lex_lt_trans a : forall b c,
  Position.lex a b = Lt -> Position.lex b c = Lt -> Position.lex a c = Lt.
Proof.
  induction a as [|x a IH]; intros [|y b] [|z c] H1 H2; simpl in *;
    try discriminate; try reflexivity.
  destruct (Z.compare_spec x y), (Z.compare_spec y z); try discriminate; subst.
  - rewrite Z.compare_refl. eapply IH; eassumption.
  - destruct (Z.compare_spec y z); [lia|reflexivity|lia].
  - destruct (Z.compare_spec x z); [lia|reflexivity|lia].
  - destruct (Z.compare_spec x z); [lia|reflexivity|lia].
Qed.

Lemma b2z_inj u v : Position.b2z u = Position.b2z v -> u = v.
Proof. destruct u, v; simpl; intros H; congruence || discriminate. Qed.

Lemma Position_compare_eq p q : Position.compare p q = Eq -> p = q.
Proof.
  unfold Position.compare. intros H. apply lex_eq in H.
  destruct p, q. unfold Position.key in H. simpl in H.
  inversion H. f_equal; auto using b2z_inj.
Qed.

Lemma Position_compare_refl p : Position.compare p p = Eq.
Proof. apply lex_refl. Qed.

Lemma Position_compare_lt_trans p q r :
  Position.compare p q = Lt -> Position.compare q r = Lt -> Position.compare p r = Lt.
Proof. apply lex_lt_trans. Qed.

Lemma insert_In p s x : In x (insert p s) <-> x = p \/ In x s.
Proof.
  induction s as [|q rest IH]; simpl.
  - intuition.
  - destruct (Position.compare p q) eqn:E; simpl.
    + apply Position_compare_eq in E. subst. intuition.
    + intuition.
    + rewrite IH. intuition.
Qed.

Lemma fold_insert_In {A} (g : A -> Position.t) l : forall acc x,
  In x (fold_left (fun acc a => insert (g a) acc) l acc)
  <-> In x acc \/ exists a, In a l /\ x = g a.
Proof.
  induction l as [|a rest IH]; intros acc x; simpl.
  - split; [auto|]. intros [H|(a & [] & _)]. assumption.
  - rewrite IH, insert_In. split.
    + intros [[H|H]|(a' & Ha & Hx)]; eauto.
    + intros [H|(a' & [Ha|Ha] & Hx)]; subst; eauto.
Qed.

Lemma set_insert_In s1 s2 x : In x (set_insert s1 s2) <-> In x s1 \/ In x s2.
Proof.
  unfold set_insert. rewrite (fold_insert_In (fun p => p)). split.
  - intros [H|(a & Ha & ->)]; auto.
  - intros [H|H]; eauto.
Qed.

Lemma lazy3_In lazypos pos : forall pos1 x,
  In x (lazy3 lazypos pos pos1)
  <-> In x pos1 \/ exists p q, In p pos /\ In q lazypos
                              /\ x = Position.set_lazy p (Position.loc q).
Proof.
  unfold lazy3. induction pos as [|p rest IH]; intros pos1 x; simpl.
  - split; [auto|]. intros [H|(p & q & [] & _)]. assumption.
  - rewrite IH, (fold_insert_In (fun q => Position.set_lazy p (Position.loc q))). split.
    + intros [[H|(q & Hq & Hx)]|(p' & q & Hp & Hq & Hx)]; eauto 8.
    + intros [H|(p' & q & [Hp|Hp] & Hq & Hx)]; subst; eauto 8.
Qed.

Lemma follow_find_update_same k g fp :
  follow_find k (follow_update k g fp) = Some (g (follow_at k fp)).
Proof.
  unfold follow_at. induction fp as [|[k1 s] rest IH]; simpl.
  - rewrite Position_compare_refl. reflexivity.
  - destruct (Position.compare k k1) eqn:E; simpl.
    + rewrite E. reflexivity.
    + rewrite Position_compare_refl. reflexivity.
    + rewrite E. assumption.
Qed.

Lemma follow_find_update_other k' k g fp :
  Position.compare k' k <> Eq ->
  follow_find k' (follow_update k g fp) = follow_find k' fp.
Proof.
  intros Hne. induction fp as [|[k1 s] rest IH]; simpl.
  - destruct (Position.compare k' k); [contradiction|reflexivity|reflexivity].
  - destruct (Position.compare k k1) eqn:E; simpl.
    + apply Position_compare_eq in E. subst k1.
      destruct (Position.compare k' k); [contradiction|reflexivity|reflexivity].
    + destruct (Position.compare k' k) eqn:E'; [contradiction| |reflexivity].
      rewrite (Position_compare_lt_trans _ _ _ E' E). reflexivity.
    + destruct (Position.compare k' k1); [reflexivity|reflexivity|assumption].
Qed.

(** An update that only adds keeps what the follow map had. *)
Lemma follow_update_mono k' k g fp x :
  (forall s y, In y s -> In y (g s)) ->
  In x (follow_at k' fp) -> In x (follow_at k' (follow_update k g fp)).
Proof.
  intros Hg Hx. destruct (Position.compare k' k) eqn:E.
  - apply Position_compare_eq in E. subst k'.
    unfold follow_at at 1. rewrite follow_find_update_same. apply Hg. assumption.
  - unfold follow_at. rewrite follow_find_update_other by congruence. assumption.
  - unfold follow_at. rewrite follow_find_update_other by congruence. assumption.
Qed.

Lemma follow_all_mono pos s : forall fp k x,
  In x (follow_at k fp) -> In x (follow_at k (follow_all pos s fp)).
Proof.
  unfold follow_all. induction pos as [|p rest IH]; intros fp k x H; simpl; [assumption|].
  apply IH. unfold follow_set_insert. apply follow_update_mono; [|assumption].
  intros t y Hy. apply set_insert_In. left. assumption.
Qed.

(** After [for p in pos: set_insert(followpos[p->pos()], s)], the follow set
    of every [p] of [pos] holds [s]. *)
Lemma follow_all_In pos s : forall fp p x,
  In p pos -> In x s -> In x (follow_at (Position.pos p) (follow_all pos s fp)).
Proof.
  induction pos as [|p0 rest IH]; intros fp p x Hp Hx; [contradiction|].
  destruct Hp as [->|Hp].
  - change (follow_all (p :: rest) s fp)
      with (follow_all rest s (follow_set_insert (Position.pos p) s fp)).
    apply follow_all_mono. unfold follow_set_insert, follow_at.
    rewrite follow_find_update_same. apply set_insert_In. right. assumption.
  - change (follow_all (p0 :: rest) s fp)
      with (follow_all rest s (follow_set_insert (Position.pos p0) s fp)).
    apply IH; assumption.
Qed.

(** ** [parse3]: the closure of [*] and [+] *)

Lemma set_lazy_set_lazy p a b :
  Position.set_lazy (Position.set_lazy p a) b = Position.set_lazy p b.
Proof. reflexivity. Qed.

(** C6, as the code has it: after the quantifier [*] or [+] is parsed, the
    follow set of [p.pos()] holds [firstpos] for every [p] of [lastpos] --
    except for a [+] on a sub-regex that is not nullable while a lazy
    quantifier is pending ([lazypos] is not empty): there the follow set
    holds the lazy copies of the positions of [firstpos] instead. *)
Theorem quantifier_follow_closure :
  forall rex_ (c : Char) (fr : Frame) (st : PState) fr' st' p x,
    quantifier rex_ c fr st = Return fr' st' ->
    c = ch "*" \/ c = ch "+" ->
    In p (lastpos fr') ->
    In x (firstpos fr') ->
    if eqc c "+" && negb (nullable fr') && negb (empty (lazypos fr'))
    then forall q, In q (lazypos fr') ->
                   In (Position.set_lazy x (Position.loc q))
                      (follow_at (Position.pos p) (followpos st'))
    else In x (follow_at (Position.pos p) (followpos st')).
Proof.
  intros rex_ c fr st fr' st' p x Hrun Hc Hp Hx.
  unfold quantifier in Hrun.
  set (fr3 :=
         let fr := if eqc c "*" || eqc c "?" then with_nullable fr true else fr in
         let fr := with_loc fr (loc fr + 1) in
         if eqc (at_ rex_ (loc fr)) "?" then
           let fr := with_lazypos fr (insert (Position.of_loc (loc fr)) (lazypos fr)) in
           let fr :=
             if nullable fr
             then with_firstpos fr (lazy2 (lazypos fr) (firstpos fr))
             else fr in
           with_loc fr (loc fr + 1)
         else with_firstpos fr (greedy (firstpos fr))) in *.
  cbv zeta in Hrun. fold fr3 in Hrun.
  destruct (eqc c "+" && negb (nullable fr3) && negb (empty (lazypos fr3))) eqn:Hcond.
  - unfold bind, modify_followpos, modify, ret in Hrun. inversion Hrun; subst; clear Hrun.
    simpl in *. rewrite Hcond. intros q Hq.
    apply follow_all_In; [assumption|].
    apply set_insert_In in Hx. apply lazy3_In. right. destruct Hx as [Hx|Hx].
    + exists x, q. auto.
    + apply lazy3_In in Hx. destruct Hx as [[]|(x0 & q0 & Hx0 & Hq0 & ->)].
      exists x0, q. rewrite set_lazy_set_lazy. auto.
  - assert (Hstar : eqc c "*" || eqc c "+" = true).
    { unfold eqc. destruct Hc as [->| ->]; reflexivity. }
    rewrite Hstar in Hrun.
    unfold bind, modify_followpos, modify, ret in Hrun. inversion Hrun; subst; clear Hrun.
    simpl in *. rewrite Hcond.
    apply follow_all_In; assumption.
Qed.

(** The greedy [a+]: the follow set of [a] holds the greedy position of [a]. *)
Lemma quantifier_follow_closure_plus :
  let a := Position.of_loc 0 in
  let fr := mkFrame 1 [a] [a] false [] 1 in
  exists fr' st',
    quantifier "a+" (ch "+") fr (initial Opt.default) = Return fr' st' /\
    In a (lastpos fr') /\
    In (Position.set_greedy a true) (firstpos fr') /\
    In (Position.set_greedy a true) (follow_at (Position.pos a) (followpos st')).
Proof.
  cbv zeta.
  destruct (quantifier "a+" (ch "+") (mkFrame 1 [Position.of_loc 0] [Position.of_loc 0]
                                        false [] 1) (initial Opt.default))
    as [fr' st'| |] eqn:E; try (vm_compute in E; discriminate).
  exists fr', st'.
  assert (Hp : In (Position.of_loc 0) (lastpos fr'))
    by (vm_compute in E; inversion E; subst; simpl; tauto).
  assert (Hx : In (Position.set_greedy (Position.of_loc 0) true) (firstpos fr'))
    by (vm_compute in E; inversion E; subst; simpl; tauto).
  assert (Hn : eqc (ch "+") "+" && negb (nullable fr') && negb (empty (lazypos fr')) = false)
    by (vm_compute in E; inversion E; subst; reflexivity).
  pose proof (quantifier_follow_closure _ _ _ _ _ _ _ _ E (or_intror eq_refl) Hp Hx) as H.
  rewrite Hn in H. repeat split; assumption.
Defined.

(** C6 as stated fails on the lazy [a+?]: the position of [a] is in [firstpos]
    and in [lastpos], and its follow set holds only the lazy copy of [a]. *)
Lemma lazy_plus_follow_lacks_firstpos :
  exists fr' st',
    parse3_ "a+?" (fun _ => (false, 0)) 10 true (mkFrame 0 [] [] false [] 0)
            (initial Opt.default) = Return fr' st' /\
    loc fr' = 3 /\
    In (Position.of_loc 0) (lastpos fr') /\
    In (Position.of_loc 0) (firstpos fr') /\
    ~ In (Position.of_loc 0) (follow_at (Position.of_loc 0) (followpos st')).
Proof.
  eexists _, _. split; [vm_compute; reflexivity|].
  split; [reflexivity|]. split; [simpl; tauto|]. split; [simpl; tauto|].
  vm_compute. intros [H|[]]. discriminate.
Qed.

(** ** The parser moves forward and keeps the options it does not own *)

Lemma get_opt_run st o st' : get_opt st = Return o st' -> o = opt_ st /\ st' = st.
Proof. unfold get_opt. intros H. inversion H. auto. Qed.

Lemma get_lookahead_run st r st' :
  get_lookahead st = Return r st' -> r = lookahead st /\ st' = st.
Proof. unfold get_lookahead. intros H. inversion H. auto. Qed.

Lemma get_followpos_run st r st' :
  get_followpos st = Return r st' -> r = followpos st /\ st' = st.
Proof. unfold get_followpos. intros H. inversion H. auto. Qed.

Lemma modify_run g st u st' : modify g st = Return u st' -> st' = g st.
Proof. unfold modify. intros H. inversion H. reflexivity. Qed.

Lemma modify_followpos_run g st u st' :
  modify_followpos g st = Return u st' ->
  st' = with_followpos st (g (followpos st)).
Proof. unfold modify_followpos. apply modify_run. Qed.

Lemma error_run code message k st u st' :
  error code message k st = Return u st' ->
  fixed_part st' = fixed_part st /\ opt_ st' = opt_ st /\ lookahead st' = lookahead st.
Proof.
  intros H. apply error_Return in H. destruct H as (H1 & _ & _ & H4 & _).
  unfold fixed_part. rewrite H1. auto.
Qed.

Lemma scan_run n stop : forall k st k' st',
  scan n stop k st = Return k' st' -> k <= k' /\ st' = st.
Proof.
  induction n as [|n IH]; intros k st k' st' H; simpl in H; [discriminate|].
  destruct (stop k).
  - inv_ret H. split; [lia|reflexivity].
  - apply IH in H. destruct H. split; [lia|assumption].
Qed.

Lemma skip_upto_ge rex_ count p : forall k, k <= skip_upto rex_ count p k.
Proof.
  induction count as [|c IH]; intros k; simpl; [lia|].
  destruct (p (at_ rex_ k)); [|lia]. specialize (IH (k + 1)). lia.
Qed.

(** Replaces the run of a basic step by what it says of its result. *)
Ltac basic_runs :=
  repeat match goal with
    | H : get_opt _ = Return _ _ |- _ =>
        apply get_opt_run in H; destruct H; subst
    | H : get_lookahead _ = Return _ _ |- _ =>
        apply get_lookahead_run in H; destruct H; subst
    | H : get_followpos _ = Return _ _ |- _ =>
        apply get_followpos_run in H; destruct H; subst
    | H : modify_followpos _ _ = Return _ _ |- _ =>
        apply modify_followpos_run in H; subst
    | H : modify _ _ = Return _ _ |- _ =>
        apply modify_run in H; subst
    | H : error _ _ _ _ = Return _ _ |- _ =>
        apply error_run in H; destruct H as (? & ? & ?)
    | H : scan _ _ _ _ = Return _ _ |- _ =>
        apply scan_run in H; destruct H; subst
    end.

(** Takes every successful run of the context apart. *)
Ltac run_all :=
  repeat match goal with
    | H : _ = Return _ _ |- _ => step_run H
    | H : (if ?c then _ else _) = (_, _) |- _ => destruct c eqn:?
    | H : (_, _) = (_, _) |- _ => inversion H; subst; clear H
    end.

(** Closes a goal [cursor moved forward /\ fixed options kept]. *)
Ltac frame_simpl :=
  cbn [loc with_loc with_firstpos with_lastpos with_nullable with_lazypos with_iter
       fst snd] in *.

Ltac close_run :=
  split;
  [ frame_simpl;
    repeat (match goal with
            | |- context [if ?c then _ else _] => destruct c
            | H : context [if ?c then _ else _] |- _ =>
                match type of H with _ <= _ => destruct c end
            end; frame_simpl);
    try lia
  | unfold fixed_part in *; cbn in *; congruence ].

Lemma parse_esc_braces_run rex_ n p message k st k' st' :
  parse_esc_braces rex_ n p message k st = Return k' st' ->
  k <= k' /\ fixed_part st' = fixed_part st.
Proof.
  unfold parse_esc_braces. intros H. run_all; basic_runs; close_run.
Qed.

Lemma parse_esc_run rex_ n k st k' st' :
  parse_esc rex_ n k st = Return k' st' ->
  k <= k' /\ fixed_part st' = fixed_part st.
Proof.
  unfold parse_esc. intros H. cbv zeta in H.
  run_all; basic_runs;
    repeat match goal with
      | H : parse_esc_braces _ _ _ _ _ _ = Return _ _ |- _ =>
          apply parse_esc_braces_run in H; destruct H
      end;
    close_run.
Qed.

Lemma quantifier_run rex_ c fr st fr' st' :
  quantifier rex_ c fr st = Return fr' st' ->
  loc fr <= loc fr' /\ fixed_part st' = fixed_part st.
Proof.
  unfold quantifier. intros H. cbv zeta in H.
  run_all; basic_runs; close_run.
Qed.

Lemma digits_ge rex_ count wrap : forall k j, j <= snd (digits rex_ count wrap k j).
Proof.
  induction count as [|c IH]; intros k j; cbn [digits]; [simpl; lia|].
  cbv zeta. destruct (isdigit (at_ rex_ (j + 1))); [|simpl; lia].
  eapply Z.le_trans; [|apply IH]. lia.
Qed.

Lemma repeat_range_run rex_ b_pos fr st fr' st' :
  repeat_range rex_ b_pos fr st = Return fr' st' ->
  loc fr <= loc fr' /\ fixed_part st' = fixed_part st.
Proof.
  unfold repeat_range. intros H.
  pose proof (digits_ge rex_ 7 (fun z => z) 0 (loc fr)) as Hd.
  destruct (digits rex_ 7 (fun z => z) 0 (loc fr)) as [k j] eqn:Ed. simpl in Hd.
  pose proof (digits_ge rex_ 7 to_Index 0 j) as Hd2.
  destruct (digits rex_ 7 to_Index 0 j) as [m j2] eqn:Ed2. simpl in Hd2.
  cbv zeta in H.
  run_all; basic_runs; close_run.
Qed.

Lemma parse3_good rex_ n P : good P -> good (parse3 rex_ n P).
Proof.
  intros HP b fr st fr' st' H. unfold parse3 in H. cbv zeta in H.
  apply bind_Return in H. destruct H as (fr1 & st1 & H1 & H).
  apply HP in H1. destruct H1 as [Hl1 Hf1].
  run_all; basic_runs;
    repeat match goal with
      | H : quantifier _ _ _ _ = Return _ _ |- _ =>
          apply quantifier_run in H; destruct H
      | H : repeat_range _ _ _ _ = Return _ _ |- _ =>
          apply repeat_range_run in H; destruct H
      end;
    close_run.
Qed.

Lemma anchors_run rex_ n : forall a_pos k st b a_pos' k' st',
  anchors rex_ n a_pos k st = Return (b, a_pos', k') st' ->
  k <= k' /\ fixed_part st' = fixed_part st.
Proof.
  induction n as [|n IH]; intros a_pos k st b a_pos' k' st' H; [discriminate|].
  cbn [anchors] in H.
  run_all; basic_runs;
    repeat match goal with
      | H : anchors _ _ _ _ _ = Return _ _ |- _ => apply IH in H; destruct H
      end;
    close_run.
Qed.

Lemma parse2_loop_run rex_ P n : good P ->
  forall fr fr1 l_pos st fr' l_pos' st',
    parse2_loop rex_ n P fr fr1 l_pos st = Return (fr', l_pos') st' ->
    loc fr <= loc fr' /\ fixed_part st' = fixed_part st.
Proof.
  intros HP. induction n as [|n IH]; intros fr fr1 l_pos st fr' l_pos' st' H;
    [discriminate|].
  cbn [parse2_loop] in H. cbv zeta in H.
  run_all; basic_runs;
    repeat match goal with
      | H : P _ _ _ = Return _ _ |- _ => apply HP in H; destruct H
      | H : parse2_loop _ _ _ _ _ _ _ = Return _ _ |- _ => apply IH in H; destruct H
      end;
    close_run.
Qed.

Lemma splice_anchor_loc rex_ o la p fr fp :
  loc (fst (splice_anchor rex_ o la p (fr, fp))) = loc fr.
Proof.
  unfold splice_anchor. cbv zeta. destruct (nullable (with_lastpos fr (insert p [])));
    reflexivity.
Qed.

Lemma fold_splice_anchor_loc rex_ o la a_pos : forall fr fp,
  loc (fst (fold_left (fun acc p => splice_anchor rex_ o la p acc) a_pos (fr, fp)))
  = loc fr.
Proof.
  induction a_pos as [|p rest IH]; intros fr fp; [reflexivity|].
  cbn [fold_left].
  destruct (splice_anchor rex_ o la p (fr, fp)) as [fr1 fp1] eqn:E.
  rewrite IH. pose proof (splice_anchor_loc rex_ o la p fr fp) as H.
  rewrite E in H. exact H.
Qed.

Lemma parse2_good rex_ indeterminate n P : good P -> good (parse2 rex_ indeterminate n P).
Proof.
  intros HP b fr st fr' st' H. unfold parse2 in H.
  apply bind_Return in H. destruct H as ([[b1 a_pos] k] & st1 & H1 & H).
  assert (Hk : loc fr <= k /\ fixed_part st1 = fixed_part st).
  { destruct b.
    - apply anchors_run in H1. assumption.
    - inv_ret H1. split; [lia|reflexivity]. }
  destruct Hk as [Hk Hf1].
  apply bind_Return in H. destruct H as (fr2 & st2 & H2 & H).
  apply HP in H2. destruct H2 as [Hl2 Hf2]. cbn [loc with_loc] in Hl2.
  destruct (indeterminate k) as [nullable1 iter1].
  apply bind_Return in H. destruct H as ([fr3 l_pos] & st3 & H3 & H).
  apply (parse2_loop_run _ _ _ HP) in H3. destruct H3 as [Hl3 Hf3].
  apply bind_Return in H. destruct H as (o & st4 & H4 & H).
  apply bind_Return in H. destruct H as (la & st5 & H5 & H).
  apply bind_Return in H. destruct H as (fp & st6 & H6 & H).
  basic_runs.
  pose proof (fold_splice_anchor_loc rex_ (opt_ st3) (lookahead st3) a_pos fr3
                                     (followpos st3)) as Hs.
  destruct (fold_left (fun acc p => splice_anchor rex_ (opt_ st3) (lookahead st3) p acc)
                      a_pos (fr3, followpos st3)) as [fr4 fp4].
  cbn [fst] in Hs.
  run_all; basic_runs; close_run.
Qed.

Lemma parse1_loop_run rex_ P n b : good P ->
  forall fr fr1 st fr' st',
    parse1_loop rex_ n P b fr fr1 st = Return fr' st' ->
    loc fr <= loc fr' /\ fixed_part st' = fixed_part st.
Proof.
  intros HP. induction n as [|n IH]; intros fr fr1 st fr' st' H; [discriminate|].
  cbn [parse1_loop] in H. cbv zeta in H.
  run_all; basic_runs;
    repeat match goal with
      | H : P _ _ _ = Return _ _ |- _ => apply HP in H; destruct H
      | H : parse1_loop _ _ _ _ _ _ _ = Return _ _ |- _ => apply IH in H; destruct H
      end;
    close_run.
Qed.

Lemma parse1_good rex_ indeterminate n P : good P -> good (parse1 rex_ indeterminate n P).
Proof.
  intros HP b fr st fr' st' H. unfold parse1 in H.
  destruct (indeterminate (loc fr)) as [nullable1 iter1].
  apply bind_Return in H. destruct H as (fr2 & st2 & H2 & H).
  apply HP in H2. destruct H2 as [Hl2 Hf2].
  apply (parse1_loop_run _ _ _ _ HP) in H. destruct H as [Hl3 Hf3].
  split; [lia|congruence].
Qed.

Lemma find_char_ge c str : forall idx from r,
  find_char c str idx from = Some r -> from <= r.
Proof.
  induction str as [|a rest IH]; intros idx from r H; simpl in H; [discriminate|].
  destruct (Z.leb_spec from idx); simpl in H.
  - destruct (ch a =? c).
    + inversion H. lia.
    + eapply IH. eassumption.
  - eapply IH. eassumption.
Qed.

Lemma parse4_comment_run rex_ n fr st c fr' st' :
  parse4_comment rex_ n fr st = Return (c, fr') st' ->
  loc fr <= loc fr' /\ fixed_part st' = fixed_part st.
Proof.
  unfold parse4_comment. intros H. cbv zeta in H. run_all; basic_runs; close_run.
Qed.

Lemma parse4_negative_run P b fr st fr' st' :
  good P ->
  parse4_negative P b fr st = Return fr' st' ->
  loc fr <= loc fr' /\ fixed_part st' = fixed_part st.
Proof.
  unfold parse4_negative. intros HP H. run_all; basic_runs.
  match goal with H : P _ _ _ = Return _ _ |- _ => apply HP in H; destruct H end.
  close_run.
Qed.

Lemma parse4_lookahead_run P b fr st fr' st' :
  good P ->
  parse4_lookahead P b fr st = Return fr' st' ->
  loc fr <= loc fr' /\ fixed_part st' = fixed_part st.
Proof.
  unfold parse4_lookahead. intros HP H. cbv zeta in H. run_all; basic_runs;
    match goal with H : P _ _ _ = Return _ _ |- _ => apply HP in H; destruct H end;
    close_run.
Qed.

Lemma modifier_flags_run rex_ n : forall c k st c' k' st',
  modifier_flags rex_ n c k st = Return (c', k') st' ->
  k <= k' /\ fixed_part st' = fixed_part st.
Proof.
  induction n as [|n IH]; intros c k st c' k' st' H; [discriminate|].
  cbn [modifier_flags] in H. cbv zeta in H.
  run_all; basic_runs;
    repeat match goal with
      | H : modifier_flags _ _ _ _ _ = Return _ _ |- _ => apply IH in H; destruct H
      end;
    close_run.
Qed.

Lemma modifier_scopes_run rex_ n : forall m_loc k st c st',
  modifier_scopes rex_ n m_loc k st = Return c st' ->
  fixed_part st' = fixed_part st /\ opt_ st' = opt_ st.
Proof.
  induction n as [|n IH]; intros m_loc k st c st' H; [discriminate|].
  cbn [modifier_scopes] in H. cbv zeta in H.
  run_all; basic_runs;
    repeat match goal with
      | H : modifier_scopes _ _ _ _ _ = Return _ _ |- _ => apply IH in H; destruct H
      end;
    split; unfold fixed_part in *; cbn in *; congruence.
Qed.

Lemma parse4_modifiers_run rex_ n P1 P2 b c fr st c' fr' st' :
  good P1 -> good P2 ->
  parse4_modifiers rex_ n P1 P2 b c fr st = Return (c', fr') st' ->
  loc fr <= loc fr' /\ fixed_part st' = fixed_part st.
Proof.
  unfold parse4_modifiers. intros HP1 HP2 H. cbv zeta in H.
  run_all; basic_runs;
    repeat match goal with
      | H : modifier_flags _ _ _ _ _ = Return _ _ |- _ =>
          apply modifier_flags_run in H; destruct H
      | H : modifier_scopes _ _ _ _ _ = Return _ _ |- _ =>
          apply modifier_scopes_run in H; destruct H
      | H : P1 _ _ _ = Return _ _ |- _ => apply HP1 in H; destruct H
      | H : P2 _ _ _ = Return _ _ |- _ => apply HP2 in H; destruct H
      end;
    close_run.
Qed.

Lemma list_items_run rex_ n : forall c k st c' k' st',
  list_items rex_ n c k st = Return (c', k') st' -> k <= k' /\ st' = st.
Proof.
  induction n as [|n IH]; intros c k st c' k' st' H; [discriminate|].
  cbn [list_items] in H. cbv zeta in H.
  assert (Hk : k <= (if eqc c "[" && eqc (at_ rex_ (k + 1)) ":"
                     then match find_at rex_ (k + 2) ":" with
                          | Some c_loc =>
                              if eqc (at_ rex_ (c_loc + 1)) "]" then c_loc + 1 else k
                          | None => k
                          end
                     else k)).
  { destruct (eqc c "[" && eqc (at_ rex_ (k + 1)) ":"); [|lia].
    destruct (find_at rex_ (k + 2) ":") as [c_loc|] eqn:E; [|lia].
    apply find_char_ge in E. destruct (eqc (at_ rex_ (c_loc + 1)) "]"); lia. }
  remember (if eqc c "[" && eqc (at_ rex_ (k + 1)) ":"
            then match find_at rex_ (k + 2) ":" with
                 | Some c_loc =>
                     if eqc (at_ rex_ (c_loc + 1)) "]" then c_loc + 1 else k
                 | None => k
                 end
            else k) as k1 eqn:Ek1.
  clear Ek1.
  run_all;
    repeat match goal with
      | H : list_items _ _ _ _ _ = Return _ _ |- _ => apply IH in H; destruct H
      end;
    (split; [lia|congruence]).
Qed.

Lemma parse4_list_run rex_ n fr st fr' st' :
  parse4_list rex_ n fr st = Return fr' st' ->
  loc fr <= loc fr' /\ fixed_part st' = fixed_part st.
Proof.
  unfold parse4_list. intros H. cbv zeta in H.
  run_all; basic_runs;
    repeat match goal with
      | H : list_items _ _ _ _ _ = Return _ _ |- _ =>
          apply list_items_run in H; destruct H; subst
      end;
    close_run.
Qed.

Lemma quote_chars_run rex_ n o quoted : forall c k p st c' k' p' st',
  quote_chars rex_ n o quoted c k p st = Return (c', k', p') st' ->
  k <= k' /\ fixed_part st' = fixed_part st.
Proof.
  induction n as [|n IH]; intros c k p st c' k' p' st' H; [discriminate|].
  cbn [quote_chars] in H. cbv zeta in H.
  run_all; basic_runs;
    repeat match goal with
      | H : quote_chars _ _ _ _ _ _ _ _ = Return _ _ |- _ => apply IH in H; destruct H
      end;
    close_run.
Qed.

Lemma parse4_quote_run rex_ n o c fr st fr' st' :
  parse4_quote rex_ n o c fr st = Return fr' st' ->
  loc fr <= loc fr' /\ fixed_part st' = fixed_part st.
Proof.
  unfold parse4_quote. intros H. cbv zeta in H.
  run_all; basic_runs;
    repeat match goal with
      | H : quote_chars _ _ _ _ _ _ _ _ = Return _ _ |- _ =>
          apply quote_chars_run in H; destruct H
      end;
    close_run.
Qed.

Lemma parse4_body_good rex_ n P1 P2 :
  good P1 -> good P2 -> good (parse4_body rex_ n P1 P2).
Proof.
  intros HP1 HP2 b fr st fr' st' H. unfold parse4_body in H. cbv zeta in H.
  run_all; basic_runs;
    repeat match goal with
      | H : parse4_comment _ _ _ _ = Return _ _ |- _ =>
          apply parse4_comment_run in H; destruct H
      | H : parse4_negative _ _ _ _ = Return _ _ |- _ =>
          apply (parse4_negative_run _ _ _ _ _ _ HP1) in H; destruct H
      | H : parse4_lookahead _ _ _ _ = Return _ _ |- _ =>
          apply (parse4_lookahead_run _ _ _ _ _ _ HP1) in H; destruct H
      | H : parse4_modifiers _ _ _ _ _ _ _ _ = Return _ _ |- _ =>
          apply (parse4_modifiers_run _ _ _ _ _ _ _ _ _ _ _ HP1 HP2) in H; destruct H
      | H : parse4_list _ _ _ _ = Return _ _ |- _ =>
          apply parse4_list_run in H; destruct H
      | H : parse4_quote _ _ _ _ _ _ = Return _ _ |- _ =>
          apply parse4_quote_run in H; destruct H
      | H : parse_esc _ _ _ _ = Return _ _ |- _ =>
          apply parse_esc_run in H; destruct H
      | H : P1 _ _ _ = Return _ _ |- _ => apply HP1 in H; destruct H
      | H : P2 _ _ _ = Return _ _ |- _ => apply HP2 in H; destruct H
      end;
    close_run.
Qed.

(** Every parser of the recursion moves the cursor forward only and leaves
    the options [b], [e], [f], [n], [r] and [w] as they are. *)
Lemma parse4_good rex_ indeterminate : forall n, good (parse4 rex_ indeterminate n).
Proof.
  induction n as [|n IH]; [intros b fr st fr' st' H; discriminate|].
  cbn [parse4]. cbv zeta.
  apply parse4_body_good.
  - apply parse1_good, parse2_good, parse3_good, IH.
  - apply parse2_good, parse3_good, IH.
Qed.

Lemma parse2__good rex_ indeterminate n : good (parse2_ rex_ indeterminate n).
Proof. apply parse2_good, parse3_good, parse4_good. Qed.

Lemma parse1__good rex_ indeterminate n : good (parse1_ rex_ indeterminate n).
Proof. apply parse1_good, parse2__good. Qed.

(** ** The flag [l] is never switched off *)

Lemma keeps_l_ret {A} (a : A) : keeps_l (ret a).
Proof. intros st b st' H Hl. inversion H; subst. exact Hl. Qed.

Lemma keeps_l_bind {A B} (c : M A) (k : A -> M B) :
  keeps_l c -> (forall a, keeps_l (k a)) -> keeps_l (bind c k).
Proof.
  intros Hc Hk st b st' H Hl. apply bind_Return in H. destruct H as (a & st1 & H1 & H2).
  exact (Hk _ _ _ _ H2 (Hc _ _ _ H1 Hl)).
Qed.

Lemma keeps_l_quiet {A} (c : M A) :
  (forall st a st', c st = Return a st' -> opt_ st' = opt_ st) -> keeps_l c.
Proof. intros Hc st a st' H Hl. rewrite (Hc _ _ _ H). exact Hl. Qed.

Lemma keeps_l_error code message k : keeps_l (error code message k).
Proof.
  apply keeps_l_quiet. intros st u st' H. unfold error in H.
  destruct (Opt.r (opt_ st) || Code_eqb code CODE_OVERFLOW); [discriminate|].
  inversion H; subst. destruct (Opt.w (opt_ st)); reflexivity.
Qed.

Lemma keeps_l_get_opt : keeps_l get_opt.
Proof. apply keeps_l_quiet. intros st a st' H. inversion H; subst. reflexivity. Qed.
Lemma keeps_l_get_lookahead : keeps_l get_lookahead.
Proof. apply keeps_l_quiet. intros st a st' H. inversion H; subst. reflexivity. Qed.
Lemma keeps_l_get_followpos : keeps_l get_followpos.
Proof. apply keeps_l_quiet. intros st a st' H. inversion H; subst. reflexivity. Qed.
Lemma keeps_l_out_of_fuel {A} : keeps_l (@out_of_fuel A).
Proof. intros st a st' H. discriminate. Qed.

Lemma keeps_l_modify g :
  (forall st, Opt.l (opt_ st) = true -> Opt.l (opt_ (g st)) = true) -> keeps_l (modify g).
Proof. intros Hg st a st' H Hl. apply modify_run in H. subst st'. apply Hg, Hl. Qed.

Lemma keeps_l_modify_followpos g : keeps_l (modify_followpos g).
Proof.
  apply keeps_l_quiet. intros st a st' H. apply modify_followpos_run in H. subst st'.
  reflexivity.
Qed.

(** One step of the proof that a computation leaves [l] set. *)
Ltac keeps_l_step :=
  lazymatch goal with
  | |- keeps_l (bind _ _) => apply keeps_l_bind; [|intros]
  | |- keeps_l (ret _) => apply keeps_l_ret
  | |- keeps_l (error _ _ _) => apply keeps_l_error
  | |- keeps_l get_opt => apply keeps_l_get_opt
  | |- keeps_l get_lookahead => apply keeps_l_get_lookahead
  | |- keeps_l get_followpos => apply keeps_l_get_followpos
  | |- keeps_l out_of_fuel => apply keeps_l_out_of_fuel
  | |- keeps_l (modify_followpos _) => apply keeps_l_modify_followpos
  | |- keeps_l (modify _) =>
      apply keeps_l_modify; intros ? ?; cbn; first [assumption|reflexivity]
  | |- keeps_l (if ?c then _ else _) => destruct c
  | |- keeps_l (match ?x with _ => _ end) => destruct x
  | |- keeps_l (let _ := _ in _) => cbv zeta
  end.

Ltac keeps_l_all := repeat (first [assumption | keeps_l_step]).

Lemma keeps_l_scan n stop : forall k, keeps_l (scan n stop k).
Proof. induction n as [|n IH]; intros k; simpl; keeps_l_all; apply IH. Qed.

Lemma keeps_l_parse_esc_braces rex_ n p message k :
  keeps_l (parse_esc_braces rex_ n p message k).
Proof. unfold parse_esc_braces. keeps_l_all; apply keeps_l_scan. Qed.

Lemma keeps_l_parse_esc rex_ n k : keeps_l (parse_esc rex_ n k).
Proof. unfold parse_esc. keeps_l_all; apply keeps_l_parse_esc_braces. Qed.

Lemma keeps_l_quantifier rex_ c fr : keeps_l (quantifier rex_ c fr).
Proof. unfold quantifier. keeps_l_all. Qed.

Lemma keeps_l_repeat_range rex_ b fr : keeps_l (repeat_range rex_ b fr).
Proof. unfold repeat_range. keeps_l_all. Qed.

Lemma keeps_l_parse3 rex_ n P4 : keeps_l_parser P4 -> keeps_l_parser (parse3 rex_ n P4).
Proof.
  intros H b fr. unfold parse3.
  keeps_l_all; try apply H; try apply keeps_l_scan; try apply keeps_l_quantifier;
    try apply keeps_l_repeat_range.
Qed.

Lemma keeps_l_anchors rex_ n : forall a k, keeps_l (anchors rex_ n a k).
Proof.
  induction n as [|n IH]; intros a k; cbn [anchors]; keeps_l_all;
    try apply keeps_l_scan; apply IH.
Qed.

Lemma keeps_l_parse2_loop rex_ n P3 : keeps_l_parser P3 ->
  forall fr fr1 l, keeps_l (parse2_loop rex_ n P3 fr fr1 l).
Proof.
  intros H. induction n as [|n IH]; intros fr fr1 l; cbn [parse2_loop];
    keeps_l_all; try apply H; try apply IH.
Qed.

Lemma keeps_l_parse2 rex_ ind n P3 :
  keeps_l_parser P3 -> keeps_l_parser (parse2 rex_ ind n P3).
Proof.
  intros H b fr. unfold parse2.
  keeps_l_all; try apply H; try apply keeps_l_anchors;
    try (apply keeps_l_parse2_loop; exact H).
Qed.

Lemma keeps_l_parse1_loop rex_ n P2 : keeps_l_parser P2 ->
  forall b fr fr1, keeps_l (parse1_loop rex_ n P2 b fr fr1).
Proof.
  intros H. induction n as [|n IH]; intros b fr fr1; cbn [parse1_loop];
    keeps_l_all; try apply H; try apply IH.
Qed.

Lemma keeps_l_parse1 rex_ ind n P2 :
  keeps_l_parser P2 -> keeps_l_parser (parse1 rex_ ind n P2).
Proof.
  intros H b fr. unfold parse1.
  keeps_l_all; try apply H; try (apply keeps_l_parse1_loop; exact H).
Qed.

Lemma keeps_l_parse4_comment rex_ n fr : keeps_l (parse4_comment rex_ n fr).
Proof. unfold parse4_comment. keeps_l_all; apply keeps_l_scan. Qed.

Lemma keeps_l_parse4_negative P b fr : keeps_l_parser P -> keeps_l (parse4_negative P b fr).
Proof. intros H. unfold parse4_negative. keeps_l_all; apply H. Qed.

Lemma keeps_l_parse4_lookahead P b fr :
  keeps_l_parser P -> keeps_l (parse4_lookahead P b fr).
Proof. intros H. unfold parse4_lookahead. keeps_l_all; apply H. Qed.

Lemma keeps_l_modifier_flags rex_ n : forall c k, keeps_l (modifier_flags rex_ n c k).
Proof.
  induction n as [|n IH]; intros c k; cbn [modifier_flags]; keeps_l_all; apply IH.
Qed.

Lemma keeps_l_modifier_scopes rex_ n : forall m k, keeps_l (modifier_scopes rex_ n m k).
Proof.
  induction n as [|n IH]; intros m k; cbn [modifier_scopes]; keeps_l_all; apply IH.
Qed.

Lemma keeps_l_parse4_modifiers rex_ n P1 P2 b c fr :
  keeps_l_parser P1 -> keeps_l_parser P2 ->
  keeps_l (parse4_modifiers rex_ n P1 P2 b c fr).
Proof.
  intros H1 H2. unfold parse4_modifiers.
  keeps_l_all; try apply H1; try apply H2; try apply keeps_l_modifier_flags;
    try apply keeps_l_modifier_scopes.
Qed.

Lemma keeps_l_list_items rex_ n : forall c k, keeps_l (list_items rex_ n c k).
Proof.
  induction n as [|n IH]; intros c k; cbn [list_items]; keeps_l_all; apply IH.
Qed.

Lemma keeps_l_parse4_list rex_ n fr : keeps_l (parse4_list rex_ n fr).
Proof. unfold parse4_list. keeps_l_all; apply keeps_l_list_items. Qed.

Lemma keeps_l_quote_chars rex_ n o q : forall c k p, keeps_l (quote_chars rex_ n o q c k p).
Proof.
  induction n as [|n IH]; intros c k p; cbn [quote_chars]; keeps_l_all; apply IH.
Qed.

Lemma keeps_l_parse4_quote rex_ n o c fr : keeps_l (parse4_quote rex_ n o c fr).
Proof. unfold parse4_quote. keeps_l_all; apply keeps_l_quote_chars. Qed.

Lemma keeps_l_parse4_body rex_ n P1 P2 :
  keeps_l_parser P1 -> keeps_l_parser P2 -> keeps_l_parser (parse4_body rex_ n P1 P2).
Proof.
  intros H1 H2 b fr. unfold parse4_body.
  keeps_l_all; try apply H1; try apply keeps_l_parse4_comment;
    try (apply keeps_l_parse4_negative; exact H1);
    try (apply keeps_l_parse4_lookahead; exact H1);
    try (apply keeps_l_parse4_modifiers; assumption);
    try apply keeps_l_parse4_list; try apply keeps_l_parse4_quote;
    try apply keeps_l_scan; try apply keeps_l_parse_esc.
Qed.

Lemma keeps_l_parse4 rex_ ind : forall n, keeps_l_parser (parse4 rex_ ind n).
Proof.
  induction n as [|n IH]; [intros b fr st a st' H; discriminate|].
  cbn [parse4]. cbv zeta.
  assert (H3 := keeps_l_parse3 rex_ n _ IH).
  assert (H2 := keeps_l_parse2 rex_ ind n _ H3).
  assert (H1 := keeps_l_parse1 rex_ ind n _ H2).
  apply keeps_l_parse4_body; assumption.
Qed.

Lemma keeps_l_parse1_ rex_ ind n : keeps_l_parser (parse1_ rex_ ind n).
Proof. apply keeps_l_parse1, keeps_l_parse2, keeps_l_parse3, keeps_l_parse4. Qed.

(** The flag list switches [l] on when it names it. *)
Lemma modifier_flags_l rex_ n : forall c k st c' k' st',
  modifier_flags rex_ n c k st = Return (c', k') st' ->
  Opt.l (opt_ st) = true \/ flag_named rex_ c k "l" ->
  Opt.l (opt_ st') = true.
Proof.
  induction n as [|n IH]; intros c k st c' k' st' H Hl; [discriminate|].
  cbn [modifier_flags] in H. cbv zeta in H.
  apply bind_Return in H. destruct H as (u & st1 & H1 & H).
  assert (Hl1 : Opt.l (opt_ st1) = true \/
                exists j, k < j /\ eqc (at_ rex_ j) "l" = true /\
                  forall i, k < i <= j ->
                    negb (at_ rex_ i =? 0) && negb (eqc (at_ rex_ i) ":")
                    && negb (eqc (at_ rex_ i) ")") = true).
  { destruct Hl as [Hl|[Hc|Hj]]; [left|left|right; exact Hj].
    - revert H1 Hl.
      match goal with |- ?step st = _ -> _ -> _ =>
        assert (K : keeps_l step) by keeps_l_all; apply K end.
    - assert (Ei : eqc c "i" = false).
      { unfold eqc in *. apply Z.eqb_eq in Hc. apply Z.eqb_neq. rewrite Hc. discriminate. }
      rewrite Ei, Hc in H1. apply modify_run in H1. subst st1. reflexivity. }
  destruct (negb (at_ rex_ (k + 1) =? 0) && negb (eqc (at_ rex_ (k + 1)) ":")
            && negb (eqc (at_ rex_ (k + 1)) ")")) eqn:E.
  - apply (IH _ _ _ _ _ _ H). destruct Hl1 as [Hl1|(j & Hj & Ej & Hi)]; [left; exact Hl1|].
    right. destruct (Z.eq_dec j (k + 1)) as [->|Hne]; [left; exact Ej|].
    right. exists j. split; [lia|]. split; [exact Ej|]. intros i Hi'. apply Hi. lia.
  - inversion H; subst. destruct Hl1 as [Hl1|(j & Hj & Ej & Hi)]; [exact Hl1|].
    rewrite (Hi (k + 1)) in E by lia. discriminate.
Qed.

(** ** [parse4]: modifier groups *)

(** C4, as the code has it: when the parser has finished a modifier group
    that is not the global form, the flags [i], [m], [q], [s] and [x] have the
    values they had before the group, and the options [b], [e], [f], [n], [r]
    and [w] are unchanged.  The flag [l] is not restored: when the flag list
    names it, or it was set before the group, it is set after the group. *)
Theorem modifier_group_restores :
  forall rex_ indeterminate n begin (c : Char) (fr : Frame) (st : PState) c' fr' st',
    parse4_modifiers rex_ n (parse1_ rex_ indeterminate n) (parse2_ rex_ indeterminate n)
                     begin c fr st = Return (c', fr') st' ->
    ~ global_modifiers rex_ n c fr st ->
    Opt.i (opt_ st') = Opt.i (opt_ st) /\
    Opt.m (opt_ st') = Opt.m (opt_ st) /\
    Opt.q (opt_ st') = Opt.q (opt_ st) /\
    Opt.s (opt_ st') = Opt.s (opt_ st) /\
    Opt.x (opt_ st') = Opt.x (opt_ st) /\
    fixed_part st' = fixed_part st /\
    (Opt.l (opt_ st) = true \/ flag_named rex_ c (loc fr) "l" ->
     Opt.l (opt_ st') = true).
Proof.
  intros rex_ indeterminate n begin c fr st c' fr' st' H Hng.
  unfold parse4_modifiers in H. cbv zeta in H.
  apply bind_Return in H. destruct H as (o & st0 & H0 & H).
  apply get_opt_run in H0. destruct H0; subst.
  apply bind_Return in H. destruct H as ([c1 k1] & st1 & H1 & H).
  destruct ((loc fr =? 2) && eqc c1 ")") eqn:Eg.
  - exfalso. apply Hng. apply andb_true_iff in Eg. destruct Eg as [E2 Ec].
    apply Z.eqb_eq in E2. unfold eqc in Ec. apply Z.eqb_eq in Ec. subst c1.
    split; [assumption|]. eauto.
  - pose proof (modifier_flags_l _ _ _ _ _ _ _ _ H1) as Hl1.
    apply modifier_flags_run in H1. destruct H1 as [_ Hf1].
    apply bind_Return in H. destruct H as (fr2 & st2 & H2 & H).
    pose proof (keeps_l_parse1_ _ _ _ _ _ _ _ _ H2) as Hl2.
    apply parse1__good in H2. destruct H2 as [_ Hf2].
    apply bind_Return in H. destruct H as (c2 & st3 & H3 & H).
    apply modifier_scopes_run in H3. destruct H3 as [Hf3 Ho3].
    apply bind_Return in H. destruct H as (u & st4 & H4 & H).
    apply modify_run in H4. inv_ret H.
    cbn. do 5 (split; [reflexivity|]). split.
    + unfold fixed_part in *. cbn. congruence.
    + intros Hl. rewrite Ho3. apply Hl2, Hl1, Hl.
Qed.

(** The group [(?il:a)] in a pattern that starts with [b]: the scope of [i]
    is recorded and [i] is off again after the group, while [l] stays on. *)
Lemma modifier_group_restores_example :
  let fr := mkFrame 3 [] [] true [] 1 in
  exists c' fr' st',
    parse4_modifiers "b(?il:a)" 10 (parse1_ "b(?il:a)" (fun _ => (false, 0)) 10)
                     (parse2_ "b(?il:a)" (fun _ => (false, 0)) 10)
                     false (ch "i") fr (initial Opt.default) = Return (c', fr') st' /\
    found (ranges_find1 7 (map_at (ch "i") (modifiers st'))) = true /\
    Opt.i (opt_ st') = false /\
    Opt.l (opt_ st') = true.
Proof.
  cbv zeta.
  destruct (parse4_modifiers "b(?il:a)" 10 (parse1_ "b(?il:a)" (fun _ => (false, 0)) 10)
              (parse2_ "b(?il:a)" (fun _ => (false, 0)) 10)
              false (ch "i") (mkFrame 3 [] [] true [] 1) (initial Opt.default))
    as [[c' fr'] st'| |] eqn:E; try (vm_compute in E; discriminate).
  exists c', fr', st'. split; [reflexivity|].
  split; [vm_compute in E; inversion E; subst; reflexivity|].
  assert (Hng : ~ global_modifiers "b(?il:a)" 10 (ch "i") (mkFrame 3 [] [] true [] 1)
                  (initial Opt.default)).
  { intros [Hloc _]. vm_compute in Hloc. discriminate. }
  destruct (modifier_group_restores _ _ _ _ _ _ _ _ _ _ E Hng)
    as (Hi & _ & _ & _ & _ & _ & Hl).
  split; [exact Hi|]. apply Hl. right. right. exists 4. split; [reflexivity|].
  split; [reflexivity|]. intros i Hi4. replace i with 4 by (cbn in Hi4; lia).
  reflexivity.
Defined.

(** C4 as stated fails for the flag [l]: after the group [(?l:a)] is closed,
    [opt_.l] is set though it was not before the group. *)
Lemma modifier_group_leaves_l_set :
  exists fr' st',
    parse4 "b(?l:a)" (fun _ => (false, 0)) 10 false (mkFrame 1 [] [] true [] 1)
           (initial Opt.default) = Return fr' st' /\
    loc fr' = 7 /\
    Opt.l (opt_ (initial Opt.default)) = false /\
    Opt.l (opt_ st') = true.
Proof.
  eexists _, _. split; [vm_compute; reflexivity|]. repeat split.
Qed.

(** ** [parse4]: nested lookaheads *)

(** C3, as the code has it: when the range set of the rule already meets the
    span of a lookahead [(?=...)] at its close -- a lookahead inside it has
    been recorded -- the parser records no further range and raises no error:
    the lookahead is ignored. *)
Theorem nested_lookahead_ignored :
  forall (parse1 : Parser) (begin : bool) (fr : Frame) (st : PState) fr1 st1,
    parse1 begin (with_loc fr (loc fr + 1)) st = Return fr1 st1 ->
    found (ranges_find (loc fr - 2) (loc fr1) (lookahead st1)) = true ->
    exists fr' st',
      parse4_lookahead parse1 begin fr st = Return fr' st' /\
      loc fr' = loc fr1 /\
      lookahead st' = lookahead st1 /\
      shown st' = shown st1.
Proof.
  intros parse1 begin fr st fr1 st1 H1 Hf.
  unfold parse4_lookahead. cbv zeta. unfold bind at 1. rewrite H1.
  unfold bind, get_lookahead, modify_followpos, modify, ret.
  destruct (nullable fr1) eqn:En; cbn [loc with_loc with_firstpos with_lastpos nullable
                                       Position.loc Position.of_loc];
    rewrite ?En; cbn [loc with_loc with_firstpos with_lastpos nullable];
    rewrite Hf; cbn [negb];
    eexists _, _; (split; [reflexivity|]); repeat split;
    rewrite ?En; reflexivity.
Qed.

(** The outer lookahead of [(?=a(?=b))]. *)
Lemma nested_lookahead_ignored_example :
  let rex := "(?=a(?=b))"%string in
  let p1 := parse1_ rex (fun _ => (false, 0)) 20 in
  let fr := mkFrame 2 [] [] true [] 1 in
  exists fr' st',
    parse4_lookahead p1 true fr (initial Opt.default) = Return fr' st' /\
    loc fr' = 9 /\
    lookahead st' = [(4, 9)].
Proof.
  cbv zeta.
  destruct (parse1_ "(?=a(?=b))" (fun _ => (false, 0)) 20 true
              (with_loc (mkFrame 2 [] [] true [] 1) (loc (mkFrame 2 [] [] true [] 1) + 1))
              (initial Opt.default)) as [fr1 st1| |] eqn:E;
    try (vm_compute in E; discriminate).
  assert (Hf : found (ranges_find (loc (mkFrame 2 [] [] true [] 1) - 2) (loc fr1)
                        (lookahead st1)) = true)
    by (vm_compute in E; inversion E; subst; reflexivity).
  destruct (nested_lookahead_ignored _ _ _ _ _ _ E Hf) as (fr' & st' & H & Hl & Hla & _).
  exists fr', st'. split; [exact H|].
  split; [rewrite Hl|rewrite Hla]; vm_compute in E; inversion E; subst; reflexivity.
Defined.

(** C3 as stated fails: with the options [r] and [w] set, so that any error
    is thrown and shown, the parser returns from [(?=a(?=b))] without an
    error; only the inner lookahead is recorded. *)
Lemma nested_lookahead_raises_no_error :
  let o := Opt.mk false 92 [] false false false EmptyString false true false true false in
  exists parsed st,
    run_parse "(?=a(?=b))" o 20 = Return parsed st /\
    end_ parsed = [10] /\
    lookaheads parsed = [(1, [(4, 9)])] /\
    shown st = [].
Proof.
  cbv zeta. eexists _, _. split; [vm_compute; reflexivity|]. repeat split.
Qed.

(** ** [parse] and [operator[]]: the source of a rule *)

Lemma get_Some_lt str : forall k a, String.get k str = Some a -> (k < String.length str)%nat.
Proof.
  induction str as [|b rest IH]; intros k a H; simpl in H; [discriminate|].
  destruct k as [|k]; simpl; [lia|]. apply IH in H. lia.
Qed.

Lemma at_nonzero rex_ k :
  at_ rex_ k <> 0 -> 0 <= k < Z.of_nat (String.length rex_).
Proof.
  unfold at_. destruct (Z.ltb_spec k 0); [congruence|].
  destruct (String.get (Z.to_nat k) rex_) eqn:E; [|congruence].
  intros _. apply get_Some_lt in E. lia.
Qed.

Lemma rule_ends_app rex_ : forall l1 start e l2,
  rule_ends rex_ start (l1 ++ [e]) ->
  eqc (at_ rex_ e) "|" = true ->
  rule_ends rex_ (e + 1) l2 ->
  rule_ends rex_ start (l1 ++ e :: l2).
Proof.
  induction l1 as [|a rest IH]; intros start e l2 H1 He H2.
  - simpl in *. destruct H1 as (Hs & _ & _). repeat split; [assumption| |assumption].
    destruct l2; [trivial|assumption].
  - cbn [app rule_ends] in *. destruct H1 as (Hs & Hm & Hr).
    repeat split; [assumption| |].
    + destruct rest; simpl in *; assumption.
    + apply IH; assumption.
Qed.

Lemma rule_ends_snoc rex_ : forall l start e e',
  rule_ends rex_ start (l ++ [e]) ->
  eqc (at_ rex_ e) "|" = true -> e + 1 <= e' ->
  rule_ends rex_ start ((l ++ [e]) ++ [e']).
Proof.
  intros l start e e' H He Hle. rewrite <- app_assoc. cbn [app].
  apply rule_ends_app; [assumption|assumption|]. simpl. auto.
Qed.

(** The loop of [parse] appends one end point a rule. *)
Lemma parse_rules_ends rex_ indeterminate : forall n choice fr acc st p st',
  parse_rules rex_ indeterminate n choice fr acc st = Return p st' ->
  forall start l e,
    end_ acc = l ++ [e] -> rule_ends rex_ start (end_ acc) ->
    eqc (at_ rex_ e) "|" = true -> e + 1 <= loc fr ->
    rule_ends rex_ start (end_ p) /\ end_ p <> [].
Proof.
  induction n as [|n IH]; intros choice fr acc st p st' H start l e Hacc Hr He Hle;
    [discriminate|].
  cbn [parse_rules] in H. cbv zeta in H.
  apply bind_Return in H. destruct H as (u & st0 & H0 & H).
  apply bind_Return in H. destruct H as (fr1 & st1 & H1 & H).
  apply parse2__good in H1. destruct H1 as [Hl1 _]. frame_simpl.
  apply bind_Return in H. destruct H as (la & st2 & H2 & H).
  apply bind_Return in H. destruct H as (u3 & st3 & H3 & H).
  assert (Hnew : rule_ends rex_ start (end_ acc ++ [loc fr1])).
  { rewrite Hacc. apply rule_ends_snoc; [rewrite <- Hacc; assumption|assumption|lia]. }
  destruct (eqc (at_ rex_ (loc fr1)) "|") eqn:Ebar.
  - eapply IH in H; [exact H| | |exact Ebar|frame_simpl; lia].
    + cbn [end_]. reflexivity.
    + cbn [end_]. exact Hnew.
  - inv_ret H. cbn [end_]. split; [exact Hnew|]. destruct (end_ acc); discriminate.
Qed.

Lemma parse_ends rex_ indeterminate n st p st' :
  parse rex_ indeterminate n st = Return p st' ->
  rule_ends rex_ 0 (end_ p) /\ end_ p <> [].
Proof.
  unfold parse. destruct (indeterminate 0) as [nullable0 iter0].
  destruct n as [|n]; [discriminate|].
  cbn [parse_rules]. cbv zeta. intros H.
  apply bind_Return in H. destruct H as (u & st0 & H0 & H).
  apply bind_Return in H. destruct H as (fr1 & st1 & H1 & H).
  apply parse2__good in H1. destruct H1 as [Hl1 _]. frame_simpl.
  apply bind_Return in H. destruct H as (la & st2 & H2 & H).
  apply bind_Return in H. destruct H as (u3 & st3 & H3 & H).
  destruct (eqc (at_ rex_ (loc fr1)) "|") eqn:Ebar.
  - eapply parse_rules_ends with (l := []) in H; [exact H| | |exact Ebar|frame_simpl; lia].
    + reflexivity.
    + cbn. auto.
  - inv_ret H. cbn. repeat split; [assumption|discriminate].
Qed.

(** In a list of end points, a rule starts at or before its end and within
    the regex. *)
Lemma rule_ends_nth rex_ : forall ends start k,
  rule_ends rex_ start ends -> (k < List.length ends)%nat ->
  start <= nth k ends 0 /\
  (forall j, (j < k)%nat ->
     nth j ends 0 + 1 <= nth k ends 0 /\
     nth j ends 0 + 1 <= Z.of_nat (String.length rex_)).
Proof.
  induction ends as [|e rest IH]; intros start k Hr Hk; [simpl in Hk; lia|].
  cbn [rule_ends] in Hr. destruct Hr as (Hs & Hm & Hrest).
  destruct k as [|k].
  - simpl. split; [assumption|]. intros j Hj. lia.
  - simpl in Hk. destruct (IH (e + 1) k Hrest) as (H1 & H2); [lia|].
    cbn [nth]. split; [lia|]. intros j Hj. destruct j as [|j].
    + split; [lia|].
      destruct rest as [|e2 rest2]; [simpl in Hk; lia|].
      unfold eqc in Hm. apply Z.eqb_eq in Hm.
      assert (Hnz : at_ rex_ e <> 0) by (rewrite Hm; vm_compute; discriminate).
      apply at_nonzero in Hnz. lia.
    + apply H2. lia.
Qed.

(** C9: for a compiled pattern with N rules, [operator[]] gives the whole
    regex for choice 0, for a choice from 1 to N the part of the regex from the
    start of that rule to its recorded end point, and the empty string for a
    choice above N. *)
Theorem subpattern_of_compiled :
  forall rex_ indeterminate n (st : PState) parsed st',
    parse rex_ indeterminate n st = Return parsed st' ->
    forall choice : Index,
      (choice = 0 -> subpattern rex_ (end_ parsed) choice = Some rex_) /\
      (1 <= choice <= size (end_ parsed) ->
       let prev := rule_start (end_ parsed) choice in
       let e := nth (Z.to_nat (choice - 1)) (end_ parsed) 0 in
       prev <= e /\
       subpattern rex_ (end_ parsed) choice
       = Some (substring (Z.to_nat prev) (Z.to_nat (e - prev)) rex_)) /\
      (size (end_ parsed) < choice ->
       subpattern rex_ (end_ parsed) choice = Some EmptyString).
Proof.
  intros rex_ indeterminate n st parsed st' H choice.
  apply parse_ends in H. destruct H as [Hr _].
  unfold subpattern, size. split; [|split].
  - intros ->. reflexivity.
  - intros Hc. cbv zeta.
    destruct (rule_ends_nth rex_ (end_ parsed) 0 (Z.to_nat (choice - 1)) Hr) as (Hp1 & H2);
      [lia|].
    assert (He : nth_error (end_ parsed) (Z.to_nat (choice - 1))
                 = Some (nth (Z.to_nat (choice - 1)) (end_ parsed) 0))
      by (apply nth_error_nth'; lia).
    destruct (Z.eqb_spec choice 0); [lia|].
    destruct (Z.leb_spec 1 choice); [|lia].
    destruct (Z.leb_spec choice (Z.of_nat (List.length (end_ parsed)))); [|lia].
    cbn [andb]. unfold vector_at.
    destruct (Z.ltb_spec (choice - 1) 0); [lia|].
    rewrite He. unfold rule_start.
    destruct (Z.leb_spec 2 choice).
    + destruct (Z.ltb_spec (choice - 2) 0); [lia|].
      assert (Hp : nth_error (end_ parsed) (Z.to_nat (choice - 2))
                   = Some (nth (Z.to_nat (choice - 2)) (end_ parsed) 0))
        by (apply nth_error_nth'; lia).
      rewrite Hp. cbn [option_map].
      destruct (H2 (Z.to_nat (choice - 2))) as (Hq1 & Hq2); [lia|].
      split; [assumption|].
      unfold substr, size_t_sub.
      destruct (Z.ltb_spec (Z.of_nat (String.length rex_))
                  (nth (Z.to_nat (choice - 2)) (end_ parsed) 0 + 1)); [lia|].
      destruct (Z.leb_spec (nth (Z.to_nat (choice - 2)) (end_ parsed) 0 + 1)
                  (nth (Z.to_nat (choice - 1)) (end_ parsed) 0)); [|lia].
      reflexivity.
    + split; [assumption|].
      unfold substr, size_t_sub.
      destruct (Z.ltb_spec (Z.of_nat (String.length rex_)) 0); [lia|].
      destruct (Z.leb_spec 0 (nth (Z.to_nat (choice - 1)) (end_ parsed) 0)); [|lia].
      reflexivity.
  - intros Hgt.
    destruct (Z.eqb_spec choice 0); [lia|].
    destruct (Z.leb_spec 1 choice); cbn [andb]; [|reflexivity].
    destruct (Z.leb_spec choice (Z.of_nat (List.length (end_ parsed)))); [lia|].
    reflexivity.
Qed.

(** The parse of [ab|c] ends its two rules at 2 and 4. *)
Lemma parse_ab_c :
  exists parsed st',
    parse "ab|c" (fun _ => (false, 0)) 10 (initial Opt.default) =
      Return parsed st' /\
    end_ parsed = [2; 4].
Proof.
  eexists. eexists. split; [vm_compute; reflexivity|]. reflexivity.
Qed.

(** The two rules of [ab|c]. *)
Lemma subpattern_of_compiled_example :
  exists parsed st',
    run_parse "ab|c" Opt.default 10 = Return parsed st' /\
    end_ parsed = [2; 4] /\
    subpattern "ab|c" (end_ parsed) 0 = Some "ab|c"%string /\
    subpattern "ab|c" (end_ parsed) 1 = Some "ab"%string /\
    subpattern "ab|c" (end_ parsed) 2 = Some "c"%string /\
    subpattern "ab|c" (end_ parsed) 3 = Some EmptyString.
Proof.
  destruct parse_ab_c as (parsed & st' & E & Hend).
  exists parsed, st'. split; [exact E|]. split; [exact Hend|].
  pose proof (subpattern_of_compiled _ _ _ _ _ _ E 0) as (H0 & _ & _).
  pose proof (subpattern_of_compiled _ _ _ _ _ _ E 1) as (_ & H1 & _).
  pose proof (subpattern_of_compiled _ _ _ _ _ _ E 2) as (_ & H2 & _).
  pose proof (subpattern_of_compiled _ _ _ _ _ _ E 3) as (_ & _ & H3).
  clear E. rewrite Hend in H0, H1, H2, H3 |- *. unfold size in H1, H2, H3.
  split; [apply H0; reflexivity|].
  split; [apply H1; simpl; lia|].
  split; [apply H2; simpl; lia|apply H3; simpl; lia].
Defined.


(** ** Determinism of the compilation (C8)

    The locals [nullable], [iter], [nullable1] and [iter1] of the parser have
    no initialiser.  Every parser function reads the cursor only of the frame
    it is handed, so what those locals hold never reaches the result. *)

Lemma cursor_only_eq P :
  cursor_only P -> P = (fun begin fr => P begin (cursor fr)).
Proof.
  intros H. extensionality b. extensionality fr. extensionality st.
  apply H. reflexivity.
Qed.

Lemma parse4_body_cursor_only rex_ n P1 P2 : cursor_only (parse4_body rex_ n P1 P2).
Proof.
  intros b fr fr' st H. unfold parse4_body. rewrite H. reflexivity.
Qed.

Lemma parse4_cursor_only rex_ indeterminate n : cursor_only (parse4 rex_ indeterminate n).
Proof.
  destruct n as [|n]; [intros b fr fr' st H; reflexivity|].
  apply parse4_body_cursor_only.
Qed.

Lemma parse3_cursor_only rex_ n P4 : cursor_only P4 -> cursor_only (parse3 rex_ n P4).
Proof.
  intros HP b fr fr' st H. unfold parse3.
  rewrite (cursor_only_eq P4 HP). unfold cursor. rewrite H. reflexivity.
Qed.

Lemma parse2_cursor_only rex_ indeterminate n P3 :
  cursor_only P3 -> cursor_only (parse2 rex_ indeterminate n P3).
Proof.
  intros HP b fr fr' st H. unfold parse2.
  rewrite (cursor_only_eq P3 HP). unfold cursor. rewrite H. reflexivity.
Qed.

Lemma parse1_cursor_only rex_ indeterminate n P2 :
  cursor_only P2 -> cursor_only (parse1 rex_ indeterminate n P2).
Proof.
  intros HP b fr fr' st H. unfold parse1.
  rewrite (cursor_only_eq P2 HP). unfold cursor. rewrite H. reflexivity.
Qed.

(** The loops of [parse2] and [parse1] hand their scratch frame to the callee
    before they read it. *)
Lemma parse2_loop_fresh rex_ n P3 fr fr1 fr1' l_pos :
  cursor_only P3 ->
  parse2_loop rex_ n P3 fr fr1 l_pos = parse2_loop rex_ n P3 fr fr1' l_pos.
Proof.
  intros HP. rewrite (cursor_only_eq P3 HP). destruct n; reflexivity.
Qed.

Lemma parse1_loop_fresh rex_ n P2 begin fr fr1 fr1' :
  cursor_only P2 ->
  parse1_loop rex_ n P2 begin fr fr1 = parse1_loop rex_ n P2 begin fr fr1'.
Proof.
  intros HP. rewrite (cursor_only_eq P2 HP). destruct n; reflexivity.
Qed.

Lemma parse2_oracle rex_ ind1 ind2 n P3 :
  cursor_only P3 -> parse2 rex_ ind1 n P3 = parse2 rex_ ind2 n P3.
Proof.
  intros HP. extensionality b. extensionality fr. unfold parse2.
  f_equal. extensionality x. destruct x as [[b' a_pos] k].
  f_equal. extensionality fr2.
  destruct (ind1 k) as [n1 i1], (ind2 k) as [n2 i2].
  rewrite (parse2_loop_fresh rex_ n P3 fr2 (mkFrame (loc fr2) [] [] n1 [] i1)
             (mkFrame (loc fr2) [] [] n2 [] i2) None HP).
  reflexivity.
Qed.

Lemma parse1_oracle rex_ ind1 ind2 n P2 :
  cursor_only P2 -> parse1 rex_ ind1 n P2 = parse1 rex_ ind2 n P2.
Proof.
  intros HP. extensionality b. extensionality fr. unfold parse1.
  destruct (ind1 (loc fr)) as [n1 i1], (ind2 (loc fr)) as [n2 i2].
  f_equal. extensionality fr2. apply parse1_loop_fresh, HP.
Qed.

Lemma parse4_oracle rex_ ind1 ind2 : forall n,
  parse4 rex_ ind1 n = parse4 rex_ ind2 n.
Proof.
  induction n as [|n IH]; [reflexivity|].
  cbn [parse4]. cbv zeta. rewrite IH.
  assert (H3 : cursor_only (parse3 rex_ n (parse4 rex_ ind2 n)))
    by apply parse3_cursor_only, parse4_cursor_only.
  rewrite (parse2_oracle rex_ ind1 ind2 n _ H3).
  rewrite (parse1_oracle rex_ ind1 ind2 n _ (parse2_cursor_only rex_ ind2 n _ H3)).
  reflexivity.
Qed.

Lemma parse2__cursor_only rex_ indeterminate n : cursor_only (parse2_ rex_ indeterminate n).
Proof.
  apply parse2_cursor_only, parse3_cursor_only, parse4_cursor_only.
Qed.

Lemma parse2__oracle rex_ ind1 ind2 n :
  parse2_ rex_ ind1 n = parse2_ rex_ ind2 n.
Proof.
  unfold parse2_, parse3_. rewrite (parse4_oracle rex_ ind1 ind2 n).
  apply parse2_oracle, parse3_cursor_only, parse4_cursor_only.
Qed.

Lemma parse_rules_oracle rex_ ind1 ind2 : forall n,
  parse_rules rex_ ind1 n = parse_rules rex_ ind2 n.
Proof.
  induction n as [|n IH]; [reflexivity|].
  extensionality choice. extensionality fr. extensionality acc.
  cbn [parse_rules]. rewrite IH, (parse2__oracle rex_ ind1 ind2 (S n)).
  reflexivity.
Qed.

Lemma parse_rules_fresh rex_ indeterminate n choice fr fr' acc :
  loc fr = loc fr' ->
  parse_rules rex_ indeterminate n choice fr acc =
  parse_rules rex_ indeterminate n choice fr' acc.
Proof.
  intros H. destruct n as [|n]; [reflexivity|]. cbn [parse_rules].
  rewrite (cursor_only_eq _ (parse2__cursor_only rex_ indeterminate (S n))).
  unfold cursor, with_lazypos. cbn [loc]. rewrite H. reflexivity.
Qed.

Lemma parse_oracle rex_ ind1 ind2 n : parse rex_ ind1 n = parse rex_ ind2 n.
Proof.
  unfold parse. destruct (ind1 0) as [n1 i1], (ind2 0) as [n2 i2].
  rewrite (parse_rules_oracle rex_ ind1 ind2 n).
  apply parse_rules_fresh. reflexivity.
Qed.

(** ** [init_options]: reads within the option string *)

Lemma at_cons a rest k : 0 <= k -> at_ (String a rest) (k + 1) = at_ rest k.
Proof.
  intros Hk. unfold at_.
  destruct (Z.ltb_spec (k + 1) 0), (Z.ltb_spec k 0); try lia.
  replace (Z.to_nat (k + 1)) with (S (Z.to_nat k)) by lia. reflexivity.
Qed.

Lemma at_strlen str : at_ str (Z.of_nat (strlen str)) = 0.
Proof.
  induction str as [|a rest IH]; [reflexivity|]. cbn [strlen].
  destruct (Z.eqb_spec (ch a) 0) as [E|E].
  - cbn. exact E.
  - rewrite Nat2Z.inj_succ, <- Z.add_1_r, at_cons by lia. exact IH.
Qed.

(** A character that is not NUL, read at or before the terminator, is
    before the terminator. *)
Lemma at_before_strlen str k :
  k <= Z.of_nat (strlen str) -> at_ str k <> 0 -> k < Z.of_nat (strlen str).
Proof.
  intros Hk Hc. destruct (Z.eq_dec k (Z.of_nat (strlen str))) as [->|]; [|lia].
  rewrite at_strlen in Hc. contradiction.
Qed.

Section InBounds.

Variable opt : string.
Variable b1 : Z -> Char.
Variable b2 : Z -> Char.
Hypothesis no_e : ends_in_e opt = false.

Lemma opt_at_in b k : k <= Z.of_nat (strlen opt) -> opt_at b opt k = at_ opt k.
Proof.
  intros Hk. unfold opt_at. destruct (Z.leb_spec k (Z.of_nat (strlen opt))); [reflexivity|lia].
Qed.

Lemma options_names_in_bounds : forall n s t o,
  0 <= s <= Z.of_nat (strlen opt) -> 0 <= t ->
  (t <= Z.of_nat (strlen opt) \/ at_ opt s = 0 \/ eqc (at_ opt s) ";" = true) ->
  options_names b1 n opt s t o = options_names b2 n opt s t o /\
  forall s' o', options_names b1 n opt s t o = Some (s', o') -> 0 <= s' <= Z.of_nat (strlen opt).
Proof.
  induction n as [|n IH]; intros s t o Hs Ht0 Ht; [split; [reflexivity|discriminate]|].
  cbn [options_names]. cbv zeta. rewrite !(opt_at_in _ s) by lia.
  destruct (negb (eqc (at_ opt s) ";") && negb (at_ opt s =? 0)) eqn:E.
  - apply andb_true_iff in E. destruct E as [E1 E2].
    apply negb_true_iff in E1, E2. apply Z.eqb_neq in E2.
    assert (Ht' : t <= Z.of_nat (strlen opt)) by (destruct Ht as [H|[H|H]]; [exact H|contradiction|congruence]).
    rewrite !(opt_at_in _ t) by exact Ht'.
    destruct (eqc (at_ opt t) "," || isspace (at_ opt t) || eqc (at_ opt t) ";"
              || (at_ opt t =? 0)) eqn:Ec.
    + apply IH; [lia|lia|].
      destruct (Z.eqb_spec (at_ opt t) 0) as [E0|E0]; [right; left; exact E0|].
      left. pose proof (at_before_strlen opt t Ht' E0). lia.
    + apply IH; [exact Hs|lia|]. left.
      assert (E0 : at_ opt t <> 0).
      { intros E0. rewrite E0 in Ec. cbn in Ec. discriminate. }
      pose proof (at_before_strlen opt t Ht' E0). lia.
  - split; [reflexivity|]. intros s' o' H. inversion H; subst. exact Hs.
Qed.

Lemma options_loop_in_bounds : forall n s o,
  0 <= s <= Z.of_nat (strlen opt) -> options_loop b1 n opt s o = options_loop b2 n opt s o.
Proof.
  induction n as [|n IH]; intros s o Hs; [reflexivity|].
  cbn [options_loop]. cbv zeta. rewrite !(opt_at_in _ s) by lia.
  destruct (Z.eqb_spec (at_ opt s) 0) as [E0|E0]; [reflexivity|].
  pose proof (at_before_strlen opt s ltac:(lia) E0) as Hlt.
  rewrite !(opt_at_in _ (s + 1)) by lia.
  destruct (eqc (at_ opt s) "b"); [apply IH; lia|].
  destruct (eqc (at_ opt s) "e") eqn:Ee.
  { unfold ends_in_e in no_e. fold (Z.of_nat (strlen opt)) in no_e.
    apply orb_false_iff in no_e. destruct no_e as [N1 N2].
    assert (H1 : s <> (Z.of_nat (strlen opt)) - 1) by (intros ->; congruence).
    destruct (eqc (at_ opt (s + 1)) "=") eqn:Eq.
    - assert (H2 : s + 1 <> (Z.of_nat (strlen opt)) - 1).
      { intros H2. replace (Z.of_nat (strlen opt) - 2) with s in N2 by lia. rewrite <- H2 in N2.
        rewrite Ee, Eq in N2. discriminate. }
      rewrite !(opt_at_in _ (s + 1 + 1)) by lia. apply IH. lia.
    - replace (s + 0 + 1) with (s + 1) by lia.
      rewrite !(opt_at_in _ (s + 1)) by lia. apply IH. lia. }
  destruct (eqc (at_ opt s) "i"); [apply IH; lia|].
  destruct (eqc (at_ opt s) "l"); [apply IH; lia|].
  destruct (eqc (at_ opt s) "m"); [apply IH; lia|].
  destruct (eqc (at_ opt s) "q"); [apply IH; lia|].
  destruct (eqc (at_ opt s) "r"); [apply IH; lia|].
  destruct (eqc (at_ opt s) "s"); [apply IH; lia|].
  destruct (eqc (at_ opt s) "w"); [apply IH; lia|].
  destruct (eqc (at_ opt s) "x"); [apply IH; lia|].
  destruct (eqc (at_ opt s) "f" || eqc (at_ opt s) "n"); [|apply IH; lia].
  set (s1 := s + (if eqc (at_ opt (s + 1)) "=" then 1 else 0)).
  assert (Hs1 : 0 <= s1 <= Z.of_nat (strlen opt)) by (unfold s1; destruct (eqc (at_ opt (s + 1)) "="); lia).
  destruct (options_names_in_bounds (S n) s1 s1 o ltac:(lia) ltac:(lia) ltac:(left; lia))
    as [En Hb].
  rewrite <- En.
  destruct (options_names b1 (S n) opt s1 s1 o) as [[s' o']|] eqn:E1; [|reflexivity].
  specialize (Hb s' o' eq_refl).
  apply IH. lia.
Qed.

End InBounds.




(** * Further properties

    ** Errors and options through the whole compilation

    Every function of the compiler is orderly; the proof goes through the
    code one [bind] at a time. *)

Lemma fixed_part_r st st' : fixed_part st' = fixed_part st -> Opt.r (opt_ st') = Opt.r (opt_ st).
Proof. unfold fixed_part. intros H. inversion H. reflexivity. Qed.

Lemma fixed_part_w st st' : fixed_part st' = fixed_part st -> Opt.w (opt_ st') = Opt.w (opt_ st).
Proof. unfold fixed_part. intros H. inversion H. reflexivity. Qed.

Lemma orderly_ret {A} (a : A) : orderly (ret a).
Proof. intros st. simpl. split; [reflexivity|intros _; reflexivity]. Qed.

Lemma orderly_bind {A B} (c : M A) (k : A -> M B) :
  orderly c -> (forall a, orderly (k a)) -> orderly (bind c k).
Proof.
  intros Hc Hk st. unfold bind. specialize (Hc st).
  destruct (c st) as [a st1|e st1|]; [|exact Hc|exact I].
  destruct Hc as [Hf Hs]. specialize (Hk a st1).
  pose proof (fixed_part_r _ _ Hf) as Hr. pose proof (fixed_part_w _ _ Hf) as Hw.
  destruct (k a st1) as [b st2|e st2|]; [| |exact I].
  - destruct Hk as [Hf2 Hs2]. split; [congruence|].
    intros W. rewrite Hs2 by congruence. auto.
  - destruct Hk as [Hr2 Hs2]. split; [rewrite <- Hr; exact Hr2|].
    intros W. rewrite Hs2 by congruence. auto.
Qed.

Lemma orderly_error code message k : orderly (error code message k).
Proof.
  intros st. unfold error.
  destruct (Opt.r (opt_ st)) eqn:R; simpl.
  - split; [left; reflexivity|]. intros W. rewrite W. reflexivity.
  - destruct (Code_eqb code CODE_OVERFLOW) eqn:C.
    + split; [right; apply Code_eqb_eq; exact C|]. intros W. rewrite W. reflexivity.
    + split; [|intros W; rewrite W; reflexivity].
      destruct (Opt.w (opt_ st)); reflexivity.
Qed.

Lemma orderly_get_opt : orderly get_opt.
Proof. intros st. simpl. auto. Qed.
Lemma orderly_get_lookahead : orderly get_lookahead.
Proof. intros st. simpl. auto. Qed.
Lemma orderly_get_followpos : orderly get_followpos.
Proof. intros st. simpl. auto. Qed.
Lemma orderly_out_of_fuel {A} : orderly (@out_of_fuel A).
Proof. intros st. exact I. Qed.

Lemma orderly_modify g :
  (forall st, fixed_part (g st) = fixed_part st /\ shown (g st) = shown st) ->
  orderly (modify g).
Proof. intros H st. simpl. destruct (H st). auto. Qed.

Lemma orderly_modify_followpos g : orderly (modify_followpos g).
Proof. apply orderly_modify. intros st. split; reflexivity. Qed.

(** One step of the proof that a computation is orderly. *)
Ltac orderly_step :=
  lazymatch goal with
  | |- orderly (bind _ _) => apply orderly_bind; [|intros]
  | |- orderly (ret _) => apply orderly_ret
  | |- orderly (error _ _ _) => apply orderly_error
  | |- orderly get_opt => apply orderly_get_opt
  | |- orderly get_lookahead => apply orderly_get_lookahead
  | |- orderly get_followpos => apply orderly_get_followpos
  | |- orderly out_of_fuel => apply orderly_out_of_fuel
  | |- orderly (modify_followpos _) => apply orderly_modify_followpos
  | |- orderly (modify _) => apply orderly_modify; intros; split; reflexivity
  | |- orderly (if ?c then _ else _) => destruct c
  | |- orderly (match ?x with _ => _ end) => destruct x
  | |- orderly (let _ := _ in _) => cbv zeta
  end.

Ltac orderly_all := repeat (first [assumption | orderly_step | solve [auto with orderly]]).

Create HintDb orderly.

Lemma orderly_scan n stop : forall k, orderly (scan n stop k).
Proof. induction n as [|n IH]; intros k; simpl; orderly_all. Qed.
#[export] Hint Resolve orderly_scan : orderly.

Lemma orderly_parse_esc_braces rex_ n p message k : orderly (parse_esc_braces rex_ n p message k).
Proof. unfold parse_esc_braces. orderly_all. Qed.
#[export] Hint Resolve orderly_parse_esc_braces : orderly.

Lemma orderly_parse_esc rex_ n k : orderly (parse_esc rex_ n k).
Proof. unfold parse_esc. orderly_all. Qed.
#[export] Hint Resolve orderly_parse_esc : orderly.

Lemma orderly_quantifier rex_ c fr : orderly (quantifier rex_ c fr).
Proof. unfold quantifier. orderly_all. Qed.
#[export] Hint Resolve orderly_quantifier : orderly.

Lemma orderly_repeat_range rex_ b fr : orderly (repeat_range rex_ b fr).
Proof. unfold repeat_range. orderly_all. Qed.
#[export] Hint Resolve orderly_repeat_range : orderly.

Lemma orderly_parse3 rex_ n P4 : orderly_parser P4 -> orderly_parser (parse3 rex_ n P4).
Proof. intros H b fr. unfold parse3. orderly_all; apply H. Qed.

Lemma orderly_anchors rex_ n : forall a k, orderly (anchors rex_ n a k).
Proof. induction n as [|n IH]; intros a k; cbn [anchors]; orderly_all; apply IH. Qed.
#[export] Hint Resolve orderly_anchors : orderly.

Lemma orderly_parse2_loop rex_ n P3 : orderly_parser P3 ->
  forall fr fr1 l, orderly (parse2_loop rex_ n P3 fr fr1 l).
Proof.
  intros H. induction n as [|n IH]; intros fr fr1 l; cbn [parse2_loop];
    orderly_all; try apply H; try apply IH.
Qed.

Lemma orderly_parse2 rex_ ind n P3 : orderly_parser P3 -> orderly_parser (parse2 rex_ ind n P3).
Proof.
  intros H b fr. unfold parse2.
  orderly_all; try apply H; try (apply orderly_parse2_loop; exact H).
Qed.

Lemma orderly_parse1_loop rex_ n P2 : orderly_parser P2 ->
  forall b fr fr1, orderly (parse1_loop rex_ n P2 b fr fr1).
Proof.
  intros H. induction n as [|n IH]; intros b fr fr1; cbn [parse1_loop];
    orderly_all; try apply H; try apply IH.
Qed.

Lemma orderly_parse1 rex_ ind n P2 : orderly_parser P2 -> orderly_parser (parse1 rex_ ind n P2).
Proof.
  intros H b fr. unfold parse1.
  orderly_all; try apply H; try (apply orderly_parse1_loop; exact H).
Qed.

Lemma orderly_parse4_comment rex_ n fr : orderly (parse4_comment rex_ n fr).
Proof. unfold parse4_comment. orderly_all. Qed.

Lemma orderly_parse4_negative P b fr : orderly_parser P -> orderly (parse4_negative P b fr).
Proof. intros H. unfold parse4_negative. orderly_all; apply H. Qed.

Lemma orderly_parse4_lookahead P b fr : orderly_parser P -> orderly (parse4_lookahead P b fr).
Proof. intros H. unfold parse4_lookahead. orderly_all; apply H. Qed.

Lemma orderly_modifier_flags rex_ n : forall c k, orderly (modifier_flags rex_ n c k).
Proof. induction n as [|n IH]; intros c k; cbn [modifier_flags]; orderly_all; apply IH. Qed.

Lemma orderly_modifier_scopes rex_ n : forall m k, orderly (modifier_scopes rex_ n m k).
Proof. induction n as [|n IH]; intros m k; cbn [modifier_scopes]; orderly_all; apply IH. Qed.

Lemma orderly_parse4_modifiers rex_ n P1 P2 b c fr :
  orderly_parser P1 -> orderly_parser P2 -> orderly (parse4_modifiers rex_ n P1 P2 b c fr).
Proof.
  intros H1 H2. unfold parse4_modifiers.
  orderly_all; try apply H1; try apply H2; try apply orderly_modifier_flags;
    try apply orderly_modifier_scopes.
Qed.

Lemma orderly_list_items rex_ n : forall c k, orderly (list_items rex_ n c k).
Proof. induction n as [|n IH]; intros c k; cbn [list_items]; orderly_all; apply IH. Qed.

Lemma orderly_parse4_list rex_ n fr : orderly (parse4_list rex_ n fr).
Proof. unfold parse4_list. orderly_all; apply orderly_list_items. Qed.

Lemma orderly_quote_chars rex_ n o q : forall c k p, orderly (quote_chars rex_ n o q c k p).
Proof. induction n as [|n IH]; intros c k p; cbn [quote_chars]; orderly_all; apply IH. Qed.

Lemma orderly_parse4_quote rex_ n o c fr : orderly (parse4_quote rex_ n o c fr).
Proof. unfold parse4_quote. orderly_all; apply orderly_quote_chars. Qed.

Lemma orderly_parse4_body rex_ n P1 P2 :
  orderly_parser P1 -> orderly_parser P2 -> orderly_parser (parse4_body rex_ n P1 P2).
Proof.
  intros H1 H2 b fr. unfold parse4_body.
  orderly_all; try apply H1; try apply orderly_parse4_comment;
    try (apply orderly_parse4_negative; exact H1);
    try (apply orderly_parse4_lookahead; exact H1);
    try (apply orderly_parse4_modifiers; assumption);
    try apply orderly_parse4_list; try apply orderly_parse4_quote.
Qed.

Lemma orderly_parse4 rex_ ind : forall n, orderly_parser (parse4 rex_ ind n).
Proof.
  induction n as [|n IH]; [intros b fr st; exact I|].
  cbn [parse4]. cbv zeta.
  assert (H3 := orderly_parse3 rex_ n _ IH).
  assert (H2 := orderly_parse2 rex_ ind n _ H3).
  assert (H1 := orderly_parse1 rex_ ind n _ H2).
  apply orderly_parse4_body; assumption.
Qed.

Lemma orderly_parse2_ rex_ ind n : orderly_parser (parse2_ rex_ ind n).
Proof. apply orderly_parse2, orderly_parse3, orderly_parse4. Qed.

Lemma orderly_parse_rules rex_ ind : forall n choice fr acc,
  orderly (parse_rules rex_ ind n choice fr acc).
Proof.
  induction n as [|n IH]; intros choice fr acc; cbn [parse_rules];
    orderly_all; try apply orderly_parse2_; try apply IH.
Qed.

Lemma orderly_parse rex_ ind n : orderly (parse rex_ ind n).
Proof. unfold parse. orderly_all. apply orderly_parse_rules. Qed.

Lemma orderly_pure {A} (f : PState -> option A) :
  orderly (fun st => match f st with Some a => Return a st | None => OutOfFuel end).
Proof. intros st. destruct (f st); simpl; auto. Qed.

Lemma orderly_trim_lazy pos : orderly (trim_lazy pos).
Proof. intros st. unfold trim_lazy. destruct (trim_lazy_loop _ _ _); simpl; auto. Qed.
#[export] Hint Resolve orderly_trim_lazy : orderly.

Lemma orderly_compile_esc rex_ strtoul k chars : orderly (compile_esc rex_ strtoul k chars).
Proof. unfold compile_esc. orderly_all. Qed.
#[export] Hint Resolve orderly_compile_esc : orderly.

Lemma orderly_compile_list_items rex_ strtoul n modifiers : forall k prev lo chars,
  orderly (compile_list_items rex_ strtoul n modifiers k prev lo chars).
Proof.
  induction n as [|n IH]; intros k prev lo chars; cbn [compile_list_items];
    orderly_all; try apply IH.
Qed.

Lemma orderly_compile_list rex_ strtoul n k chars modifiers :
  orderly (compile_list rex_ strtoul n k chars modifiers).
Proof. unfold compile_list. orderly_all. apply orderly_compile_list_items. Qed.
#[export] Hint Resolve orderly_compile_list : orderly.

Lemma orderly_transition n moves chars follow : orderly (transition n moves chars follow).
Proof.
  intros st. unfold transition.
  destruct (transition_loop _ _ _ _ _ _) as [[rest mv]|]; simpl; auto.
Qed.
#[export] Hint Resolve orderly_transition : orderly.

Lemma orderly_lazy_follow k i : orderly (lazy_follow k i).
Proof. unfold lazy_follow. orderly_all. Qed.
#[export] Hint Resolve orderly_lazy_follow : orderly.

Lemma orderly_chars_at rex_ strtoul n modifiers k literal :
  orderly (chars_at rex_ strtoul n modifiers k literal).
Proof. unfold chars_at. orderly_all. Qed.
#[export] Hint Resolve orderly_chars_at : orderly.

Lemma orderly_compile_position rex_ strtoul n modifiers lookahead k acc :
  orderly (compile_position rex_ strtoul n modifiers lookahead k acc).
Proof. unfold compile_position. orderly_all. Qed.

Lemma orderly_compile_positions rex_ strtoul n modifiers lookahead : forall ks acc,
  orderly (compile_positions rex_ strtoul n modifiers lookahead ks acc).
Proof.
  induction ks as [|k ks IH]; intros acc; cbn [compile_positions]; orderly_all;
    try apply orderly_compile_position; try apply IH.
Qed.

Lemma orderly_compile_transition rex_ strtoul n s modifiers lookahead :
  orderly (compile_transition rex_ strtoul n s modifiers lookahead).
Proof. apply orderly_compile_positions. Qed.
#[export] Hint Resolve orderly_compile_transition : orderly.

Lemma orderly_target dfa pos : orderly (target dfa pos).
Proof.
  intros st. unfold target.
  destruct (search _ _ _ _) as [[t|[p l]]|]; simpl; auto.
Qed.
#[export] Hint Resolve orderly_target : orderly.

Lemma orderly_commit_move cur move acc : orderly (commit_move cur move acc).
Proof. unfold commit_move. orderly_all. Qed.

Lemma orderly_commit_moves cur : forall moves acc, orderly (commit_moves cur moves acc).
Proof.
  induction moves as [|m moves IH]; intros acc; cbn [commit_moves]; orderly_all;
    try apply orderly_commit_move; try apply IH.
Qed.
#[export] Hint Resolve orderly_commit_moves : orderly.

Lemma orderly_compile_states rex_ strtoul n modifiers lookahead size_ :
  forall cur dfa cnt,
    orderly (compile_states rex_ strtoul n modifiers lookahead size_ cur dfa cnt).
Proof.
  induction n as [|n IH]; intros cur dfa cnt; cbn [compile_states]; orderly_all;
    apply IH.
Qed.

Lemma orderly_compile rex_ strtoul n start modifiers lookahead end_ :
  orderly (compile rex_ strtoul n start modifiers lookahead end_).
Proof. unfold compile. orderly_all. apply orderly_compile_states. Qed.

Lemma orderly_count_state s nop_ : orderly (count_state s nop_).
Proof. unfold count_state. orderly_all. Qed.

Lemma orderly_count_states : forall dfa nop_, orderly (count_states dfa nop_).
Proof.
  induction dfa as [|s dfa IH]; intros nop_; cbn [count_states]; orderly_all;
    try apply orderly_count_state; try apply IH.
Qed.

Lemma orderly_encode_dfa dfa : orderly (encode_dfa dfa).
Proof. unfold encode_dfa. orderly_all. apply orderly_count_states. Qed.

Lemma orderly_assemble dfa : orderly (assemble dfa).
Proof. unfold assemble. orderly_all. apply orderly_encode_dfa. Qed.

Lemma orderly_build rex_ ind strtoul n : orderly (build rex_ ind strtoul n).
Proof.
  unfold build. orderly_all; try apply orderly_parse; try apply orderly_compile.
  intros st. simpl. auto.
Qed.

(** When [init] throws, either the error is a [CODE_OVERFLOW] or the option
    string sets [r]: without [r], no syntax, range or list error of the regex
    reaches the caller as an exception. *)
Theorem init_throws_when_asked :
  forall rex_ ind strtoul beyond n opt e st',
    init rex_ ind strtoul beyond n opt = Thrown e st' ->
    err_code e = CODE_OVERFLOW \/
    exists o, init_options beyond n opt = Some o /\ Opt.r o = true.
Proof.
  intros rex_ ind strtoul beyond n opt e st' H. unfold init in H.
  destruct (init_options beyond n opt) as [o|] eqn:Ho; [|discriminate].
  match type of H with ?c _ = _ => assert (P : orderly c) end.
  { orderly_all; try apply orderly_build; try apply orderly_assemble. }
  specialize (P (initial o)). rewrite H in P. destruct P as [[R|C] _].
  - right. exists o. split; [reflexivity|exact R].
  - left. exact C.
Qed.

(** When the option string does not set [w], [init] writes nothing to the
    error stream, whether it returns or throws. *)
Theorem init_silent_without_w :
  forall rex_ ind strtoul beyond n opt o st',
    init_options beyond n opt = Some o -> Opt.w o = false ->
    final (init rex_ ind strtoul beyond n opt) = Some st' ->
    shown st' = [].
Proof.
  intros rex_ ind strtoul beyond n opt o st' Ho Hw H. unfold init in H. rewrite Ho in H.
  match type of H with final (?c _) = _ => assert (P : orderly c) end.
  { orderly_all; try apply orderly_build; try apply orderly_assemble. }
  specialize (P (initial o)).
  match type of H with final ?x = _ => destruct x as [p st1|e st1|] end;
    [| |discriminate]; cbn [final] in H; inversion H; subst st1;
    destruct P as [_ P]; apply P; exact Hw.
Qed.

(** The options [b], [e], [f], [n], [r] and [w] of a compiled pattern are
    those of the option string: modifiers in the regex change none of them. *)
Theorem init_keeps_options :
  forall rex_ ind strtoul beyond n opt o p st',
    init_options beyond n opt = Some o ->
    init rex_ ind strtoul beyond n opt = Return p st' ->
    Opt.b (pat_opt p) = Opt.b o /\ Opt.e (pat_opt p) = Opt.e o /\
    Opt.f (pat_opt p) = Opt.f o /\ Opt.n (pat_opt p) = Opt.n o /\
    Opt.r (pat_opt p) = Opt.r o /\ Opt.w (pat_opt p) = Opt.w o.
Proof.
  intros rex_ ind strtoul beyond n opt o p st' Ho H. unfold init in H. rewrite Ho in H.
  apply bind_Return in H. destruct H as ([[parsed dfa] cnt] & st1 & H1 & H).
  apply bind_Return in H. destruct H as ([nop_ opc] & st2 & H2 & H).
  apply bind_Return in H. destruct H as (o' & st3 & H3 & H).
  unfold get_opt in H3. inversion H3; subst o' st3. clear H3.
  unfold ret in H. inversion H; subst p st'. clear H. cbn [pat_opt].
  pose proof (orderly_build rex_ ind strtoul n (initial o)) as P1. rewrite H1 in P1.
  pose proof (orderly_assemble dfa st1) as P2. rewrite H2 in P2.
  destruct P1 as [F1 _], P2 as [F2 _]. rewrite F1 in F2.
  unfold fixed_part in F2. cbn [opt_ initial] in F2.
  inversion F2. repeat split; congruence.
Qed.

(** An unclosed group: [missing )] is thrown under option [r]. *)
Lemma init_unclosed_group_r :
  exists e st',
    init "(" (fun _ => (false, 0)) (fun _ _ => 0) (fun _ => 0) 20 (Some "r"%string) = Thrown e st' /\
    err_code e = REGEX_SYNTAX.
Proof. eexists. eexists. split; [vm_compute; reflexivity|reflexivity]. Qed.

Lemma init_throws_when_asked_example :
  exists e st',
    init "(" (fun _ => (false, 0)) (fun _ _ => 0) (fun _ => 0) 20 (Some "r"%string) = Thrown e st' /\
    (err_code e = CODE_OVERFLOW \/
     exists o, init_options (fun _ => 0) 20 (Some "r"%string) = Some o /\ Opt.r o = true).
Proof.
  destruct init_unclosed_group_r as (e & st' & E & _).
  exists e, st'. split; [exact E|].
  exact (init_throws_when_asked _ _ _ _ _ _ _ _ E).
Defined.

(** The same regex without options: the error is neither thrown nor shown. *)
Lemma init_unclosed_group :
  exists p st',
    init "(" (fun _ => (false, 0)) (fun _ _ => 0) (fun _ => 0) 20 None = Return p st' /\
    pat_opc p = [TAKE 1; GOTO 0 255 65535].
Proof. eexists. eexists. split; [vm_compute; reflexivity|reflexivity]. Qed.

Lemma init_silent_without_w_example :
  exists p st',
    init "(" (fun _ => (false, 0)) (fun _ _ => 0) (fun _ => 0) 20 None = Return p st' /\
    shown st' = [].
Proof.
  destruct init_unclosed_group as (p & st' & E & _).
  exists p, st'. split; [exact E|].
  apply (init_silent_without_w "(" (fun _ => (false, 0)) (fun _ _ => 0) (fun _ => 0) 20 None
           Opt.default st' eq_refl eq_refl).
  rewrite E. reflexivity.
Defined.

(** The regex sets [i]; the option string sets [b]. *)
Lemma init_global_modifier :
  exists p st',
    init "(?i)a" (fun _ => (false, 0)) (fun _ _ => 0) (fun _ => 0) 20 (Some "b"%string)
      = Return p st' /\
    Opt.i (pat_opt p) = true.
Proof. eexists. eexists. split; [vm_compute; reflexivity|reflexivity]. Qed.

Lemma init_keeps_options_example :
  exists p st',
    init "(?i)a" (fun _ => (false, 0)) (fun _ _ => 0) (fun _ => 0) 20 (Some "b"%string)
      = Return p st' /\
    Opt.i (pat_opt p) = true /\ Opt.b (pat_opt p) = true /\ Opt.r (pat_opt p) = false.
Proof.
  destruct init_global_modifier as (p & st' & E & Hi).
  exists p, st'. split; [exact E|]. split; [exact Hi|].
  destruct (init_keeps_options "(?i)a" (fun _ => (false, 0)) (fun _ _ => 0) (fun _ => 0) 20
              (Some "b"%string)
              (Opt.mk true 92 [] false false false EmptyString false false false false
                      false)
              p st' eq_refl E) as (Hb & _ & _ & _ & Hr & _).
  split; [exact Hb|exact Hr].
Defined.

(** ** [encode_dfa]: the two passes agree

    The first pass counts the opcode words and gives every state its index;
    the second pass writes the words.  The count is kept in the 16-bit
    [nop_]. *)

Lemma to_Index_add_l a b : to_Index (to_Index a + b) = to_Index (a + b).
Proof. unfold to_Index. apply Z.add_mod_idemp_l. unfold IMAX. lia. Qed.

Lemma to_Index_add_r a b : to_Index (a + to_Index b) = to_Index (a + b).
Proof. unfold to_Index. apply Z.add_mod_idemp_r. unfold IMAX. lia. Qed.

Lemma to_Index_range a : 0 <= to_Index a <= IMAX.
Proof. unfold to_Index, IMAX. change (65535 + 1) with 65536. pose proof (Z.mod_pos_bound a 65536). lia. Qed.

Lemma to_Index_small a : 0 <= a <= IMAX -> to_Index a = a.
Proof. unfold to_Index, IMAX. intros H. apply Z.mod_small. lia. Qed.

(** Arithmetic modulo the Index range. *)
Ltac idx_arith :=
  unfold to_Index, IMAX in *; change (65535 + 1) with 65536 in *;
  Z.div_mod_to_equations; lia.

Lemma upto_length lo hi : List.length (upto lo hi) = Z.to_nat (hi - lo).
Proof. unfold upto. rewrite length_map, length_seq. reflexivity. Qed.

Lemma encode_edge_length dfa i :
  Z.of_nat (List.length (encode_edge dfa i)) = edge_words i.
Proof.
  unfold encode_edge, edge_words. destruct (is_meta (fst i)); cbn [negb]; [|reflexivity].
  rewrite length_map. cbn [List.length]. rewrite upto_length. lia.
Qed.

Lemma edges_words_app a b : edges_words (a ++ b) = edges_words a + edges_words b.
Proof. induction a as [|i a IH]; simpl; [reflexivity|]. rewrite IH. lia. Qed.

Lemma edges_words_rev a : edges_words (rev a) = edges_words a.
Proof.
  induction a as [|i a IH]; simpl; [reflexivity|].
  rewrite edges_words_app, IH. simpl. lia.
Qed.

Lemma flat_map_encode_edge_length dfa e :
  Z.of_nat (List.length (flat_map (encode_edge dfa) e)) = edges_words e.
Proof.
  induction e as [|i e IH]; simpl; [reflexivity|].
  rewrite length_app, Nat2Z.inj_add, IH, encode_edge_length. reflexivity.
Qed.

Lemma encode_state_length dfa s :
  Z.of_nat (List.length (encode_state dfa s)) = state_words s.
Proof.
  unfold encode_state, state_words.
  rewrite !length_app, !length_map, !Nat2Z.inj_add, flat_map_encode_edge_length,
    edges_words_rev.
  destruct (redo s); [|destruct (0 <? accept s)]; cbn [List.length orb]; lia.
Qed.

Lemma edges_words_set k v e :
  ~ In k (map fst e) -> edges_words (edges_set k v e) = edge_words (k, v) + edges_words e.
Proof.
  induction e as [|[lo' v'] rest IH]; intros H; simpl; [reflexivity|].
  simpl in H. destruct (Z.eqb_spec k lo'); [exfalso; apply H; left; congruence|].
  destruct (k <? lo'); simpl; [reflexivity|]. rewrite IH by tauto. lia.
Qed.

Lemma count_edges_snd e : forall lb h nop_,
  valid_from lb e ->
  to_Index (snd (fold_left
         (fun (acc : Char * Index) (i : Edge) =>
            let '(hi, nop_) := acc in
            let hi := if fst i =? hi then fst (snd i) + 1 else hi in
            let nop_ := to_Index (nop_ + 1) in
            let nop_ :=
              if is_meta (fst i) then to_Index (nop_ + (fst (snd i) - fst i)) else nop_ in
            (hi, nop_))
         e (h, nop_)))
  = to_Index (nop_ + edges_words e).
Proof.
  induction e as [|[lo [hi t]] rest IH]; intros lb h nop_ Hv.
  - simpl. f_equal. lia.
  - simpl in Hv. destruct Hv as (H1 & H2 & H3).
    cbn [fold_left fst snd]. rewrite (IH _ _ _ H3).
    change (edges_words ((lo, (hi, t)) :: rest))
      with (edge_words (lo, (hi, t)) + edges_words rest).
    unfold edge_words. cbn [fst snd]. clear IH.
    generalize (edges_words rest). intros w.
    destruct (is_meta lo); idx_arith.
Qed.

Lemma count_edges_words e nop_ :
  valid_from 0 e -> to_Index (snd (count_edges e nop_)) = to_Index (nop_ + edges_words e).
Proof. unfold count_edges. apply count_edges_snd. Qed.

(** The first pass on one state: its index, and the count after it. *)
Lemma count_state_words s nop_ st s' nop' st' :
  valid_from 0 (edges s) ->
  count_state s nop_ st = Return (s', nop') st' ->
  index s' = nop_ /\ nop' = to_Index (nop_ + state_words s') /\ nop_ <= nop' /\
  st' = st.
Proof.
  intros Hv H. unfold count_state in H.
  destruct (count_edges (edges (with_index s nop_)) nop_) as [h n1] eqn:Ec.
  change (edges (with_index s nop_)) with (edges s) in *.
  assert (Hh : h = cover_from 0 (edges s)).
  { pose proof (count_edges_fst (edges s) nop_) as E. rewrite Ec in E. exact E. }
  assert (Hn : to_Index n1 = to_Index (nop_ + edges_words (edges s))).
  { pose proof (count_edges_words (edges s) nop_ Hv) as E.
    rewrite Ec in E. exact E. }
  pose proof (cover_from_fresh (edges s) 0 0 Hv) as Hfresh. rewrite <- Hh in Hfresh.
  destruct (Z.leb_spec h 255) as [Hle|Hgt].
  - apply bind_Return in H. destruct H as (u & st1 & Hc & H).
    unfold ret in H. inversion H; subst s' nop' st'. clear H.
    match type of Hc with (if ?c then _ else _) _ = _ => destruct c eqn:Ck end.
    + unfold error in Hc. rewrite orb_true_r in Hc. discriminate.
    + unfold ret in Hc. inversion Hc; subst st1. clear Hc.
      cbn [index with_edges with_index] in *.
      split; [reflexivity|]. split; [|split; [apply Z.ltb_ge in Ck; exact Ck|reflexivity]].
      unfold state_words. cbn [redo accept tails heads edges with_edges with_index].
      rewrite edges_words_set by exact Hfresh.
      unfold edge_words at 1. cbn [fst snd].
      replace (is_meta h) with false by (unfold is_meta, META_MIN; symmetry; apply Z.ltb_ge; lia).
      clear Ec Ck. revert Hn. generalize (edges_words (edges s)). intros w Hn.
      destruct (redo s), (0 <? accept s); cbn [orb]; idx_arith.
  - apply bind_Return in H. destruct H as (u & st1 & Hc & H).
    unfold ret in H. inversion H; subst s' nop' st'. clear H.
    match type of Hc with (if ?c then _ else _) _ = _ => destruct c eqn:Ck end.
    + unfold error in Hc. rewrite orb_true_r in Hc. discriminate.
    + unfold ret in Hc. inversion Hc; subst st1. clear Hc.
      cbn [index with_edges with_index] in *.
      split; [reflexivity|]. split; [|split; [apply Z.ltb_ge in Ck; exact Ck|reflexivity]].
      unfold state_words. cbn [redo accept tails heads edges with_edges with_index].
      clear Ec Ck. revert Hn. generalize (edges_words (edges s)). intros w Hn.
      destruct (redo s), (0 <? accept s); cbn [orb]; idx_arith.
Qed.

Lemma edges_words_nonneg e : 0 <= edges_words e.
Proof.
  induction e as [|i e IH]; simpl; [lia|]. unfold edge_words.
  destruct (is_meta (fst i)); lia.
Qed.

Lemma state_words_nonneg s : 0 <= state_words s.
Proof.
  unfold state_words. pose proof (edges_words_nonneg (edges s)).
  destruct (redo s || (0 <? accept s)); lia.
Qed.

Lemma dfa_words_nonneg dfa : 0 <= dfa_words dfa.
Proof.
  induction dfa as [|s dfa IH]; simpl; [lia|]. pose proof (state_words_nonneg s). lia.
Qed.

Lemma flat_map_encode_state_length d dfa :
  Z.of_nat (List.length (flat_map (encode_state d) dfa)) = dfa_words dfa.
Proof.
  induction dfa as [|s dfa IH]; simpl; [reflexivity|].
  rewrite length_app, Nat2Z.inj_add, IH, encode_state_length. reflexivity.
Qed.

Lemma count_states_words : forall dfa nop_ st dfa' nop' st',
  Forall (fun s => valid_from 0 (edges s)) dfa ->
  0 <= nop_ <= IMAX ->
  count_states dfa nop_ st = Return (dfa', nop') st' ->
  0 <= nop' <= IMAX /\
  nop' = to_Index (nop_ + dfa_words dfa') /\
  (Forall (fun s => state_words s <= IMAX) dfa' ->
   nop' = nop_ + dfa_words dfa' /\
   forall k s, nth_error dfa' k = Some s ->
               index s = nop_ + dfa_words (firstn k dfa')).
Proof.
  induction dfa as [|s dfa IH]; intros nop_ st dfa' nop' st' Hv Hn H.
  - cbn [count_states] in H. unfold ret in H. inversion H; subst. clear H.
    cbn [dfa_words fold_right]. rewrite Z.add_0_r.
    split; [exact Hn|]. split; [symmetry; apply to_Index_small; exact Hn|].
    intros _. split; [lia|]. intros [|k] s0 Hk; discriminate.
  - cbn [count_states] in H. inversion Hv as [|? ? Hs Hrest]; subst.
    apply bind_Return in H. destruct H as ([s1 nop1] & st1 & H1 & H).
    apply bind_Return in H. destruct H as ([rest nop2] & st2 & H2 & H).
    unfold ret in H. inversion H; subst dfa' nop' st'. clear H.
    apply (count_state_words _ _ _ _ _ _ Hs) in H1.
    destruct H1 as (Hi & Hn1 & Hle & _).
    assert (Hr1 : 0 <= nop1 <= IMAX) by (rewrite Hn1; apply to_Index_range).
    destruct (IH _ _ _ _ _ Hrest Hr1 H2) as (Hr2 & Hn2 & Hex).
    split; [exact Hr2|]. pose proof (state_words_nonneg s1) as Hs1.
    split.
    + rewrite Hn2, Hn1. cbn [dfa_words fold_right]. fold (dfa_words rest).
      generalize (dfa_words rest) (state_words s1). intros a b. clear. idx_arith.
    + intros Hb. apply Forall_cons_iff in Hb. destruct Hb as [Hb1 Hbr].
      destruct (Hex Hbr) as (He1 & He2).
      assert (Hx : nop1 = nop_ + state_words s1).
      { clear - Hn1 Hle Hn Hb1 Hs1. unfold IMAX in *. idx_arith. }
      cbn [dfa_words fold_right]. fold (dfa_words rest).
      split; [lia|]. intros [|k] s0 Hk.
      * cbn in Hk. inversion Hk; subst s0. cbn [firstn dfa_words fold_right]. lia.
      * cbn [nth_error] in Hk. rewrite (He2 _ _ Hk).
        cbn [firstn dfa_words fold_right]. fold (dfa_words (firstn k rest)). lia.
Qed.

Lemma encode_dfa_run dfa st dfa' nop_ opc st' :
  encode_dfa dfa st = Return (dfa', nop_, opc) st' ->
  count_states dfa 0 st = Return (dfa', nop_) st' /\
  opc = flat_map (encode_state dfa') dfa'.
Proof.
  intros H. unfold encode_dfa in H.
  apply bind_Return in H. destruct H as ([d n] & st1 & H1 & H).
  unfold ret in H. inversion H; subst. split; [exact H1|reflexivity].
Qed.

Lemma Forall_words d dfa :
  Forall (fun s => Z.of_nat (List.length (encode_state d s)) <= IMAX) dfa ->
  Forall (fun s => state_words s <= IMAX) dfa.
Proof.
  intros H. eapply Forall_impl; [|exact H]. intros s Hs.
  cbv beta in Hs. rewrite encode_state_length in Hs. exact Hs.
Qed.

(** When [encode_dfa] returns, the table the second pass writes has [nop_]
    words modulo the Index range; when no state has more words than the Index
    range holds, it has exactly [nop_] words: the second pass stays within the
    array of [nop_] opcodes that it allocates. *)
Theorem encode_dfa_table_size :
  forall dfa st dfa' nop_ opc st',
    Forall (fun s => valid_from 0 (edges s)) dfa ->
    encode_dfa dfa st = Return (dfa', nop_, opc) st' ->
    to_Index (Z.of_nat (List.length opc)) = nop_ /\
    (Forall (fun s => Z.of_nat (List.length (encode_state dfa' s)) <= IMAX) dfa' ->
     Z.of_nat (List.length opc) = nop_).
Proof.
  intros dfa st dfa' nop_ opc st' Hv H.
  apply encode_dfa_run in H. destruct H as [H ->].
  assert (H0 : 0 <= 0 <= IMAX) by (unfold IMAX; lia).
  destruct (count_states_words _ _ _ _ _ _ Hv H0 H) as (_ & Hn & Hex).
  rewrite flat_map_encode_state_length. split.
  - rewrite Hn. reflexivity.
  - intros Hb. destruct (Hex (Forall_words _ _ Hb)) as [Hx _]. lia.
Qed.

(** The index of a state is where its opcodes start in the table: the words
    of state [s] are found at [opc[index s]] and after; a GOTO to that index
    lands on them. *)
Theorem encode_dfa_state_index :
  forall dfa st dfa' nop_ opc st' k s,
    Forall (fun s => valid_from 0 (edges s)) dfa ->
    encode_dfa dfa st = Return (dfa', nop_, opc) st' ->
    Forall (fun s => Z.of_nat (List.length (encode_state dfa' s)) <= IMAX) dfa' ->
    nth_error dfa' k = Some s ->
    0 <= index s /\
    firstn (List.length (encode_state dfa' s)) (skipn (Z.to_nat (index s)) opc)
    = encode_state dfa' s.
Proof.
  intros dfa st dfa' nop_ opc st' k s Hv H Hb Hk.
  apply encode_dfa_run in H. destruct H as [H ->].
  assert (H0 : 0 <= 0 <= IMAX) by (unfold IMAX; lia).
  destruct (count_states_words _ _ _ _ _ _ Hv H0 H) as (_ & _ & Hex).
  destruct (Hex (Forall_words _ _ Hb)) as [_ Hi]. specialize (Hi _ _ Hk).
  rewrite Z.add_0_l in Hi. pose proof (dfa_words_nonneg (firstn k dfa')) as Hp.
  split; [lia|].
  apply nth_error_split in Hk. destruct Hk as (l1 & l2 & E & Hl).
  assert (Ef : firstn k dfa' = l1).
  { rewrite E, <- Hl. rewrite firstn_app, Nat.sub_diag, firstn_all. simpl.
    apply app_nil_r. }
  rewrite Ef in Hi.
  rewrite <- (flat_map_encode_state_length dfa' l1) in Hi.
  rewrite Hi, Nat2Z.id. clear Hi Ef Hex Hb H.
  generalize (encode_state dfa'). intros f.
  rewrite E, flat_map_app. cbn [flat_map].
  rewrite skipn_app, skipn_all, Nat.sub_diag. cbn [skipn app].
  rewrite firstn_app, Nat.sub_diag, firstn_all. cbn [firstn]. apply app_nil_r.
Qed.

(** A DFA of three states; the first has the edges [0-1] and [4-5] to the
    second state and [2-3] to the third. *)
Lemma encode_three_states :
  let dfa := [with_edges (new_State [])
                [(0, (1, Some 1%nat)); (2, (3, Some 2%nat)); (4, (5, Some 1%nat))];
              with_accept (new_State []) 1; with_accept (new_State []) 2] in
  exists dfa' opc st' s,
    encode_dfa dfa (initial Opt.default) = Return (dfa', 8, opc) st' /\
    Forall (fun s => Z.of_nat (List.length (encode_state dfa' s)) <= IMAX) dfa' /\
    nth_error dfa' 1 = Some s /\ index s = 4 /\
    encode_state dfa' s = [TAKE 1; GOTO 0 255 65535].
Proof.
  cbv zeta. eexists. eexists. eexists. eexists.
  split; [vm_compute; reflexivity|].
  split; [repeat constructor; vm_compute; discriminate|].
  split; [reflexivity|]. split; reflexivity.
Qed.

Lemma encode_dfa_table_size_example :
  let dfa := [with_edges (new_State [])
                [(0, (1, Some 1%nat)); (2, (3, Some 2%nat)); (4, (5, Some 1%nat))];
              with_accept (new_State []) 1; with_accept (new_State []) 2] in
  exists dfa' opc st',
    encode_dfa dfa (initial Opt.default) = Return (dfa', 8, opc) st' /\
    Z.of_nat (List.length opc) = 8.
Proof.
  cbv zeta. destruct encode_three_states as (dfa' & opc & st' & s & E & Hb & _).
  exists dfa', opc, st'. split; [exact E|].
  refine (proj2 (encode_dfa_table_size _ _ _ _ _ _ _ E) Hb).
  repeat constructor; simpl; lia.
Defined.

Lemma encode_dfa_state_index_example :
  let dfa := [with_edges (new_State [])
                [(0, (1, Some 1%nat)); (2, (3, Some 2%nat)); (4, (5, Some 1%nat))];
              with_accept (new_State []) 1; with_accept (new_State []) 2] in
  exists dfa' opc st',
    encode_dfa dfa (initial Opt.default) = Return (dfa', 8, opc) st' /\
    firstn 2 (skipn 4 opc) = [TAKE 1; GOTO 0 255 65535].
Proof.
  cbv zeta. destruct encode_three_states as (dfa' & opc & st' & s & E & Hb & Hk & Hi & Hs).
  exists dfa', opc, st'. split; [exact E|].
  assert (Hv : Forall (fun s => valid_from 0 (edges s))
                 [with_edges (new_State [])
                    [(0, (1, Some 1%nat)); (2, (3, Some 2%nat)); (4, (5, Some 1%nat))];
                  with_accept (new_State []) 1; with_accept (new_State []) 2])
    by (repeat constructor; simpl; lia).
  destruct (encode_dfa_state_index _ _ _ _ _ _ 1%nat s Hv E Hb Hk) as [_ H].
  rewrite Hi, Hs in H. exact H.
Defined.

(** ** [compact_dfa] and [encode_dfa]: the transitions of a state *)

Lemma target_eqb_eq a b : target_eqb a b = true -> a = b.
Proof.
  destruct a as [x|], b as [y|]; simpl; try discriminate; [|reflexivity].
  intros H. apply Nat.eqb_eq in H. congruence.
Qed.

Lemma last_edge_lower e : forall lb c u,
  disjoint_from lb e -> last_edge e c = Some u -> lb <= c.
Proof.
  induction e as [|[lo [hi t]] rest IH]; intros lb c u Hd H; [discriminate|].
  simpl in Hd. destruct Hd as (H1 & H2 & H3). cbn [last_edge] in H.
  destruct (last_edge rest c) as [v|] eqn:E.
  - specialize (IH _ _ _ H3 E). lia.
  - unfold holds in H. cbn [fst snd] in H.
    destruct (Z.leb_spec lo c); [lia|discriminate].
Qed.

(** What the inner loop of [compact_dfa] does to the transitions: an edge it
    erases went to the target of the edge it extends. *)
Lemma merge_run_last rest : forall lb hi t ihi c,
  disjoint_from lb rest -> hi < lb -> ihi <= hi ->
  ihi <= fst (merge_run hi t ihi rest) /\
  match last_edge rest c with
  | Some u =>
      last_edge (snd (merge_run hi t ihi rest)) c = Some u \/
      (last_edge (snd (merge_run hi t ihi rest)) c = None /\ u = t /\
       c <= fst (merge_run hi t ihi rest))
  | None =>
      last_edge (snd (merge_run hi t ihi rest)) c = None /\
      (c <= hi \/ fst (merge_run hi t ihi rest) < c)
  end.
Proof.
  induction rest as [|[lo2 [hi2 t2]] rest IH]; intros lb hi t ihi c Hd Hlb Hi.
  - simpl. split; [lia|]. split; [reflexivity|lia].
  - simpl in Hd. destruct Hd as (H1 & H2 & H3).
    cbn [merge_run]. destruct (Z.leb_spec lo2 (hi + 1)) as [Hadj|Hgap].
    + destruct (target_eqb t2 t) eqn:Et.
      * apply target_eqb_eq in Et. subst t2.
        destruct (IH (hi2 + 1) hi2 t hi2 c H3) as (Ha & Hb); [lia|lia|].
        split; [lia|]. cbn [last_edge].
        destruct (last_edge rest c) as [u|] eqn:El; [exact Hb|].
        destruct Hb as [Hn Hc]. unfold holds. cbn [fst snd].
        destruct (Z.leb_spec lo2 c), (Z.leb_spec c hi2); cbn [andb].
        -- right. repeat split; [assumption|lia].
        -- split; [assumption|]. lia.
        -- split; [assumption|]. lia.
        -- split; [assumption|]. lia.
      * destruct (IH (hi2 + 1) hi2 t ihi c H3) as (Ha & Hb); [lia|lia|].
        destruct (merge_run hi2 t ihi rest) as [h r] eqn:Em. cbn [fst snd] in *.
        split; [assumption|]. cbn [last_edge].
        destruct (last_edge rest c) as [u|] eqn:El.
        -- pose proof (last_edge_lower _ _ _ _ H3 El) as Hge.
           destruct Hb as [Hb|(Hn & Hu & Hc)].
           ++ left. rewrite Hb. reflexivity.
           ++ right. rewrite Hn. unfold holds. cbn [fst snd].
              destruct (Z.leb_spec lo2 c), (Z.leb_spec c hi2); cbn [andb];
                try lia; (split; [reflexivity|split; assumption]).
        -- destruct Hb as [Hn Hc]. rewrite Hn. unfold holds. cbn [fst snd].
           destruct (Z.leb_spec lo2 c), (Z.leb_spec c hi2); cbn [andb].
           ++ left. reflexivity.
           ++ split; [reflexivity|]. lia.
           ++ split; [reflexivity|]. lia.
           ++ split; [reflexivity|]. lia.
    + cbn [fst snd]. split; [lia|].
      match goal with |- context [last_edge ?l c] => destruct (last_edge l c) end;
        [left; reflexivity|].
      split; [reflexivity|]. lia.
Qed.

Lemma compact_edges_last : forall n e lb c,
  (List.length e <= n)%nat -> disjoint_from lb e ->
  last_edge (compact_edges e) c = last_edge e c.
Proof.
  induction n as [|n IH]; intros e lb c Hn Hd.
  - destruct e; [simp compact_edges; reflexivity|simpl in Hn; lia].
  - destruct e as [|[lo [hi t]] rest]; [simp compact_edges; reflexivity|].
    simp compact_edges. destruct (Z.leb_spec 255 hi) as [Hhi|Hhi]; [reflexivity|].
    simpl in Hd. destruct Hd as (H1 & H2 & H3).
    destruct (merge_run_last rest (hi + 1) hi t hi c H3) as (Ha & Hb); [lia|lia|].
    pose proof (merge_run_length rest hi t hi) as Hlen.
    cbn [last_edge].
    rewrite (IH (snd (merge_run hi t hi rest)) (hi + 1) c);
      [|simpl in Hn; lia|apply merge_run_disjoint; assumption].
    unfold holds. cbn [fst snd].
    destruct (last_edge rest c) as [u|] eqn:El.
    + pose proof (last_edge_lower _ _ _ _ H3 El) as Hge.
      destruct Hb as [Hb|(Hn' & Hu & Hc)]; [rewrite Hb; reflexivity|].
      rewrite Hn'. subst u.
      destruct (Z.leb_spec lo c), (Z.leb_spec c (fst (merge_run hi t hi rest)));
        cbn [andb]; try lia. reflexivity.
    + destruct Hb as [Hn' Hc]. rewrite Hn'.
      destruct (Z.leb_spec lo c), (Z.leb_spec c (fst (merge_run hi t hi rest))),
        (Z.leb_spec c hi); cbn [andb]; try reflexivity; lia.
Qed.

Lemma first_goto_app a b c :
  first_goto (a ++ b) c =
  match first_goto a c with Some t => Some t | None => first_goto b c end.
Proof.
  induction a as [|o a IH]; simpl; [reflexivity|].
  destruct o; try exact IH. destruct ((lo <=? c) && (c <=? hi)); [reflexivity|exact IH].
Qed.

Lemma first_goto_no_goto (f : Z -> Opcode) l c :
  (forall i, match f i with GOTO _ _ _ => False | _ => True end) ->
  first_goto (map f l) c = None.
Proof.
  intros H. induction l as [|i l IH]; simpl; [reflexivity|].
  specialize (H i). destruct (f i); try exact IH. contradiction.
Qed.

Lemma first_goto_singles t l c :
  first_goto (map (fun a => GOTO a a t) l) c =
  if existsb (Z.eqb c) l then Some t else None.
Proof.
  induction l as [|a l IH]; simpl; [reflexivity|].
  rewrite IH. destruct (Z.leb_spec a c), (Z.leb_spec c a), (Z.eqb_spec c a);
    cbn [andb orb]; try reflexivity; lia.
Qed.

Lemma existsb_upto c lo hi : existsb (Z.eqb c) (upto lo hi) = (lo <=? c) && (c <? hi).
Proof.
  unfold upto.
  destruct (existsb (Z.eqb c) (map (fun k => lo + Z.of_nat k) (seq 0 (Z.to_nat (hi - lo)))))
    eqn:E.
  - apply existsb_exists in E. destruct E as (x & Hx & Hc).
    apply in_map_iff in Hx. destruct Hx as (k & <- & Hk). apply in_seq in Hk.
    apply Z.eqb_eq in Hc. symmetry. apply andb_true_iff. split.
    + apply Z.leb_le. lia.
    + apply Z.ltb_lt. lia.
  - symmetry. apply andb_false_iff.
    destruct (Z.leb_spec lo c); [|left; reflexivity]. right.
    destruct (Z.ltb_spec c hi); [|reflexivity]. exfalso.
    assert (Hex : existsb (Z.eqb c)
              (map (fun k => lo + Z.of_nat k) (seq 0 (Z.to_nat (hi - lo)))) = true).
    { apply existsb_exists. exists c. split; [|apply Z.eqb_refl].
      apply in_map_iff. exists (Z.to_nat (c - lo)). split; [lia|].
      apply in_seq. lia. }
    congruence.
Qed.

Lemma first_goto_encode_edge d i c :
  fst i <= fst (snd i) ->
  first_goto (encode_edge d i) c =
  if holds i c then Some (target_index d (snd (snd i))) else None.
Proof.
  intros Hv.
  assert (E : encode_edge d i =
              if negb (is_meta (fst i))
              then [GOTO (fst i) (fst (snd i)) (target_index d (snd (snd i)))]
              else map (fun a => GOTO a a (target_index d (snd (snd i))))
                       (fst i :: upto (fst i + 1) (fst (snd i) + 1)))
    by reflexivity.
  rewrite E. clear E. unfold holds.
  generalize (target_index d (snd (snd i))). intros T.
  destruct i as [lo [hi t]]. cbn [fst snd] in *.
  destruct (is_meta lo); cbn [negb].
  - rewrite first_goto_singles. cbn [existsb]. rewrite existsb_upto.
    destruct (Z.eqb_spec c lo), (Z.leb_spec (lo + 1) c), (Z.ltb_spec c (hi + 1)),
      (Z.leb_spec lo c), (Z.leb_spec c hi); cbn [andb orb]; try reflexivity; lia.
  - cbn [first_goto]. reflexivity.
Qed.

Lemma first_goto_edges d e : forall lb c,
  valid_from lb e ->
  first_goto (flat_map (encode_edge d) (rev e)) c =
  option_map (target_index d) (last_edge e c).
Proof.
  induction e as [|[lo [hi t]] rest IH]; intros lb c Hv; [reflexivity|].
  simpl in Hv. destruct Hv as (H1 & H2 & H3).
  cbn [rev last_edge]. rewrite flat_map_app, first_goto_app. cbn [flat_map].
  rewrite app_nil_r, (IH _ _ H3), first_goto_encode_edge by exact H2.
  destruct (last_edge rest c); cbn [option_map]; [reflexivity|].
  destruct (holds (lo, (hi, t)) c); reflexivity.
Qed.

Lemma first_goto_encode_state d s c :
  valid_from 0 (edges s) ->
  first_goto (encode_state d s) c =
  option_map (target_index d) (last_edge (edges s) c).
Proof.
  intros Hv. unfold encode_state. rewrite !first_goto_app.
  replace (first_goto (if redo s then [REDO] else if 0 <? accept s then [TAKE (accept s)] else []) c)
    with (@None Index) by (destruct (redo s); [|destruct (0 <? accept s)]; reflexivity).
  rewrite (first_goto_no_goto (fun i => TAIL (to_Index i))) by (intros; exact I).
  rewrite (first_goto_no_goto (fun i => HEAD (to_Index i))) by (intros; exact I).
  apply first_goto_edges with (lb := 0). exact Hv.
Qed.

Lemma valid_from_weaken e : forall lb lb',
  lb' <= lb -> valid_from lb e -> valid_from lb' e.
Proof.
  destruct e as [|[lo [hi t]] rest]; simpl; [tauto|].
  intros lb lb' Hle (H1 & H2 & H3). repeat split; [lia|assumption|assumption].
Qed.

Lemma compact_edges_valid : forall n e lb,
  (List.length e <= n)%nat -> disjoint_from lb e -> valid_from lb (compact_edges e).
Proof.
  induction n as [|n IH]; intros e lb Hn Hd.
  - destruct e; [simp compact_edges; exact I|simpl in Hn; lia].
  - destruct e as [|[lo [hi t]] rest]; [simp compact_edges; exact I|].
    simp compact_edges. destruct (Z.leb_spec 255 hi) as [Hhi|Hhi].
    + apply disjoint_from_valid. exact Hd.
    + simpl in Hd. destruct Hd as (H1 & H2 & H3).
      destruct (merge_run_last rest (hi + 1) hi t hi 0 H3) as (Ha & _); [lia|lia|].
      pose proof (merge_run_length rest hi t hi) as Hlen.
      cbn [valid_from]. split; [exact H1|]. split; [lia|].
      apply valid_from_weaken with (lb := hi + 1); [lia|].
      apply IH; [simpl in Hn; lia|apply merge_run_disjoint; exact H3].
Qed.

Lemma cover_from_above e : forall lb h,
  valid_from lb e -> h < lb -> cover_from h e = h.
Proof.
  induction e as [|[lo [hi t]] rest IH]; intros lb h Hv Hh; [reflexivity|].
  rewrite cover_from_cons. cbn [fst snd]. simpl in Hv. destruct Hv as (H1 & H2 & H3).
  destruct (Z.eqb_spec lo h); [lia|]. apply (IH (lo + 1)); [exact H3|lia].
Qed.

(** The inner loop either merges nothing, or leaves behind the extended edge
    only edges that end before it. *)
Lemma merge_run_cover rest : forall lb hi t ihi,
  disjoint_from lb rest -> hi < lb -> ihi <= hi ->
  (fst (merge_run hi t ihi rest) = ihi /\ snd (merge_run hi t ihi rest) = rest) \/
  (hi < fst (merge_run hi t ihi rest) /\
   cover_from (fst (merge_run hi t ihi rest) + 1) (snd (merge_run hi t ihi rest))
   = cover_from (hi + 1) rest /\
   Forall (fun i : Edge =>
             fst i <= fst (merge_run hi t ihi rest) ->
             fst (snd i) < fst (merge_run hi t ihi rest))
          (snd (merge_run hi t ihi rest))).
Proof.
  induction rest as [|[lo2 [hi2 t2]] rest IH]; intros lb hi t ihi Hd Hlb Hi.
  - left. split; reflexivity.
  - simpl in Hd. destruct Hd as (H1 & H2 & H3).
    cbn [merge_run]. destruct (Z.leb_spec lo2 (hi + 1)) as [Hadj|Hgap].
    + assert (El : lo2 = hi + 1) by lia.
      rewrite cover_from_cons. cbn [fst snd].
      destruct (Z.eqb_spec lo2 (hi + 1)); [|lia].
      destruct (target_eqb t2 t) eqn:Et.
      * right. destruct (IH (hi2 + 1) hi2 t hi2 H3) as [[Ha Hb]|(Ha & Hb & Hc)];
          [lia|lia| |].
        -- rewrite Ha, Hb. split; [lia|]. split; [reflexivity|].
           apply disjoint_from_lower in H3.
           eapply Forall_impl; [|exact H3]. cbv beta. intros; lia.
        -- split; [lia|]. split; [exact Hb|exact Hc].
      * destruct (IH (hi2 + 1) hi2 t ihi H3) as [[Ha Hb]|(Ha & Hb & Hc)]; [lia|lia| |].
        -- left. destruct (merge_run hi2 t ihi rest) as [h r]. cbn [fst snd] in *.
           split; [exact Ha|]. rewrite Hb. reflexivity.
        -- right. destruct (merge_run hi2 t ihi rest) as [h r]. cbn [fst snd] in *.
           split; [lia|]. split.
           ++ rewrite cover_from_cons. cbn [fst snd].
              destruct (Z.eqb_spec lo2 (h + 1)); [lia|]. exact Hb.
           ++ constructor; [cbn [fst snd]; intros; lia|exact Hc].
    + left. split; reflexivity.
Qed.

(** Beyond a gap that the loop cannot cross, the edges stay as they are. *)
Lemma merge_run_gap rest : forall lb hi t ihi x,
  disjoint_from lb rest -> hi < lb -> hi < x - 1 ->
  Forall (fun i : Edge => fst i < x -> fst (snd i) < x - 1) rest ->
  cover_from x (snd (merge_run hi t ihi rest)) = cover_from x rest.
Proof.
  induction rest as [|[lo2 [hi2 t2]] rest IH]; intros lb hi t ihi x Hd Hlb Hx Hg.
  - reflexivity.
  - simpl in Hd. destruct Hd as (H1 & H2 & H3).
    inversion Hg as [|? ? Hj Hr]; subst. cbn [fst snd] in Hj.
    cbn [merge_run]. destruct (Z.leb_spec lo2 (hi + 1)) as [Hadj|Hgap]; [|reflexivity].
    rewrite (cover_from_cons x (lo2, (hi2, t2))). cbn [fst snd].
    destruct (Z.eqb_spec lo2 x); [lia|].
    destruct (target_eqb t2 t).
    + apply (IH (hi2 + 1)); [exact H3|lia|lia|exact Hr].
    + specialize (IH (hi2 + 1) hi2 t ihi x H3).
      destruct (merge_run hi2 t ihi rest) as [h r]. cbn [fst snd] in *.
      rewrite cover_from_cons. cbn [fst snd].
      destruct (Z.eqb_spec lo2 x); [lia|]. apply IH; [lia|lia|exact Hr].
Qed.

Lemma compact_edges_cover : forall n e lb x,
  (List.length e <= n)%nat -> disjoint_from lb e ->
  Forall (fun i : Edge => fst i < x -> fst (snd i) < x - 1) e ->
  cover_from x (compact_edges e) = cover_from x e.
Proof.
  induction n as [|n IH]; intros e lb x Hn Hd Hg.
  - destruct e; [simp compact_edges; reflexivity|simpl in Hn; lia].
  - destruct e as [|[lo [hi t]] rest]; [simp compact_edges; reflexivity|].
    simp compact_edges. destruct (Z.leb_spec 255 hi) as [Hhi|Hhi]; [reflexivity|].
    simpl in Hd. destruct Hd as (H1 & H2 & H3).
    inversion Hg as [|? ? Hi Hr]; subst. cbn [fst snd] in Hi.
    pose proof (merge_run_length rest hi t hi) as Hlen.
    pose proof (merge_run_disjoint rest (hi + 1) hi t hi H3) as Hdr.
    assert (Hgr : Forall (fun i : Edge => fst i < x -> fst (snd i) < x - 1)
                         (snd (merge_run hi t hi rest)))
      by (apply merge_run_Forall; exact Hr).
    rewrite !cover_from_cons. cbn [fst snd].
    destruct (Z.eqb_spec lo x) as [El|Hne].
    + destruct (merge_run_cover rest (hi + 1) hi t hi H3) as [[Ha Hb]|(Ha & Hb & Hc)];
        [lia|lia| |].
      * rewrite Ha. rewrite (IH _ (hi + 1)); [|simpl in Hn; lia|exact Hdr|].
        -- rewrite Hb. reflexivity.
        -- rewrite Hb. apply disjoint_from_lower in H3.
           eapply Forall_impl; [|exact H3]. cbv beta. intros; lia.
      * rewrite (IH _ (hi + 1)); [exact Hb|simpl in Hn; lia|exact Hdr|].
        eapply Forall_impl; [|exact Hc]. cbv beta. intros; lia.
    + rewrite (IH _ (hi + 1)); [|simpl in Hn; lia|exact Hdr|exact Hgr].
      destruct (Z_lt_ge_dec lo x) as [Hlt|Hge].
      * apply (merge_run_gap rest (hi + 1)); [exact H3|lia|lia|exact Hr].
      * rewrite (cover_from_above _ (hi + 1) x);
          [|apply disjoint_from_valid; exact Hdr|lia].
        rewrite (cover_from_above _ (hi + 1) x);
          [reflexivity|apply disjoint_from_valid; exact H3|lia].
Qed.

Lemma last_edge_None e c :
  last_edge e c = None <-> Forall (fun i => holds i c = false) e.
Proof.
  induction e as [|i e IH]; cbn [last_edge]; [split; [constructor|reflexivity]|].
  destruct (last_edge e c) as [u|] eqn:E.
  - split; [discriminate|]. intros H. inversion H; subst.
    destruct IH as [_ IH]. specialize (IH H3). discriminate.
  - destruct (holds i c) eqn:Hh.
    + split; [discriminate|]. intros H. inversion H; subst. congruence.
    + split; [|reflexivity]. intros _. constructor; [exact Hh|]. apply IH. reflexivity.
Qed.

Lemma covers_last_edge e c :
  covers e c = match last_edge e c with Some _ => true | None => false end.
Proof.
  induction e as [|i e IH]; [reflexivity|].
  cbn [last_edge]. unfold covers in *. cbn [existsb]. rewrite IH.
  destruct (last_edge e c); [apply orb_true_r|]. rewrite orb_false_r.
  unfold holds. destruct ((fst i <=? c) && (c <=? fst (snd i))); reflexivity.
Qed.

Lemma last_edge_In e : forall lb lo hi t c,
  disjoint_from lb e -> In (lo, (hi, t)) e -> lo <= c <= hi ->
  last_edge e c = Some t.
Proof.
  induction e as [|[lo1 [hi1 t1]] rest IH]; intros lb lo hi t c Hd Hin Hc; [destruct Hin|].
  simpl in Hd. destruct Hd as (H1 & H2 & H3). cbn [last_edge].
  destruct Hin as [E|Hin].
  - inversion E; subst lo1 hi1 t1.
    destruct (last_edge rest c) as [u|] eqn:El.
    + pose proof (last_edge_lower _ _ _ _ H3 El). lia.
    + unfold holds. cbn [fst snd].
      destruct (Z.leb_spec lo c), (Z.leb_spec c hi); cbn [andb]; try lia. reflexivity.
  - rewrite (IH _ _ _ _ _ H3 Hin Hc). reflexivity.
Qed.

Lemma last_edge_set h v e : forall lb c,
  valid_from lb e -> ~ In h (map fst e) ->
  Forall (fun i : Edge => fst i < h -> fst (snd i) < h) e ->
  last_edge (edges_set h v e) c =
  match last_edge e c with
  | Some u => Some u
  | None => if holds (h, v) c then Some (snd v) else None
  end.
Proof.
  induction e as [|[lo [hi t]] rest IH]; intros lb c Hv Hk Hf; [reflexivity|].
  simpl in Hv. destruct Hv as (H1 & H2 & H3).
  inversion Hf as [|? ? Hi Hr]; subst. cbn [fst snd] in Hi.
  cbn [edges_set]. cbn [map fst In] in Hk.
  destruct (Z.eqb_spec h lo); [exfalso; apply Hk; left; congruence|].
  destruct (Z.ltb_spec h lo) as [Hlt|Hge].
  - reflexivity.
  - cbn [last_edge]. rewrite (IH (lo + 1) c H3) by (tauto || assumption).
    destruct (last_edge rest c) as [u|]; [reflexivity|].
    unfold holds. cbn [fst snd].
    destruct (Z.leb_spec h c), (Z.leb_spec c (fst v)), (Z.leb_spec lo c),
      (Z.leb_spec c hi); cbn [andb]; try reflexivity; lia.
Qed.

Lemma edges_set_valid h v e : forall lb,
  valid_from lb e -> ~ In h (map fst e) -> lb <= h -> h <= fst v ->
  valid_from lb (edges_set h v e).
Proof.
  induction e as [|[lo [hi t]] rest IH]; intros lb Hv Hk Hlb Hh.
  - cbn. destruct v. cbn [fst] in Hh. repeat split; assumption.
  - simpl in Hv. destruct Hv as (H1 & H2 & H3). cbn [map fst In] in Hk.
    cbn [edges_set]. destruct (Z.eqb_spec h lo); [exfalso; apply Hk; left; congruence|].
    destruct (Z.ltb_spec h lo) as [Hlt|Hge].
    + destruct v as [hv tv]. cbn [fst] in Hh. cbn [valid_from].
      repeat split; try assumption; lia.
    + cbn [valid_from]. repeat split; try assumption.
      apply IH; [assumption|tauto|lia|assumption].
Qed.

Lemma count_state_result s nop_ st s' nop' st' :
  count_state s nop_ st = Return (s', nop') st' ->
  s' = (if cover_from 0 (edges s) <=? 255
        then with_edges (with_index s nop_)
               (edges_set (cover_from 0 (edges s)) (255, None) (edges s))
        else with_index s nop_).
Proof.
  intros H. unfold count_state in H.
  destruct (count_edges (edges (with_index s nop_)) nop_) as [h n1] eqn:Ec.
  change (edges (with_index s nop_)) with (edges s) in *.
  assert (Hh : h = cover_from 0 (edges s)).
  { pose proof (count_edges_fst (edges s) nop_) as E. rewrite Ec in E. exact E. }
  subst h. destruct (cover_from 0 (edges s) <=? 255);
    apply bind_Return in H; destruct H as (u & st1 & _ & H);
    unfold ret in H; inversion H; reflexivity.
Qed.

Lemma count_states_nth : forall dfa nop_ st dfa' nop' st' k s,
  count_states dfa nop_ st = Return (dfa', nop') st' ->
  nth_error dfa k = Some s ->
  exists s' n st1 n' st2,
    nth_error dfa' k = Some s' /\ count_state s n st1 = Return (s', n') st2.
Proof.
  induction dfa as [|s0 dfa IH]; intros nop_ st dfa' nop' st' k s H Hk;
    [destruct k; discriminate|].
  cbn [count_states] in H.
  apply bind_Return in H. destruct H as ([s1 nop1] & st1 & H1 & H).
  apply bind_Return in H. destruct H as ([rest nop2] & st2 & H2 & H).
  unfold ret in H. inversion H; subst dfa' nop' st'. clear H.
  destruct k as [|k].
  - cbn in Hk. inversion Hk; subst s0. exists s1, nop_, st, nop1, st1.
    split; [reflexivity|exact H1].
  - cbn [nth_error] in Hk. destruct (IH _ _ _ _ _ _ _ H2 Hk) as (s' & n & sa & n' & sb & Ha & Hb).
    exists s', n, sa, n', sb. split; [exact Ha|exact Hb].
Qed.

(** What the first pass of [encode_dfa] leaves of the transitions of a state
    whose edges [compact_dfa] has merged. *)
Lemma count_state_compact_last e s nop_ st s' nop' st' c :
  disjoint_from 0 e ->
  edges s = compact_edges e ->
  count_state s nop_ st = Return (s', nop') st' ->
  valid_from 0 (edges s') /\
  last_edge (edges s') c =
  match last_edge e c with
  | Some u => Some u
  | None => if (cover_from 0 e <=? c) && (c <=? 255) then Some None else None
  end /\
  covers e (cover_from 0 e) = false /\
  (forall b, 0 <= b < cover_from 0 e -> covers e b = true).
Proof.
  intros Hd He H. apply count_state_result in H.
  pose proof (compact_edges_valid (List.length e) e 0 (le_n _) Hd) as Hv.
  pose proof (compact_edges_last (List.length e) e 0 c (le_n _) Hd) as Hl.
  assert (Hc : cover_from 0 (compact_edges e) = cover_from 0 e).
  { apply (compact_edges_cover (List.length e) e 0 0 (le_n _) Hd).
    apply disjoint_from_lower in Hd. eapply Forall_impl; [|exact Hd].
    cbv beta. intros; lia. }
  pose proof (cover_from_uncovered e 0 0 Hd (Z.le_refl 0)) as Hu.
  rewrite He, Hc in H. set (h := cover_from 0 e) in *.
  assert (Hcov : forall b, 0 <= b < h -> covers e b = true).
  { intros b Hb. destruct (cover_from_covered e 0 b); [fold h; lia|lia|assumption]. }
  assert (Hun : Forall (fun i : Edge => holds i h = false) (compact_edges e)).
  { apply last_edge_None.
    rewrite (compact_edges_last (List.length e) e 0 h (le_n _) Hd).
    rewrite covers_last_edge in Hu. destruct (last_edge e h); [discriminate|reflexivity]. }
  destruct (Z.leb_spec h 255) as [Hle|Hgt].
  - subst s'. cbn [edges with_edges].
    assert (Hfresh : ~ In h (map fst (compact_edges e))).
    { rewrite <- Hc. apply (cover_from_fresh _ 0 0 Hv). }
    assert (Hf : Forall (fun i : Edge => fst i < h -> fst (snd i) < h) (compact_edges e)).
    { pose proof Hv as Hv'. apply Forall_forall. intros [lo [hi t]] Hi. cbn [fst snd].
      rewrite Forall_forall in Hun. specialize (Hun _ Hi). unfold holds in Hun.
      cbn [fst snd] in Hun. intros Hlt.
      destruct (Z.leb_spec lo h), (Z.leb_spec h hi); cbn [andb] in Hun;
        try discriminate; lia. }
    split; [|split; [|split; [exact Hu|exact Hcov]]].
    + apply edges_set_valid; [exact Hv|exact Hfresh| |exact Hle].
      unfold h. apply (cover_from_ge e 0 0). apply disjoint_from_valid. exact Hd.
    + rewrite (last_edge_set h (255, None) (compact_edges e) 0 c Hv Hfresh Hf), Hl.
      unfold holds. cbn [fst snd]. reflexivity.
  - subst s'. cbn [edges with_index]. change (edges (with_index s nop_)) with (edges s).
    rewrite He. split; [exact Hv|]. split; [|split; [exact Hu|exact Hcov]].
    rewrite Hl. destruct (last_edge e c); [reflexivity|].
    destruct (Z.leb_spec h c), (Z.leb_spec c 255); cbn [andb]; try reflexivity; lia.
Qed.

(** [compact_dfa] changes no transition: for a state with disjoint edges,
    the first GOTO that holds a character goes to the same target before and
    after the edges are merged, whatever the indices of the states. *)
Theorem compact_dfa_keeps_transitions :
  forall (dfa d : list State) k s c,
    Forall (fun s => disjoint_from 0 (edges s)) dfa ->
    nth_error dfa k = Some s ->
    exists s',
      nth_error (compact_dfa dfa) k = Some s' /\
      first_goto (encode_state d s') c = first_goto (encode_state d s) c.
Proof.
  intros dfa d k s c Hd Hk.
  exists (with_edges s (compact_edges (edges s))). split.
  - unfold compact_dfa. rewrite nth_error_map, Hk. reflexivity.
  - rewrite Forall_forall in Hd. specialize (Hd s (nth_error_In _ _ Hk)).
    rewrite !first_goto_encode_state.
    + cbn [edges with_edges].
      rewrite (compact_edges_last (List.length (edges s)) _ 0 c (le_n _) Hd).
      reflexivity.
    + apply disjoint_from_valid. exact Hd.
    + cbn [edges with_edges].
      apply (compact_edges_valid (List.length (edges s)) _ 0 (le_n _) Hd).
Qed.

(** The opcodes implement the edges.  For a DFA whose states have disjoint
    edges, after [compact_dfa] and [encode_dfa] the first GOTO of a state that
    holds a character goes to the index of the target of the edge that holds
    it, and a byte that no edge of the state holds goes to [IMAX], the halt. *)
Theorem encode_dfa_implements_edges :
  forall dfa st dfa' nop_ opc st' k s,
    Forall (fun s => disjoint_from 0 (edges s)) dfa ->
    encode_dfa (compact_dfa dfa) st = Return (dfa', nop_, opc) st' ->
    nth_error dfa k = Some s ->
    exists s',
      nth_error dfa' k = Some s' /\
      (forall c lo hi t,
          In (lo, (hi, t)) (edges s) -> lo <= c <= hi ->
          first_goto (encode_state dfa' s') c = Some (target_index dfa' t)) /\
      (forall c, 0 <= c <= 255 -> covers (edges s) c = false ->
                 first_goto (encode_state dfa' s') c = Some IMAX).
Proof.
  intros dfa st dfa' nop_ opc st' k s Hd H Hk.
  unfold encode_dfa in H.
  apply bind_Return in H. destruct H as ([d n] & st1 & H1 & H).
  unfold ret in H. inversion H; subst d n opc st1. clear H.
  assert (Hk' : nth_error (compact_dfa dfa) k
                = Some (with_edges s (compact_edges (edges s)))).
  { unfold compact_dfa. rewrite nth_error_map, Hk. reflexivity. }
  destruct (count_states_nth _ _ _ _ _ _ _ _ H1 Hk')
    as (s' & n & sa & n' & sb & Ha & Hb).
  exists s'. split; [exact Ha|].
  rewrite Forall_forall in Hd. specialize (Hd s (nth_error_In _ _ Hk)).
  split.
  - intros c lo hi t Hin Hc.
    destruct (count_state_compact_last (edges s)
                (with_edges s (compact_edges (edges s))) _ _ _ _ _ c Hd eq_refl Hb)
      as (Hv & Hl & _).
    rewrite (first_goto_encode_state _ _ _ Hv), Hl.
    rewrite (last_edge_In _ _ _ _ _ _ Hd Hin Hc). reflexivity.
  - intros c Hc Hn.
    destruct (count_state_compact_last (edges s)
                (with_edges s (compact_edges (edges s))) _ _ _ _ _ c Hd eq_refl Hb)
      as (Hv & Hl & Hu & Hcov).
    rewrite (first_goto_encode_state _ _ _ Hv), Hl.
    destruct (Z.leb_spec (cover_from 0 (edges s)) c) as [Hle|Hlt].
    + rewrite covers_last_edge in Hn.
      destruct (last_edge (edges s) c); [discriminate|].
      destruct (Z.leb_spec c 255); [reflexivity|lia].
    + rewrite Hcov in Hn by lia. discriminate.
Qed.

Lemma compact_dfa_keeps_transitions_example :
  let s := with_edges (new_State [])
             [(0, (1, Some 1%nat)); (2, (3, Some 2%nat)); (4, (5, Some 1%nat))] in
  let dfa := [s; with_accept (new_State []) 1; with_accept (new_State []) 2] in
  exists s',
    nth_error (compact_dfa dfa) 0 = Some s' /\
    edges s' = [(0, (5, Some 1%nat)); (2, (3, Some 2%nat))] /\
    first_goto (encode_state dfa s') 3 = first_goto (encode_state dfa s) 3.
Proof.
  cbv zeta.
  assert (Hd : Forall (fun s => disjoint_from 0 (edges s))
                 [with_edges (new_State [])
                    [(0, (1, Some 1%nat)); (2, (3, Some 2%nat)); (4, (5, Some 1%nat))];
                  with_accept (new_State []) 1; with_accept (new_State []) 2])
    by (repeat constructor; simpl; lia).
  destruct (compact_dfa_keeps_transitions _
              [with_edges (new_State [])
                 [(0, (1, Some 1%nat)); (2, (3, Some 2%nat)); (4, (5, Some 1%nat))];
               with_accept (new_State []) 1; with_accept (new_State []) 2]
              0%nat _ 3 Hd eq_refl) as (s' & Hk & H).
  exists s'. split; [exact Hk|]. split; [|exact H].
  vm_compute in Hk. inversion Hk. reflexivity.
Defined.

Lemma encode_compacted_three_states :
  let dfa := [with_edges (new_State [])
                [(0, (1, Some 1%nat)); (2, (3, Some 2%nat)); (4, (5, Some 1%nat))];
              with_accept (new_State []) 1; with_accept (new_State []) 2] in
  exists dfa' opc st',
    encode_dfa (compact_dfa dfa) (initial Opt.default) = Return (dfa', 7, opc) st' /\
    target_index dfa' (Some 1%nat) = 3 /\ target_index dfa' (Some 2%nat) = 5.
Proof.
  cbv zeta. eexists. eexists. eexists.
  split; [vm_compute; reflexivity|]. split; reflexivity.
Qed.

Lemma encode_dfa_implements_edges_example :
  let s := with_edges (new_State [])
             [(0, (1, Some 1%nat)); (2, (3, Some 2%nat)); (4, (5, Some 1%nat))] in
  let dfa := [s; with_accept (new_State []) 1; with_accept (new_State []) 2] in
  exists dfa' opc st' s',
    encode_dfa (compact_dfa dfa) (initial Opt.default) = Return (dfa', 7, opc) st' /\
    nth_error dfa' 0 = Some s' /\
    first_goto (encode_state dfa' s') 3 = Some 5 /\
    first_goto (encode_state dfa' s') 4 = Some 3 /\
    first_goto (encode_state dfa' s') 200 = Some IMAX.
Proof.
  cbv zeta. destruct encode_compacted_three_states as (dfa' & opc & st' & E & T1 & T2).
  assert (Hd : Forall (fun s => disjoint_from 0 (edges s))
                 [with_edges (new_State [])
                    [(0, (1, Some 1%nat)); (2, (3, Some 2%nat)); (4, (5, Some 1%nat))];
                  with_accept (new_State []) 1; with_accept (new_State []) 2])
    by (repeat constructor; simpl; lia).
  destruct (encode_dfa_implements_edges _ _ _ _ _ _ 0%nat _ Hd E eq_refl)
    as (s' & Hk & He & Hh).
  exists dfa', opc, st', s'. split; [exact E|]. split; [exact Hk|].
  split; [|split].
  - rewrite <- T2. apply (He 3 2 3 (Some 2%nat)); [simpl; tauto|lia].
  - rewrite <- T1. apply (He 4 4 5 (Some 1%nat)); [simpl; tauto|lia].
  - apply Hh; [lia|reflexivity].
Defined.

(** ** [init_options]: the flag letters *)

Lemma at_append pre a suf :
  at_ (pre ++ String a suf) (Z.of_nat (String.length pre)) = ch a.
Proof.
  unfold at_. destruct (Z.ltb_spec (Z.of_nat (String.length pre)) 0); [lia|].
  rewrite Nat2Z.id.
  rewrite <- (Nat.add_0_l (String.length pre)), <- append_correct2. reflexivity.
Qed.

Lemma at_end str : at_ str (Z.of_nat (String.length str)) = 0.
Proof.
  unfold at_. destruct (Z.ltb_spec (Z.of_nat (String.length str)) 0); [lia|].
  rewrite Nat2Z.id.
  assert (Hg : forall s, String.get (String.length s) s = None)
    by (induction s; simpl; auto).
  rewrite Hg. reflexivity.
Qed.

Lemma append_snoc pre a suf : (pre ++ String a suf = (pre ++ String a EmptyString) ++ suf)%string.
Proof. induction pre as [|b pre IH]; simpl; [reflexivity|]. rewrite IH. reflexivity. Qed.

Lemma length_snoc pre a : String.length (pre ++ String a EmptyString) = S (String.length pre).
Proof. induction pre as [|b pre IH]; simpl; [reflexivity|]. rewrite IH. reflexivity. Qed.

Lemma ch_range a : 0 <= ch a <= 255.
Proof.
  unfold ch. pose proof (N_ascii_bounded a). lia.
Qed.

Lemma append_empty str : (str ++ "")%string = str.
Proof. induction str as [|a str IH]; simpl; [reflexivity|]. rewrite IH. reflexivity. Qed.

Lemma length_append_le pre suf :
  (String.length pre <= String.length (pre ++ suf))%nat.
Proof. induction pre as [|a pre IH]; simpl; lia. Qed.

Lemma has_char_append c pre suf :
  has_char c (pre ++ suf) = has_char c pre || has_char c suf.
Proof.
  induction pre as [|a pre IH]; simpl; [reflexivity|]. rewrite IH, orb_assoc. reflexivity.
Qed.

(** A string without a NUL among its characters ends where its terminator
    stands. *)
Lemma strlen_no_nul str : has_char 0 str = false -> strlen str = String.length str.
Proof.
  induction str as [|a str IH]; simpl; [reflexivity|]. intros H.
  apply orb_false_iff in H. destruct H as [H1 H2]. rewrite H1, IH by exact H2.
  reflexivity.
Qed.

Lemma opt_at_no_nul beyond str k :
  has_char 0 str = false -> k <= Z.of_nat (String.length str) ->
  opt_at beyond str k = at_ str k.
Proof.
  intros H Hk. unfold opt_at. rewrite strlen_no_nul by exact H.
  destruct (Z.leb_spec k (Z.of_nat (String.length str))); [reflexivity|lia].
Qed.

Lemma options_loop_flags beyond suf : forall n pre o,
  has_char (ch "e") suf = false -> has_char (ch "f") suf = false ->
  has_char (ch "n") suf = false -> has_char 0 suf = false ->
  has_char 0 pre = false ->
  (String.length suf < n)%nat ->
  options_loop beyond n (pre ++ suf) (Z.of_nat (String.length pre)) o
  = Some (set_flags suf o).
Proof.
  induction suf as [|a suf IH]; intros n pre o He Hf Hn H0 Hp Hlen.
  - destruct n as [|n]; [simpl in Hlen; lia|].
    cbn [options_loop].
    rewrite append_empty.
    rewrite opt_at_no_nul by (try exact Hp; lia).
    rewrite at_end. cbn. unfold set_flags. cbn [has_char]. rewrite !orb_false_r.
    destruct o; reflexivity.
  - destruct n as [|n]; [simpl in Hlen; lia|].
    assert (Hall : has_char 0 (pre ++ String a suf) = false)
      by (rewrite has_char_append, Hp, H0; reflexivity).
    cbn [has_char] in He, Hf, Hn, H0.
    apply orb_false_iff in He, Hf, Hn, H0.
    destruct He as [He1 He], Hf as [Hf1 Hf], Hn as [Hn1 Hn], H0 as [H01 H0].
    assert (Hrec : forall o',
               options_loop beyond n (pre ++ String a suf)
                            (Z.of_nat (String.length pre) + 1) o'
               = Some (set_flags suf o')).
    { intros o'. rewrite append_snoc.
      replace (Z.of_nat (String.length pre) + 1)
        with (Z.of_nat (String.length (pre ++ String a EmptyString)))
        by (rewrite length_snoc; lia).
      apply IH; try assumption; [|simpl in Hlen; lia].
      rewrite has_char_append, Hp. cbn [has_char orb]. rewrite H01. reflexivity. }
    cbn [options_loop].
    rewrite opt_at_no_nul
      by (try exact Hall; pose proof (length_append_le pre (String a suf)); lia).
    rewrite at_append. rewrite H01.
    unfold eqc. rewrite He1.
    replace (ch a =? ch "f") with false by (symmetry; exact Hf1).
    replace (ch a =? ch "n") with false by (symmetry; exact Hn1).
    cbn [orb].
    unfold set_flags. cbn [has_char].
    repeat match goal with
           | |- (if ?c then _ else _) = _ =>
               destruct c eqn:?; [rewrite Hrec; unfold set_flags;
                 repeat match goal with
                        | H : (ch a =? _) = true |- _ =>
                            apply Z.eqb_eq in H; rewrite H in *
                        end;
                 cbn; rewrite ?orb_true_r; reflexivity|]
           end.
    rewrite Hrec. unfold set_flags.
    repeat match goal with H : (ch a =? _) = false |- _ => rewrite H; clear H end.
    cbn [orb]. reflexivity.
Qed.

(** On an option string without [e], [f] and [n], [init_options] sets
    exactly the flags [b], [i], [l], [m], [q], [r], [s], [w], [x] whose letters
    occur in the string, in any order and any number of times; other
    characters are skipped, and the escape character stays the backslash. *)
Theorem init_options_flags :
  forall beyond n opt,
    has_char (ch "e") opt = false -> has_char (ch "f") opt = false ->
    has_char (ch "n") opt = false -> has_char 0 opt = false ->
    (String.length opt < n)%nat ->
    init_options beyond n (Some opt) =
    Some (Opt.mk (has_char (ch "b") opt) 92 [] (has_char (ch "i") opt)
                 (has_char (ch "l") opt) (has_char (ch "m") opt) EmptyString
                 (has_char (ch "q") opt) (has_char (ch "r") opt)
                 (has_char (ch "s") opt) (has_char (ch "w") opt)
                 (has_char (ch "x") opt)).
Proof.
  intros beyond n opt He Hf Hn H0 Hlen. unfold init_options.
  apply (options_loop_flags beyond opt n EmptyString Opt.default He Hf Hn H0 eq_refl Hlen).
Qed.

Lemma init_options_flags_example :
  init_options (fun _ => ch "e") 5 (Some "wiw"%string) =
  Some (Opt.mk false 92 [] true false false EmptyString false false false true false).
Proof.
  apply (init_options_flags _ 5 "wiw"); try reflexivity. simpl. lia.
Defined.

(** ** [parse]: where the rules end *)

Lemma returns_ret {A} (a : A) (Q : A -> Prop) : Q a -> returns (ret a) Q.
Proof. intros H st b st' E. unfold ret in E. inversion E; subst. exact H. Qed.

Lemma returns_bind {A B} (c : M A) (k : A -> M B) (P : A -> Prop) (Q : B -> Prop) :
  returns c P -> (forall a, P a -> returns (k a) Q) -> returns (bind c k) Q.
Proof.
  intros Hc Hk st b st' E. apply bind_Return in E. destruct E as (a & st1 & E1 & E2).
  exact (Hk a (Hc _ _ _ E1) _ _ _ E2).
Qed.

Lemma returns_any {A} (c : M A) : returns c (fun _ => True).
Proof. intros st a st' _. exact I. Qed.

Lemma returns_bind_any {A B} (c : M A) (k : A -> M B) (Q : B -> Prop) :
  (forall a, returns (k a) Q) -> returns (bind c k) Q.
Proof. intros Hk. apply (returns_bind c k (fun _ => True)); [apply returns_any|auto]. Qed.

Lemma returns_out_of_fuel {A} (Q : A -> Prop) : returns out_of_fuel Q.
Proof. intros st a st' E. discriminate. Qed.

Lemma parse2_loop_end rex_ n P3 : forall fr fr1 l,
  returns (parse2_loop rex_ n P3 fr fr1 l)
          (fun r => concat_end rex_ (loc (fst r)) = true).
Proof.
  induction n as [|n IH]; intros fr fr1 l; [apply returns_out_of_fuel|].
  cbn [parse2_loop]. cbv zeta.
  destruct (negb (at_ rex_ (loc fr) =? 0) && negb (eqc (at_ rex_ (loc fr)) "|")
            && negb (eqc (at_ rex_ (loc fr)) ")")) eqn:E.
  - apply returns_bind_any. intros o.
    match goal with |- returns (let '(_, _) := ?x in _) _ => destruct x as [l1 k1] end.
    apply returns_bind_any. intros fr2.
    apply returns_bind_any. intros u.
    match goal with |- returns (let '(_, _) := ?x in _) _ => destruct x as [fra frb] end.
    apply IH.
  - apply returns_ret. cbn [fst]. unfold concat_end.
    destruct (at_ rex_ (loc fr) =? 0), (eqc (at_ rex_ (loc fr)) "|"),
      (eqc (at_ rex_ (loc fr)) ")"); cbn in *; congruence.
Qed.

Lemma parse2_end rex_ ind n P3 b fr :
  returns (parse2 rex_ ind n P3 b fr) (fun fr' => concat_end rex_ (loc fr') = true).
Proof.
  unfold parse2.
  apply returns_bind_any. intros [[b1 a_pos] k].
  apply returns_bind_any. intros fr2.
  destruct (ind k) as [n1 i1].
  eapply returns_bind; [apply parse2_loop_end|]. intros [fr3 l_pos] H3. cbn [fst] in H3.
  apply returns_bind_any. intros o.
  apply returns_bind_any. intros la.
  apply returns_bind_any. intros fp.
  pose proof (fold_splice_anchor_loc rex_ o la a_pos fr3 fp) as Hs.
  destruct (fold_left (fun acc p => splice_anchor rex_ o la p acc) a_pos (fr3, fp))
    as [fr4 fp4].
  cbn [fst] in Hs.
  apply returns_bind_any. intros u.
  destruct l_pos as [lp|].
  - apply returns_bind_any. intros u1. apply returns_bind_any. intros u2.
    apply returns_ret. cbn [loc with_lastpos]. rewrite Hs. exact H3.
  - apply returns_ret. rewrite Hs. exact H3.
Qed.

Lemma parse_rules_end rex_ ind : forall n choice fr acc,
  returns (parse_rules rex_ ind n choice fr acc)
          (fun p => end_ p <> [] /\
                    ((at_ rex_ (last (end_ p) 0) =? 0)
                     || eqc (at_ rex_ (last (end_ p) 0)) ")") = true).
Proof.
  induction n as [|n IH]; intros choice fr acc; [apply returns_out_of_fuel|].
  cbn [parse_rules]. cbv zeta.
  apply returns_bind_any. intros u.
  eapply returns_bind; [apply parse2_end|]. intros fr1 H1. cbv beta in H1.
  apply returns_bind_any. intros la.
  apply returns_bind_any. intros u2.
  destruct (eqc (at_ rex_ (loc fr1)) "|") eqn:E.
  - apply IH.
  - apply returns_ret. cbn [end_]. split; [destruct (end_ acc); discriminate|].
    rewrite last_last. unfold concat_end in H1. rewrite E in H1.
    rewrite orb_false_r in H1. exact H1.
Qed.

(** When [parse] returns, it has recorded at least one end point; each rule
    ends at or after its start, every end point but the last is at a [|], and
    the last is at the end of the regex (a NUL) or at a [)]: [parse] ends
    before the end of the regex at a [)] only. *)
Theorem parse_ends_at_close :
  forall rex_ ind n st parsed st',
    parse rex_ ind n st = Return parsed st' ->
    end_ parsed <> [] /\
    rule_ends rex_ 0 (end_ parsed) /\
    (at_ rex_ (last (end_ parsed) 0) = 0 \/ at_ rex_ (last (end_ parsed) 0) = ch ")").
Proof.
  intros rex_ ind n st parsed st' H.
  destruct (parse_ends _ _ _ _ _ _ H) as [Hr Hn].
  split; [exact Hn|]. split; [exact Hr|].
  unfold parse in H. destruct (ind 0) as [n0 i0].
  apply parse_rules_end in H. destruct H as [_ H].
  apply orb_true_iff in H. destruct H as [H|H].
  - left. apply Z.eqb_eq. exact H.
  - right. apply Z.eqb_eq. exact H.
Qed.

(** The parse of [a)b] ends at the [)]. *)
Lemma parse_unopened_close :
  exists parsed st',
    parse "a)b" (fun _ => (false, 0)) 20 (initial Opt.default) = Return parsed st' /\
    end_ parsed = [1].
Proof. eexists. eexists. split; [vm_compute; reflexivity|reflexivity]. Qed.

Lemma parse_ends_at_close_example :
  exists parsed st',
    parse "a)b" (fun _ => (false, 0)) 20 (initial Opt.default) = Return parsed st' /\
    end_ parsed = [1] /\
    (at_ "a)b" 1 = 0 \/ at_ "a)b" 1 = ch ")").
Proof.
  destruct parse_unopened_close as (parsed & st' & E & He).
  exists parsed, st'. split; [exact E|]. split; [exact He|].
  destruct (parse_ends_at_close _ _ _ _ _ _ E) as (_ & _ & H).
  rewrite He in H. exact H.
Defined.

(** ** The DFA that [compile] builds *)

Lemma extends_refl d : extends d d.
Proof. split; [lia|]. intros j s H. exists s. split; [exact H|reflexivity]. Qed.

Lemma extends_trans d1 d2 d3 : extends d1 d2 -> extends d2 d3 -> extends d1 d3.
Proof.
  intros [L1 H1] [L2 H2]. split; [lia|]. intros j s H.
  destruct (H1 _ _ H) as (s2 & E2 & A2). destruct (H2 _ _ E2) as (s3 & E3 & A3).
  exists s3. split; [exact E3|congruence].
Qed.

Lemma set_nth_length {A} (k : nat) (v : A) l : List.length (set_nth k v l) = List.length l.
Proof.
  revert k. induction l as [|a l IH]; intros k; [destruct k; reflexivity|].
  destruct k; simpl; [reflexivity|]. rewrite IH. reflexivity.
Qed.

Lemma nth_error_set_nth {A} (k : nat) (v : A) l j :
  nth_error (set_nth k v l) j =
  if Nat.eqb j k then match nth_error l j with Some _ => Some v | None => None end
  else nth_error l j.
Proof.
  revert k j. induction l as [|a l IH]; intros k j.
  - destruct k, j; simpl; try reflexivity. destruct (Nat.eqb j k); reflexivity.
  - destruct k as [|k], j as [|j]; simpl; try reflexivity. apply IH.
Qed.

Lemma extends_set_nth d k s s' :
  nth_error d k = Some s -> accept s' = accept s -> extends d (set_nth k s' d).
Proof.
  intros Hk Ha. split; [rewrite set_nth_length; lia|].
  intros j s0 Hj. rewrite nth_error_set_nth.
  destruct (Nat.eqb_spec j k) as [->|Hne].
  - rewrite Hj. exists s'. split; [reflexivity|congruence].
  - exists s0. split; [exact Hj|reflexivity].
Qed.

Lemma extends_app d l : extends d (d ++ l).
Proof.
  split; [rewrite length_app; lia|]. intros j s H. exists s.
  split; [|reflexivity]. rewrite nth_error_app1; [exact H|].
  apply nth_error_Some. congruence.
Qed.

Lemma target_extends dfa pos : returns (target dfa pos) (fun r => extends dfa (fst r)).
Proof.
  intros st [d t] st' H. unfold target in H. cbn [fst].
  destruct (search _ _ _ _) as [[t0|[p l]]|]; [| |discriminate].
  - inversion H; subst. apply extends_refl.
  - inversion H; subst. clear H.
    eapply extends_trans; [|apply extends_app].
    destruct (nth_error dfa p) as [s|] eqn:E; [|apply extends_refl].
    eapply extends_set_nth; [exact E|]. destruct l; reflexivity.
Qed.

Lemma commit_move_extends cur move dfa eno :
  returns (commit_move cur move (dfa, eno)) (fun r => extends dfa (fst r)).
Proof.
  unfold commit_move. apply returns_bind_any. intros pos.
  destruct (negb (empty pos)); [|apply returns_ret; apply extends_refl].
  eapply returns_bind; [apply target_extends|]. intros [d t] Hd. cbn [fst] in Hd.
  destruct (nth_error d cur) as [s|] eqn:E; apply returns_ret; cbn [fst];
    [|exact Hd].
  eapply extends_trans; [exact Hd|]. eapply extends_set_nth; [exact E|reflexivity].
Qed.

Lemma commit_moves_extends cur : forall moves dfa eno,
  returns (commit_moves cur moves (dfa, eno)) (fun r => extends dfa (fst r)).
Proof.
  induction moves as [|m moves IH]; intros dfa eno; cbn [commit_moves].
  - apply returns_ret. apply extends_refl.
  - eapply returns_bind; [apply commit_move_extends|]. intros [d e] Hd. cbn [fst] in Hd.
    intros st r st' H. apply IH in H. eapply extends_trans; eassumption.
Qed.

Lemma nth_set_nth_true (i : nat) (l : list bool) k :
  nth k (set_nth i true l) false =
  ((Nat.eqb k i) && (Nat.ltb i (List.length l))) || nth k l false.
Proof.
  revert i k. induction l as [|a l IH]; intros i k.
  - destruct i, k; simpl; rewrite ?andb_false_r; reflexivity.
  - destruct i as [|i], k as [|k]; simpl; try reflexivity.
    rewrite IH. reflexivity.
Qed.

Lemma compile_states_counts rex_ strtoul n modifiers lookahead size_ :
  forall cur dfa cnt st dfa' cnt' st',
    compile_states rex_ strtoul n modifiers lookahead size_ cur dfa cnt st
      = Return (dfa', cnt') st' ->
    (cur <= List.length dfa)%nat ->
    vno_ cnt = Z.of_nat cur ->
    Z.of_nat (List.length (acc_ cnt)) = size_ ->
    (forall k, (k < List.length (acc_ cnt))%nat ->
       (nth k (acc_ cnt) false = true <->
        exists j s, (j < cur)%nat /\ nth_error dfa j = Some s /\
                    accept s = Z.of_nat k + 1)) ->
    vno_ cnt' = Z.of_nat (List.length dfa') /\
    List.length (acc_ cnt') = List.length (acc_ cnt) /\
    (forall k, (k < List.length (acc_ cnt))%nat ->
       (nth k (acc_ cnt') false = true <->
        exists s, In s dfa' /\ accept s = Z.of_nat k + 1)).
Proof.
  induction n as [|n IH]; intros cur dfa cnt st dfa' cnt' st' H Hc Hv Hl Ha;
    [discriminate|].
  cbn [compile_states] in H.
  destruct (nth_error dfa cur) as [s|] eqn:Es.
  - apply bind_Return in H. destruct H as ([s1 moves] & st1 & H1 & H).
    apply bind_Return in H. destruct H as ([d2 eno] & st2 & H2 & H).
    apply commit_moves_extends in H2. cbn [fst] in H2. destruct H2 as [L2 X2].
    assert (Hlt : (cur < List.length dfa)%nat) by (apply nth_error_Some; congruence).
    assert (E1 : nth_error (set_nth cur s1 dfa) cur = Some s1)
      by (rewrite nth_error_set_nth, Nat.eqb_refl, Es; reflexivity).
    assert (E0 : forall j, j <> cur ->
                           nth_error (set_nth cur s1 dfa) j = nth_error dfa j).
    { intros j Hj. rewrite nth_error_set_nth.
      destruct (Nat.eqb_spec j cur); [contradiction|reflexivity]. }
    rewrite set_nth_length in L2.
    set (acc := if (0 <? accept s1) && (accept s1 <=? size_)
                then set_nth (Z.to_nat (accept s1 - 1)) true (acc_ cnt)
                else acc_ cnt) in *.
    assert (Hlen : List.length acc = List.length (acc_ cnt)).
    { unfold acc. destruct ((0 <? accept s1) && (accept s1 <=? size_));
        [apply set_nth_length|reflexivity]. }
    assert (Hnth : forall k, (k < List.length (acc_ cnt))%nat ->
                     nth k acc false =
                     (accept s1 =? Z.of_nat k + 1) || nth k (acc_ cnt) false).
    { intros k Hk. unfold acc.
      destruct (Z.ltb_spec 0 (accept s1)), (Z.leb_spec (accept s1) size_); cbn [andb].
      - rewrite nth_set_nth_true.
        destruct (Nat.eqb_spec k (Z.to_nat (accept s1 - 1))),
          (Nat.ltb_spec (Z.to_nat (accept s1 - 1)) (List.length (acc_ cnt))),
          (Z.eqb_spec (accept s1) (Z.of_nat k + 1)); cbn [andb orb];
          try reflexivity; lia.
      - destruct (Z.eqb_spec (accept s1) (Z.of_nat k + 1)); [lia|reflexivity].
      - destruct (Z.eqb_spec (accept s1) (Z.of_nat k + 1)); [lia|reflexivity].
      - destruct (Z.eqb_spec (accept s1) (Z.of_nat k + 1)); [lia|reflexivity]. }
    apply IH in H; cbn [vno_ acc_ eno_]; [| lia | lia | rewrite Hlen; exact Hl |].
    + cbn [acc_] in H. rewrite Hlen in H. exact H.
    + rewrite Hlen. intros k Hk. rewrite (Hnth k Hk). split.
      * intros Ht. apply orb_true_iff in Ht. destruct Ht as [Ht|Ht].
        -- apply Z.eqb_eq in Ht. destruct (X2 _ _ E1) as (s2 & Hs2 & A2).
           exists cur, s2. split; [lia|]. split; [exact Hs2|congruence].
        -- apply (Ha k Hk) in Ht. destruct Ht as (j & s0 & Hj & Hn & Hacc).
           rewrite <- (E0 j) in Hn by lia.
           destruct (X2 _ _ Hn) as (s2 & Hs2 & A2).
           exists j, s2. split; [lia|]. split; [exact Hs2|congruence].
      * intros (j & s' & Hj & Hn & Hacc). apply orb_true_iff.
        destruct (Nat.eq_dec j cur) as [->|Hne].
        -- left. destruct (X2 _ _ E1) as (s2 & Hs2 & A2).
           apply Z.eqb_eq. congruence.
        -- right. apply (Ha k Hk).
           assert (Hjl : (j < List.length dfa)%nat) by lia.
           apply nth_error_Some in Hjl.
           destruct (nth_error dfa j) as [s0|] eqn:E; [|congruence].
           assert (Hn0 : nth_error (set_nth cur s1 dfa) j = Some s0)
             by (rewrite E0 by exact Hne; exact E).
           destruct (X2 _ _ Hn0) as (s2 & Hs2 & A2).
           exists j, s0. split; [lia|]. split; [exact E|congruence].
  - unfold ret in H. inversion H; subst dfa' cnt' st'. clear H.
    apply nth_error_None in Es. assert (Ec : cur = List.length dfa) by lia.
    split; [congruence|]. split; [reflexivity|].
    intros k Hk. rewrite (Ha k Hk). split.
    + intros (j & s & Hj & Hn & Hacc). exists s. split; [|exact Hacc].
      eapply nth_error_In. exact Hn.
    + intros (s & Hin & Hacc). apply In_nth_error in Hin. destruct Hin as (j & Hn).
      exists j, s. split; [|split; assumption].
      subst cur. apply nth_error_Some. congruence.
Qed.

(** After [compile], [vno_] is the number of states of the DFA, [acc_] has one
    flag for each rule, and the flag of a rule is set exactly when some state
    of the DFA accepts that rule. *)
Theorem compile_counts :
  forall rex_ strtoul n start modifiers lookahead end_ st dfa cnt st',
    compile rex_ strtoul n start modifiers lookahead end_ st = Return (dfa, cnt) st' ->
    vno_ cnt = Z.of_nat (List.length dfa) /\
    List.length (acc_ cnt) = List.length end_ /\
    forall k, (k < List.length end_)%nat ->
      (nth k (acc_ cnt) false = true <->
       exists s, In s dfa /\ accept s = Z.of_nat k + 1).
Proof.
  intros rex_ strtoul n start modifiers lookahead end_ st dfa cnt st' H.
  unfold compile in H.
  apply bind_Return in H. destruct H as (pos & st1 & _ & H).
  apply compile_states_counts in H; cbn [vno_ acc_ List.length];
    [| lia | reflexivity | rewrite repeat_length; reflexivity |].
  - cbn [acc_] in H. rewrite repeat_length in H. exact H.
  - rewrite repeat_length. intros k Hk. split.
    + intros Ht. rewrite nth_repeat in Ht. discriminate.
    + intros (j & s & Hj & _). lia.
Qed.

Lemma same_frame_refl s : same_frame s s.
Proof. repeat split. Qed.

Lemma compile_position_frame rex_ strtoul n modifiers lookahead k s moves :
  returns (compile_position rex_ strtoul n modifiers lookahead k (s, moves))
          (fun r => same_frame s (fst r) /\
                    redo (fst r) =
                    redo s || (Position.accept k && (Position.accepts k =? 0))).
Proof.
  unfold compile_position.
  destruct (Position.accept k).
  - apply returns_ret. cbn [fst andb]. unfold compile_accept.
    destruct ((accept s =? 0) || (Position.accepts k <? accept s));
      destruct (Position.accepts k =? 0); cbn;
      rewrite ?orb_true_r, ?orb_false_r; repeat split.
  - cbn [andb]. rewrite orb_false_r.
    apply returns_bind_any. intros o.
    repeat match goal with
    | |- returns (if ?b then _ else _) _ => destruct b
    | |- returns (ret _) _ => apply returns_ret; cbn [fst]
    | |- returns (bind _ _) _ => apply returns_bind_any; intro
    | |- returns (match ?x with Some _ => _ | None => _ end) _ => destruct x
    | |- context [add_heads] => unfold add_heads, with_heads
    | |- context [add_tails] => unfold add_tails, with_tails
    | |- context [if ?b then _ else _] => destruct b
    end; repeat split.
Qed.

Lemma compile_positions_frame rex_ strtoul n modifiers lookahead : forall ks s moves,
  returns (compile_positions rex_ strtoul n modifiers lookahead ks (s, moves))
          (fun r => same_frame s (fst r) /\
                    redo (fst r) = redo s || existsb (Z.eqb 0) (accepts_of ks)).
Proof.
  induction ks as [|k ks IH]; intros s moves; cbn [compile_positions].
  - apply returns_ret. cbn. rewrite orb_false_r. repeat split.
  - eapply returns_bind; [apply compile_position_frame|].
    intros [s1 m1] [F1 R1]. cbn [fst] in F1, R1.
    intros st r st' H. apply IH in H. destruct H as [F2 R2].
    destruct F1 as (a1 & b1 & c1 & d1 & e1), F2 as (a2 & b2 & c2 & d2 & e2).
    split; [repeat split; congruence|].
    rewrite R2, R1. unfold accepts_of. cbn [filter].
    destruct (Position.accept k); cbn [andb map existsb];
      rewrite ?orb_false_r; [|reflexivity].
    rewrite (Z.eqb_sym 0). rewrite orb_assoc. reflexivity.
Qed.

(** [compile_transition] changes nothing of a state but [accept], [redo],
    [heads] and [tails], and it marks the state [redo] exactly when the state
    holds an accepting position of rule 0. *)
Theorem compile_transition_frame :
  forall rex_ strtoul n (s : State) modifiers lookahead st s' moves st',
    compile_transition rex_ strtoul n s modifiers lookahead st = Return (s', moves) st' ->
    positions s' = positions s /\ left s' = left s /\ right s' = right s /\
    edges s' = edges s /\ index s' = index s /\
    redo s' = redo s || existsb (Z.eqb 0) (accepts_of (positions s)).
Proof.
  intros rex_ strtoul n s modifiers lookahead st s' moves st' H.
  unfold compile_transition in H. apply compile_positions_frame in H.
  cbn [fst] in H. destruct H as [(a & b & c & d & e) R]. repeat split; assumption.
Qed.

Lemma edges_below_weaken b b' s : (b <= b')%nat -> edges_below b s -> edges_below b' s.
Proof.
  intros Hb H. unfold edges_below in *. eapply Forall_impl; [|exact H].
  intros e (t & Et & Ht). exists t. split; [exact Et|lia].
Qed.

Lemma edges_set_In_inv lo v e : forall x, In x (edges_set lo v e) -> x = (lo, v) \/ In x e.
Proof.
  induction e as [|[lo' v'] rest IH]; intros x Hx; cbn [edges_set] in Hx.
  - destruct Hx as [<-|[]]. left. reflexivity.
  - destruct (Z.eqb_spec lo lo') as [->|Hne].
    + destruct Hx as [<-|Hx]; [left; reflexivity|right; right; exact Hx].
    + destruct (lo <? lo').
      * destruct Hx as [<-|Hx]; [left; reflexivity|right; exact Hx].
      * destruct Hx as [<-|Hx]; [right; left; reflexivity|].
        destruct (IH _ Hx) as [->|Hin]; [left; reflexivity|right; right; exact Hin].
Qed.

Lemma edges_set_all_below b t (chars : Chars) : forall e,
  (t < b)%nat ->
  Forall (fun e : Edge => exists t, snd (snd e) = Some t /\ (t < b)%nat) e ->
  Forall (fun e : Edge => exists t, snd (snd e) = Some t /\ (t < b)%nat)
         (fold_left (fun e (j : Z * Z) => edges_set (fst j) (snd j - 1, Some t) e)
                    chars e).
Proof.
  induction chars as [|j chars IH]; intros e Ht He; cbn [fold_left]; [exact He|].
  apply IH; [exact Ht|]. apply Forall_forall. intros x Hx.
  apply edges_set_In_inv in Hx. destruct Hx as [->|Hx].
  - exists t. split; [reflexivity|exact Ht].
  - rewrite Forall_forall in He. apply He. exact Hx.
Qed.

Lemma Forall_set_nth {A} (P : A -> Prop) k v : forall l,
  Forall P l -> P v -> Forall P (set_nth k v l).
Proof.
  revert k. intros k l. revert k. induction l as [|a l IH]; intros k Hl Hv.
  - destruct k; constructor.
  - inversion Hl; subst. destruct k; cbn [set_nth]; constructor; auto.
Qed.

Lemma targets_exist_grow d l :
  targets_exist d -> Forall (edges_below (List.length d + List.length l)) l ->
  targets_exist (d ++ l).
Proof.
  intros Hd Hl. unfold targets_exist. rewrite length_app. apply Forall_app. split.
  - eapply Forall_impl; [|exact Hd]. intros s. apply edges_below_weaken. lia.
  - exact Hl.
Qed.

Lemma target_targets dfa pos :
  targets_exist dfa ->
  returns (target dfa pos)
          (fun r => targets_exist (fst r) /\ (snd r < List.length (fst r))%nat /\
                    (List.length dfa <= List.length (fst r))%nat).
Proof.
  intros Hd st [d t] st' H. unfold target in H. cbn [fst snd].
  destruct (search _ _ _ _) as [[t0|[p l]]|] eqn:Es; [| |discriminate].
  - assert (Hlt : (t0 < List.length dfa)%nat).
    { revert Es. generalize (S (List.length dfa)). intros m.
      generalize 0%nat. induction m as [|m IH]; intros t1 Es; [discriminate|].
      cbn [search] in Es.
      destruct (nth_error dfa t1) as [s|] eqn:E; [|discriminate].
      destruct (positions_compare pos (positions s)).
      + inversion Es; subst. apply nth_error_Some. congruence.
      + destruct (left s); [eapply IH; exact Es|discriminate].
      + destruct (right s); [eapply IH; exact Es|discriminate]. }
    inversion H; subst. split; [exact Hd|]. split; [exact Hlt|lia].
  - inversion H; subst. clear H. rewrite length_app. cbn [List.length].
    assert (Hd' : targets_exist
                    match nth_error dfa p with
                    | Some s => set_nth p (if l then with_left s (Some (List.length dfa))
                                            else with_right s (Some (List.length dfa))) dfa
                    | None => dfa
                    end).
    { destruct (nth_error dfa p) as [s|] eqn:E; [|exact Hd].
      unfold targets_exist. rewrite set_nth_length. apply Forall_set_nth; [exact Hd|].
      unfold targets_exist in Hd. rewrite Forall_forall in Hd.
      specialize (Hd s (nth_error_In _ _ E)). destruct l; exact Hd. }
    assert (Hlen : List.length match nth_error dfa p with
                    | Some s => set_nth p (if l then with_left s (Some (List.length dfa))
                                            else with_right s (Some (List.length dfa))) dfa
                    | None => dfa
                    end = List.length dfa).
    { destruct (nth_error dfa p); [apply set_nth_length|reflexivity]. }
    split; [|rewrite Hlen; cbn [List.length]; split; [apply Nat.lt_add_pos_r; lia|apply Nat.le_add_r]].
    apply targets_exist_grow; [exact Hd'|].
    constructor; [|constructor]. constructor.
Qed.

Lemma commit_move_targets cur move dfa eno :
  targets_exist dfa ->
  returns (commit_move cur move (dfa, eno))
          (fun r => targets_exist (fst r) /\
                    (List.length dfa <= List.length (fst r))%nat).
Proof.
  intros Hd. unfold commit_move. apply returns_bind_any. intros pos.
  destruct (negb (empty pos)); [|apply returns_ret; cbn [fst]; split; [exact Hd|lia]].
  eapply returns_bind; [apply target_targets; exact Hd|].
  intros [d t] (Hd1 & Ht & Hl). cbn [fst snd] in Hd1, Ht, Hl.
  destruct (nth_error d cur) as [s|] eqn:E; apply returns_ret; cbn [fst];
    [|split; assumption].
  split; [|rewrite set_nth_length; exact Hl].
  unfold targets_exist. rewrite set_nth_length. apply Forall_set_nth; [exact Hd1|].
  unfold edges_below. cbn [edges with_edges].
  apply edges_set_all_below; [exact Ht|].
  unfold targets_exist in Hd1. rewrite Forall_forall in Hd1.
  exact (Hd1 s (nth_error_In _ _ E)).
Qed.

Lemma commit_moves_targets cur : forall moves dfa eno,
  targets_exist dfa ->
  returns (commit_moves cur moves (dfa, eno))
          (fun r => targets_exist (fst r)).
Proof.
  induction moves as [|m moves IH]; intros dfa eno Hd; cbn [commit_moves].
  - apply returns_ret. exact Hd.
  - eapply returns_bind; [apply commit_move_targets; exact Hd|].
    intros [d e] [Hd1 _]. cbn [fst] in Hd1. apply IH. exact Hd1.
Qed.

Lemma compile_states_targets rex_ strtoul n modifiers lookahead size_ :
  forall cur dfa cnt,
    targets_exist dfa ->
    returns (compile_states rex_ strtoul n modifiers lookahead size_ cur dfa cnt)
            (fun r => targets_exist (fst r)).
Proof.
  induction n as [|n IH]; intros cur dfa cnt Hd; [apply returns_out_of_fuel|].
  cbn [compile_states].
  destruct (nth_error dfa cur) as [s|] eqn:Es; [|apply returns_ret; exact Hd].
  intros st r st' H.
  apply bind_Return in H. destruct H as ([s1 moves] & st1 & H1 & H).
  apply bind_Return in H. destruct H as ([d2 eno] & st2 & H2 & H).
  unfold compile_transition in H1.
  apply compile_positions_frame in H1. cbn [fst] in H1.
  destruct H1 as [(_ & _ & _ & He & _) _].
  apply commit_moves_targets in H2.
  - cbn [fst] in H2. eapply IH; [exact H2|exact H].
  - unfold targets_exist. rewrite set_nth_length. apply Forall_set_nth; [exact Hd|].
    unfold edges_below. rewrite He.
    unfold targets_exist in Hd. rewrite Forall_forall in Hd.
    exact (Hd s (nth_error_In _ _ Es)).
Qed.

(** Every edge of the DFA that [compile] builds from a start state without
    edges goes to a state of that DFA: no edge has a null target or a target
    that was not made. *)
Theorem compile_targets_exist :
  forall rex_ strtoul n start modifiers lookahead end_ st dfa cnt st',
    edges start = [] ->
    compile rex_ strtoul n start modifiers lookahead end_ st = Return (dfa, cnt) st' ->
    forall s lo hi t, In s dfa -> In (lo, (hi, t)) (edges s) ->
      exists k s', t = Some k /\ nth_error dfa k = Some s'.
Proof.
  intros rex_ strtoul n start modifiers lookahead end_ st dfa cnt st' He H
         s lo hi t Hs Hin.
  unfold compile in H.
  apply bind_Return in H. destruct H as (pos & st1 & _ & H).
  apply compile_states_targets in H.
  - cbn [fst] in H. unfold targets_exist in H. rewrite Forall_forall in H.
    specialize (H s Hs). unfold edges_below in H. rewrite Forall_forall in H.
    destruct (H _ Hin) as (k & Ek & Hk). cbn [snd] in Ek.
    apply nth_error_Some in Hk.
    destruct (nth_error dfa k) as [s'|] eqn:E; [|congruence].
    exists k, s'. split; [exact Ek|exact E].
  - constructor; [|constructor]. unfold edges_below. cbn [edges]. rewrite He.
    constructor.
Qed.

(** The DFA of [a|bc]: four states, the second accepts rule 1 and the last
    rule 2. *)
Lemma compile_a_or_bc :
  exists parsed st1 dfa cnt st2,
    parse "a|bc" (fun _ => (false, 0)) 10 (initial Opt.default) = Return parsed st1 /\
    compile "a|bc" (fun _ _ => 0) 10 (new_State (startpos parsed)) (modifiers st1)
            (lookaheads parsed) (end_ parsed) st1 = Return (dfa, cnt) st2 /\
    List.length (end_ parsed) = 2%nat /\ map accept dfa = [0; 1; 0; 2] /\
    map (fun s => map (fun e : Edge => snd (snd e)) (edges s)) dfa
      = [[Some 1; Some 2]; []; [Some 3]; []]%nat.
Proof.
  do 5 eexists. split; [vm_compute; reflexivity|].
  split; [vm_compute; reflexivity|]. split; [reflexivity|]. split; reflexivity.
Qed.

(** The counters of the DFA of [a|bc]. *)
Lemma compile_counts_example :
  exists parsed st1 dfa cnt st2,
    parse "a|bc" (fun _ => (false, 0)) 10 (initial Opt.default) = Return parsed st1 /\
    compile "a|bc" (fun _ _ => 0) 10 (new_State (startpos parsed)) (modifiers st1)
            (lookaheads parsed) (end_ parsed) st1 = Return (dfa, cnt) st2 /\
    vno_ cnt = 4 /\ List.length (acc_ cnt) = 2%nat /\
    nth 0 (acc_ cnt) false = true /\ nth 1 (acc_ cnt) false = true.
Proof.
  destruct compile_a_or_bc as (parsed & st1 & dfa & cnt & st2 & Ep & Ec & Hl & Ha & _).
  exists parsed, st1, dfa, cnt, st2. split; [exact Ep|]. split; [exact Ec|].
  destruct (compile_counts _ _ _ _ _ _ _ _ _ _ _ Ec) as (Hv & Hn & Hacc).
  assert (Hd : List.length dfa = 4%nat) by (rewrite <- (length_map accept), Ha; reflexivity).
  rewrite Hl in Hn, Hacc. rewrite Hd in Hv.
  split; [exact Hv|]. split; [exact Hn|].
  assert (Hin : forall k a, nth_error (map accept dfa) k = Some a ->
                            exists s, In s dfa /\ accept s = a).
  { intros k a Hk. apply nth_error_In in Hk. apply in_map_iff in Hk.
    destruct Hk as (s & Hs & Hi). exists s. split; assumption. }
  rewrite Ha in Hin.
  split.
  - apply (Hacc 0%nat); [lia|]. exact (Hin 1%nat 1 eq_refl).
  - apply (Hacc 1%nat); [lia|]. exact (Hin 3%nat 2 eq_refl).
Defined.

(** The edges of the start state of [a|bc] go to the states 1 and 2. *)
Lemma compile_targets_exist_example :
  exists parsed st1 dfa cnt st2 s,
    parse "a|bc" (fun _ => (false, 0)) 10 (initial Opt.default) = Return parsed st1 /\
    compile "a|bc" (fun _ _ => 0) 10 (new_State (startpos parsed)) (modifiers st1)
            (lookaheads parsed) (end_ parsed) st1 = Return (dfa, cnt) st2 /\
    nth_error dfa 0 = Some s /\
    forall lo hi t, In (lo, (hi, t)) (edges s) ->
      exists k s', t = Some k /\ nth_error dfa k = Some s'.
Proof.
  destruct compile_a_or_bc as (parsed & st1 & dfa & cnt & st2 & Ep & Ec & _ & Ha & _).
  destruct (nth_error dfa 0) as [s|] eqn:E.
  - exists parsed, st1, dfa, cnt, st2, s. split; [exact Ep|]. split; [exact Ec|].
    split; [exact E|]. intros lo hi t Hin.
    exact (compile_targets_exist _ _ _ (new_State (startpos parsed)) _ _ _ _ _ _ _
             eq_refl Ec s lo hi t (nth_error_In _ _ E) Hin).
  - apply nth_error_None in E. rewrite <- (length_map accept), Ha in E.
    cbn in E. lia.
Defined.

(** The state of [(?^a)|a] with accepting positions for the rules 0, 1 and 2
    is marked [redo] and keeps its positions. *)
Lemma compile_transition_frame_example :
  let s := new_State (map (fun k => Position.set_accept (Position.of_loc k) true) [0; 1; 2]) in
  exists s' moves st',
    compile_transition "(?^a)|a" (fun _ _ => 0) 10 s [] [] (initial Opt.default)
      = Return (s', moves) st' /\
    positions s' = positions s /\ edges s' = [] /\ redo s' = true.
Proof.
  cbv zeta.
  destruct (compile_transition "(?^a)|a" (fun _ _ => 0) 10
              (new_State (map (fun k => Position.set_accept (Position.of_loc k) true)
                              [0; 1; 2]))
              [] [] (initial Opt.default)) as [[s' moves] st'| |] eqn:E;
    try (vm_compute in E; discriminate).
  exists s', moves, st'. split; [reflexivity|].
  destruct (compile_transition_frame _ _ _ _ _ _ _ _ _ _ E) as (Hp & _ & _ & He & _ & Hr).
  split; [exact Hp|]. split; [exact He|exact Hr].
Defined.

(** ** The error codes of each stage

    The parser reports syntax and range errors, the DFA builder syntax and
    list errors and the encoder overflows; the proof goes through the code one
    [bind] at a time. *)

Lemma reports_ret l {A} (a : A) : reports l (ret a).
Proof. intros st. simpl. exists []. split; [reflexivity|constructor]. Qed.

Lemma reports_bind l {A B} (c : M A) (k : A -> M B) :
  reports l c -> (forall a, reports l (k a)) -> reports l (bind c k).
Proof.
  intros Hc Hk st. unfold bind. specialize (Hc st).
  destruct (c st) as [a st1|e st1|]; [|exact Hc|exact I].
  destruct Hc as (new1 & E1 & F1). specialize (Hk a st1).
  destruct (k a st1) as [b st2|e st2|]; [| |exact I].
  - destruct Hk as (new2 & E2 & F2). exists (new2 ++ new1).
    split; [rewrite E2, E1; apply app_assoc|apply Forall_app; split; assumption].
  - destruct Hk as (He & new2 & E2 & F2). split; [exact He|]. exists (new2 ++ new1).
    split; [rewrite E2, E1; apply app_assoc|apply Forall_app; split; assumption].
Qed.

Lemma reports_error l code message k : In code l -> reports l (error code message k).
Proof.
  intros Hin st. unfold error.
  assert (N : exists new,
             shown (if Opt.w (opt_ st)
                    then with_shown st (mkError code message k :: shown st) else st)
             = new ++ shown st /\ Forall (fun e => In (err_code e) l) new).
  { destruct (Opt.w (opt_ st)).
    - exists [mkError code message k]. split; [reflexivity|].
      constructor; [exact Hin|constructor].
    - exists []. split; [reflexivity|constructor]. }
  destruct (Opt.r (opt_ st) || Code_eqb code CODE_OVERFLOW); [split|]; assumption.
Qed.

(** A computation that returns in the state it started in, or in one with the
    same error stream, reports nothing. *)
Lemma reports_quiet l {A} (c : M A) :
  (forall st, match c st with
              | Return _ st' => shown st' = shown st
              | Thrown _ _ => False
              | OutOfFuel => True
              end) ->
  reports l c.
Proof.
  intros H st. specialize (H st). destruct (c st); [|contradiction|exact I].
  exists []. split; [exact H|constructor].
Qed.

Lemma reports_get_opt l : reports l get_opt.
Proof. apply reports_quiet. intros st. reflexivity. Qed.
Lemma reports_get_lookahead l : reports l get_lookahead.
Proof. apply reports_quiet. intros st. reflexivity. Qed.
Lemma reports_get_followpos l : reports l get_followpos.
Proof. apply reports_quiet. intros st. reflexivity. Qed.
Lemma reports_out_of_fuel l {A} : reports l (@out_of_fuel A).
Proof. intros st. exact I. Qed.

Lemma reports_modify l g :
  (forall st, shown (g st) = shown st) -> reports l (modify g).
Proof. intros H. apply reports_quiet. intros st. apply H. Qed.

Lemma reports_modify_followpos l g : reports l (modify_followpos g).
Proof. apply reports_modify. intros st. reflexivity. Qed.

Lemma reports_pure l {A} (f : PState -> option A) :
  reports l (fun st => match f st with Some a => Return a st | None => OutOfFuel end).
Proof. apply reports_quiet. intros st. destruct (f st); reflexivity. Qed.

(** One step of the proof that a computation reports the codes [l]. *)
Ltac reports_step :=
  lazymatch goal with
  | |- reports _ (bind _ _) => apply reports_bind; [|intros]
  | |- reports _ (ret _) => apply reports_ret
  | |- reports _ (error _ _ _) => apply reports_error; assumption
  | |- reports _ get_opt => apply reports_get_opt
  | |- reports _ get_lookahead => apply reports_get_lookahead
  | |- reports _ get_followpos => apply reports_get_followpos
  | |- reports _ out_of_fuel => apply reports_out_of_fuel
  | |- reports _ (modify_followpos _) => apply reports_modify_followpos
  | |- reports _ (modify _) => apply reports_modify; intros; reflexivity
  | |- reports _ (if ?c then _ else _) => destruct c
  | |- reports _ (match ?x with _ => _ end) => destruct x
  | |- reports _ (let _ := _ in _) => cbv zeta
  end.

Ltac reports_all := repeat (first [assumption | reports_step | solve [auto with reports]]).

Create HintDb reports.

Section ParserReports.

Variable codes : list Code.
Hypothesis syntax_in : In REGEX_SYNTAX codes.
Hypothesis range_in : In REGEX_RANGE codes.

Lemma reports_scan n stop : forall k, reports codes (scan n stop k).
Proof. induction n as [|n IH]; intros k; simpl; reports_all. Qed.
#[local] Hint Resolve reports_scan : reports.

Lemma reports_parse_esc_braces rex_ n p message k : reports codes (parse_esc_braces rex_ n p message k).
Proof. unfold parse_esc_braces. reports_all. Qed.
#[local] Hint Resolve reports_parse_esc_braces : reports.

Lemma reports_parse_esc rex_ n k : reports codes (parse_esc rex_ n k).
Proof. unfold parse_esc. reports_all. Qed.
#[local] Hint Resolve reports_parse_esc : reports.

Lemma reports_quantifier rex_ c fr : reports codes (quantifier rex_ c fr).
Proof. unfold quantifier. reports_all. Qed.
#[local] Hint Resolve reports_quantifier : reports.

Lemma reports_repeat_range rex_ b fr : reports codes (repeat_range rex_ b fr).
Proof. unfold repeat_range. reports_all. Qed.
#[local] Hint Resolve reports_repeat_range : reports.

Lemma reports_parse3 rex_ n P4 : reports_parser codes P4 -> reports_parser codes (parse3 rex_ n P4).
Proof. intros H b fr. unfold parse3. reports_all; apply H. Qed.

Lemma reports_anchors rex_ n : forall a k, reports codes (anchors rex_ n a k).
Proof. induction n as [|n IH]; intros a k; cbn [anchors]; reports_all; apply IH. Qed.
#[local] Hint Resolve reports_anchors : reports.

Lemma reports_parse2_loop rex_ n P3 : reports_parser codes P3 ->
  forall fr fr1 l, reports codes (parse2_loop rex_ n P3 fr fr1 l).
Proof.
  intros H. induction n as [|n IH]; intros fr fr1 l; cbn [parse2_loop];
    reports_all; try apply H; try apply IH.
Qed.

Lemma reports_parse2 rex_ ind n P3 : reports_parser codes P3 -> reports_parser codes (parse2 rex_ ind n P3).
Proof.
  intros H b fr. unfold parse2.
  reports_all; try apply H; try (apply reports_parse2_loop; exact H).
Qed.

Lemma reports_parse1_loop rex_ n P2 : reports_parser codes P2 ->
  forall b fr fr1, reports codes (parse1_loop rex_ n P2 b fr fr1).
Proof.
  intros H. induction n as [|n IH]; intros b fr fr1; cbn [parse1_loop];
    reports_all; try apply H; try apply IH.
Qed.

Lemma reports_parse1 rex_ ind n P2 : reports_parser codes P2 -> reports_parser codes (parse1 rex_ ind n P2).
Proof.
  intros H b fr. unfold parse1.
  reports_all; try apply H; try (apply reports_parse1_loop; exact H).
Qed.

Lemma reports_parse4_comment rex_ n fr : reports codes (parse4_comment rex_ n fr).
Proof. unfold parse4_comment. reports_all. Qed.

Lemma reports_parse4_negative P b fr : reports_parser codes P -> reports codes (parse4_negative P b fr).
Proof. intros H. unfold parse4_negative. reports_all; apply H. Qed.

Lemma reports_parse4_lookahead P b fr : reports_parser codes P -> reports codes (parse4_lookahead P b fr).
Proof. intros H. unfold parse4_lookahead. reports_all; apply H. Qed.

Lemma reports_modifier_flags rex_ n : forall c k, reports codes (modifier_flags rex_ n c k).
Proof. induction n as [|n IH]; intros c k; cbn [modifier_flags]; reports_all; apply IH. Qed.

Lemma reports_modifier_scopes rex_ n : forall m k, reports codes (modifier_scopes rex_ n m k).
Proof. induction n as [|n IH]; intros m k; cbn [modifier_scopes]; reports_all; apply IH. Qed.

Lemma reports_parse4_modifiers rex_ n P1 P2 b c fr :
  reports_parser codes P1 -> reports_parser codes P2 -> reports codes (parse4_modifiers rex_ n P1 P2 b c fr).
Proof.
  intros H1 H2. unfold parse4_modifiers.
  reports_all; try apply H1; try apply H2; try apply reports_modifier_flags;
    try apply reports_modifier_scopes.
Qed.

Lemma reports_list_items rex_ n : forall c k, reports codes (list_items rex_ n c k).
Proof. induction n as [|n IH]; intros c k; cbn [list_items]; reports_all; apply IH. Qed.

Lemma reports_parse4_list rex_ n fr : reports codes (parse4_list rex_ n fr).
Proof. unfold parse4_list. reports_all; apply reports_list_items. Qed.

Lemma reports_quote_chars rex_ n o q : forall c k p, reports codes (quote_chars rex_ n o q c k p).
Proof. induction n as [|n IH]; intros c k p; cbn [quote_chars]; reports_all; apply IH. Qed.

Lemma reports_parse4_quote rex_ n o c fr : reports codes (parse4_quote rex_ n o c fr).
Proof. unfold parse4_quote. reports_all; apply reports_quote_chars. Qed.

Lemma reports_parse4_body rex_ n P1 P2 :
  reports_parser codes P1 -> reports_parser codes P2 -> reports_parser codes (parse4_body rex_ n P1 P2).
Proof.
  intros H1 H2 b fr. unfold parse4_body.
  reports_all; try apply H1; try apply reports_parse4_comment;
    try (apply reports_parse4_negative; exact H1);
    try (apply reports_parse4_lookahead; exact H1);
    try (apply reports_parse4_modifiers; assumption);
    try apply reports_parse4_list; try apply reports_parse4_quote.
Qed.

Lemma reports_parse4 rex_ ind : forall n, reports_parser codes (parse4 rex_ ind n).
Proof.
  induction n as [|n IH]; [intros b fr st; exact I|].
  cbn [parse4]. cbv zeta.
  assert (H3 := reports_parse3 rex_ n _ IH).
  assert (H2 := reports_parse2 rex_ ind n _ H3).
  assert (H1 := reports_parse1 rex_ ind n _ H2).
  apply reports_parse4_body; assumption.
Qed.

Lemma reports_parse2_ rex_ ind n : reports_parser codes (parse2_ rex_ ind n).
Proof. apply reports_parse2, reports_parse3, reports_parse4. Qed.

Lemma reports_parse_rules rex_ ind : forall n choice fr acc,
  reports codes (parse_rules rex_ ind n choice fr acc).
Proof.
  induction n as [|n IH]; intros choice fr acc; cbn [parse_rules];
    reports_all; try apply reports_parse2_; try apply IH.
Qed.

Lemma reports_parse rex_ ind n : reports codes (parse rex_ ind n).
Proof. unfold parse. reports_all. apply reports_parse_rules. Qed.

End ParserReports.

#[export] Hint Resolve reports_parse_esc : reports.

Section CompilerReports.

Variable codes : list Code.
Hypothesis syntax_in : In REGEX_SYNTAX codes.
Hypothesis list_in : In REGEX_LIST codes.

Lemma reports_trim_lazy pos : reports codes (trim_lazy pos).
Proof. apply reports_quiet. intros st. unfold trim_lazy. destruct (trim_lazy_loop _ _ _); reflexivity. Qed.
#[local] Hint Resolve reports_trim_lazy : reports.

Lemma reports_compile_esc rex_ strtoul k chars : reports codes (compile_esc rex_ strtoul k chars).
Proof. unfold compile_esc. reports_all. Qed.
#[local] Hint Resolve reports_compile_esc : reports.

Lemma reports_compile_list_items rex_ strtoul n modifiers : forall k prev lo chars,
  reports codes (compile_list_items rex_ strtoul n modifiers k prev lo chars).
Proof.
  induction n as [|n IH]; intros k prev lo chars; cbn [compile_list_items];
    reports_all; try apply IH.
Qed.

Lemma reports_compile_list rex_ strtoul n k chars modifiers :
  reports codes (compile_list rex_ strtoul n k chars modifiers).
Proof. unfold compile_list. reports_all. apply reports_compile_list_items. Qed.
#[local] Hint Resolve reports_compile_list : reports.

Lemma reports_transition n moves chars follow : reports codes (transition n moves chars follow).
Proof.
  apply reports_quiet. intros st. unfold transition.
  destruct (transition_loop _ _ _ _ _ _) as [[rest mv]|]; reflexivity.
Qed.
#[local] Hint Resolve reports_transition : reports.

Lemma reports_lazy_follow k i : reports codes (lazy_follow k i).
Proof. unfold lazy_follow. reports_all. Qed.
#[local] Hint Resolve reports_lazy_follow : reports.

Lemma reports_chars_at rex_ strtoul n modifiers k literal :
  reports codes (chars_at rex_ strtoul n modifiers k literal).
Proof. unfold chars_at. reports_all. Qed.
#[local] Hint Resolve reports_chars_at : reports.

Lemma reports_compile_position rex_ strtoul n modifiers lookahead k acc :
  reports codes (compile_position rex_ strtoul n modifiers lookahead k acc).
Proof. unfold compile_position. reports_all. Qed.

Lemma reports_compile_positions rex_ strtoul n modifiers lookahead : forall ks acc,
  reports codes (compile_positions rex_ strtoul n modifiers lookahead ks acc).
Proof.
  induction ks as [|k ks IH]; intros acc; cbn [compile_positions]; reports_all;
    try apply reports_compile_position; try apply IH.
Qed.

Lemma reports_compile_transition rex_ strtoul n s modifiers lookahead :
  reports codes (compile_transition rex_ strtoul n s modifiers lookahead).
Proof. apply reports_compile_positions. Qed.
#[local] Hint Resolve reports_compile_transition : reports.

Lemma reports_target dfa pos : reports codes (target dfa pos).
Proof.
  apply reports_quiet. intros st. unfold target.
  destruct (search _ _ _ _) as [[t|[p l]]|]; reflexivity.
Qed.
#[local] Hint Resolve reports_target : reports.

Lemma reports_commit_move cur move acc : reports codes (commit_move cur move acc).
Proof. unfold commit_move. reports_all. Qed.

Lemma reports_commit_moves cur : forall moves acc, reports codes (commit_moves cur moves acc).
Proof.
  induction moves as [|m moves IH]; intros acc; cbn [commit_moves]; reports_all;
    try apply reports_commit_move; try apply IH.
Qed.
#[local] Hint Resolve reports_commit_moves : reports.

Lemma reports_compile_states rex_ strtoul n modifiers lookahead size_ :
  forall cur dfa cnt,
    reports codes (compile_states rex_ strtoul n modifiers lookahead size_ cur dfa cnt).
Proof.
  induction n as [|n IH]; intros cur dfa cnt; cbn [compile_states]; reports_all;
    apply IH.
Qed.

Lemma reports_compile rex_ strtoul n start modifiers lookahead end_ :
  reports codes (compile rex_ strtoul n start modifiers lookahead end_).
Proof. unfold compile. reports_all. apply reports_compile_states. Qed.

End CompilerReports.

Section EncoderReports.

Variable codes : list Code.
Hypothesis overflow_in : In CODE_OVERFLOW codes.

Lemma reports_count_state s nop_ : reports codes (count_state s nop_).
Proof. unfold count_state. reports_all. Qed.

Lemma reports_count_states : forall dfa nop_, reports codes (count_states dfa nop_).
Proof.
  induction dfa as [|s dfa IH]; intros nop_; cbn [count_states]; reports_all;
    try apply reports_count_state; try apply IH.
Qed.

Lemma reports_encode_dfa dfa : reports codes (encode_dfa dfa).
Proof. unfold encode_dfa. reports_all. apply reports_count_states. Qed.

Lemma reports_assemble dfa : reports codes (assemble dfa).
Proof. unfold assemble. reports_all. apply reports_encode_dfa. Qed.

End EncoderReports.

(** Each stage of the compilation reports its own error codes, thrown or
    written to the error stream: the parser only [REGEX_SYNTAX] and
    [REGEX_RANGE], the DFA builder only [REGEX_SYNTAX] and [REGEX_LIST], and
    the encoder only [CODE_OVERFLOW]. *)
Theorem errors_by_stage :
  forall rex_ ind strtoul n,
    reports [REGEX_SYNTAX; REGEX_RANGE] (parse rex_ ind n) /\
    (forall start modifiers lookahead end_,
       reports [REGEX_SYNTAX; REGEX_LIST]
               (compile rex_ strtoul n start modifiers lookahead end_)) /\
    (forall dfa, reports [CODE_OVERFLOW] (assemble dfa)).
Proof.
  intros rex_ ind strtoul n. split; [|split].
  - apply reports_parse; simpl; tauto.
  - intros. apply reports_compile; simpl; tauto.
  - intros. apply reports_assemble; simpl; tauto.
Qed.

(** ** The algebra of character sets, character by character *)

Lemma contains_nil x : contains [] x = false.
Proof. reflexivity. Qed.

Lemma contains_app r1 r2 x : contains (r1 ++ r2) x = contains r1 x || contains r2 x.
Proof.
  induction r1 as [|[a b] r1 IH]; [reflexivity|].
  cbn [app]. rewrite !contains_cons, IH. apply orb_assoc.
Qed.

Lemma ranges_add_contains r : forall lo hi1 x,
  lo < hi1 -> proper r ->
  contains (ranges_add lo hi1 r) x = ((lo <=? x) && (x <? hi1)) || contains r x.
Proof.
  induction r as [|[a b] rest IH]; intros lo hi1 x Hlo Hr; cbn [ranges_add].
  - rewrite contains_cons, contains_nil. rewrite andb_comm. reflexivity.
  - inversion Hr as [|i l Hab Hrest]; subst. cbn [fst snd] in Hab.
    destruct (Z.ltb_spec b lo).
    + rewrite !contains_cons, IH by assumption.
      destruct ((x <? b) && (a <=? x)), ((lo <=? x) && (x <? hi1)), (contains rest x);
        reflexivity.
    + destruct (Z.ltb_spec hi1 a).
      * rewrite (contains_cons lo hi1). rewrite andb_comm. reflexivity.
      * rewrite IH by (assumption || lia). rewrite contains_cons.
        destruct (contains rest x); [rewrite !orb_true_r; reflexivity|].
        rewrite !orb_false_r.
        destruct (Z.leb_spec (Z.min lo a) x), (Z.ltb_spec x (Z.max hi1 b)),
          (Z.leb_spec lo x), (Z.ltb_spec x hi1), (Z.ltb_spec x b), (Z.leb_spec a x);
          cbn [andb orb]; try reflexivity; lia.
Qed.

Lemma ranges_add_proper r : forall lo hi1,
  lo < hi1 -> proper r -> proper (ranges_add lo hi1 r).
Proof.
  induction r as [|[a b] rest IH]; intros lo hi1 Hlo Hr; cbn [ranges_add].
  - constructor; [exact Hlo|constructor].
  - inversion Hr as [|i l Hab Hrest]; subst. cbn [fst snd] in Hab.
    destruct (b <? lo).
    + constructor; [exact Hab|]. apply IH; assumption.
    + destruct (hi1 <? a).
      * constructor; [exact Hlo|exact Hr].
      * apply IH; [lia|exact Hrest].
Qed.

Lemma chars_union_spec b : forall a x,
  proper a -> proper b ->
  proper (chars_union a b) /\
  contains (chars_union a b) x = contains a x || contains b x.
Proof.
  unfold chars_union.
  induction b as [|[lo hi1] b IH]; intros a x Ha Hb; cbn [fold_left].
  - split; [exact Ha|]. rewrite contains_nil, orb_false_r. reflexivity.
  - inversion Hb as [|i l Hlo Hrest]; subst. cbn [fst snd] in Hlo |- *.
    destruct (IH (ranges_add lo hi1 a) x) as [P E];
      [apply ranges_add_proper; assumption|exact Hrest|].
    split; [exact P|]. rewrite E, ranges_add_contains, contains_cons by assumption.
    destruct (Z.leb_spec lo x), (Z.ltb_spec x hi1), (contains a x), (contains b x);
      reflexivity.
Qed.

Lemma ranges_remove_contains lo hi1 r : forall x,
  contains (ranges_remove lo hi1 r) x =
  contains r x && negb ((lo <=? x) && (x <? hi1)).
Proof.
  induction r as [|[a b] rest IH]; intros x; cbn [ranges_remove]; [reflexivity|].
  rewrite !contains_app, IH, contains_cons.
  rewrite orb_assoc.
  match goal with
  | |- ?A || ?B || _ = _ =>
      assert (E : A || B = (x <? b) && (a <=? x) && negb ((lo <=? x) && (x <? hi1)))
  end.
  { destruct (Z.ltb_spec a (Z.min b lo)), (Z.ltb_spec (Z.max a hi1) b);
      rewrite ?contains_cons, ?contains_nil;
      destruct (Z.ltb_spec x b), (Z.leb_spec a x), (Z.leb_spec lo x), (Z.ltb_spec x hi1);
      cbn [andb orb negb];
      repeat match goal with
             | |- context [?u <? ?v] => destruct (Z.ltb_spec u v)
             | |- context [?u <=? ?v] => destruct (Z.leb_spec u v)
             end; cbn [andb orb negb]; try reflexivity; lia. }
  rewrite E.
  destruct ((x <? b) && (a <=? x)), (contains rest x),
    (negb ((lo <=? x) && (x <? hi1))); reflexivity.
Qed.

Lemma ranges_remove_proper lo hi1 r : proper r -> proper (ranges_remove lo hi1 r).
Proof.
  intros _. induction r as [|[a b] rest IH]; cbn [ranges_remove]; [constructor|].
  apply Forall_app. split; [|apply Forall_app; split; [|exact IH]].
  - destruct (Z.ltb_spec a (Z.min b lo)); constructor; [assumption|constructor].
  - destruct (Z.ltb_spec (Z.max a hi1) b); constructor; [assumption|constructor].
Qed.

Lemma chars_minus_spec b : forall a x,
  proper a ->
  proper (chars_minus a b) /\
  contains (chars_minus a b) x = contains a x && negb (contains b x).
Proof.
  unfold chars_minus.
  induction b as [|[lo hi1] b IH]; intros a x Ha; cbn [fold_left].
  - split; [exact Ha|]. rewrite contains_nil, andb_true_r. reflexivity.
  - cbn [fst snd].
    destruct (IH (ranges_remove lo hi1 a) x) as [P E];
      [apply ranges_remove_proper; exact Ha|].
    split; [exact P|]. rewrite E, ranges_remove_contains, contains_cons.
    destruct (Z.leb_spec lo x), (Z.ltb_spec x hi1), (contains a x), (contains b x);
      reflexivity.
Qed.

Lemma chars_inter_spec a b x :
  proper a ->
  proper (chars_inter a b) /\
  contains (chars_inter a b) x = contains a x && contains b x.
Proof.
  intros Ha. unfold chars_inter.
  destruct (chars_minus_spec (chars_minus a b) a x Ha) as [P E].
  destruct (chars_minus_spec b a x Ha) as [_ E2].
  split; [exact P|]. rewrite E, E2.
  destruct (contains a x), (contains b x); reflexivity.
Qed.

Lemma any_false_contains r x : any r = false -> contains r x = false.
Proof. destruct r; [reflexivity|discriminate]. Qed.

Lemma any_true_contains r :
  proper r -> any r = true -> exists x, contains r x = true.
Proof.
  destruct r as [|[a b] r]; intros Hr Ha; [discriminate|].
  inversion Hr; subst. cbn [fst snd] in *. exists a. rewrite contains_cons.
  destruct (Z.ltb_spec a b), (Z.leb_spec a a); try lia; reflexivity.
Qed.

Lemma chars_eqb_eq a : forall b, chars_eqb a b = true -> a = b.
Proof.
  induction a as [|[x y] a IH]; intros [|[x' y'] b] H; cbn [chars_eqb] in H;
    try discriminate; [reflexivity|].
  apply andb_true_iff in H. destruct H as [H Hr].
  apply andb_true_iff in H. destruct H as [Hx Hy].
  apply Z.eqb_eq in Hx, Hy. subst. f_equal. apply IH. exact Hr.
Qed.

(** ** [transition] adds the follow set to the moves of the characters *)

Lemma holders_cons c m l :
  holders c (m :: l) = ((if contains (fst m) c then 1 else 0) + holders c l)%nat.
Proof. unfold holders. cbn [filter]. destruct (contains (fst m) c); reflexivity. Qed.

Lemma holders_app c l1 l2 : holders c (l1 ++ l2) = (holders c l1 + holders c l2)%nat.
Proof. unfold holders. rewrite filter_app, length_app. reflexivity. Qed.

Lemma holders_nil c : holders c [] = 0%nat.
Proof. reflexivity. Qed.

Lemma takes_cons m l c p :
  takes (m :: l) c p = (contains (fst m) c && mem p (snd m)) || takes l c p.
Proof. reflexivity. Qed.

Lemma takes_app l1 l2 c p : takes (l1 ++ l2) c p = takes l1 c p || takes l2 c p.
Proof. unfold takes. apply existsb_app. Qed.

Lemma takes_nil c p : takes [] c p = false.
Proof. reflexivity. Qed.

Lemma takes_holders l c p : takes l c p = true -> (1 <= holders c l)%nat.
Proof.
  induction l as [|m l IH]; [discriminate|].
  rewrite takes_cons, holders_cons. intros H. apply orb_true_iff in H.
  destruct H as [H|H].
  - apply andb_true_iff in H. destruct H as [H _]. rewrite H. lia.
  - specialize (IH H). lia.
Qed.

Lemma In_holders l c m :
  In m l -> contains (fst m) c = true -> (1 <= holders c l)%nat.
Proof.
  induction l as [|m' l IH]; intros Hin Hc; [contradiction|].
  rewrite holders_cons. destruct Hin as [->|Hin].
  - rewrite Hc. lia.
  - specialize (IH Hin Hc). lia.
Qed.

Lemma Position_eqb_eq p q : Position.eqb p q = true <-> p = q.
Proof.
  unfold Position.eqb. split.
  - destruct (Position.compare p q) eqn:E; try discriminate. intros _.
    apply Position_compare_eq. exact E.
  - intros ->. rewrite Position_compare_refl. reflexivity.
Qed.

Lemma mem_In p s : mem p s = true <-> In p s.
Proof.
  induction s as [|q s IH]; cbn [mem In]; [split; [discriminate|contradiction]|].
  rewrite orb_true_iff, IH, Position_eqb_eq. split; intros [H|H]; auto.
Qed.

Lemma mem_set_insert p s1 s2 : mem p (set_insert s1 s2) = mem p s1 || mem p s2.
Proof.
  apply eq_true_iff_eq. rewrite orb_true_iff, !mem_In. apply set_insert_In.
Qed.

Lemma is_subset_mem a b p : is_subset a b = true -> mem p a = true -> mem p b = true.
Proof.
  unfold is_subset. rewrite forallb_forall. intros H Hp.
  apply H. apply mem_In. exact Hp.
Qed.

Lemma is_subset_set_insert s follow : is_subset follow (set_insert s follow) = true.
Proof.
  unfold is_subset. apply forallb_forall. intros p Hp.
  rewrite mem_set_insert. apply mem_In in Hp. rewrite Hp. apply orb_true_r.
Qed.

Lemma positions_eqb_eq a : forall b, positions_eqb a b = true -> a = b.
Proof.
  unfold positions_eqb.
  induction a as [|p a IH]; intros [|q b] H; cbn [positions_compare] in H;
    try discriminate; [reflexivity|].
  destruct (Position.compare p q) eqn:E; try discriminate.
  apply Position_compare_eq in E. subst q. f_equal. apply IH. exact H.
Qed.

(** The facts of the invariant at the character [c], with the counts of the
    lists taken apart. *)
Ltac at_char I1 I2 I3 c :=
  pose proof (I1 c); pose proof (I2 c); pose proof (I3 c);
  rewrite ?holders_app, ?holders_cons, ?holders_nil in *.

(** Case analysis on every boolean and every count of the goal. *)
Ltac by_cases :=
  repeat match goal with
         | H : context [if ?b then _ else _] |- _ => destruct b eqn:?
         | |- context [if ?b then _ else _] => destruct b eqn:?
         end;
  repeat match goal with
         | |- context [(0 <? ?n)%nat] => destruct (Nat.ltb_spec 0 n)
         end;
  repeat match goal with
         | H : ?b = true -> _ |- _ =>
             match type of b with bool => destruct b eqn:? end
         end;
  cbn [andb orb negb] in *;
  repeat match goal with
         | H : true = true -> _ |- _ => specialize (H eq_refl)
         end;
  try discriminate; try reflexivity; try lia; try tauto.

Section Loop.

Variable chars : Chars.
Variable follow : Positions.
Hypothesis chars_proper : proper chars.

Lemma loop_same_follow rest seen i todo :
  loop_inv chars follow rest seen (i :: todo) ->
  snd i = follow ->
  loop_inv chars follow (chars_union rest (fst i)) seen todo /\
  forall c p, loop_takes chars follow (chars_union rest (fst i)) seen todo c p =
              loop_takes chars follow rest seen (i :: todo) c p.
Proof.
  intros (P & W & I1 & I2 & I3 & I4) Hi.
  assert (Wi : proper (fst i)).
  { apply Forall_app in W. destruct W as [_ W]. inversion W; subst. tauto. }
  assert (U : forall c, contains (chars_union rest (fst i)) c
                        = contains rest c || contains (fst i) c).
  { intros c. apply chars_union_spec; assumption. }
  split; [split; [|split; [|split; [|split; [|split]]]]|].
  - apply (chars_union_spec (fst i) rest 0); assumption.
  - apply Forall_app in W. destruct W as [W1 W2]. apply Forall_app.
    split; [exact W1|]. inversion W2; assumption.
  - intros c. at_char I1 I2 I3 c. lia.
  - intros c. rewrite U. at_char I1 I2 I3 c. intros Hc.
    destruct (contains rest c), (contains (fst i) c); cbn in *; try discriminate;
      try tauto; lia.
  - intros c. rewrite U. at_char I1 I2 I3 c. intros Hc.
    destruct (contains rest c), (contains (fst i) c), (contains chars c);
      cbn in *; try discriminate; try tauto; try lia.
  - intros c m Hm Hc Hmc. rewrite U.
    destruct (I4 c m (or_intror Hm) Hc Hmc) as [R|S]; [left; rewrite R; reflexivity|right; exact S].
  - intros c p. unfold loop_takes. rewrite U, takes_cons, holders_cons, Hi.
    at_char I1 I2 I3 c.
    destruct (takes seen c p), (takes todo c p), (contains rest c),
      (contains (fst i) c), (contains chars c), (mem p follow);
      cbn [andb orb negb]; try reflexivity;
      destruct (Nat.ltb_spec 0 (holders c todo)); cbn; try reflexivity; lia.
Qed.


(** The characters of the sets the loop makes for the move [i]. *)
Lemma loop_sets (rest : Chars) (i : Move) :
  proper rest -> proper (fst i) ->
  let common := chars_inter chars (fst i) in
  (proper common /\ proper (chars_minus rest common) /\
   proper (chars_minus (fst i) common)) /\
  forall c,
    contains common c = contains chars c && contains (fst i) c /\
    contains (chars_minus rest common) c =
      contains rest c && negb (contains chars c && contains (fst i) c) /\
    contains (chars_minus (fst i) common) c =
      contains (fst i) c && negb (contains chars c && contains (fst i) c).
Proof.
  intros P Wi common. split; [split; [|split]|].
  - apply (chars_inter_spec chars (fst i) 0). exact chars_proper.
  - apply (chars_minus_spec common rest 0). exact P.
  - apply (chars_minus_spec common (fst i) 0). exact Wi.
  - intros c.
    destruct (chars_inter_spec chars (fst i) c chars_proper) as [_ E].
    destruct (chars_minus_spec common rest c P) as [_ E1].
    destruct (chars_minus_spec common (fst i) c Wi) as [_ E2].
    fold common in E. rewrite E1, E2, E. repeat split.
Qed.

(** Case analysis on what holds of the character [c] and the position [p]. *)
Ltac atoms rest seen i todo c p :=
  destruct (contains rest c) eqn:?, (contains (fst i) c) eqn:?,
    (contains chars c) eqn:?;
  try destruct (takes seen c p) eqn:?; try destruct (takes todo c p) eqn:?;
  try destruct (mem p follow) eqn:?; try destruct (mem p (snd i)) eqn:?;
  cbn [andb orb negb Nat.add] in *;
  repeat match goal with
         | H : true = true -> _ |- _ => specialize (H eq_refl)
         | H : false = true -> _ |- _ => clear H
         | H : _ \/ _ |- _ => destruct H
         | |- context [(0 <? ?n)%nat] => destruct (Nat.ltb_spec 0 n)
         end;
  cbn [andb orb negb] in *;
  try reflexivity; try discriminate; try lia; try tauto; try congruence.

Lemma loop_inv_move rest seen i todo :
  loop_inv chars follow rest seen (i :: todo) ->
  proper rest /\ proper (fst i) /\ any (fst i) = true /\
  Forall (fun m : Move => proper (fst m) /\ any (fst m) = true) seen /\
  Forall (fun m : Move => proper (fst m) /\ any (fst m) = true) todo.
Proof.
  intros (P & W & _). apply Forall_app in W. destruct W as [W1 W2].
  inversion W2; subst. tauto.
Qed.

Lemma loop_superset rest seen i todo :
  loop_inv chars follow rest seen (i :: todo) ->
  is_subset follow (snd i) = true ->
  let rest' := chars_minus rest (chars_inter chars (fst i)) in
  loop_inv chars follow rest' (seen ++ [i]) todo /\
  forall c p, loop_takes chars follow rest' (seen ++ [i]) todo c p =
              loop_takes chars follow rest seen (i :: todo) c p.
Proof.
  intros Hinv Hs rest'.
  destruct (loop_inv_move _ _ _ _ Hinv) as (P & Wi & Ai & W1 & W2).
  destruct Hinv as (_ & W & I1 & I2 & I3 & I4).
  destruct (loop_sets rest i P Wi) as [(Pc & Pr & Pf) E]. fold rest' in Pr, E.
  split; [split; [|split; [|split; [|split; [|split]]]]|].
  - exact Pr.
  - rewrite <- app_assoc. exact W.
  - intros c. at_char I1 I2 I3 c. lia.
  - intros c. destruct (E c) as (_ & -> & _). at_char I1 I2 I3 c.
    atoms rest seen i todo c c.
  - intros c. destruct (E c) as (_ & -> & _). at_char I1 I2 I3 c.
    atoms rest seen i todo c c.
  - intros c m Hm Hc Hmc. destruct (E c) as (_ & -> & _).
    pose proof (In_holders _ _ _ Hm Hmc). at_char I1 I2 I3 c.
    destruct (I4 c m (or_intror Hm) Hc Hmc) as [R|S]; [|right; exact S].
    left. rewrite R, Hc. destruct (contains (fst i) c); [lia|reflexivity].
  - intros c p. unfold loop_takes.
    destruct (E c) as (_ & -> & _).
    rewrite takes_app, !takes_cons, takes_nil, holders_cons.
    pose proof (is_subset_mem _ _ p Hs).
    at_char I1 I2 I3 c. atoms rest seen i todo c p.
Qed.

Lemma loop_absorbed rest seen i todo :
  loop_inv chars follow rest seen (i :: todo) ->
  is_subset follow (snd i) = false ->
  fst i = chars_inter chars (fst i) ->
  is_subset (snd i) follow = true ->
  loop_inv chars follow rest seen todo /\
  forall c p, loop_takes chars follow rest seen todo c p =
              loop_takes chars follow rest seen (i :: todo) c p.
Proof.
  intros Hinv Hn He Hs.
  destruct (loop_inv_move _ _ _ _ Hinv) as (P & Wi & Ai & W1 & W2).
  destruct Hinv as (_ & W & I1 & I2 & I3 & I4).
  destruct (loop_sets rest i P Wi) as [_ E].
  assert (A : forall c, contains (fst i) c = true -> contains chars c = true).
  { intros c Hc. destruct (E c) as (Ec & _). rewrite <- He in Ec.
    rewrite Hc in Ec. destruct (contains chars c); [reflexivity|discriminate]. }
  split; [split; [|split; [|split; [|split; [|split]]]]|].
  - exact P.
  - apply Forall_app. split; assumption.
  - intros c. at_char I1 I2 I3 c. lia.
  - exact I2.
  - intros c. at_char I1 I2 I3 c. atoms rest seen i todo c c.
  - intros c m Hm. apply I4. right. exact Hm.
  - intros c p. unfold loop_takes. rewrite takes_cons, holders_cons.
    pose proof (A c) as Ac. pose proof (is_subset_mem _ _ p Hs).
    pose proof (I4 c i (or_introl eq_refl)) as J. rewrite Hn in J.
    at_char I1 I2 I3 c. atoms rest seen i todo c p.
Qed.

Lemma loop_split rest seen i todo :
  loop_inv chars follow rest seen (i :: todo) ->
  intersects chars (fst i) = true ->
  let common := chars_inter chars (fst i) in
  let first := chars_minus (fst i) common in
  let rest' := chars_minus rest common in
  let back := (common, set_insert (snd i) follow) in
  any first = true ->
  loop_inv chars follow rest' (seen ++ [(first, snd i)]) (todo ++ [back]) /\
  forall c p,
    loop_takes chars follow rest' (seen ++ [(first, snd i)]) (todo ++ [back]) c p =
    loop_takes chars follow rest seen (i :: todo) c p.
Proof.
  intros Hinv Hx common first rest' back Hf. subst back.
  destruct (loop_inv_move _ _ _ _ Hinv) as (P & Wi & Ai & W1 & W2).
  destruct Hinv as (_ & W & I1 & I2 & I3 & I4).
  destruct (loop_sets rest i P Wi) as [(Pc & Pr & Pf) E].
  fold common in Pc, Pr, Pf, E. fold rest' in Pr, E. fold first in Pf, E.
  split; [split; [|split; [|split; [|split; [|split]]]]|].
  - exact Pr.
  - rewrite !Forall_app. repeat split; try assumption.
    + constructor; [|constructor]. split; assumption.
    + constructor; [|constructor]. split; [exact Pc|exact Hx].
  - intros c. destruct (E c) as (Ec & Er & Ef).
    at_char I1 I2 I3 c. cbn [fst]. rewrite Ec, Ef. atoms rest seen i todo c c.
  - intros c. destruct (E c) as (Ec & Er & Ef). rewrite Er.
    at_char I1 I2 I3 c. cbn [fst]. rewrite Ef. atoms rest seen i todo c c.
  - intros c. destruct (E c) as (Ec & Er & Ef). rewrite Er.
    at_char I1 I2 I3 c. cbn [fst]. rewrite Ec. atoms rest seen i todo c c.
  - intros c m Hm Hc Hmc. destruct (E c) as (Ec & Er & Ef). rewrite Er.
    apply in_app_iff in Hm. destruct Hm as [Hm|[<-|[]]].
    + pose proof (In_holders _ _ _ Hm Hmc). at_char I1 I2 I3 c.
      destruct (I4 c m (or_intror Hm) Hc Hmc) as [R|S]; [|right; exact S].
      left. rewrite R, Hc. destruct (contains (fst i) c); [lia|reflexivity].
    + right. apply is_subset_set_insert.
  - intros c p. unfold loop_takes. destruct (E c) as (Ec & Er & Ef). rewrite Er.
    rewrite !takes_app, !takes_cons, !takes_nil, !holders_app, !holders_cons,
      holders_nil.
    cbn [fst snd]. rewrite Ec, Ef, mem_set_insert.
    at_char I1 I2 I3 c. atoms rest seen i todo c p.
Qed.

Lemma loop_whole rest seen i todo :
  loop_inv chars follow rest seen (i :: todo) ->
  intersects chars (fst i) = true ->
  let common := chars_inter chars (fst i) in
  let first := chars_minus (fst i) common in
  let rest' := chars_minus rest common in
  let move := (common, set_insert (snd i) follow) in
  any first = false ->
  loop_inv chars follow rest' (seen ++ [move]) todo /\
  forall c p,
    loop_takes chars follow rest' (seen ++ [move]) todo c p =
    loop_takes chars follow rest seen (i :: todo) c p.
Proof.
  intros Hinv Hx common first rest' move Hf. subst move.
  destruct (loop_inv_move _ _ _ _ Hinv) as (P & Wi & Ai & W1 & W2).
  destruct Hinv as (_ & W & I1 & I2 & I3 & I4).
  destruct (loop_sets rest i P Wi) as [(Pc & Pr & Pf) E].
  fold common in Pc, Pr, Pf, E. fold rest' in Pr, E. fold first in Pf, E.
  assert (A : forall c, contains (fst i) c = true -> contains chars c = true).
  { intros c Hc. destruct (E c) as (_ & _ & Ef).
    rewrite (any_false_contains _ _ Hf), Hc in Ef.
    destruct (contains chars c); [reflexivity|discriminate]. }
  split; [split; [|split; [|split; [|split; [|split]]]]|].
  - exact Pr.
  - rewrite !Forall_app. repeat split; try assumption.
    constructor; [|constructor]. split; [exact Pc|exact Hx].
  - intros c. destruct (E c) as (Ec & Er & Ef).
    at_char I1 I2 I3 c. cbn [fst]. rewrite Ec. atoms rest seen i todo c c.
  - intros c. destruct (E c) as (Ec & Er & Ef). rewrite Er.
    at_char I1 I2 I3 c. cbn [fst]. rewrite Ec. atoms rest seen i todo c c.
  - intros c. destruct (E c) as (Ec & Er & Ef). rewrite Er.
    at_char I1 I2 I3 c. atoms rest seen i todo c c.
  - intros c m Hm Hc Hmc. destruct (E c) as (Ec & Er & Ef). rewrite Er.
    pose proof (In_holders _ _ _ Hm Hmc). at_char I1 I2 I3 c.
    destruct (I4 c m (or_intror Hm) Hc Hmc) as [R|S]; [|right; exact S].
    left. rewrite R, Hc. destruct (contains (fst i) c); [lia|reflexivity].
  - intros c p. unfold loop_takes. destruct (E c) as (Ec & Er & Ef). rewrite Er.
    rewrite !takes_app, !takes_cons, !takes_nil, !holders_cons.
    cbn [fst snd]. rewrite Ec, mem_set_insert. pose proof (A c) as Ac.
    at_char I1 I2 I3 c. atoms rest seen i todo c p.
Qed.

Lemma loop_apart rest seen i todo :
  loop_inv chars follow rest seen (i :: todo) ->
  intersects chars (fst i) = false ->
  loop_inv chars follow rest (seen ++ [i]) todo /\
  forall c p, loop_takes chars follow rest (seen ++ [i]) todo c p =
              loop_takes chars follow rest seen (i :: todo) c p.
Proof.
  intros Hinv Hx.
  destruct (loop_inv_move _ _ _ _ Hinv) as (P & Wi & Ai & W1 & W2).
  destruct Hinv as (_ & W & I1 & I2 & I3 & I4).
  destruct (loop_sets rest i P Wi) as [_ E].
  assert (A : forall c, contains (fst i) c = true -> contains chars c = false).
  { intros c Hc. destruct (E c) as (Ec & _).
    unfold intersects in Hx. rewrite (any_false_contains _ _ Hx), Hc in Ec.
    destruct (contains chars c); [discriminate|reflexivity]. }
  split; [split; [|split; [|split; [|split; [|split]]]]|].
  - exact P.
  - rewrite <- app_assoc. exact W.
  - intros c. at_char I1 I2 I3 c. lia.
  - intros c. pose proof (A c). at_char I1 I2 I3 c. atoms rest seen i todo c c.
  - intros c. at_char I1 I2 I3 c. atoms rest seen i todo c c.
  - intros c m Hm. apply I4. right. exact Hm.
  - intros c p. unfold loop_takes.
    rewrite takes_app, !takes_cons, takes_nil, holders_cons.
    pose proof (A c). at_char I1 I2 I3 c. atoms rest seen i todo c p.
Qed.

End Loop.

Lemma turns_app follow l1 l2 :
  turns follow (l1 ++ l2) = (turns follow l1 + turns follow l2)%nat.
Proof.
  induction l1 as [|m l1 IH]; [reflexivity|].
  cbn [app turns]. rewrite IH. lia.
Qed.

Lemma turns_bound follow l : (turns follow l <= 2 * List.length l)%nat.
Proof.
  induction l as [|m l IH]; [cbn; lia|].
  cbn [turns List.length].
  destruct (is_subset follow (snd m)); lia.
Qed.

Lemma transition_loop_returns chars follow : forall n rest seen todo,
  (turns follow todo < n)%nat ->
  exists r, transition_loop n chars follow rest seen todo = Some r.
Proof.
  induction n as [|n IH]; intros rest seen todo Hn; [lia|].
  cbn [transition_loop]. destruct todo as [|i todo]; [eexists; reflexivity|].
  cbn [turns] in Hn.
  destruct (positions_eqb (snd i) follow).
  { apply IH. destruct (is_subset follow (snd i)); lia. }
  destruct (intersects chars (fst i)).
  2: { apply IH. destruct (is_subset follow (snd i)); lia. }
  cbv zeta.
  destruct (is_subset follow (snd i)) eqn:Es.
  { apply IH. lia. }
  destruct (chars_eqb (fst i) (chars_inter chars (fst i)) && is_subset (snd i) follow).
  { apply IH. lia. }
  destruct (any (chars_minus (fst i) (chars_inter chars (fst i)))).
  - apply IH. rewrite turns_app. cbn [turns snd].
    rewrite is_subset_set_insert. lia.
  - apply IH. lia.
Qed.

Lemma transition_loop_spec chars follow :
  proper chars ->
  forall n rest seen todo rest' seen',
    transition_loop n chars follow rest seen todo = Some (rest', seen') ->
    loop_inv chars follow rest seen todo ->
    loop_inv chars follow rest' seen' [] /\
    forall c p, loop_takes chars follow rest' seen' [] c p =
                loop_takes chars follow rest seen todo c p.
Proof.
  intros Hc. induction n as [|n IH]; intros rest seen todo rest' seen' H Hinv;
    [discriminate|].
  cbn [transition_loop] in H. destruct todo as [|i todo].
  { inversion H; subst. split; [exact Hinv|reflexivity]. }
  destruct (positions_eqb (snd i) follow) eqn:Ep.
  { apply positions_eqb_eq in Ep.
    destruct (loop_same_follow chars follow rest seen i todo Hinv Ep) as [J E].
    destruct (IH _ _ _ _ _ H J) as [J' E']. split; [exact J'|].
    intros c p. rewrite E'. apply E. }
  destruct (intersects chars (fst i)) eqn:Ex.
  2: { destruct (loop_apart chars follow Hc rest seen i todo Hinv Ex) as [J E].
       destruct (IH _ _ _ _ _ H J) as [J' E']. split; [exact J'|].
       intros c p. rewrite E'. apply E. }
  cbv zeta in H.
  destruct (is_subset follow (snd i)) eqn:Es.
  { destruct (loop_superset chars follow Hc rest seen i todo Hinv Es) as [J E].
    destruct (IH _ _ _ _ _ H J) as [J' E']. split; [exact J'|].
    intros c p. rewrite E'. apply E. }
  destruct (chars_eqb (fst i) (chars_inter chars (fst i)) && is_subset (snd i) follow)
    eqn:Ea.
  { apply andb_true_iff in Ea. destruct Ea as [Ee Eb]. apply chars_eqb_eq in Ee.
    destruct (loop_absorbed chars follow Hc rest seen i todo Hinv Es Ee Eb) as [J E].
    destruct (IH _ _ _ _ _ H J) as [J' E']. split; [exact J'|].
    intros c p. rewrite E'. apply E. }
  destruct (any (chars_minus (fst i) (chars_inter chars (fst i)))) eqn:Ef.
  - destruct (loop_split chars follow Hc rest seen i todo Hinv Ex Ef) as [J E].
    destruct (IH _ _ _ _ _ H J) as [J' E']. split; [exact J'|].
    intros c p. rewrite E'. apply E.
  - destruct (loop_whole chars follow Hc rest seen i todo Hinv Ex Ef) as [J E].
    destruct (IH _ _ _ _ _ H J) as [J' E']. split; [exact J'|].
    intros c p. rewrite E'. apply E.
Qed.

(** The moves that [transition] gives once its loop has ended. *)
Lemma transition_loop_result n (moves : Moves) (chars : Chars) (follow : Positions)
    rest' seen' :
  proper chars ->
  Forall (fun m : Move => proper (fst m) /\ any (fst m) = true) moves ->
  (forall c, (holders c moves <= 1)%nat) ->
  transition_loop n chars follow chars [] moves = Some (rest', seen') ->
  let moves' := if any rest' then seen' ++ [(rest', follow)] else seen' in
  (forall c p, takes moves' c p =
               takes moves c p || (contains chars c && mem p follow)) /\
  (forall c, (holders c moves' <= 1)%nat) /\
  Forall (fun m : Move => proper (fst m) /\ any (fst m) = true) moves'.
Proof.
  intros Hc Hm H1 Hr.
  assert (Hinv : loop_inv chars follow chars [] moves).
  { split; [exact Hc|]. split; [exact Hm|]. split; [exact H1|].
    split; [intros; reflexivity|]. split; [intros c Hcc; left; exact Hcc|].
    intros c m _ Hcc _. left. exact Hcc. }
  destruct (transition_loop_spec chars follow Hc _ _ _ _ _ _ Hr Hinv)
    as [(P & W & I1 & I2 & _ & _) E].
  rewrite app_nil_r in W, I1.
  assert (E0 : forall c p,
             takes seen' c p || (contains rest' c && mem p follow) =
             takes moves c p || (contains chars c && mem p follow)).
  { intros c p. specialize (E c p). unfold loop_takes in E.
    rewrite !takes_nil, holders_nil in E. cbn [Nat.ltb Nat.leb] in E.
    rewrite andb_false_r, !orb_false_r in E. cbn [orb] in E. rewrite E.
    destruct (contains chars c), (takes moves c p), (mem p follow);
      cbn [andb orb]; try reflexivity;
      destruct (Nat.ltb_spec 0 (holders c moves)); reflexivity. }
  cbv zeta. destruct (any rest') eqn:Ea.
  - split; [|split].
    + intros c p. rewrite takes_app, takes_cons, takes_nil, orb_false_r. apply E0.
    + intros c. rewrite holders_app, holders_cons, holders_nil. cbn [fst].
      specialize (I1 c). specialize (I2 c).
      destruct (contains rest' c); [rewrite I2 by reflexivity|]; lia.
    + apply Forall_app. split; [exact W|]. constructor; [|constructor].
      split; [exact P|exact Ea].
  - split; [|split; assumption].
    intros c p. rewrite <- E0, (any_false_contains _ c Ea). cbn [andb].
    rewrite orb_false_r. reflexivity.
Qed.

(** [transition] adds the follow set to the moves of the characters: given
    moves of which at most one holds any character, it returns (with fuel for
    two turns a move) moves of which again at most one holds any character,
    that take a character of [chars] to the positions it was taken to before
    and to those of [follow], and any other character where it was taken
    before; no move is left with an empty set of characters. *)
Theorem transition_adds_follow :
  forall n (moves : Moves) (chars : Chars) (follow : Positions) st,
    proper chars ->
    Forall (fun m : Move => proper (fst m) /\ any (fst m) = true) moves ->
    (forall c, (holders c moves <= 1)%nat) ->
    (2 * List.length moves < n)%nat ->
    exists moves',
      transition n moves chars follow st = Return moves' st /\
      (forall c p, takes moves' c p =
                   takes moves c p || (contains chars c && mem p follow)) /\
      (forall c, (holders c moves' <= 1)%nat) /\
      Forall (fun m : Move => proper (fst m) /\ any (fst m) = true) moves'.
Proof.
  intros n moves chars follow st Hc Hm H1 Hn.
  destruct (transition_loop_returns chars follow n chars [] moves) as [[rest' seen'] Hr].
  { pose proof (turns_bound follow moves). lia. }
  exists (if any rest' then seen' ++ [(rest', follow)] else seen').
  split; [unfold transition; rewrite Hr; reflexivity|].
  exact (transition_loop_result n moves chars follow rest' seen' Hc Hm H1 Hr).
Qed.

(** The move of [a-c] to position 1, and [b-d] followed by position 2: after
    [transition], [b] goes to both positions, [a] only to position 1 and [d]
    only to position 2. *)
Lemma transition_adds_follow_example :
  let moves := [([(97, 100)], [Position.of_loc 1])] in
  let chars := [(98, 101)] in
  let follow := [Position.of_loc 2] in
  exists moves',
    transition 3 moves chars follow (initial Opt.default)
      = Return moves' (initial Opt.default) /\
    takes moves' 98 (Position.of_loc 1) = true /\
    takes moves' 98 (Position.of_loc 2) = true /\
    takes moves' 97 (Position.of_loc 2) = false /\
    takes moves' 100 (Position.of_loc 1) = false /\
    forall c, (holders c moves' <= 1)%nat.
Proof.
  cbv zeta.
  destruct (transition_adds_follow 3
              [([(97, 100)], [Position.of_loc 1])] [(98, 101)] [Position.of_loc 2]
              (initial Opt.default))
    as (moves' & Hrun & Hreach & Hone & _).
  - constructor; [cbn; lia|constructor].
  - constructor; [|constructor]. split; [|reflexivity].
    constructor; [cbn; lia|constructor].
  - intros c. rewrite holders_cons, holders_nil.
    destruct (contains _ c); cbn; lia.
  - cbn. lia.
  - exists moves'. split; [exact Hrun|]. rewrite !Hreach.
    repeat split; try reflexivity. exact Hone.
Defined.

(** ** The character sets of the moves are kept as [ORanges] keeps them *)

Lemma canonical_proper r : forall lb, canonical_from lb r -> proper r.
Proof.
  induction r as [|[a b] rest IH]; intros lb H; constructor.
  - cbn in *. tauto.
  - cbn in H. destruct H as (_ & _ & H). exact (IH _ H).
Qed.

Lemma ranges_add_canonical r : forall lo hi1 lb lb',
  canonical_from lb r -> lo < hi1 -> lb' <= lo -> lb' <= lb ->
  canonical_from lb' (ranges_add lo hi1 r).
Proof.
  induction r as [|[a b] rest IH]; intros lo hi1 lb lb' Hr Hlo Hl1 Hl2;
    cbn [ranges_add].
  - cbn. tauto.
  - cbn [canonical_from] in Hr. destruct Hr as (Ha & Hab & Hrest).
    destruct (Z.ltb_spec b lo).
    + cbn [canonical_from]. repeat split; [lia|exact Hab|].
      apply (IH lo hi1 (b + 1) (b + 1)); [exact Hrest|exact Hlo|lia|lia].
    + destruct (Z.ltb_spec hi1 a).
      * cbn [canonical_from]. repeat split; try lia. exact Hrest.
      * apply (IH _ _ (b + 1) lb'); [exact Hrest|lia|lia|lia].
Qed.

Lemma ranges_insert_canonical r lo hi :
  canonical_from 0 r -> 0 <= lo -> lo <= hi -> canonical_from 0 (ranges_insert lo hi r).
Proof.
  intros Hr H0 Hle. unfold ranges_insert.
  apply (ranges_add_canonical r lo (hi + 1) 0 0); [exact Hr|lia|lia|lia].
Qed.

Lemma chars_union_canonical b : forall a lb,
  canonical_from 0 a -> canonical_from lb b -> 0 <= lb ->
  canonical_from 0 (chars_union a b).
Proof.
  unfold chars_union.
  induction b as [|[lo hi1] b IH]; intros a lb Ha Hb Hlb; cbn [fold_left]; [exact Ha|].
  cbn [canonical_from] in Hb. destruct Hb as (H1 & H2 & H3). cbn [fst snd].
  apply (IH _ (hi1 + 1)); [|exact H3|lia].
  apply (ranges_add_canonical a lo hi1 0 0); [exact Ha|exact H2|lia|lia].
Qed.

Lemma ranges_remove_canonical lo hi1 r : forall lb,
  lo < hi1 -> canonical_from lb r -> canonical_from lb (ranges_remove lo hi1 r).
Proof.
  intros lb Hlo. revert lb.
  induction r as [|[a b] rest IH]; intros lb Hr; cbn [ranges_remove]; [exact I|].
  cbn [canonical_from] in Hr. destruct Hr as (Ha & Hab & Hrest).
  specialize (IH _ Hrest).
  destruct (Z.ltb_spec a (Z.min b lo)), (Z.ltb_spec (Z.max a hi1) b);
    cbn [app canonical_from]; repeat split; try lia;
    try (eapply canonical_from_weaken; [|exact IH]; lia).
Qed.

Lemma chars_minus_canonical b : forall a lb,
  canonical_from lb a -> proper b -> canonical_from lb (chars_minus a b).
Proof.
  unfold chars_minus.
  induction b as [|[lo hi1] b IH]; intros a lb Ha Hb; cbn [fold_left]; [exact Ha|].
  inversion Hb as [|i l Hlo Hrest]; subst. cbn [fst snd] in *.
  apply IH; [|exact Hrest]. apply ranges_remove_canonical; assumption.
Qed.

Lemma chars_inter_canonical a b lb :
  canonical_from lb a -> proper b -> canonical_from lb (chars_inter a b).
Proof.
  intros Ha Hb. unfold chars_inter. apply chars_minus_canonical; [exact Ha|].
  apply (canonical_proper _ lb). apply chars_minus_canonical; assumption.
Qed.

Lemma at_nonneg rex_ k : 0 <= at_ rex_ k.
Proof.
  unfold at_. destruct (k <? 0); [lia|].
  destruct (String.get _ _); [apply ch_range|lia].
Qed.

Lemma posix_canonical i chars : canonical_from 0 chars -> canonical_from 0 (posix i chars).
Proof.
  intros H. unfold posix.
  repeat match goal with
         | |- canonical_from 0 (if ?b then _ else _) => destruct b
         | |- canonical_from 0 (ranges_insert _ _ _) =>
             apply ranges_insert_canonical; [|lia|lia]
         end; exact H.
Qed.

Lemma flip_canonical chars : canonical_from 0 chars -> canonical_from 0 (flip chars).
Proof.
  intros H. rewrite flip_flip_from by exact H.
  apply (flip_from_canonical chars 0 0); [lia|exact H].
Qed.

Lemma insert_other_case_canonical lo c chars :
  0 <= lo -> canonical_from 0 chars -> canonical_from 0 (insert_other_case lo c chars).
Proof.
  intros Hlo. unfold insert_other_case, upto.
  generalize (seq 0 (Z.to_nat (c + 1 - lo))). intros l. revert chars.
  induction l as [|k l IH]; intros chars H; cbn [map fold_left]; [exact H|].
  apply IH. unfold isupper, islower, tolower, toupper, isupper, islower, in_range,
    ranges_insert1.
  destruct (Z.leb_spec 65 (lo + Z.of_nat k)), (Z.leb_spec (lo + Z.of_nat k) 90);
    cbn [andb]; try (apply ranges_insert_canonical; [exact H|lia|lia]);
    destruct (Z.leb_spec 97 (lo + Z.of_nat k)), (Z.leb_spec (lo + Z.of_nat k) 122);
    cbn [andb]; try exact H; apply ranges_insert_canonical; try exact H; lia.
Qed.

Lemma strchr_index_nonneg str c : forall idx s,
  0 <= idx -> strchr_index str c idx = Some s -> 0 <= s.
Proof.
  induction str as [|a str IH]; intros idx s Hi H; cbn [strchr_index] in H.
  - destruct (c =? 0); inversion H; subst; exact Hi.
  - destruct (ch a =? c); [inversion H; subst; exact Hi|].
    apply (IH (idx + 1)); [lia|exact H].
Qed.

Lemma compile_esc_canonical rex_ strtoul k chars :
  canonical_from 0 chars ->
  returns (compile_esc rex_ strtoul k chars) char_and_set.
Proof.
  intros H. unfold compile_esc.
  assert (F : forall c, 0 <= c ->
            returns (ret (c, if c <=? 255 then ranges_insert1 c chars else chars))
                    char_and_set).
  { intros c Hc. apply returns_ret. split; [exact Hc|]. cbn [snd].
    destruct (c <=? 255); [|exact H].
    apply ranges_insert_canonical; [exact H|exact Hc|lia]. }
  pose proof (at_nonneg rex_ k) as Hk.
  assert (HM : 0 <= META_EOL) by (unfold META_EOL, META_MIN; lia).
  assert (Hmod : forall x m, 0 < m -> 0 <= x mod m)
    by (intros x m Hm; apply Z.mod_pos_bound; exact Hm).
  repeat match goal with
         | |- returns (if ?b then _ else _) _ => destruct b
         end;
    try (apply F; first [exact Hk | apply Hmod; reflexivity | lia]);
    try (apply returns_ret; split; [first [exact Hk|exact HM]|]; cbn [snd];
         first [apply posix_canonical; exact H
               |apply ranges_insert_canonical;
                [apply posix_canonical; exact H|exact Hk|lia]]).
  - apply returns_bind_any. intros _. apply returns_ret. split; [exact HM|exact H].
  - destruct (strchr_index "abtnvfr" (at_ rex_ k) 0) as [s|] eqn:E1.
    + apply F. apply strchr_index_nonneg in E1; lia.
    + match goal with
      | |- returns (match ?x with Some _ => _ | None => _ end) _ =>
          destruct x as [s|]
      end; [|apply F; exact Hk].
      apply returns_ret. split; [exact HM|]. cbn [snd].
      destruct (s mod 2 =? 1); [apply flip_canonical|]; apply posix_canonical; exact H.
Qed.

(** One step through a computation that gives a character and a set. *)
Ltac canonical_step :=
  lazymatch goal with
  | |- returns (if ?b then _ else _) _ => destruct b
  | |- returns (match ?x with Some _ => _ | None => _ end) _ => destruct x
  | |- returns (ret _) _ => apply returns_ret
  | |- returns (bind (compile_esc _ _ _ _) _) _ =>
      eapply returns_bind; [apply compile_esc_canonical; assumption|];
      intros [? ?] [? ?]; cbn [fst snd] in *
  | |- returns (bind (parse_esc _ _ _) _) _ => apply returns_bind_any; intro
  | |- returns (bind (error _ _ _) _) _ => apply returns_bind_any; intro
  | |- returns (bind get_opt _) _ => apply returns_bind_any; intro
  end.

Lemma compile_list_items_canonical rex_ strtoul n modifiers :
  forall k prev lo chars,
    0 <= prev -> 0 <= lo -> canonical_from 0 chars ->
    returns (compile_list_items rex_ strtoul n modifiers k prev lo chars)
            (fun r => canonical_from 0 (snd r)).
Proof.
  assert (HM : 0 <= META_EOL) by (unfold META_EOL, META_MIN; lia).
  induction n as [|n IH]; intros k prev lo chars Hp Hl H;
    [apply returns_out_of_fuel|].
  cbn [compile_list_items]. cbv zeta.
  pose proof (at_nonneg rex_ k) as Hk.
  destruct (negb (at_ rex_ k =? 0) && (negb (eqc (at_ rex_ k) "]") || (prev =? META_BOL)));
    [|apply returns_ret; exact H].
  destruct (eqc (at_ rex_ k) "-" && negb (is_meta prev) && is_meta lo);
    [apply IH; assumption|].
  apply returns_bind_any. intros o.
  eapply (returns_bind _ _ (fun r => 0 <= fst (fst r) /\ canonical_from 0 (snd r))).
  { repeat canonical_step; cbn [fst snd]; try (split; assumption).
    all: eapply (returns_bind _ _ (canonical_from 0));
      [repeat canonical_step; try assumption; apply posix_canonical; assumption|].
    all: intros chars1 H1; apply returns_ret; split; assumption. }
  intros [[c1 k1] chars1] [Hc1 H1]. cbn [fst snd] in Hc1, H1.
  eapply (returns_bind _ _ char_and_set).
  2: { intros [c2 chars2] [Hc2 H2]. cbn [fst snd] in Hc2, H2.
       apply IH; assumption. }
  destruct (negb (is_meta c1)); [|apply returns_ret; split; assumption].
  destruct (negb (is_meta lo)).
  - eapply (returns_bind _ _ (canonical_from 0)).
    + destruct (Z.leb_spec lo c1).
      * apply returns_ret. apply ranges_insert_canonical; assumption.
      * apply returns_bind_any. intros _. apply returns_ret. exact H1.
    + intros chars2 H2. apply returns_ret. split; [exact HM|]. cbn [snd].
      destruct (Opt.i o || is_modified (ch "i") modifiers k1); [|exact H2].
      apply insert_other_case_canonical; assumption.
  - destruct (isalpha c1 && (Opt.i o || is_modified (ch "i") modifiers k1)) eqn:Ea.
    + apply returns_ret. split; [exact Hc1|]. cbn [snd].
      apply andb_true_iff in Ea. destruct Ea as [Ea _].
      unfold isalpha, isupper, islower, in_range in Ea.
      unfold ranges_insert1, tolower, toupper, isupper, islower, in_range.
      apply ranges_insert_canonical; [apply ranges_insert_canonical; [exact H1| |]| |];
        destruct (Z.leb_spec 65 c1), (Z.leb_spec c1 90), (Z.leb_spec 97 c1),
          (Z.leb_spec c1 122); cbn [andb orb] in *; try discriminate; lia.
    + apply returns_ret. split; [exact Hc1|]. cbn [snd].
      apply ranges_insert_canonical; [exact H1|exact Hc1|lia].
Qed.

Lemma compile_list_canonical rex_ strtoul n k modifiers :
  returns (compile_list rex_ strtoul n k [] modifiers) (canonical_from 0).
Proof.
  assert (HM : 0 <= META_EOL) by (unfold META_EOL, META_MIN; lia).
  assert (HB : 0 <= META_BOL) by (unfold META_BOL, META_MIN; lia).
  unfold compile_list. cbv zeta.
  eapply returns_bind;
    [apply compile_list_items_canonical; [exact HB|exact HM|exact I]|].
  intros [lo chars] H. cbn [snd] in H. apply returns_ret.
  assert (H2 : canonical_from 0 (if negb (is_meta lo)
                                 then ranges_insert1 (ch "-") chars else chars)).
  { destruct (negb (is_meta lo)); [|exact H].
    apply ranges_insert_canonical; [exact H|apply ch_range|lia]. }
  destruct (eqc _ _); [apply flip_canonical|]; exact H2.
Qed.

Lemma chars_at_canonical rex_ strtoul n modifiers k literal :
  returns (chars_at rex_ strtoul n modifiers k literal) (canonical_from 0).
Proof.
  unfold chars_at. cbv zeta.
  pose proof (at_nonneg rex_ (Position.loc k)) as Hk.
  apply returns_bind_any. intros o.
  repeat match goal with
         | |- returns (if ?b then _ else _) _ => destruct b eqn:?
         | |- returns (compile_list _ _ _ _ _ _) _ => apply compile_list_canonical
         | |- returns (ret _) _ => apply returns_ret
         | |- canonical_from 0 (if ?b then _ else _) => destruct b
         | |- canonical_from 0 (ranges_insert1 _ _) => unfold ranges_insert1
         | |- canonical_from 0 (ranges_insert _ _ _) =>
             apply ranges_insert_canonical
         | |- canonical_from 0 [] => exact I
         end;
    try (unfold META_BOL, META_EOL, META_BOB, META_EOB, META_IND, META_DED, META_NWB,
         META_NWE, META_BWB, META_EWB, META_BWE, META_EWE, META_MIN; lia).
  all: try exact Hk.
  all: try (match goal with |- 0 <= (if ?b then _ else _) => destruct b end;
            unfold META_BOL, META_EOL, META_BOB, META_EOB, META_NWB, META_NWE,
              META_BWB, META_EWB, META_BWE, META_EWE, META_MIN; lia).
  - unfold toupper, islower, in_range.
    destruct (Z.leb_spec 97 (at_ rex_ (Position.loc k))); cbn [andb]; [|lia].
    destruct (_ <=? 122); lia.
  - unfold tolower, isupper, in_range.
    destruct (Z.leb_spec 65 (at_ rex_ (Position.loc k))); cbn [andb]; [|lia].
    destruct (_ <=? 90); lia.
  - eapply returns_bind; [apply compile_esc_canonical; exact I|].
    intros [c chars] [_ H]. apply returns_ret. exact H.
Qed.

Lemma transition_loop_canonical chars follow :
  canonical_from 0 chars ->
  forall n rest seen todo rest' seen',
    transition_loop n chars follow rest seen todo = Some (rest', seen') ->
    canonical_from 0 rest ->
    Forall (fun m : Move => canonical_from 0 (fst m)) seen ->
    Forall (fun m : Move => canonical_from 0 (fst m)) todo ->
    canonical_from 0 rest' /\ Forall (fun m : Move => canonical_from 0 (fst m)) seen'.
Proof.
  intros Hc. induction n as [|n IH]; intros rest seen todo rest' seen' H Hr Hs Ht;
    [discriminate|].
  cbn [transition_loop] in H. destruct todo as [|i todo].
  { inversion H; subst. split; assumption. }
  inversion Ht as [|x l Hi Ht']; subst.
  assert (Hsi : Forall (fun m : Move => canonical_from 0 (fst m)) (seen ++ [i])).
  { apply Forall_app. split; [exact Hs|]. constructor; [exact Hi|constructor]. }
  assert (Pi : proper (fst i)) by (eapply canonical_proper; exact Hi).
  assert (Pc : proper (chars_inter chars (fst i))).
  { eapply canonical_proper. apply chars_inter_canonical; [exact Hc|exact Pi]. }
  destruct (positions_eqb (snd i) follow).
  { eapply IH; [exact H| |exact Hs|exact Ht'].
    eapply chars_union_canonical; [exact Hr|exact Hi|lia]. }
  destruct (intersects chars (fst i)); [|eapply IH; eassumption].
  cbv zeta in H.
  assert (Hr' : canonical_from 0 (chars_minus rest (chars_inter chars (fst i))))
    by (apply chars_minus_canonical; assumption).
  destruct (is_subset follow (snd i)); [eapply IH; eassumption|].
  destruct (chars_eqb (fst i) (chars_inter chars (fst i)) && is_subset (snd i) follow);
    [eapply IH; eassumption|].
  destruct (any (chars_minus (fst i) (chars_inter chars (fst i)))).
  - eapply IH; [exact H|exact Hr'| |].
    + apply Forall_app. split; [exact Hs|]. constructor; [|constructor]. cbn [fst].
      apply chars_minus_canonical; assumption.
    + apply Forall_app. split; [exact Ht'|]. constructor; [|constructor]. cbn [fst].
      apply chars_inter_canonical; assumption.
  - eapply IH; [exact H|exact Hr'| |exact Ht'].
    apply Forall_app. split; [exact Hs|]. constructor; [|constructor]. cbn [fst].
    apply chars_inter_canonical; assumption.
Qed.

Lemma tidy_proper moves :
  tidy moves -> Forall (fun m : Move => proper (fst m) /\ any (fst m) = true) moves.
Proof.
  intros [H _]. eapply Forall_impl; [|exact H].
  intros m [Hc Ha]. split; [eapply canonical_proper; exact Hc|exact Ha].
Qed.

Lemma transition_tidy n moves chars follow :
  canonical_from 0 chars -> tidy moves ->
  returns (transition n moves chars follow) tidy.
Proof.
  intros Hc Hm st moves' st' H. unfold transition in H.
  destruct (transition_loop n chars follow chars [] moves) as [[rest' seen']|] eqn:E;
    [|discriminate].
  inversion H; subst moves' st'. clear H.
  destruct (transition_loop_result n moves chars follow rest' seen'
              (canonical_proper _ _ Hc) (tidy_proper _ Hm) (proj2 Hm) E)
    as (_ & H1 & HF).
  destruct (transition_loop_canonical chars follow Hc _ _ _ _ _ _ E Hc
              (Forall_nil _)) as [Hr Hs].
  { eapply Forall_impl; [|exact (proj1 Hm)]. intros m [Hmc _]. exact Hmc. }
  split; [|exact H1].
  cbv zeta in HF. destruct (any rest') eqn:Ea.
  - apply Forall_app. split.
    + apply Forall_app in HF. destruct HF as [HF _].
      apply Forall_forall. intros m Hin. rewrite Forall_forall in Hs, HF.
      split; [apply Hs; exact Hin|apply HF; exact Hin].
    + constructor; [|constructor]. split; [exact Hr|exact Ea].
  - apply Forall_forall. intros m Hin. rewrite Forall_forall in Hs, HF.
    split; [apply Hs; exact Hin|apply HF; exact Hin].
Qed.

Lemma compile_position_tidy rex_ strtoul n modifiers lookahead k s moves :
  tidy moves ->
  returns (compile_position rex_ strtoul n modifiers lookahead k (s, moves))
          (fun r => tidy (snd r)).
Proof.
  intros Hm. unfold compile_position. cbv zeta.
  repeat lazymatch goal with
         | |- returns (if ?b then _ else _) _ => destruct b
         | |- returns (match ?x with Some _ => _ | None => _ end) _ => destruct x
         | |- returns (ret _) _ => apply returns_ret; exact Hm
         | |- returns (bind (chars_at _ _ _ _ _ _) _) _ =>
             eapply returns_bind; [apply chars_at_canonical|]; intros chars Hc
         | |- returns (bind (transition _ _ _ _) _) _ =>
             eapply returns_bind; [apply transition_tidy; [exact Hc|exact Hm]|];
             intros moves' Hm'; apply returns_ret; exact Hm'
         | |- returns (bind _ _) _ => apply returns_bind_any; intro
         end.
Qed.

Lemma compile_positions_tidy rex_ strtoul n modifiers lookahead : forall ks s moves,
  tidy moves ->
  returns (compile_positions rex_ strtoul n modifiers lookahead ks (s, moves))
          (fun r => tidy (snd r)).
Proof.
  induction ks as [|k ks IH]; intros s moves Hm; cbn [compile_positions].
  - apply returns_ret. exact Hm.
  - eapply returns_bind; [apply compile_position_tidy; exact Hm|].
    intros [s1 m1] H1. apply IH. exact H1.
Qed.

Lemma compile_transition_tidy rex_ strtoul n s modifiers lookahead :
  returns (compile_transition rex_ strtoul n s modifiers lookahead)
          (fun r => tidy (snd r)).
Proof.
  unfold compile_transition. apply compile_positions_tidy.
  split; [constructor|]. intros c. cbn. lia.
Qed.

(** ** The edges of a state are disjoint *)

Lemma covers_cons i e c :
  covers (i :: e) c = ((fst i <=? c) && (c <=? fst (snd i))) || covers e c.
Proof. reflexivity. Qed.

Lemma covers_below e : forall lb c,
  disjoint_from lb e -> covers e c = true -> lb <= c.
Proof.
  induction e as [|[lo [hi t]] rest IH]; intros lb c Hd Hc; [discriminate|].
  cbn [disjoint_from] in Hd. destruct Hd as (H1 & H2 & H3).
  rewrite covers_cons in Hc. cbn [fst snd] in Hc.
  apply orb_true_iff in Hc. destruct Hc as [Hc|Hc].
  - apply andb_true_iff in Hc. destruct Hc as [Hc _]. apply Z.leb_le in Hc. lia.
  - specialize (IH _ _ H3 Hc). lia.
Qed.

Lemma edges_set_disjoint lo hi t e : forall lb,
  disjoint_from lb e -> lb <= lo -> lo <= hi ->
  (forall c, lo <= c <= hi -> covers e c = false) ->
  disjoint_from lb (edges_set lo (hi, t) e).
Proof.
  induction e as [|[lo' [hi' t']] rest IH]; intros lb Hd Hlb Hle Hc.
  - cbn. repeat split; assumption.
  - cbn [disjoint_from] in Hd. destruct Hd as (H1 & H2 & H3).
    cbn [edges_set].
    assert (Hout : lo < lo' \/ hi' < lo).
    { specialize (Hc lo ltac:(lia)). rewrite covers_cons in Hc. cbn [fst snd] in Hc.
      apply orb_false_iff in Hc. destruct Hc as [Hc _].
      destruct (Z.leb_spec lo' lo), (Z.leb_spec lo hi'); cbn in Hc;
        try discriminate; lia. }
    destruct (Z.eqb_spec lo lo'); [lia|].
    destruct (Z.ltb_spec lo lo').
    + cbn [disjoint_from]. repeat split; try lia; [|exact H3].
      destruct (Z.le_gt_cases lo' hi) as [Hin|Hgt]; [|lia].
      specialize (Hc lo' ltac:(lia)). rewrite covers_cons in Hc. cbn [fst snd] in Hc.
      apply orb_false_iff in Hc. destruct Hc as [Hc _].
      destruct (Z.leb_spec lo' lo'), (Z.leb_spec lo' hi'); cbn in Hc;
        try discriminate; lia.
    + cbn [disjoint_from]. repeat split; try lia.
      apply IH; [exact H3|lia|exact Hle|].
      intros c Hcc. specialize (Hc c Hcc). rewrite covers_cons in Hc.
      apply orb_false_iff in Hc. tauto.
Qed.

Lemma covers_edges_set lo hi t e c :
  covers (edges_set lo (hi, t) e) c = true ->
  covers e c = true \/ lo <= c <= hi.
Proof.
  unfold covers. rewrite !existsb_exists.
  intros (i & Hin & Hi). apply edges_set_In_inv in Hin. destruct Hin as [->|Hin].
  - right. cbn [fst snd] in Hi. apply andb_true_iff in Hi.
    destruct Hi as [Ha Hb]. apply Z.leb_le in Ha, Hb. lia.
  - left. exists i. split; assumption.
Qed.

(** The edges made from the ranges of one move. *)
Lemma commit_ranges t (Q : Z -> Prop) : forall (r : Chars) lb e,
  canonical_from lb r -> 0 <= lb -> disjoint_from 0 e ->
  (forall c, covers e c = true -> c < lb \/ Q c) ->
  (forall c, contains r c = true -> ~ Q c) ->
  disjoint_from 0
    (fold_left (fun e (j : Z * Z) => edges_set (fst j) (snd j - 1, Some t) e) r e) /\
  forall c,
    covers (fold_left (fun e (j : Z * Z) => edges_set (fst j) (snd j - 1, Some t) e) r e)
           c = true ->
    covers e c = true \/ contains r c = true.
Proof.
  induction r as [|[a b] rest IH]; intros lb e Hr Hlb Hd Hcov HQ; cbn [fold_left].
  - split; [exact Hd|]. intros c Hc. left. exact Hc.
  - cbn [canonical_from] in Hr. destruct Hr as (Ha & Hab & Hrest). cbn [fst snd].
    assert (Hin : forall c, a <= c <= b - 1 -> contains ((a, b) :: rest) c = true).
    { intros c Hc. rewrite contains_cons.
      destruct (Z.ltb_spec c b), (Z.leb_spec a c); try lia; reflexivity. }
    assert (Hd1 : disjoint_from 0 (edges_set a (b - 1, Some t) e)).
    { apply edges_set_disjoint; [exact Hd|lia|lia|].
      intros c Hc. destruct (covers e c) eqn:E; [|reflexivity].
      destruct (Hcov c E) as [Hlt|Hq]; [lia|].
      exfalso. exact (HQ c (Hin c Hc) Hq). }
    destruct (IH (b + 1) (edges_set a (b - 1, Some t) e) Hrest ltac:(lia) Hd1)
      as [Hd2 Hc2].
    + intros c Hc. apply covers_edges_set in Hc. destruct Hc as [Hc|Hc]; [|left; lia].
      destruct (Hcov c Hc) as [Hlt|Hq]; [left; lia|right; exact Hq].
    + intros c Hc. apply HQ. rewrite contains_cons, Hc. apply orb_true_r.
    + split; [exact Hd2|]. intros c Hc. destruct (Hc2 c Hc) as [Hc1|Hc1].
      * apply covers_edges_set in Hc1. destruct Hc1 as [Hc1|Hc1];
          [left; exact Hc1|right; apply Hin; exact Hc1].
      * right. rewrite contains_cons, Hc1. apply orb_true_r.
Qed.

Lemma target_edges dfa pos :
  returns (target dfa pos)
          (fun r => (List.length dfa <= List.length (fst r))%nat /\
                    forall j s', nth_error (fst r) j = Some s' ->
                      match nth_error dfa j with
                      | Some s => edges s' = edges s
                      | None => edges s' = []
                      end).
Proof.
  intros st [d t] st' H. unfold target in H. cbn [fst].
  destruct (search _ _ _ _) as [[t0|[p l]]|]; [| |discriminate].
  - inversion H; subst. split; [lia|]. intros j s' E. rewrite E. reflexivity.
  - inversion H; subst. clear H.
    set (d1 := match nth_error dfa p with
               | Some s => set_nth p (if l then with_left s (Some (List.length dfa))
                                       else with_right s (Some (List.length dfa))) dfa
               | None => dfa
               end).
    assert (L1 : List.length d1 = List.length dfa).
    { unfold d1. destruct (nth_error dfa p); [apply set_nth_length|reflexivity]. }
    assert (E1 : forall j s', nth_error d1 j = Some s' ->
                   exists s, nth_error dfa j = Some s /\ edges s' = edges s).
    { intros j s' E. unfold d1 in E. destruct (nth_error dfa p) as [s|] eqn:Ep.
      - rewrite nth_error_set_nth in E. destruct (Nat.eqb_spec j p) as [->|Hne].
        + rewrite Ep in E. inversion E; subst. exists s. split; [exact Ep|].
          destruct l; reflexivity.
        + exists s'. split; [exact E|reflexivity].
      - exists s'. split; [exact E|reflexivity]. }
    split; [rewrite length_app, L1; lia|].
    intros j s' E. destruct (Nat.lt_ge_cases j (List.length d1)) as [Hlt|Hge].
    + rewrite nth_error_app1 in E by exact Hlt.
      destruct (E1 _ _ E) as (s & Es & Ee). rewrite Es. exact Ee.
    + rewrite nth_error_app2 in E by exact Hge.
      assert (En : nth_error dfa j = None) by (apply nth_error_None; lia).
      rewrite En. destruct (j - List.length d1)%nat as [|k]; cbn in E.
      * inversion E; subst. reflexivity.
      * destruct k; discriminate.
Qed.

Lemma holders_more c done m : (holders c done <= holders c (done ++ [m]))%nat.
Proof. rewrite holders_app. lia. Qed.

Lemma commit_move_edges cur move done rest dfa eno :
  tidy (done ++ move :: rest) ->
  edges_so_far cur done dfa ->
  returns (commit_move cur move (dfa, eno))
          (fun r => edges_so_far cur (done ++ [move]) (fst r)).
Proof.
  intros [Ht H1] [Hcur Hd].
  assert (Hweak : edges_so_far cur (done ++ [move]) dfa).
  { split; [exact Hcur|]. intros j s E. destruct (Hd j s E) as (A & B & C).
    split; [exact A|]. split; [exact B|]. intros Hj. destruct (C Hj) as [C1 C2].
    split; [exact C1|]. intros c Hc. specialize (C2 c Hc).
    pose proof (holders_more c done move). lia. }
  unfold commit_move. apply returns_bind_any. intros pos.
  destruct (negb (empty pos)); [|apply returns_ret; exact Hweak].
  eapply returns_bind; [apply target_edges|].
  intros [d t] [Hl He]. cbn [fst] in Hl, He.
  assert (Hd1 : forall j s, nth_error d j = Some s ->
            ((j < cur)%nat -> disjoint_from 0 (edges s)) /\
            ((cur < j)%nat -> edges s = []) /\
            (j = cur -> disjoint_from 0 (edges s) /\
               forall c, covers (edges s) c = true -> (1 <= holders c done)%nat)).
  { intros j s E. specialize (He j s E).
    destruct (nth_error dfa j) as [s0|] eqn:E0.
    - rewrite He. exact (Hd j s0 E0).
    - apply nth_error_None in E0. rewrite He.
      split; [intros; lia|]. split; [reflexivity|]. intros; lia. }
  destruct (nth_error d cur) as [s|] eqn:Es; apply returns_ret; cbn [fst];
    [|split; [lia|intros j s E; destruct (Hd1 j s E) as (A & B & C)]].
  2: { split; [exact A|]. split; [exact B|]. intros Hj. subst j. congruence. }
  destruct (Hd1 _ _ Es) as (_ & _ & C). destruct (C eq_refl) as [C1 C2].
  apply Forall_app in Ht. destruct Ht as [_ Ht]. inversion Ht as [|x l Hm _]; subst.
  destruct Hm as [Hmc _].
  destruct (commit_ranges t (fun c => (1 <= holders c done)%nat) (fst move) 0 (edges s)
              Hmc (Z.le_refl 0) C1) as [D1 D2].
  { intros c Hc. right. apply C2. exact Hc. }
  { intros c Hc Hq. specialize (H1 c). rewrite holders_app, holders_cons, Hc in H1. lia. }
  split; [rewrite set_nth_length; lia|].
  intros j s' E. rewrite nth_error_set_nth in E.
  destruct (Nat.eqb_spec j cur) as [->|Hne].
  - rewrite Es in E. inversion E; subst s'. cbn [edges with_edges].
    split; [intros; lia|]. split; [intros; lia|]. intros _.
    split; [exact D1|]. intros c Hc. rewrite holders_app, holders_cons, holders_nil.
    destruct (D2 c Hc) as [Hc1|Hc1]; [specialize (C2 c Hc1); lia|].
    rewrite Hc1. lia.
  - destruct (Hd1 j s' E) as (A & B & C'). split; [exact A|]. split; [exact B|].
    intros Hj. contradiction.
Qed.

Lemma commit_moves_edges cur : forall moves done dfa eno,
  tidy (done ++ moves) ->
  edges_so_far cur done dfa ->
  returns (commit_moves cur moves (dfa, eno))
          (fun r => edges_so_far cur (done ++ moves) (fst r)).
Proof.
  induction moves as [|m moves IH]; intros done dfa eno Ht Hd; cbn [commit_moves].
  - apply returns_ret. rewrite app_nil_r. exact Hd.
  - eapply returns_bind; [eapply commit_move_edges; [exact Ht|exact Hd]|].
    intros [d e] Hd1. cbn [fst] in Hd1.
    replace (done ++ m :: moves) with ((done ++ [m]) ++ moves) in *
      by (rewrite <- app_assoc; reflexivity).
    apply IH; assumption.
Qed.

Lemma compile_states_edges rex_ strtoul n modifiers lookahead size_ :
  forall cur dfa cnt,
    edges_before cur dfa ->
    returns (compile_states rex_ strtoul n modifiers lookahead size_ cur dfa cnt)
            (fun r => Forall (fun s => disjoint_from 0 (edges s)) (fst r)).
Proof.
  induction n as [|n IH]; intros cur dfa cnt Hd; [apply returns_out_of_fuel|].
  cbn [compile_states].
  destruct (nth_error dfa cur) as [s|] eqn:Es.
  - intros st r st' H.
    apply bind_Return in H. destruct H as ([s1 moves] & st1 & H1 & H).
    apply bind_Return in H. destruct H as ([d2 eno] & st2 & H2 & H).
    pose proof (compile_transition_tidy _ _ _ _ _ _ _ _ _ H1) as Hm. cbn [snd] in Hm.
    unfold compile_transition in H1.
    apply compile_positions_frame in H1. cbn [fst] in H1.
    destruct H1 as [(_ & _ & _ & He & _) _].
    assert (Hlt : (cur < List.length dfa)%nat) by (apply nth_error_Some; congruence).
    apply (commit_moves_edges cur moves []) in H2; [|exact Hm|].
    + cbn [fst app] in H2. destruct H2 as [Hc2 H2].
      eapply IH; [|exact H]. intros j s' E. destruct (H2 j s' E) as (A & B & C).
      split.
      * intros Hj. destruct (Nat.eq_dec j cur) as [->|Hne];
          [apply C; reflexivity|apply A; lia].
      * intros Hj. apply B. lia.
    + split; [rewrite set_nth_length; exact Hlt|].
      intros j s' E. rewrite nth_error_set_nth in E.
      destruct (Nat.eqb_spec j cur) as [->|Hne].
      * rewrite Es in E. inversion E; subst s'. rewrite He.
        destruct (Hd cur s Es) as [_ B]. rewrite (B (Nat.le_refl _)).
        split; [intros; lia|]. split; [reflexivity|]. intros _.
        split; [exact I|]. intros c Hc. discriminate.
      * destruct (Hd j s' E) as [A B]. split; [exact A|].
        split; [intros Hj; apply B; lia|]. intros Hj. contradiction.
  - apply returns_ret. cbn [fst]. apply Forall_forall. intros s Hin.
    apply In_nth_error in Hin. destruct Hin as (j & Ej).
    apply (Hd j s Ej). apply nth_error_None in Es.
    assert (j < List.length dfa)%nat by (apply nth_error_Some; congruence). lia.
Qed.

(** The DFA that [compile] builds from a start state without edges is
    deterministic: the edges of every state have increasing keys and pairwise
    disjoint intervals of characters that are not negative. *)
Theorem compile_edges_disjoint :
  forall rex_ strtoul n start modifiers lookahead end_ st dfa cnt st',
    edges start = [] ->
    compile rex_ strtoul n start modifiers lookahead end_ st = Return (dfa, cnt) st' ->
    Forall (fun s => disjoint_from 0 (edges s)) dfa.
Proof.
  intros rex_ strtoul n start modifiers lookahead end_ st dfa cnt st' He H.
  unfold compile in H.
  apply bind_Return in H. destruct H as (pos & st1 & _ & H).
  apply compile_states_edges in H; [exact H|].
  intros j s E. destruct j as [|j]; cbn in E.
  - inversion E; subst s. cbn [edges]. rewrite He.
    split; [intros; lia|reflexivity].
  - destruct j; discriminate.
Qed.

(** The states of the DFA of [a|bc] have disjoint edges. *)
Lemma compile_edges_disjoint_example :
  exists parsed st1 dfa cnt st2,
    parse "a|bc" (fun _ => (false, 0)) 10 (initial Opt.default) = Return parsed st1 /\
    compile "a|bc" (fun _ _ => 0) 10 (new_State (startpos parsed)) (modifiers st1)
            (lookaheads parsed) (end_ parsed) st1 = Return (dfa, cnt) st2 /\
    List.length dfa = 4%nat /\
    Forall (fun s => disjoint_from 0 (edges s)) dfa.
Proof.
  destruct compile_a_or_bc as (parsed & st1 & dfa & cnt & st2 & Ep & Ec & _ & Ha & _).
  exists parsed, st1, dfa, cnt, st2. split; [exact Ep|]. split; [exact Ec|].
  split; [rewrite <- (length_map accept), Ha; reflexivity|].
  exact (compile_edges_disjoint _ _ _ (new_State (startpos parsed)) _ _ _ _ _ _ _
           eq_refl Ec).
Defined.

(** ** The POSIX classes *)

Lemma ranges_insert_contains r lo hi x :
  lo <= hi -> proper r ->
  proper (ranges_insert lo hi r) /\
  contains (ranges_insert lo hi r) x = ((lo <=? x) && (x <=? hi)) || contains r x.
Proof.
  intros Hle Hr. unfold ranges_insert. split.
  - apply ranges_add_proper; [lia|exact Hr].
  - rewrite ranges_add_contains by (lia || exact Hr).
    destruct (Z.leb_spec lo x), (Z.ltb_spec x (hi + 1)), (Z.leb_spec x hi);
      cbn [andb orb]; try reflexivity; lia.
Qed.

(** The characters of a class, range by range. *)
Ltac class_chars :=
  repeat match goal with
         | |- context [contains (ranges_insert ?lo ?hi ?r) ?x] =>
             let P := fresh "P" in
             let E := fresh "E" in
             assert (P : proper r) by
               (repeat (unfold ranges_insert at 1; apply ranges_add_proper; [lia|]);
                assumption);
             destruct (ranges_insert_contains r lo hi x ltac:(lia) P) as [_ E];
             rewrite E; clear E P
         end.

(** Case analysis on the comparisons of a Boolean equation. *)
Ltac compare_all :=
  unfold isxdigit, isalnum, isalpha, isspace, isdigit, isupper, islower, in_range;
  repeat match goal with
         | |- context [?a <=? ?b] => destruct (Z.leb_spec a b)
         | |- context [?a =? ?b] => destruct (Z.eqb_spec a b)
         end;
  cbn [andb orb negb]; try reflexivity; try lia;
  try (match goal with |- context [contains ?r ?x] => destruct (contains r x) end;
       cbn [andb orb negb]; try reflexivity; lia).

(** The POSIX classes hold the characters that the classification functions
    used by the parser accept: [Digit], [Lower], [Upper], [Alpha], [Alnum]
    and [Xdigit] are [isdigit], [islower], [isupper], [isalpha], [isalnum] and
    [isxdigit]; [Space] is [isspace] and the character 0x85; [Word] is
    [isalnum] and the underscore; [Blank] is the tab and the space.  Of the
    others, [ASCII] is [Cntrl] and [Print] together, [Graph] is [Print]
    without the space and [Punct] is [Graph] without [isalnum].  A class is
    added to the set given. *)
Theorem posix_classes :
  forall (chars : Chars) c,
    proper chars ->
    contains (posix 8 chars) c = contains chars c || isdigit c /\
    contains (posix 10 chars) c = contains chars c || islower c /\
    contains (posix 12 chars) c = contains chars c || isupper c /\
    contains (posix 6 chars) c = contains chars c || isalpha c /\
    contains (posix 5 chars) c = contains chars c || isalnum c /\
    contains (posix 2 chars) c = contains chars c || isxdigit c /\
    contains (posix 1 chars) c = contains chars c || isspace c || (c =? 133) /\
    contains (posix 13 chars) c = contains chars c || isalnum c || (c =? 95) /\
    contains (posix 7 chars) c = contains chars c || (c =? 9) || (c =? 32) /\
    contains (posix 0 chars) c =
      contains chars c || contains (posix 3 []) c || contains (posix 4 []) c /\
    contains (posix 9 chars) c =
      contains chars c || (contains (posix 4 []) c && negb (c =? 32)) /\
    contains (posix 11 chars) c =
      contains chars c || (contains (posix 9 []) c && negb (isalnum c)).
Proof.
  intros chars c Hp. assert (Hn : proper []) by constructor.
  repeat split; unfold posix; cbn [Z.eqb Pos.eqb]; class_chars;
    rewrite ?contains_nil; compare_all.
Qed.

(** The underscore is a [Word] character, 0x85 is a [Space] character, and
    [Alnum] added to the set of [0] holds [0]. *)
Lemma posix_classes_example :
  contains (posix 13 []) 95 = true /\ contains (posix 1 []) 133 = true /\
  contains (posix 5 [(48, 49)]) 48 = true.
Proof.
  destruct (posix_classes [] 95 (Forall_nil _))
    as (_ & _ & _ & _ & _ & _ & _ & Hw & _).
  destruct (posix_classes [] 133 (Forall_nil _))
    as (_ & _ & _ & _ & _ & _ & Hs & _).
  assert (Hp : proper [(48, 49)]) by (constructor; [cbn; lia|constructor]).
  destruct (posix_classes [(48, 49)] 48 Hp) as (_ & _ & _ & _ & Ha & _).
  rewrite Hw, Hs, Ha. repeat split.
Defined.

(** ** No two states of the DFA have the same positions *)

Lemma positions_compare_refl a : positions_compare a a = Eq.
Proof.
  induction a as [|p a IH]; [reflexivity|].
  cbn [positions_compare]. rewrite Position_compare_refl. exact IH.
Qed.

Lemma tree_valid d ot nodes :
  tree d ot nodes -> forall j, In j nodes -> exists sj, nth_error d j = Some sj.
Proof.
  induction 1 as [|t s l r Hs Hl IHl Hr IHr Ol Or]; intros j Hj; [contradiction|].
  destruct Hj as [<-|Hj]; [exists s; exact Hs|].
  apply in_app_iff in Hj. destruct Hj as [Hj|Hj]; auto.
Qed.

Lemma tree_shape d d' ot nodes :
  tree d ot nodes ->
  (forall j, In j nodes ->
             option_map shape (nth_error d' j) = option_map shape (nth_error d j)) ->
  tree d' ot nodes.
Proof.
  induction 1 as [|t s l r Hs Hl IHl Hr IHr Ol Or]; intros Hsame; [constructor|].
  assert (Hpos : forall j sj', In j (t :: l ++ r) -> nth_error d' j = Some sj' ->
                   exists sj, nth_error d j = Some sj /\ shape sj' = shape sj).
  { intros j sj' Hj E. specialize (Hsame j Hj). rewrite E in Hsame.
    cbn [option_map] in Hsame.
    destruct (nth_error d j) as [sj|]; [|discriminate].
    exists sj. split; [reflexivity|]. cbn [option_map] in Hsame. congruence. }
  pose proof (Hsame t (or_introl eq_refl)) as Ht. rewrite Hs in Ht. cbn in Ht.
  destruct (nth_error d' t) as [s'|] eqn:Es'; [|discriminate].
  cbn in Ht. inversion Ht as [[Hp Hle Hri]].
  apply (tree_node d' t s' l r Es').
  - rewrite Hle. apply IHl. intros j Hj. apply Hsame. right. apply in_app_iff. auto.
  - rewrite Hri. apply IHr. intros j Hj. apply Hsame. right. apply in_app_iff. auto.
  - intros j sj' Hj E.
    destruct (Hpos j sj' (or_intror (proj2 (in_app_iff _ _ _) (or_introl Hj))) E)
      as (sj & Ej & Sj).
    unfold shape in Sj. inversion Sj as [[Pj Lj Rj]]. rewrite Pj, Hp. exact (Ol j sj Hj Ej).
  - intros j sj' Hj E.
    destruct (Hpos j sj' (or_intror (proj2 (in_app_iff _ _ _) (or_intror Hj))) E)
      as (sj & Ej & Sj).
    unfold shape in Sj. inversion Sj as [[Pj Lj Rj]]. rewrite Pj, Hp. exact (Or j sj Hj Ej).
Qed.

(** When the search ends at a free link, no state of the tree has the
    positions looked for. *)
Lemma search_miss d pos ot nodes :
  tree d ot nodes ->
  forall n t p side, ot = Some t -> search n d pos t = Some (inr (p, side)) ->
  forall j sj, In j nodes -> nth_error d j = Some sj -> positions sj <> pos.
Proof.
  induction 1 as [|t s l r Hs Hl IHl Hr IHr Ol Or]; intros n t0 p side E H j sj Hj Ej;
    [discriminate|].
  inversion E; subst t0. clear E.
  destruct n as [|n]; [discriminate|]. cbn [search] in H. rewrite Hs in H.
  assert (Hself : positions_compare pos (positions s) <> Eq ->
                  j = t -> positions sj <> pos).
  { intros Hne -> Heq. rewrite Hs in Ej. inversion Ej; subst sj.
    apply Hne. rewrite Heq. apply positions_compare_refl. }
  destruct (positions_compare pos (positions s)) eqn:C; [discriminate| |].
  - destruct Hj as [Hj|Hj]; [apply Hself; [discriminate|congruence]|].
    apply in_app_iff in Hj. destruct Hj as [Hj|Hj].
    + destruct (left s) as [t'|] eqn:El.
      * exact (IHl n t' p side eq_refl H j sj Hj Ej).
      * inversion Hl; subst. contradiction.
    + intros Heq. specialize (Or j sj Hj Ej). rewrite Heq in Or. congruence.
  - destruct Hj as [Hj|Hj]; [apply Hself; [discriminate|congruence]|].
    apply in_app_iff in Hj. destruct Hj as [Hj|Hj].
    + intros Heq. specialize (Ol j sj Hj Ej). rewrite Heq in Ol. congruence.
    + destruct (right s) as [t'|] eqn:Er.
      * exact (IHr n t' p side eq_refl H j sj Hj Ej).
      * inversion Hr; subst. contradiction.
Qed.

Lemma hang_old d pos p side sp j :
  (j < List.length d)%nat -> j <> p ->
  nth_error (hang d pos p side sp) j = nth_error d j.
Proof.
  intros Hj Hne. unfold hang.
  rewrite nth_error_app1 by (rewrite set_nth_length; exact Hj).
  rewrite nth_error_set_nth. destruct (Nat.eqb_spec j p); [contradiction|reflexivity].
Qed.

Lemma hang_parent d pos p side sp :
  nth_error d p = Some sp ->
  nth_error (hang d pos p side sp) p =
  Some (if side then with_left sp (Some (List.length d))
        else with_right sp (Some (List.length d))).
Proof.
  intros Hp. unfold hang.
  assert (Hlt : (p < List.length d)%nat) by (apply nth_error_Some; congruence).
  rewrite nth_error_app1 by (rewrite set_nth_length; exact Hlt).
  rewrite nth_error_set_nth, Nat.eqb_refl, Hp. reflexivity.
Qed.

Lemma hang_new d pos p side sp :
  nth_error (hang d pos p side sp) (List.length d) = Some (new_State pos).
Proof.
  unfold hang. rewrite nth_error_app2 by (rewrite set_nth_length; lia).
  rewrite set_nth_length, Nat.sub_diag. reflexivity.
Qed.

Lemma hang_positions d pos p side sp j sj' :
  nth_error d p = Some sp ->
  (j < List.length d)%nat ->
  nth_error (hang d pos p side sp) j = Some sj' ->
  exists sj, nth_error d j = Some sj /\ positions sj' = positions sj.
Proof.
  intros Hp Hj E. destruct (Nat.eq_dec j p) as [->|Hne].
  - rewrite (hang_parent _ _ _ _ _ Hp) in E. inversion E; subst sj'.
    exists sp. split; [exact Hp|]. destruct side; reflexivity.
  - rewrite hang_old in E by assumption. exists sj'. split; [exact E|reflexivity].
Qed.

(** Hanging the new state where the search ended keeps the search tree. *)
Lemma hang_tree d pos ot nodes :
  tree d ot nodes ->
  forall n t p side sp,
    ot = Some t -> search n d pos t = Some (inr (p, side)) ->
    nth_error d p = Some sp ->
    In p nodes /\
    exists nodes',
      tree (hang d pos p side sp) (Some t) nodes' /\
      forall j, In j nodes' <-> In j nodes \/ j = List.length d.
Proof.
  induction 1 as [|t s l r Hs Hl IHl Hr IHr Ol Or]; intros n t0 p side sp E H Hp;
    [discriminate|].
  inversion E; subst t0. clear E.
  destruct n as [|n]; [discriminate|]. cbn [search] in H. rewrite Hs in H.
  set (d' := hang d pos p side sp).
  assert (Vl : forall j, In j l -> (j < List.length d)%nat).
  { intros j Hj. destruct (tree_valid _ _ _ Hl j Hj) as (sj & Ej).
    apply nth_error_Some. congruence. }
  assert (Vr : forall j, In j r -> (j < List.length d)%nat).
  { intros j Hj. destruct (tree_valid _ _ _ Hr j Hj) as (sj & Ej).
    apply nth_error_Some. congruence. }
  assert (Vt : (t < List.length d)%nat) by (apply nth_error_Some; congruence).
  assert (Keep : forall nodes0 ot0, tree d ot0 nodes0 ->
                   (forall j, In j nodes0 -> j <> p) -> tree d' ot0 nodes0).
  { intros nodes0 ot0 T0 Hn. apply (tree_shape d); [exact T0|].
    intros j Hj. unfold d'. rewrite hang_old; [reflexivity| |apply Hn; exact Hj].
    destruct (tree_valid _ _ _ T0 j Hj) as (sj & Ej). apply nth_error_Some. congruence. }
  assert (Old : forall j sj' c, (j < List.length d)%nat ->
                  (forall sj, nth_error d j = Some sj ->
                              positions_compare (positions sj) (positions s) = c) ->
                  nth_error d' j = Some sj' ->
                  positions_compare (positions sj') (positions s) = c).
  { intros j sj' c Hj Hc Ej. unfold d' in Ej.
    destruct (hang_positions _ _ _ _ _ _ _ Hp Hj Ej) as (sj & Es & Ps).
    rewrite Ps. apply Hc. exact Es. }
  destruct (positions_compare pos (positions s)) eqn:C; [discriminate| |].
  - (* to the left *)
    destruct (left s) as [t'|] eqn:El.
    + destruct (IHl n t' p side sp eq_refl H Hp) as (Hin & l' & Tl & Ml).
      assert (Hpt : p <> t).
      { intros ->. rewrite Hs in Hp. inversion Hp; subst sp.
        specialize (Ol t s Hin Hs). rewrite positions_compare_refl in Ol. discriminate. }
      split; [right; apply in_app_iff; left; exact Hin|].
      exists (t :: l' ++ r). split.
      * apply (tree_node d' t s l' r).
        -- unfold d'. rewrite hang_old by (assumption || congruence). exact Hs.
        -- rewrite El. exact Tl.
        -- apply Keep; [exact Hr|]. intros j Hj ->.
           specialize (Ol p sp Hin Hp). specialize (Or p sp Hj Hp). congruence.
        -- intros j sj' Hj Ej. apply Ml in Hj. destruct Hj as [Hj| ->].
           ++ apply (Old j sj' Lt (Vl j Hj)); [|exact Ej]. intros sj. apply Ol. exact Hj.
           ++ unfold d' in Ej. rewrite hang_new in Ej. inversion Ej; subst sj'. exact C.
        -- intros j sj' Hj Ej.
           apply (Old j sj' Gt (Vr j Hj)); [|exact Ej]. intros sj. apply Or. exact Hj.
      * intros j. cbn [In]. rewrite !in_app_iff, Ml. tauto.
    + inversion H; subst p side. clear H. rewrite Hs in Hp. inversion Hp; subst sp.
      inversion Hl; subst. split; [left; reflexivity|].
      exists (t :: [List.length d] ++ r). split.
      * apply (tree_node d' t (with_left s (Some (List.length d))) [List.length d] r).
        -- unfold d'. rewrite (hang_parent _ _ _ _ _ Hs). reflexivity.
        -- cbn [left with_left].
           apply (tree_node d' (List.length d) (new_State pos) [] []);
             [unfold d'; apply hang_new|constructor|constructor| |];
             intros j sj [].
        -- cbn [right with_left]. apply Keep; [exact Hr|]. intros j Hj ->.
           specialize (Or t s Hj Hs). rewrite positions_compare_refl in Or. discriminate.
        -- intros j sj' [<-|[]] Ej. unfold d' in Ej. rewrite hang_new in Ej.
           inversion Ej; subst sj'. exact C.
        -- intros j sj' Hj Ej.
           apply (Old j sj' Gt (Vr j Hj)); [|exact Ej]. intros sj. apply Or. exact Hj.
      * intros j. cbn [In app]. rewrite ?in_app_iff. cbn [In]. intuition.
  - (* to the right *)
    destruct (right s) as [t'|] eqn:Er.
    + destruct (IHr n t' p side sp eq_refl H Hp) as (Hin & r' & Tr & Mr).
      assert (Hpt : p <> t).
      { intros ->. rewrite Hs in Hp. inversion Hp; subst sp.
        specialize (Or t s Hin Hs). rewrite positions_compare_refl in Or. discriminate. }
      split; [right; apply in_app_iff; right; exact Hin|].
      exists (t :: l ++ r'). split.
      * apply (tree_node d' t s l r').
        -- unfold d'. rewrite hang_old by (assumption || congruence). exact Hs.
        -- apply Keep; [exact Hl|]. intros j Hj ->.
           specialize (Or p sp Hin Hp). specialize (Ol p sp Hj Hp). congruence.
        -- rewrite Er. exact Tr.
        -- intros j sj' Hj Ej.
           apply (Old j sj' Lt (Vl j Hj)); [|exact Ej]. intros sj. apply Ol. exact Hj.
        -- intros j sj' Hj Ej. apply Mr in Hj. destruct Hj as [Hj| ->].
           ++ apply (Old j sj' Gt (Vr j Hj)); [|exact Ej]. intros sj. apply Or. exact Hj.
           ++ unfold d' in Ej. rewrite hang_new in Ej. inversion Ej; subst sj'. exact C.
      * intros j. cbn [In]. rewrite !in_app_iff, Mr. tauto.
    + inversion H; subst p side. clear H. rewrite Hs in Hp. inversion Hp; subst sp.
      inversion Hr; subst. split; [left; reflexivity|].
      exists (t :: l ++ [List.length d]). split.
      * apply (tree_node d' t (with_right s (Some (List.length d))) l [List.length d]).
        -- unfold d'. rewrite (hang_parent _ _ _ _ _ Hs). reflexivity.
        -- cbn [left with_right]. apply Keep; [exact Hl|]. intros j Hj ->.
           specialize (Ol t s Hj Hs). rewrite positions_compare_refl in Ol. discriminate.
        -- cbn [right with_right].
           apply (tree_node d' (List.length d) (new_State pos) [] []);
             [unfold d'; apply hang_new|constructor|constructor| |];
             intros j sj [].
        -- intros j sj' Hj Ej.
           apply (Old j sj' Lt (Vl j Hj)); [|exact Ej]. intros sj. apply Ol. exact Hj.
        -- intros j sj' [<-|[]] Ej. unfold d' in Ej. rewrite hang_new in Ej.
           inversion Ej; subst sj'. exact C.
      * intros j. cbn [In]. rewrite !in_app_iff. cbn [In]. intuition.
Qed.

Lemma search_parent d pos : forall n t p side,
  search n d pos t = Some (inr (p, side)) -> exists sp, nth_error d p = Some sp.
Proof.
  induction n as [|n IH]; intros t p side H; [discriminate|].
  cbn [search] in H. destruct (nth_error d t) as [s|] eqn:Es; [|discriminate].
  destruct (positions_compare pos (positions s)); [discriminate| |].
  - destruct (left s); [eapply IH; exact H|].
    inversion H; subst. exists s. exact Es.
  - destruct (right s); [eapply IH; exact H|].
    inversion H; subst. exists s. exact Es.
Qed.

Lemma same_shape_positions (d d' : list State) :
  (forall j, option_map shape (nth_error d' j) = option_map shape (nth_error d j)) ->
  map positions d' = map positions d.
Proof.
  intros H. apply nth_error_ext. intros j. rewrite !nth_error_map.
  specialize (H j). destruct (nth_error d' j), (nth_error d j); cbn in *;
    try discriminate; [|reflexivity].
  inversion H. reflexivity.
Qed.

Lemma same_shape_length (d d' : list State) :
  (forall j, option_map shape (nth_error d' j) = option_map shape (nth_error d j)) ->
  List.length d' = List.length d.
Proof.
  intros H. apply same_shape_positions in H.
  rewrite <- (length_map positions d'), H. apply length_map.
Qed.

Lemma searchable_shape d d' :
  searchable d ->
  (forall j, option_map shape (nth_error d' j) = option_map shape (nth_error d j)) ->
  searchable d'.
Proof.
  intros [(nodes & T & C) N] H. split.
  - exists nodes. split; [apply (tree_shape d); [exact T|intros; apply H]|].
    rewrite (same_shape_length _ _ H). exact C.
  - rewrite (same_shape_positions _ _ H). exact N.
Qed.

Lemma searchable_set_nth d k s s' :
  searchable d -> nth_error d k = Some s -> shape s' = shape s ->
  searchable (set_nth k s' d).
Proof.
  intros Hd Hk Hs. apply (searchable_shape d); [exact Hd|].
  intros j. rewrite nth_error_set_nth. destruct (Nat.eqb_spec j k) as [->|Hne];
    [|reflexivity].
  rewrite Hk. cbn. rewrite Hs. reflexivity.
Qed.

Lemma target_searchable dfa pos :
  searchable dfa -> returns (target dfa pos) (fun r => searchable (fst r)).
Proof.
  intros Hd st [d t] st' H. unfold target in H. cbn [fst].
  destruct (search _ _ _ _) as [[t0|[p side]]|] eqn:Es; [| |discriminate].
  - inversion H; subst. exact Hd.
  - inversion H; subst d t st'. clear H.
    destruct (search_parent _ _ _ _ _ _ Es) as (sp & Hp). rewrite Hp.
    destruct Hd as [(nodes & T & C) N].
    destruct (hang_tree dfa pos _ _ T _ _ _ _ sp eq_refl Es Hp)
      as (Hin & nodes' & T' & M).
    fold (hang dfa pos p side sp). split.
    + exists nodes'. split; [exact T'|]. intros j Hj. apply M.
      unfold hang in Hj. rewrite length_app, set_nth_length in Hj. cbn in Hj.
      destruct (Nat.eq_dec j (List.length dfa)); [right; assumption|].
      left. apply C. lia.
    + unfold hang. rewrite map_app. cbn [map positions new_State].
      assert (E : map positions
                    (set_nth p (if side then with_left sp (Some (List.length dfa))
                                else with_right sp (Some (List.length dfa))) dfa)
                  = map positions dfa).
      { apply nth_error_ext. intros j. rewrite !nth_error_map, nth_error_set_nth.
        destruct (Nat.eqb_spec j p) as [->|Hne]; [|reflexivity].
        rewrite Hp. destruct side; reflexivity. }
      rewrite E.
      assert (Hnew : ~ In pos (map positions dfa)).
      { intros Hi. apply in_map_iff in Hi. destruct Hi as (sj & Pj & Hi).
        apply In_nth_error in Hi. destruct Hi as (j & Ej).
        assert (Hj : (j < List.length dfa)%nat) by (apply nth_error_Some; congruence).
        exact (search_miss dfa pos _ _ T _ _ _ _ eq_refl Es j sj (C j Hj) Ej Pj). }
      clear - N Hnew. induction (map positions dfa) as [|a l IH]; cbn [app].
      * constructor; [intros []|constructor].
      * inversion N; subst. constructor.
        -- rewrite in_app_iff. cbn [In]. intros [Hi|[Hi|[]]]; [contradiction|].
           apply Hnew. left. symmetry. exact Hi.
        -- apply IH; [assumption|]. intros Hi. apply Hnew. right. exact Hi.
Qed.

Lemma commit_move_searchable cur move dfa eno :
  searchable dfa ->
  returns (commit_move cur move (dfa, eno)) (fun r => searchable (fst r)).
Proof.
  intros Hd. unfold commit_move. apply returns_bind_any. intros pos.
  destruct (negb (empty pos)); [|apply returns_ret; exact Hd].
  eapply returns_bind; [apply target_searchable; exact Hd|].
  intros [d t] Hd1. cbn [fst] in Hd1.
  destruct (nth_error d cur) as [s|] eqn:E; apply returns_ret; cbn [fst];
    [|exact Hd1].
  eapply searchable_set_nth; [exact Hd1|exact E|reflexivity].
Qed.

Lemma commit_moves_searchable cur : forall moves dfa eno,
  searchable dfa ->
  returns (commit_moves cur moves (dfa, eno)) (fun r => searchable (fst r)).
Proof.
  induction moves as [|m moves IH]; intros dfa eno Hd; cbn [commit_moves].
  - apply returns_ret. exact Hd.
  - eapply returns_bind; [apply commit_move_searchable; exact Hd|].
    intros [d e] Hd1. apply IH. exact Hd1.
Qed.

Lemma compile_states_searchable rex_ strtoul n modifiers lookahead size_ :
  forall cur dfa cnt,
    searchable dfa ->
    returns (compile_states rex_ strtoul n modifiers lookahead size_ cur dfa cnt)
            (fun r => searchable (fst r)).
Proof.
  induction n as [|n IH]; intros cur dfa cnt Hd; [apply returns_out_of_fuel|].
  cbn [compile_states].
  destruct (nth_error dfa cur) as [s|] eqn:Es; [|apply returns_ret; exact Hd].
  intros st r st' H.
  apply bind_Return in H. destruct H as ([s1 moves] & st1 & H1 & H).
  apply bind_Return in H. destruct H as ([d2 eno] & st2 & H2 & H).
  unfold compile_transition in H1.
  apply compile_positions_frame in H1. cbn [fst] in H1.
  destruct H1 as [(Hp & Hl & Hr & _ & _) _].
  apply commit_moves_searchable in H2.
  - eapply IH; [exact H2|exact H].
  - eapply searchable_set_nth; [exact Hd|exact Es|]. unfold shape. congruence.
Qed.

(** [compile] makes one state for each set of positions: in the DFA it builds
    from a start state without tree links, no two states have the same
    positions. *)
Theorem compile_states_distinct :
  forall rex_ strtoul n start modifiers lookahead end_ st dfa cnt st',
    left start = None -> right start = None ->
    compile rex_ strtoul n start modifiers lookahead end_ st = Return (dfa, cnt) st' ->
    NoDup (map positions dfa).
Proof.
  intros rex_ strtoul n start modifiers lookahead end_ st dfa cnt st' Hl Hr H.
  unfold compile in H.
  apply bind_Return in H. destruct H as (pos & st1 & _ & H).
  apply compile_states_searchable in H; [exact (proj2 H)|].
  split.
  - exists [0%nat]. split.
    + eapply (tree_node _ 0%nat _ [] []); [reflexivity| | | |]; cbn [left right].
      * rewrite Hl. constructor.
      * rewrite Hr. constructor.
      * intros j sj [].
      * intros j sj [].
    + intros j Hj. cbn in Hj. left. lia.
  - cbn. constructor; [intros []|constructor].
Qed.

(** The four states of the DFA of [a|bc] have four different sets of
    positions. *)
Lemma compile_states_distinct_example :
  exists parsed st1 dfa cnt st2,
    parse "a|bc" (fun _ => (false, 0)) 10 (initial Opt.default) = Return parsed st1 /\
    compile "a|bc" (fun _ _ => 0) 10 (new_State (startpos parsed)) (modifiers st1)
            (lookaheads parsed) (end_ parsed) st1 = Return (dfa, cnt) st2 /\
    List.length dfa = 4%nat /\
    NoDup (map positions dfa).
Proof.
  destruct compile_a_or_bc as (parsed & st1 & dfa & cnt & st2 & Ep & Ec & _ & Ha & _).
  exists parsed, st1, dfa, cnt, st2. split; [exact Ep|]. split; [exact Ec|].
  split; [rewrite <- (length_map accept), Ha; reflexivity|].
  exact (compile_states_distinct _ _ _ (new_State (startpos parsed)) _ _ _ _ _ _ _
           eq_refl eq_refl Ec).
Defined.

(** ** [eno_] counts the transitions of the DFA *)

Lemma edge_chars_set lo hi t e :
  (forall i, In i e -> fst i <> lo) ->
  edge_chars (edges_set lo (hi, t) e) = edge_chars e + (hi - lo + 1).
Proof.
  induction e as [|[lo' v'] rest IH]; intros Hf; cbn [edges_set].
  - cbn. lia.
  - destruct (Z.eqb_spec lo lo') as [->|Hne].
    + exfalso. apply (Hf (lo', v')); [left; reflexivity|reflexivity].
    + destruct (lo <? lo'); cbn [edge_chars fold_right fst snd].
      * fold (edge_chars rest). lia.
      * fold (edge_chars rest). fold (edge_chars (edges_set lo (hi, t) rest)).
        rewrite IH; [lia|]. intros i Hi. apply Hf. right. exact Hi.
Qed.

Lemma covers_key e : forall lb lo hi t,
  disjoint_from lb e -> In (lo, (hi, t)) e -> covers e lo = true.
Proof.
  induction e as [|[lo' [hi' t']] rest IH]; intros lb lo hi t Hd Hin; [contradiction|].
  cbn [disjoint_from] in Hd. destruct Hd as (H1 & H2 & H3).
  rewrite covers_cons. cbn [fst snd]. destruct Hin as [E|Hin].
  - inversion E; subst. destruct (Z.leb_spec lo lo), (Z.leb_spec lo hi); try lia;
      reflexivity.
  - rewrite (IH _ _ _ _ H3 Hin). apply orb_true_r.
Qed.

Lemma eno_fold (r : Chars) : forall eno,
  fold_left (fun eno (j : Z * Z) => eno + (snd j - fst j)) r eno = eno + range_chars r.
Proof.
  induction r as [|j r IH]; intros eno; [cbn; lia|].
  change (fold_left (fun eno (j : Z * Z) => eno + (snd j - fst j)) r
                    (eno + (snd j - fst j))
          = eno + ((snd j - fst j) + range_chars r)).
  rewrite IH. lia.
Qed.

(** The characters on the edges made from the ranges of one move. *)
Lemma commit_ranges_chars t (Q : Z -> Prop) : forall (r : Chars) lb e,
  canonical_from lb r -> 0 <= lb -> disjoint_from 0 e ->
  (forall c, covers e c = true -> c < lb \/ Q c) ->
  (forall c, contains r c = true -> ~ Q c) ->
  edge_chars
    (fold_left (fun e (j : Z * Z) => edges_set (fst j) (snd j - 1, Some t) e) r e)
  = edge_chars e + range_chars r.
Proof.
  induction r as [|[a b] rest IH]; intros lb e Hr Hlb Hd Hcov HQ;
    cbn [fold_left range_chars fold_right]; [lia|].
  fold (range_chars rest).
  cbn [canonical_from] in Hr. destruct Hr as (Ha & Hab & Hrest). cbn [fst snd].
  assert (Hin : forall c, a <= c <= b - 1 -> contains ((a, b) :: rest) c = true).
  { intros c Hc. rewrite contains_cons.
    destruct (Z.ltb_spec c b), (Z.leb_spec a c); try lia; reflexivity. }
  assert (Hfree : forall c, a <= c <= b - 1 -> covers e c = false).
  { intros c Hc. destruct (covers e c) eqn:E; [|reflexivity].
    destruct (Hcov c E) as [Hlt|Hq]; [lia|].
    exfalso. exact (HQ c (Hin c Hc) Hq). }
  assert (Hd1 : disjoint_from 0 (edges_set a (b - 1, Some t) e))
    by (apply edges_set_disjoint; [exact Hd|lia|lia|exact Hfree]).
  rewrite (IH (b + 1) (edges_set a (b - 1, Some t) e) Hrest ltac:(lia) Hd1).
  - rewrite edge_chars_set; [lia|].
    intros [lo [hi u]] Hi Heq. cbn [fst] in Heq. subst lo.
    pose proof (covers_key _ _ _ _ _ Hd Hi) as Hc.
    rewrite (Hfree a ltac:(lia)) in Hc. discriminate.
  - intros c Hc. apply covers_edges_set in Hc. destruct Hc as [Hc|Hc]; [|left; lia].
    destruct (Hcov c Hc) as [Hlt|Hq]; [left; lia|right; exact Hq].
  - intros c Hc. apply HQ. rewrite contains_cons, Hc. apply orb_true_r.
Qed.

Lemma dfa_chars_app d1 d2 : dfa_chars (d1 ++ d2) = dfa_chars d1 + dfa_chars d2.
Proof.
  induction d1 as [|s d1 IH]; [reflexivity|].
  change (dfa_chars ((s :: d1) ++ d2)) with (edge_chars (edges s) + dfa_chars (d1 ++ d2)).
  change (dfa_chars (s :: d1)) with (edge_chars (edges s) + dfa_chars d1).
  rewrite IH. lia.
Qed.

Lemma dfa_chars_set_nth k s s' : forall d,
  nth_error d k = Some s ->
  dfa_chars (set_nth k s' d) = dfa_chars d - edge_chars (edges s) + edge_chars (edges s').
Proof.
  induction k as [|k IH]; intros [|s0 d] H; try discriminate.
  - cbn in H. inversion H; subst s0.
    change (edge_chars (edges s') + dfa_chars d
            = edge_chars (edges s) + dfa_chars d - edge_chars (edges s)
              + edge_chars (edges s')). lia.
  - cbn [nth_error] in H.
    change (edge_chars (edges s0) + dfa_chars (set_nth k s' d)
            = edge_chars (edges s0) + dfa_chars d - edge_chars (edges s)
              + edge_chars (edges s')).
    rewrite (IH d H). lia.
Qed.

Lemma target_chars dfa pos :
  returns (target dfa pos) (fun r => dfa_chars (fst r) = dfa_chars dfa).
Proof.
  intros st [d t] st' H. unfold target in H. cbn [fst].
  destruct (search _ _ _ _) as [[t0|[p l]]|]; [| |discriminate].
  - inversion H; subst. reflexivity.
  - inversion H; subst. clear H. rewrite dfa_chars_app. cbn.
    destruct (nth_error dfa p) as [s|] eqn:E; [|lia].
    rewrite (dfa_chars_set_nth _ _ _ _ E). destruct l; cbn [edges with_left with_right]; lia.
Qed.

Lemma commit_move_chars cur move done rest dfa eno :
  tidy (done ++ move :: rest) ->
  edges_so_far cur done dfa ->
  returns (commit_move cur move (dfa, eno))
          (fun r => snd r - eno = dfa_chars (fst r) - dfa_chars dfa).
Proof.
  intros [Ht H1] [Hcur Hd].
  unfold commit_move. apply returns_bind_any. intros pos.
  destruct (negb (empty pos)); [|apply returns_ret; cbn [fst snd]; lia].
  intros st r st' H. apply bind_Return in H. destruct H as ([d t] & st1 & Htg & H).
  pose proof (target_chars _ _ _ _ _ Htg) as Hch. cbn [fst] in Hch.
  pose proof (target_edges _ _ _ _ _ Htg) as [Hl He]. cbn [fst] in Hl, He.
  destruct (nth_error d cur) as [s|] eqn:Es; unfold ret in H; inversion H; subst r st1;
    cbn [fst snd]; [|lia].
  rewrite (dfa_chars_set_nth _ _ _ _ Es), eno_fold. cbn [edges with_edges].
  specialize (He cur s Es).
  destruct (nth_error dfa cur) as [s0|] eqn:E0;
    [|apply nth_error_None in E0; lia].
  destruct (Hd cur s0 E0) as (_ & _ & C). destruct (C eq_refl) as [C1 C2].
  apply Forall_app in Ht. destruct Ht as [_ Ht]. inversion Ht as [|x l Hm _]; subst.
  destruct Hm as [Hmc _].
  rewrite (commit_ranges_chars t (fun c => (1 <= holders c done)%nat) (fst move) 0
             (edges s)); [lia|exact Hmc|lia|rewrite He; exact C1| |].
  - intros c Hc. right. apply C2. rewrite <- He. exact Hc.
  - intros c Hc Hq. specialize (H1 c). rewrite holders_app, holders_cons, Hc in H1. lia.
Qed.

Lemma commit_moves_chars cur : forall moves done dfa eno,
  tidy (done ++ moves) ->
  edges_so_far cur done dfa ->
  returns (commit_moves cur moves (dfa, eno))
          (fun r => snd r - eno = dfa_chars (fst r) - dfa_chars dfa).
Proof.
  induction moves as [|m moves IH]; intros done dfa eno Ht Hd; cbn [commit_moves].
  - apply returns_ret. cbn [fst snd]. lia.
  - intros st r st' H. apply bind_Return in H. destruct H as ([d e] & st1 & H1 & H).
    pose proof (commit_move_chars _ _ _ _ _ _ Ht Hd _ _ _ H1) as Hc.
    pose proof (commit_move_edges _ _ _ _ _ _ Ht Hd _ _ _ H1) as He.
    cbn [fst snd] in Hc, He.
    replace (done ++ m :: moves) with ((done ++ [m]) ++ moves) in Ht
      by (rewrite <- app_assoc; reflexivity).
    pose proof (IH _ _ _ Ht He _ _ _ H) as Hc2. cbv beta in Hc2 |- *. lia.
Qed.

Lemma compile_states_chars rex_ strtoul n modifiers lookahead size_ :
  forall cur dfa cnt,
    edges_before cur dfa -> eno_ cnt = dfa_chars dfa ->
    returns (compile_states rex_ strtoul n modifiers lookahead size_ cur dfa cnt)
            (fun r => eno_ (snd r) = dfa_chars (fst r)).
Proof.
  induction n as [|n IH]; intros cur dfa cnt Hd Hn; [apply returns_out_of_fuel|].
  cbn [compile_states].
  destruct (nth_error dfa cur) as [s|] eqn:Es; [|apply returns_ret; exact Hn].
  intros st r st' H.
  apply bind_Return in H. destruct H as ([s1 moves] & st1 & H1 & H).
  apply bind_Return in H. destruct H as ([d2 eno] & st2 & H2 & H).
  pose proof (compile_transition_tidy _ _ _ _ _ _ _ _ _ H1) as Hm. cbn [snd] in Hm.
  unfold compile_transition in H1.
  apply compile_positions_frame in H1. cbn [fst] in H1.
  destruct H1 as [(_ & _ & _ & He & _) _].
  assert (Hlt : (cur < List.length dfa)%nat) by (apply nth_error_Some; congruence).
  assert (Hsf : edges_so_far cur [] (set_nth cur s1 dfa)).
  { split; [rewrite set_nth_length; exact Hlt|].
    intros j s' E. rewrite nth_error_set_nth in E.
    destruct (Nat.eqb_spec j cur) as [->|Hne].
    - rewrite Es in E. inversion E; subst s'. rewrite He.
      destruct (Hd cur s Es) as [_ B]. rewrite (B (Nat.le_refl _)).
      split; [intros; lia|]. split; [reflexivity|]. intros _.
      split; [exact I|]. intros c Hc. discriminate.
    - destruct (Hd j s' E) as [A B]. split; [exact A|].
      split; [intros Hj; apply B; lia|]. intros Hj. contradiction. }
  pose proof (commit_moves_chars cur moves [] _ _ Hm Hsf _ _ _ H2) as Hc.
  pose proof (commit_moves_edges cur moves [] _ _ Hm Hsf _ _ _ H2) as [Hc2 He2].
  cbn [fst snd app] in Hc, He2.
  eapply IH; [| |exact H].
  - intros j s' E. destruct (He2 j s' E) as (A & B & C). split.
    + intros Hj. destruct (Nat.eq_dec j cur) as [->|Hne];
        [apply C; reflexivity|apply A; lia].
    + intros Hj. apply B. lia.
  - cbn [eno_]. rewrite (dfa_chars_set_nth _ _ _ _ Es), He in Hc. lia.
Qed.

(** [eno_] counts the transitions of the DFA: after [compile] from a start
    state without edges, it is the number of characters on the edges of all
    the states. *)
Theorem compile_counts_transitions :
  forall rex_ strtoul n start modifiers lookahead end_ st dfa cnt st',
    edges start = [] ->
    compile rex_ strtoul n start modifiers lookahead end_ st = Return (dfa, cnt) st' ->
    eno_ cnt = dfa_chars dfa.
Proof.
  intros rex_ strtoul n start modifiers lookahead end_ st dfa cnt st' He H.
  unfold compile in H.
  apply bind_Return in H. destruct H as (pos & st1 & _ & H).
  apply compile_states_chars in H; [exact H| |].
  - intros j s E. destruct j as [|j]; cbn in E.
    + inversion E; subst s. cbn [edges]. rewrite He.
      split; [intros; lia|reflexivity].
    + destruct j; discriminate.
  - cbn. rewrite He. reflexivity.
Qed.

(** The DFA of [a|bc] has three transitions. *)
Lemma compile_a_or_bc_chars :
  exists parsed st1 dfa cnt st2,
    parse "a|bc" (fun _ => (false, 0)) 10 (initial Opt.default) = Return parsed st1 /\
    compile "a|bc" (fun _ _ => 0) 10 (new_State (startpos parsed)) (modifiers st1)
            (lookaheads parsed) (end_ parsed) st1 = Return (dfa, cnt) st2 /\
    dfa_chars dfa = 3.
Proof.
  do 5 eexists. split; [vm_compute; reflexivity|].
  split; [vm_compute; reflexivity|reflexivity].
Qed.

Lemma compile_counts_transitions_example :
  exists parsed st1 dfa cnt st2,
    parse "a|bc" (fun _ => (false, 0)) 10 (initial Opt.default) = Return parsed st1 /\
    compile "a|bc" (fun _ _ => 0) 10 (new_State (startpos parsed)) (modifiers st1)
            (lookaheads parsed) (end_ parsed) st1 = Return (dfa, cnt) st2 /\
    eno_ cnt = 3.
Proof.
  destruct compile_a_or_bc_chars as (parsed & st1 & dfa & cnt & st2 & Ep & Ec & Hc).
  exists parsed, st1, dfa, cnt, st2. split; [exact Ep|]. split; [exact Ec|].
  rewrite <- Hc.
  exact (compile_counts_transitions _ _ _ (new_State (startpos parsed)) _ _ _ _ _ _ _
           eq_refl Ec).
Defined.

(** ** No follow link is ever removed

    Every function of the parser and of the DFA builder only adds to the
    follow map; the proof goes through the code one [bind] at a time. *)

Lemma follow_sub_refl fp : follow_sub fp fp.
Proof. intros k x H. exact H. Qed.

Lemma follow_sub_trans fp1 fp2 fp3 :
  follow_sub fp1 fp2 -> follow_sub fp2 fp3 -> follow_sub fp1 fp3.
Proof. intros H1 H2 k x H. apply H2, H1, H. Qed.

Lemma follow_sub_fold {A} (f : Follow -> A -> Follow) (l : list A) :
  (forall fp a, follow_sub fp (f fp a)) -> forall fp, follow_sub fp (fold_left f l fp).
Proof.
  intros Hf. induction l as [|a l IH]; intros fp; cbn [fold_left];
    [apply follow_sub_refl|].
  eapply follow_sub_trans; [apply Hf|apply IH].
Qed.

Lemma follow_sub_insert k p fp : follow_sub fp (follow_insert k p fp).
Proof.
  intros k' x H. unfold follow_insert. apply follow_update_mono; [|exact H].
  intros s y Hy. apply insert_In. right. exact Hy.
Qed.

Lemma follow_sub_set_insert k s fp : follow_sub fp (follow_set_insert k s fp).
Proof.
  intros k' x H. unfold follow_set_insert. apply follow_update_mono; [|exact H].
  intros t y Hy. apply set_insert_In. left. exact Hy.
Qed.

Lemma follow_sub_all pos s fp : follow_sub fp (follow_all pos s fp).
Proof. intros k x H. apply follow_all_mono. exact H. Qed.

Lemma grows_ret {A} (a : A) : grows (ret a).
Proof. intros st b st' H. inversion H; subst. apply follow_sub_refl. Qed.

Lemma grows_bind {A B} (c : M A) (k : A -> M B) :
  grows c -> (forall a, grows (k a)) -> grows (bind c k).
Proof.
  intros Hc Hk st b st' H. apply bind_Return in H. destruct H as (a & st1 & H1 & H2).
  eapply follow_sub_trans; [exact (Hc _ _ _ H1)|exact (Hk _ _ _ _ H2)].
Qed.

Lemma grows_error code message k : grows (error code message k).
Proof.
  intros st u st' H. unfold error in H.
  destruct (Opt.r (opt_ st) || Code_eqb code CODE_OVERFLOW); [discriminate|].
  inversion H; subst. destruct (Opt.w (opt_ st)); apply follow_sub_refl.
Qed.

Lemma grows_quiet {A} (c : M A) :
  (forall st a st', c st = Return a st' -> followpos st' = followpos st) -> grows c.
Proof. intros Hc st a st' H. rewrite (Hc _ _ _ H). apply follow_sub_refl. Qed.

Lemma grows_get_opt : grows get_opt.
Proof. apply grows_quiet. intros st a st' H. inversion H; subst. reflexivity. Qed.
Lemma grows_get_lookahead : grows get_lookahead.
Proof. apply grows_quiet. intros st a st' H. inversion H; subst. reflexivity. Qed.
Lemma grows_get_followpos : grows get_followpos.
Proof. apply grows_quiet. intros st a st' H. inversion H; subst. reflexivity. Qed.
Lemma grows_out_of_fuel {A} : grows (@out_of_fuel A).
Proof. intros st a st' H. discriminate. Qed.

Lemma grows_modify g :
  (forall st, followpos (g st) = followpos st) -> grows (modify g).
Proof.
  intros Hg. apply grows_quiet. intros st a st' H. apply modify_run in H.
  subst st'. apply Hg.
Qed.

Lemma grows_modify_followpos g :
  (forall fp, follow_sub fp (g fp)) -> grows (modify_followpos g).
Proof.
  intros Hg st a st' H. apply modify_followpos_run in H. subst st'. apply Hg.
Qed.

Lemma follow_sub_fold_from {A} (f : Follow -> A -> Follow) (l : list A) fp0 fp :
  (forall fp a, follow_sub fp (f fp a)) -> follow_sub fp0 fp ->
  follow_sub fp0 (fold_left f l fp).
Proof.
  intros Hf H. eapply follow_sub_trans; [exact H|]. apply follow_sub_fold. exact Hf.
Qed.

(** An update of the follow map that only adds links. *)
Ltac follow_adds :=
  intros;
  repeat first
    [ apply follow_sub_refl
    | eapply follow_sub_trans; [|apply follow_sub_insert]
    | eapply follow_sub_trans; [|apply follow_sub_set_insert]
    | eapply follow_sub_trans; [|apply follow_sub_all]
    | apply follow_sub_fold_from; [intros|]
    | match goal with |- follow_sub _ (if ?b then _ else _) => destruct b end ].

(** One step of the proof that a computation keeps every follow link. *)
Ltac grows_step :=
  lazymatch goal with
  | |- grows (bind _ _) => apply grows_bind; [|intros]
  | |- grows (ret _) => apply grows_ret
  | |- grows (error _ _ _) => apply grows_error
  | |- grows get_opt => apply grows_get_opt
  | |- grows get_lookahead => apply grows_get_lookahead
  | |- grows get_followpos => apply grows_get_followpos
  | |- grows out_of_fuel => apply grows_out_of_fuel
  | |- grows (modify_followpos _) => apply grows_modify_followpos; follow_adds
  | |- grows (modify _) => apply grows_modify; intros; reflexivity
  | |- grows (if ?c then _ else _) => destruct c
  | |- grows (match ?x with _ => _ end) => destruct x
  | |- grows (let _ := _ in _) => cbv zeta
  end.

Ltac grows_all := repeat (first [assumption | grows_step | solve [auto with grows]]).

Create HintDb grows.

Lemma grows_scan n stop : forall k, grows (scan n stop k).
Proof. induction n as [|n IH]; intros k; simpl; grows_all. Qed.
#[export] Hint Resolve grows_scan : grows.

Lemma grows_parse_esc_braces rex_ n p message k : grows (parse_esc_braces rex_ n p message k).
Proof. unfold parse_esc_braces. grows_all. Qed.
#[export] Hint Resolve grows_parse_esc_braces : grows.

Lemma grows_parse_esc rex_ n k : grows (parse_esc rex_ n k).
Proof. unfold parse_esc. grows_all. Qed.
#[export] Hint Resolve grows_parse_esc : grows.

Lemma grows_quantifier rex_ c fr : grows (quantifier rex_ c fr).
Proof. unfold quantifier. grows_all. Qed.
#[export] Hint Resolve grows_quantifier : grows.

Lemma grows_repeat_range rex_ b fr : grows (repeat_range rex_ b fr).
Proof. unfold repeat_range. grows_all. Qed.
#[export] Hint Resolve grows_repeat_range : grows.

Lemma grows_parse3 rex_ n P4 : grows_parser P4 -> grows_parser (parse3 rex_ n P4).
Proof. intros H b fr. unfold parse3. grows_all; apply H. Qed.

Lemma grows_anchors rex_ n : forall a k, grows (anchors rex_ n a k).
Proof. induction n as [|n IH]; intros a k; cbn [anchors]; grows_all; apply IH. Qed.
#[export] Hint Resolve grows_anchors : grows.

Lemma grows_parse2_loop rex_ n P3 : grows_parser P3 ->
  forall fr fr1 l, grows (parse2_loop rex_ n P3 fr fr1 l).
Proof.
  intros H. induction n as [|n IH]; intros fr fr1 l; cbn [parse2_loop];
    grows_all; try apply H; try apply IH.
Qed.

Lemma follow_sub_splice rex_ o la a_pos : forall fr fp,
  follow_sub fp (snd (fold_left (fun acc p => splice_anchor rex_ o la p acc) a_pos (fr, fp))).
Proof.
  induction a_pos as [|p a_pos IH]; intros fr fp; cbn [fold_left];
    [apply follow_sub_refl|].
  unfold splice_anchor at 2. cbv zeta.
  match goal with
  | |- follow_sub _ (snd (fold_left _ _ (?fr1, ?fp1))) =>
      apply (follow_sub_trans fp fp1); [|apply IH]
  end.
  follow_adds.
Qed.

Lemma grows_parse2 rex_ ind n P3 : grows_parser P3 -> grows_parser (parse2 rex_ ind n P3).
Proof.
  intros H b fr. unfold parse2.
  apply grows_bind; [grows_all|]. intros [[b' a_pos] k].
  apply grows_bind; [apply H|]. intros fr1.
  destruct (ind k) as [nullable1 iter1].
  apply grows_bind; [apply grows_parse2_loop; exact H|]. intros [fr2 l_pos].
  apply grows_bind; [apply grows_get_opt|]. intros o.
  apply grows_bind; [apply grows_get_lookahead|]. intros la.
  intros st a st' Hrun.
  apply bind_Return in Hrun. destruct Hrun as (fp & st1 & Hget & Hrun).
  inversion Hget; subst fp st1. clear Hget.
  pose proof (follow_sub_splice rex_ o la a_pos fr2 (followpos st)) as Hs.
  destruct (fold_left _ a_pos (fr2, followpos st)) as [fr3 fp3]. cbn [snd] in Hs.
  apply bind_Return in Hrun. destruct Hrun as (u & st2 & Hmod & Hrun).
  apply modify_followpos_run in Hmod. subst st2.
  eapply follow_sub_trans; [exact Hs|].
  assert (G : grows (match l_pos with
                     | Some l_pos =>
                         let t := Position.set_ticked l_pos true in
                         modify_followpos
                           (fun fp => fold_left (fun fp p => follow_insert (Position.pos p) t fp)
                                                (lastpos fr3) fp) ;;;
                         modify (fun st =>
                                   with_lookahead st
                                     (ranges_insert (Position.loc l_pos) (Position.loc l_pos)
                                                    (lookahead st))) ;;;
                         ret (with_lastpos fr3 (insert t (lastpos fr3)))
                     | None => ret fr3
                     end)) by grows_all.
  exact (G _ _ _ Hrun).
Qed.

Lemma grows_parse1_loop rex_ n P2 : grows_parser P2 ->
  forall b fr fr1, grows (parse1_loop rex_ n P2 b fr fr1).
Proof.
  intros H. induction n as [|n IH]; intros b fr fr1; cbn [parse1_loop];
    grows_all; try apply H; try apply IH.
Qed.

Lemma grows_parse1 rex_ ind n P2 : grows_parser P2 -> grows_parser (parse1 rex_ ind n P2).
Proof.
  intros H b fr. unfold parse1.
  grows_all; try apply H; try (apply grows_parse1_loop; exact H).
Qed.

Lemma grows_parse4_comment rex_ n fr : grows (parse4_comment rex_ n fr).
Proof. unfold parse4_comment. grows_all. Qed.

Lemma grows_parse4_negative P b fr : grows_parser P -> grows (parse4_negative P b fr).
Proof. intros H. unfold parse4_negative. grows_all; apply H. Qed.

Lemma grows_parse4_lookahead P b fr : grows_parser P -> grows (parse4_lookahead P b fr).
Proof. intros H. unfold parse4_lookahead. grows_all; apply H. Qed.

Lemma grows_modifier_flags rex_ n : forall c k, grows (modifier_flags rex_ n c k).
Proof. induction n as [|n IH]; intros c k; cbn [modifier_flags]; grows_all; apply IH. Qed.

Lemma grows_modifier_scopes rex_ n : forall m k, grows (modifier_scopes rex_ n m k).
Proof. induction n as [|n IH]; intros m k; cbn [modifier_scopes]; grows_all; apply IH. Qed.

Lemma grows_parse4_modifiers rex_ n P1 P2 b c fr :
  grows_parser P1 -> grows_parser P2 -> grows (parse4_modifiers rex_ n P1 P2 b c fr).
Proof.
  intros H1 H2. unfold parse4_modifiers.
  grows_all; try apply H1; try apply H2; try apply grows_modifier_flags;
    try apply grows_modifier_scopes.
Qed.

Lemma grows_list_items rex_ n : forall c k, grows (list_items rex_ n c k).
Proof. induction n as [|n IH]; intros c k; cbn [list_items]; grows_all; apply IH. Qed.

Lemma grows_parse4_list rex_ n fr : grows (parse4_list rex_ n fr).
Proof. unfold parse4_list. grows_all; apply grows_list_items. Qed.

Lemma grows_quote_chars rex_ n o q : forall c k p, grows (quote_chars rex_ n o q c k p).
Proof. induction n as [|n IH]; intros c k p; cbn [quote_chars]; grows_all; apply IH. Qed.

Lemma grows_parse4_quote rex_ n o c fr : grows (parse4_quote rex_ n o c fr).
Proof. unfold parse4_quote. grows_all; apply grows_quote_chars. Qed.

Lemma grows_parse4_body rex_ n P1 P2 :
  grows_parser P1 -> grows_parser P2 -> grows_parser (parse4_body rex_ n P1 P2).
Proof.
  intros H1 H2 b fr. unfold parse4_body.
  grows_all; try apply H1; try apply grows_parse4_comment;
    try (apply grows_parse4_negative; exact H1);
    try (apply grows_parse4_lookahead; exact H1);
    try (apply grows_parse4_modifiers; assumption);
    try apply grows_parse4_list; try apply grows_parse4_quote.
Qed.

Lemma grows_parse4 rex_ ind : forall n, grows_parser (parse4 rex_ ind n).
Proof.
  induction n as [|n IH]; [intros b fr st a st' H; discriminate|].
  cbn [parse4]. cbv zeta.
  assert (H3 := grows_parse3 rex_ n _ IH).
  assert (H2 := grows_parse2 rex_ ind n _ H3).
  assert (H1 := grows_parse1 rex_ ind n _ H2).
  apply grows_parse4_body; assumption.
Qed.

Lemma grows_parse2_ rex_ ind n : grows_parser (parse2_ rex_ ind n).
Proof. apply grows_parse2, grows_parse3, grows_parse4. Qed.

Lemma grows_parse_rules rex_ ind : forall n choice fr acc,
  grows (parse_rules rex_ ind n choice fr acc).
Proof.
  induction n as [|n IH]; intros choice fr acc; cbn [parse_rules];
    grows_all; try apply grows_parse2_; try apply IH.
Qed.

Lemma grows_parse rex_ ind n : grows (parse rex_ ind n).
Proof. unfold parse. grows_all. apply grows_parse_rules. Qed.

Lemma grows_pure {A} (f : PState -> option A) :
  grows (fun st => match f st with Some a => Return a st | None => OutOfFuel end).
Proof.
  apply grows_quiet. intros st a st' H. destruct (f st); inversion H; reflexivity.
Qed.

Lemma grows_trim_lazy pos : grows (trim_lazy pos).
Proof.
  apply grows_quiet. intros st a st' H. unfold trim_lazy in H.
  destruct (trim_lazy_loop _ _ _); inversion H; reflexivity.
Qed.
#[export] Hint Resolve grows_trim_lazy : grows.

Lemma grows_compile_esc rex_ strtoul k chars : grows (compile_esc rex_ strtoul k chars).
Proof. unfold compile_esc. grows_all. Qed.
#[export] Hint Resolve grows_compile_esc : grows.

Lemma grows_compile_list_items rex_ strtoul n modifiers : forall k prev lo chars,
  grows (compile_list_items rex_ strtoul n modifiers k prev lo chars).
Proof.
  induction n as [|n IH]; intros k prev lo chars; cbn [compile_list_items];
    grows_all; try apply IH.
Qed.

Lemma grows_compile_list rex_ strtoul n k chars modifiers :
  grows (compile_list rex_ strtoul n k chars modifiers).
Proof. unfold compile_list. grows_all. apply grows_compile_list_items. Qed.
#[export] Hint Resolve grows_compile_list : grows.

Lemma grows_transition n moves chars follow : grows (transition n moves chars follow).
Proof.
  apply grows_quiet. intros st a st' H. unfold transition in H.
  destruct (transition_loop _ _ _ _ _ _) as [[rest mv]|]; inversion H; reflexivity.
Qed.
#[export] Hint Resolve grows_transition : grows.

Lemma grows_lazy_follow k i : grows (lazy_follow k i).
Proof.
  unfold lazy_follow.
  destruct (negb (Position.lazy k =? 0)); [|apply grows_ret].
  destruct (Position.greedy k); [apply grows_ret|].
  intros st a st' H.
  apply bind_Return in H. destruct H as (fp & st1 & Hget & H).
  inversion Hget; subst fp st1. clear Hget.
  destruct (follow_find k (followpos st)) as [j|] eqn:E.
  - inversion H; subst. apply follow_sub_refl.
  - apply bind_Return in H. destruct H as (u & st2 & Hmod & H).
    apply modify_followpos_run in Hmod. subst st2.
    inversion H; subst. cbn [followpos with_followpos].
    intros k' x Hx. destruct (Position.compare k' k) eqn:C.
    + apply Position_compare_eq in C. subst k'.
      unfold follow_at in Hx. rewrite E in Hx. contradiction.
    + unfold follow_at. rewrite follow_find_update_other by congruence. exact Hx.
    + unfold follow_at. rewrite follow_find_update_other by congruence. exact Hx.
Qed.
#[export] Hint Resolve grows_lazy_follow : grows.

Lemma grows_chars_at rex_ strtoul n modifiers k literal :
  grows (chars_at rex_ strtoul n modifiers k literal).
Proof. unfold chars_at. grows_all. Qed.
#[export] Hint Resolve grows_chars_at : grows.

Lemma grows_compile_position rex_ strtoul n modifiers lookahead k acc :
  grows (compile_position rex_ strtoul n modifiers lookahead k acc).
Proof. unfold compile_position. grows_all. Qed.

Lemma grows_compile_positions rex_ strtoul n modifiers lookahead : forall ks acc,
  grows (compile_positions rex_ strtoul n modifiers lookahead ks acc).
Proof.
  induction ks as [|k ks IH]; intros acc; cbn [compile_positions]; grows_all;
    try apply grows_compile_position; try apply IH.
Qed.

Lemma grows_compile_transition rex_ strtoul n s modifiers lookahead :
  grows (compile_transition rex_ strtoul n s modifiers lookahead).
Proof. apply grows_compile_positions. Qed.
#[export] Hint Resolve grows_compile_transition : grows.

Lemma grows_target dfa pos : grows (target dfa pos).
Proof.
  apply grows_quiet. intros st a st' H. unfold target in H.
  destruct (search _ _ _ _) as [[t|[p l]]|]; inversion H; reflexivity.
Qed.
#[export] Hint Resolve grows_target : grows.

Lemma grows_commit_move cur move acc : grows (commit_move cur move acc).
Proof. unfold commit_move. grows_all. Qed.

Lemma grows_commit_moves cur : forall moves acc, grows (commit_moves cur moves acc).
Proof.
  induction moves as [|m moves IH]; intros acc; cbn [commit_moves]; grows_all;
    try apply grows_commit_move; try apply IH.
Qed.
#[export] Hint Resolve grows_commit_moves : grows.

Lemma grows_compile_states rex_ strtoul n modifiers lookahead size_ :
  forall cur dfa cnt,
    grows (compile_states rex_ strtoul n modifiers lookahead size_ cur dfa cnt).
Proof.
  induction n as [|n IH]; intros cur dfa cnt; cbn [compile_states]; grows_all;
    apply IH.
Qed.

Lemma grows_compile rex_ strtoul n start modifiers lookahead end_ :
  grows (compile rex_ strtoul n start modifiers lookahead end_).
Proof. unfold compile. grows_all. apply grows_compile_states. Qed.


(** No follow link is ever removed: when the parser of a sub-regex, [parse]
    or [compile] returns, every position that followed a position before the
    call still follows it. *)
Theorem follow_only_grows :
  forall rex_ ind strtoul n,
    (forall begin fr, grows (parse4 rex_ ind n begin fr)) /\
    grows (parse rex_ ind n) /\
    (forall start modifiers lookahead end_,
       grows (compile rex_ strtoul n start modifiers lookahead end_)).
Proof.
  intros rex_ ind strtoul n. split; [|split].
  - apply grows_parse4.
  - apply grows_parse.
  - intros. apply grows_compile.
Qed.

(** ** The inner loop of [compile] turns the moves of a state into its edges *)

Lemma contains_In r c :
  contains r c = true <-> exists a b, In (a, b) r /\ a <= c < b.
Proof.
  induction r as [|[a b] r IH].
  - split; [discriminate|]. intros (a & b & [] & _).
  - rewrite contains_cons, orb_true_iff, IH. split.
    + intros [H|(a' & b' & Hin & Hc)].
      * apply andb_true_iff in H. destruct H as [H1 H2].
        apply Z.ltb_lt in H1. apply Z.leb_le in H2.
        exists a, b. split; [left; reflexivity|lia].
      * exists a', b'. split; [right; exact Hin|exact Hc].
    + intros (a' & b' & [E|Hin] & Hc).
      * inversion E; subst. left. apply andb_true_iff.
        split; [apply Z.ltb_lt|apply Z.leb_le]; lia.
      * right. exists a', b'. split; assumption.
Qed.

Lemma edges_set_keeps lo v e x :
  In x e -> fst x <> lo -> In x (edges_set lo v e).
Proof.
  induction e as [|[lo' v'] rest IH]; intros Hin Hne; [contradiction|].
  cbn [edges_set]. destruct (Z.eqb_spec lo lo') as [->|Hd].
  - destruct Hin as [<-|Hin]; [cbn [fst] in Hne; contradiction|right; exact Hin].
  - destruct (lo <? lo'); [right; exact Hin|].
    destruct Hin as [<-|Hin]; [left; reflexivity|right; apply IH; assumption].
Qed.

(** The edges made from the ranges of one move, one by one. *)
Lemma commit_ranges_In t (Q : Z -> Prop) : forall (r : Chars) lb e,
  canonical_from lb r -> 0 <= lb -> disjoint_from 0 e ->
  (forall c, covers e c = true -> c < lb \/ Q c) ->
  (forall c, contains r c = true -> ~ Q c) ->
  forall x,
    In x (fold_left (fun e (j : Z * Z) => edges_set (fst j) (snd j - 1, Some t) e) r e)
    <-> In x e \/ exists a b, In (a, b) r /\ x = (a, (b - 1, Some t)).
Proof.
  induction r as [|[a b] rest IH]; intros lb e Hr Hlb Hd Hcov HQ x; cbn [fold_left].
  - split; [auto|]. intros [H|(a & b & [] & _)]. exact H.
  - cbn [canonical_from] in Hr. destruct Hr as (Ha & Hab & Hrest). cbn [fst snd].
    assert (Hin : forall c, a <= c <= b - 1 -> contains ((a, b) :: rest) c = true).
    { intros c Hc. rewrite contains_cons.
      destruct (Z.ltb_spec c b), (Z.leb_spec a c); try lia; reflexivity. }
    assert (Hfree : forall c, a <= c <= b - 1 -> covers e c = false).
    { intros c Hc. destruct (covers e c) eqn:E; [|reflexivity].
      destruct (Hcov c E) as [Hlt|Hq]; [lia|].
      exfalso. exact (HQ c (Hin c Hc) Hq). }
    assert (Hd1 : disjoint_from 0 (edges_set a (b - 1, Some t) e))
      by (apply edges_set_disjoint; [exact Hd|lia|lia|exact Hfree]).
    rewrite (IH (b + 1) (edges_set a (b - 1, Some t) e) Hrest ltac:(lia) Hd1).
    + split.
      * intros [H|(a' & b' & Hi & ->)].
        -- apply edges_set_In_inv in H. destruct H as [->|H]; [|left; exact H].
           right. exists a, b. split; [left; reflexivity|reflexivity].
        -- right. exists a', b'. split; [right; exact Hi|reflexivity].
      * intros [H|(a' & b' & [E|Hi] & ->)].
        -- left. apply edges_set_keeps; [exact H|].
           destruct x as [lo [hi u]]. cbn [fst]. intros ->.
           pose proof (covers_key _ _ _ _ _ Hd H) as Hc.
           rewrite (Hfree a ltac:(lia)) in Hc. discriminate.
        -- inversion E; subst a' b'. left. apply edges_set_In.
        -- right. exists a', b'. split; [exact Hi|reflexivity].
    + intros c Hc. apply covers_edges_set in Hc. destruct Hc as [Hc|Hc]; [|left; lia].
      destruct (Hcov c Hc) as [Hlt|Hq]; [left; lia|right; exact Hq].
    + intros c Hc. apply HQ. rewrite contains_cons, Hc. apply orb_true_r.
Qed.

Lemma positions_compare_eq a b : positions_compare a b = Eq -> a = b.
Proof.
  intros H. apply positions_eqb_eq. unfold positions_eqb. rewrite H. reflexivity.
Qed.

Lemma search_found d pos : forall n t0 t,
  search n d pos t0 = Some (inl t) ->
  exists s, nth_error d t = Some s /\ positions s = pos.
Proof.
  induction n as [|n IH]; intros t0 t H; [discriminate|].
  cbn [search] in H. destruct (nth_error d t0) as [s|] eqn:Es; [|discriminate].
  destruct (positions_compare pos (positions s)) eqn:C.
  - inversion H; subst t0. exists s. split; [exact Es|].
    symmetry. apply positions_compare_eq. exact C.
  - destruct (left s); [eapply IH; exact H|discriminate].
  - destruct (right s); [eapply IH; exact H|discriminate].
Qed.

Lemma keeps_refl d : keeps d d.
Proof. intros j s H. exists s. repeat split. exact H. Qed.

Lemma keeps_trans d1 d2 d3 : keeps d1 d2 -> keeps d2 d3 -> keeps d1 d3.
Proof.
  intros H1 H2 j s H. destruct (H1 j s H) as (s2 & E2 & P2 & G2).
  destruct (H2 j s2 E2) as (s3 & E3 & P3 & G3).
  exists s3. split; [exact E3|]. split; congruence.
Qed.

Lemma target_keeps dfa pos :
  returns (target dfa pos)
          (fun r => keeps dfa (fst r) /\
                    exists s, nth_error (fst r) (snd r) = Some s /\ positions s = pos).
Proof.
  intros st [d t] st' H. unfold target in H. cbn [fst snd].
  destruct (search _ _ _ _) as [[t0|[p l]]|] eqn:Es; [| |discriminate].
  - inversion H; subst. split; [apply keeps_refl|].
    eapply search_found. exact Es.
  - inversion H; subst. clear H. split.
    + intros j s Hj.
      assert (Hlt : (j < List.length dfa)%nat) by (apply nth_error_Some; congruence).
      destruct (nth_error dfa p) as [sp|] eqn:Ep.
      * rewrite nth_error_app1 by (rewrite set_nth_length; exact Hlt).
        rewrite nth_error_set_nth. destruct (Nat.eqb_spec j p) as [->|Hne].
        -- rewrite Hj. rewrite Ep in Hj. inversion Hj; subst sp.
           eexists. split; [reflexivity|]. destruct l; split; reflexivity.
        -- exists s. split; [exact Hj|]. split; reflexivity.
      * rewrite nth_error_app1 by exact Hlt.
        exists s. split; [exact Hj|]. split; reflexivity.
    + exists (new_State pos). split; [|reflexivity].
      assert (L : List.length
                    match nth_error dfa p with
                    | Some s => set_nth p (if l then with_left s (Some (List.length dfa))
                                            else with_right s (Some (List.length dfa))) dfa
                    | None => dfa
                    end = List.length dfa).
      { destruct (nth_error dfa p); [apply set_nth_length|reflexivity]. }
      rewrite nth_error_app2 by (rewrite L; lia).
      rewrite L, Nat.sub_diag. reflexivity.
Qed.

Lemma keeps_set_edges d k s e :
  nth_error d k = Some s ->
  forall j sj, nth_error d j = Some sj ->
    exists sj', nth_error (set_nth k (with_edges s e) d) j = Some sj' /\
                positions sj' = positions sj.
Proof.
  intros Hk j sj Hj. rewrite nth_error_set_nth.
  destruct (Nat.eqb_spec j k) as [->|Hne].
  - rewrite Hj. rewrite Hk in Hj. inversion Hj; subst sj.
    eexists. split; reflexivity.
  - exists sj. split; [exact Hj|reflexivity].
Qed.

Lemma trim_lazy_run pos st pos' st' :
  trim_lazy pos st = Return pos' st' ->
  trim_lazy_loop (S (2 * List.length pos)) (rev pos) [] = Some pos'.
Proof.
  unfold trim_lazy. intros H.
  destruct (trim_lazy_loop _ _ _); inversion H; reflexivity.
Qed.

Lemma commit_move_made cur move done rest dfa eno :
  tidy (done ++ move :: rest) ->
  made cur done dfa ->
  returns (commit_move cur move (dfa, eno))
          (fun r => made cur (done ++ [move]) (fst r)).
Proof.
  intros [Ht H1] (s & Hs & Hd & Hcov & Hsound & Hcompl).
  assert (Hsub : forall m, In m done -> In m (done ++ [move]))
    by (intros m Hm; apply in_app_iff; left; exact Hm).
  intros st r st' H. unfold commit_move in H.
  apply bind_Return in H. destruct H as (pos & st1 & Htrim & H).
  apply trim_lazy_run in Htrim.
  destruct (negb (empty pos)) eqn:Hempty.
  - (* the move has positions left *)
    assert (Hpos : pos <> []) by (intros ->; discriminate).
    apply bind_Return in H. destruct H as ([d1 t] & st2 & Htg & H).
    apply target_keeps in Htg. cbn [fst snd] in Htg.
    destruct Htg as [Hk (stt & Htt & Ptt)].
    destruct (Hk cur s Hs) as (s1 & Hs1 & Ps1 & Es1).
    rewrite Hs1 in H. unfold ret in H. inversion H; subst r st2. clear H. cbn [fst].
    set (e' := fold_left
                 (fun e (j : Z * Z) => edges_set (fst j) (snd j - 1, Some t) e)
                 (fst move) (edges s1)).
    set (d2 := set_nth cur (with_edges s1 e') d1).
    assert (Hmc : canonical_from 0 (fst move)).
    { apply Forall_app in Ht. destruct Ht as [_ Ht]. inversion Ht; subst. tauto. }
    assert (Hfresh : forall c, contains (fst move) c = true ->
                               ~ (1 <= holders c done)%nat).
    { intros c Hc Hq. specialize (H1 c). rewrite holders_app, holders_cons, Hc in H1. lia. }
    assert (Hd1 : disjoint_from 0 (edges s1)) by (rewrite Es1; exact Hd).
    assert (Hcov1 : forall c, covers (edges s1) c = true ->
                              c < 0 \/ (1 <= holders c done)%nat).
    { intros c Hc. right. apply Hcov. rewrite <- Es1. exact Hc. }
    destruct (commit_ranges t _ (fst move) 0 (edges s1) Hmc (Z.le_refl 0) Hd1 Hcov1 Hfresh)
      as [D1 D2]. fold e' in D1, D2.
    pose proof (commit_ranges_In t _ (fst move) 0 (edges s1) Hmc (Z.le_refl 0) Hd1
                  Hcov1 Hfresh) as HIn. fold e' in HIn.
    assert (Keep2 : forall j sj, nth_error dfa j = Some sj ->
                      exists sj', nth_error d2 j = Some sj' /\
                                  positions sj' = positions sj).
    { intros j sj Hj. destruct (Hk j sj Hj) as (sj1 & Hj1 & Pj1 & _).
      destruct (keeps_set_edges d1 cur s1 e' Hs1 j sj1 Hj1) as (sj2 & Hj2 & Pj2).
      exists sj2. split; [exact Hj2|congruence]. }
    assert (Htgt : exists sj, nth_error d2 t = Some sj /\ positions sj = pos).
    { destruct (keeps_set_edges d1 cur s1 e' Hs1 t stt Htt) as (sj2 & Hj2 & Pj2).
      exists sj2. split; [exact Hj2|congruence]. }
    exists (with_edges s1 e'). split.
    { unfold d2. rewrite nth_error_set_nth, Nat.eqb_refl, Hs1. reflexivity. }
    cbn [edges with_edges]. split; [exact D1|]. split; [|split].
    + intros c Hc. rewrite holders_app, holders_cons, holders_nil.
      destruct (D2 c Hc) as [Hc1|Hc1].
      * assert (1 <= holders c done)%nat by (apply Hcov; rewrite <- Es1; exact Hc1).
        lia.
      * rewrite Hc1. lia.
    + intros c t' (lo & hi & Hin & Hc). cbn [edges with_edges] in Hin.
      apply HIn in Hin. destruct Hin as [Hin|(a & b & Hab & E)].
      * rewrite Es1 in Hin.
        destruct (Hsound c t' (ex_intro _ lo (ex_intro _ hi (conj Hin Hc))))
          as (m & pos0 & j & sj & Hm & Hmc0 & Htr & Et & Hj & Pj).
        destruct (Keep2 j sj Hj) as (sj2 & Hj2 & Pj2).
        exists m, pos0, j, sj2. split; [apply Hsub; exact Hm|].
        split; [exact Hmc0|]. split; [exact Htr|]. split; [exact Et|].
        split; [exact Hj2|congruence].
      * inversion E; subst lo hi t'. destruct Htgt as (sj & Hj & Pj).
        exists move, pos, t, sj. split; [apply in_app_iff; right; left; reflexivity|].
        split; [apply contains_In; exists a, b; split; [exact Hab|lia]|].
        split; [split; assumption|]. repeat split; assumption.
    + intros m pos0 c Hm Htr Hc. apply in_app_iff in Hm. destruct Hm as [Hm|[<-|[]]].
      * destruct (Hcompl m pos0 c Hm Htr Hc) as (j & sj & (lo & hi & Hin & Hlc) & Hj & Pj).
        destruct (Keep2 j sj Hj) as (sj2 & Hj2 & Pj2).
        exists j, sj2. split; [|split; [exact Hj2|congruence]].
        exists lo, hi. split; [|exact Hlc]. cbn [edges with_edges].
        apply HIn. left. rewrite Es1. exact Hin.
      * destruct Htr as [Htr _]. rewrite Htrim in Htr. inversion Htr; subst pos0.
        destruct Htgt as (sj & Hj & Pj). exists t, sj. split; [|split; assumption].
        apply contains_In in Hc. destruct Hc as (a & b & Hab & Hc).
        exists a, (b - 1). split; [|lia]. cbn [edges with_edges].
        apply HIn. right. exists a, b. split; [exact Hab|reflexivity].
  - (* no positions left: no edge *)
    unfold ret in H. inversion H; subst r st1. clear H. cbn [fst].
    assert (Hnil : pos = []) by (destruct pos; [reflexivity|discriminate]).
    exists s. split; [exact Hs|]. split; [exact Hd|]. split; [|split].
    + intros c Hc. specialize (Hcov c Hc). rewrite holders_app. lia.
    + intros c t Hg. destruct (Hsound c t Hg) as (m & pos0 & j & sj & Hm & Rest).
      exists m, pos0, j, sj. split; [apply Hsub; exact Hm|exact Rest].
    + intros m pos0 c Hm Htr Hc. apply in_app_iff in Hm. destruct Hm as [Hm|[<-|[]]].
      * exact (Hcompl m pos0 c Hm Htr Hc).
      * destruct Htr as [Htr Hne]. rewrite Htrim in Htr. inversion Htr; subst pos0.
        contradiction.
Qed.

Lemma commit_moves_made cur : forall moves done dfa eno,
  tidy (done ++ moves) ->
  made cur done dfa ->
  returns (commit_moves cur moves (dfa, eno))
          (fun r => made cur (done ++ moves) (fst r)).
Proof.
  induction moves as [|m moves IH]; intros done dfa eno Ht Hd; cbn [commit_moves].
  - apply returns_ret. rewrite app_nil_r. exact Hd.
  - eapply returns_bind; [eapply commit_move_made; [exact Ht|exact Hd]|].
    intros [d e] Hd1. cbn [fst] in Hd1.
    replace (done ++ m :: moves) with ((done ++ [m]) ++ moves) in *
      by (rewrite <- app_assoc; reflexivity).
    apply IH; assumption.
Qed.

(** The inner loop of [compile] turns the moves of a state into its edges:
    given moves of which at most one holds any character, and a state without
    edges, every edge it makes goes to the state whose positions are the
    trimmed positions of the move that holds the character, and every
    character of a move that has positions left after trimming gets such an
    edge. *)
Theorem commit_moves_makes_edges :
  forall cur (moves : Moves) dfa eno st dfa' eno' st' s,
    tidy moves -> nth_error dfa cur = Some s -> edges s = [] ->
    commit_moves cur moves (dfa, eno) st = Return (dfa', eno') st' ->
    exists s',
      nth_error dfa' cur = Some s' /\
      (forall c t, goes s' c t ->
         exists m pos j sj,
           In m moves /\ contains (fst m) c = true /\ trimmed m pos /\
           t = Some j /\ nth_error dfa' j = Some sj /\ positions sj = pos) /\
      (forall m pos c, In m moves -> trimmed m pos -> contains (fst m) c = true ->
         exists j sj, goes s' c (Some j) /\ nth_error dfa' j = Some sj /\
                      positions sj = pos).
Proof.
  intros cur moves dfa eno st dfa' eno' st' s Ht Hs He H.
  apply (commit_moves_made cur moves [] dfa eno Ht) in H.
  - cbn [fst app] in H. destruct H as (s' & Hs' & _ & _ & Hsound & Hcompl).
    exists s'. split; [exact Hs'|]. split; assumption.
  - exists s. split; [exact Hs|]. rewrite He. split; [exact I|].
    split; [intros c Hc; discriminate|]. split.
    + intros c t Hg. destruct Hg as (lo & hi & Hin & _). rewrite He in Hin.
      contradiction.
    + intros m pos c [].
Qed.

(** One move of [a] to position 1 from a start state: the loop makes the edge
    for [a] to a state of position 1. *)
Lemma commit_moves_makes_edges_example :
  let moves := [([(97, 98)], [Position.of_loc 1])] in
  let dfa := [new_State [Position.of_loc 0]] in
  exists dfa' eno' st' s' j sj,
    commit_moves 0 moves (dfa, 0) (initial Opt.default) = Return (dfa', eno') st' /\
    nth_error dfa' 0 = Some s' /\
    goes s' 97 (Some j) /\ nth_error dfa' j = Some sj /\
    positions sj = [Position.of_loc 1].
Proof.
  cbv zeta.
  destruct (commit_moves 0 [([(97, 98)], [Position.of_loc 1])]
              ([new_State [Position.of_loc 0]], 0) (initial Opt.default))
    as [[dfa' eno'] st'| |] eqn:E; try (vm_compute in E; discriminate).
  assert (Ht : tidy [([(97, 98)], [Position.of_loc 1])]).
  { split.
    - constructor; [|constructor]. split; [|reflexivity]. cbn. lia.
    - intros c. rewrite holders_cons, holders_nil. destruct (contains _ c); cbn; lia. }
  destruct (commit_moves_makes_edges 0 _ [new_State [Position.of_loc 0]] _ _ _ _ _
              (new_State [Position.of_loc 0]) Ht eq_refl eq_refl E)
    as (s' & Hs' & _ & Hc).
  destruct (Hc ([(97, 98)], [Position.of_loc 1]) [Position.of_loc 1] 97)
    as (j & sj & Hg & Hj & Pj).
  - left. reflexivity.
  - split; [reflexivity|discriminate].
  - reflexivity.
  - exists dfa', eno', st', s', j, sj. repeat split; assumption.
Defined.

(** ** From the regex to the opcodes *)

Lemma build_dfa rex_ ind strtoul n st parsed dfa cnt st1 :
  build rex_ ind strtoul n st = Return (parsed, dfa, cnt) st1 ->
  Forall (fun s => disjoint_from 0 (edges s)) dfa /\ targets_exist dfa.
Proof.
  intros H. unfold build in H.
  apply bind_Return in H. destruct H as (p & sa & _ & H).
  apply bind_Return in H. destruct H as (sb & sc & _ & H).
  apply bind_Return in H. destruct H as ([d c] & sd & Hc & H).
  unfold ret in H. inversion H; subst. clear H.
  unfold compile in Hc.
  apply bind_Return in Hc. destruct Hc as (pos & se & _ & Hc).
  split.
  - apply compile_states_edges in Hc; [exact Hc|].
    intros j s E. destruct j as [|j]; cbn in E.
    + inversion E; subst s. cbn [edges]. split; [intros; lia|reflexivity].
    + destruct j; discriminate.
  - apply compile_states_targets in Hc; [exact Hc|].
    constructor; [|constructor]. unfold edges_below. cbn [edges]. constructor.
Qed.

(** The opcodes implement the DFA of the regex: for every regex, when [build]
    (parse and compile) and then the encoding of the compacted DFA return, the
    first [GOTO] of a state's opcodes that holds a character goes to the index
    of the state that the edge holding the character goes to, and every byte
    that no edge of the state holds goes to [IMAX]. *)
Theorem build_encode_transitions :
  forall rex_ ind strtoul n st parsed dfa cnt st1 dfa' nop_ opc st2 k s,
    build rex_ ind strtoul n st = Return (parsed, dfa, cnt) st1 ->
    encode_dfa (compact_dfa dfa) st1 = Return (dfa', nop_, opc) st2 ->
    nth_error dfa k = Some s ->
    exists s',
      nth_error dfa' k = Some s' /\
      (forall c lo hi t,
          In (lo, (hi, t)) (edges s) -> lo <= c <= hi ->
          exists j sj', t = Some j /\ nth_error dfa' j = Some sj' /\
                        first_goto (encode_state dfa' s') c = Some (index sj')) /\
      (forall c, 0 <= c <= 255 -> covers (edges s) c = false ->
                 first_goto (encode_state dfa' s') c = Some IMAX).
Proof.
  intros rex_ ind strtoul n st parsed dfa cnt st1 dfa' nop_ opc st2 k s Hb H Hk.
  destruct (build_dfa _ _ _ _ _ _ _ _ _ Hb) as [Hd Ht].
  unfold encode_dfa in H.
  apply bind_Return in H. destruct H as ([d m] & sa & H1 & H).
  unfold ret in H. inversion H; subst d m opc sa. clear H.
  assert (Hnth : forall j sj, nth_error dfa j = Some sj ->
            exists sj' a sx b sy,
              nth_error dfa' j = Some sj' /\
              count_state (with_edges sj (compact_edges (edges sj))) a sx
                = Return (sj', b) sy).
  { intros j sj Hj. apply (count_states_nth _ _ _ _ _ _ _ _ H1).
    unfold compact_dfa. rewrite nth_error_map, Hj. reflexivity. }
  destruct (Hnth k s Hk) as (s' & a & sx & b & sy & Ha & Hb').
  exists s'. split; [exact Ha|].
  rewrite Forall_forall in Hd. specialize (Hd s (nth_error_In _ _ Hk)).
  split.
  - intros c lo hi t Hin Hc.
    unfold targets_exist in Ht. rewrite Forall_forall in Ht.
    specialize (Ht s (nth_error_In _ _ Hk)). unfold edges_below in Ht.
    rewrite Forall_forall in Ht. destruct (Ht _ Hin) as (j & Ej & Hj). cbn [snd] in Ej.
    apply nth_error_Some in Hj.
    destruct (nth_error dfa j) as [sj|] eqn:Esj; [|congruence].
    destruct (Hnth j sj Esj) as (sj' & _ & _ & _ & _ & Hj' & _).
    exists j, sj'. split; [exact Ej|]. split; [exact Hj'|].
    destruct (count_state_compact_last (edges s)
                (with_edges s (compact_edges (edges s))) _ _ _ _ _ c Hd eq_refl Hb')
      as (Hv & Hl & _).
    rewrite (first_goto_encode_state _ _ _ Hv), Hl.
    rewrite (last_edge_In _ _ _ _ _ _ Hd Hin Hc). subst t.
    cbn [option_map target_index]. rewrite Hj'. reflexivity.
  - intros c Hc Hn.
    destruct (count_state_compact_last (edges s)
                (with_edges s (compact_edges (edges s))) _ _ _ _ _ c Hd eq_refl Hb')
      as (Hv & Hl & Hu & Hcov).
    rewrite (first_goto_encode_state _ _ _ Hv), Hl.
    destruct (Z.leb_spec (cover_from 0 (edges s)) c) as [Hle|Hlt].
    + rewrite covers_last_edge in Hn.
      destruct (last_edge (edges s) c); [discriminate|].
      destruct (Z.leb_spec c 255); [reflexivity|lia].
    + rewrite Hcov in Hn by lia. discriminate.
Qed.

(** The DFA of [a|bc] and its encoding: the start state has an edge for [a]
    to state 1. *)
Lemma build_encode_a_or_bc :
  exists parsed dfa cnt st1 dfa' nop_ opc st2 s,
    build "a|bc" (fun _ => (false, 0)) (fun _ _ => 0) 10 (initial Opt.default)
      = Return (parsed, dfa, cnt) st1 /\
    encode_dfa (compact_dfa dfa) st1 = Return (dfa', nop_, opc) st2 /\
    nth_error dfa 0 = Some s /\
    In (97, (97, Some 1%nat)) (edges s) /\
    map index dfa' = [0; 3; 5; 7].
Proof.
  do 9 eexists. split; [vm_compute; reflexivity|].
  split; [vm_compute; reflexivity|]. split; [reflexivity|].
  split; [left; reflexivity|reflexivity].
Qed.

(** In the opcodes of [a|bc], the start state goes on [a] to the index of
    state 1. *)
Lemma build_encode_transitions_example :
  exists parsed dfa cnt st1 dfa' nop_ opc st2 s',
    build "a|bc" (fun _ => (false, 0)) (fun _ _ => 0) 10 (initial Opt.default)
      = Return (parsed, dfa, cnt) st1 /\
    encode_dfa (compact_dfa dfa) st1 = Return (dfa', nop_, opc) st2 /\
    nth_error dfa' 0 = Some s' /\
    first_goto (encode_state dfa' s') 97 = Some 3.
Proof.
  destruct build_encode_a_or_bc
    as (parsed & dfa & cnt & st1 & dfa' & nop_ & opc & st2 & s & Hb & He & Hs & Hin & Hi).
  destruct (build_encode_transitions _ _ _ _ _ _ _ _ _ _ _ _ _ _ _ Hb He Hs)
    as (s' & Hs' & Hgo & _).
  exists parsed, dfa, cnt, st1, dfa', nop_, opc, st2, s'.
  split; [exact Hb|]. split; [exact He|]. split; [exact Hs'|].
  destruct (Hgo 97 97 97 (Some 1%nat) Hin ltac:(lia)) as (j & sj' & Ej & Hj & Hg).
  rewrite Hg. inversion Ej; subst j.
  assert (E : nth_error (map index dfa') 1 = Some (index sj'))
    by (rewrite nth_error_map, Hj; reflexivity).
  rewrite Hi in E. cbn in E. inversion E. reflexivity.
Defined.

(** ** The fields of a compiled pattern *)

Lemma compile_states_length rex_ strtoul n modifiers lookahead size_ :
  forall cur dfa cnt,
    returns (compile_states rex_ strtoul n modifiers lookahead size_ cur dfa cnt)
            (fun r => (List.length dfa <= List.length (fst r))%nat).
Proof.
  induction n as [|n IH]; intros cur dfa cnt; [apply returns_out_of_fuel|].
  cbn [compile_states].
  destruct (nth_error dfa cur) as [s|]; [|apply returns_ret; cbn [fst]; lia].
  apply returns_bind_any. intros [s1 moves].
  eapply returns_bind; [apply commit_moves_extends|].
  intros [d e] [Hl _]. cbn [fst] in Hl. rewrite set_nth_length in Hl.
  intros st r st' H. apply IH in H. lia.
Qed.

(** The fields of a compiled pattern fit together: there is at least one
    rule, [acc_] has one flag for each rule, the DFA has at least one state,
    and [nop_] is the number of opcode words (within the Index range). *)
Theorem init_pattern_consistent :
  forall rex_ ind strtoul beyond n opt p st',
    init rex_ ind strtoul beyond n opt = Return p st' ->
    pat_end p <> [] /\
    List.length (pat_acc p) = List.length (pat_end p) /\
    1 <= pat_vno p /\
    pat_nop p = to_Index (Z.of_nat (List.length (pat_opc p))).
Proof.
  intros rex_ ind strtoul beyond n opt p st' H. unfold init in H.
  destruct (init_options beyond n opt) as [o|]; [|discriminate].
  apply bind_Return in H. destruct H as ([[parsed dfa] cnt] & st1 & Hb & H).
  apply bind_Return in H. destruct H as ([nop_ opc] & st2 & Ha & H).
  apply bind_Return in H. destruct H as (o' & st3 & _ & H).
  unfold ret in H. inversion H; subst p st3. clear H.
  cbn [pat_end pat_acc pat_vno pat_nop pat_opc].
  pose proof (build_dfa _ _ _ _ _ _ _ _ _ Hb) as [Hd _].
  unfold build in Hb.
  apply bind_Return in Hb. destruct Hb as (parsed' & sa & Hp & Hb).
  apply bind_Return in Hb. destruct Hb as (sb & sc & _ & Hb).
  apply bind_Return in Hb. destruct Hb as ([d c] & sd & Hc & Hb).
  unfold ret in Hb. inversion Hb; subst parsed' d c sd. clear Hb.
  split.
  { unfold parse in Hp. destruct (ind 0) as [n0 i0].
    apply parse_rules_end in Hp. exact (proj1 Hp). }
  unfold compile in Hc.
  apply bind_Return in Hc. destruct Hc as (pos & se & _ & Hc).
  pose proof (compile_states_length _ _ _ _ _ _ _ _ _ _ _ _ Hc) as Hlen.
  cbn [fst List.length] in Hlen.
  apply compile_states_counts in Hc; cbn [vno_ acc_ List.length];
    [| lia | reflexivity | rewrite repeat_length; reflexivity |].
  2: { rewrite repeat_length. intros k Hk. split.
       - intros Ht. rewrite nth_repeat in Ht. discriminate.
       - intros (j & s & Hj & _). lia. }
  destruct Hc as (Hv & Hn & _). cbn [acc_] in Hn. rewrite repeat_length in Hn.
  split; [exact Hn|]. split; [lia|].
  unfold assemble in Ha.
  apply bind_Return in Ha. destruct Ha as ([[d' n'] opc'] & sf & He & Ha).
  unfold ret in Ha. inversion Ha; subst n' opc' sf. clear Ha.
  apply encode_dfa_run in He. destruct He as [He ->].
  assert (H0 : 0 <= 0 <= IMAX) by (unfold IMAX; lia).
  assert (Hvalid : Forall (fun s => valid_from 0 (edges s)) (compact_dfa dfa)).
  { unfold compact_dfa. apply Forall_map. eapply Forall_impl; [|exact Hd].
    intros s Hs. cbn [edges with_edges].
    apply (compact_edges_valid (List.length (edges s)) (edges s) 0 (le_n _) Hs). }
  destruct (count_states_words _ _ _ _ _ _ Hvalid H0 He) as (_ & Hnop & _).
  rewrite flat_map_encode_state_length, Hnop. reflexivity.
Qed.

(** The pattern of [a|bc]: two rules, four states, nine opcode words. *)
Lemma init_a_or_bc :
  exists p st',
    init "a|bc" (fun _ => (false, 0)) (fun _ _ => 0) (fun _ => 0) 10 None = Return p st' /\
    pat_end p = [1; 4] /\ pat_vno p = 4 /\ List.length (pat_opc p) = 9%nat.
Proof.
  do 2 eexists. split; [vm_compute; reflexivity|]. repeat split.
Qed.

Lemma init_pattern_consistent_example :
  exists p st',
    init "a|bc" (fun _ => (false, 0)) (fun _ _ => 0) (fun _ => 0) 10 None = Return p st' /\
    List.length (pat_acc p) = 2%nat /\ pat_nop p = 9.
Proof.
  destruct init_a_or_bc as (p & st' & E & He & Hv & Ho).
  exists p, st'. split; [exact E|].
  destruct (init_pattern_consistent _ _ _ _ _ _ _ _ E) as (_ & Ha & _ & Hn).
  rewrite He in Ha. rewrite Ho in Hn. split; [exact Ha|exact Hn].
Defined.

(** ** The parse of a plain word *)

Lemma bind_get_opt {B} (k : Opt.Option -> M B) st : bind get_opt k st = k (opt_ st) st.
Proof. reflexivity. Qed.

Lemma bind_ret {A B} (a : A) (k : A -> M B) st : bind (ret a) k st = k a st.
Proof. reflexivity. Qed.

Lemma bind_modify {B} g (k : unit -> M B) st : bind (modify g) k st = k tt (g st).
Proof. reflexivity. Qed.

Lemma bind_run {A B} (c : M A) (k : A -> M B) st a st' :
  c st = Return a st' -> bind c k st = k a st'.
Proof. intros H. unfold bind. rewrite H. reflexivity. Qed.

Lemma at_past rex_ k : Z.of_nat (String.length rex_) <= k -> at_ rex_ k = 0.
Proof.
  intros H. destruct (Z.eq_dec (at_ rex_ k) 0) as [E|E]; [exact E|].
  apply at_nonzero in E. lia.
Qed.

(** What the parser asks of a letter or digit [c], with an escape character
    [e] that is neither. *)
Lemma alnum_tests c e :
  isalnum c = true -> isalnum e = false ->
  (c =? 0) = false /\ (c =? e) = false /\ isspace c = false /\ (c =? dquote) = false /\
  forall a, In a ["("; "["; "#"; "/"; "|"; ")"; "?"; "*"; "+"; "$"; "{"; "}"; "^";
                  "-"; "."]%char ->
            eqc c a = false.
Proof.
  intros Hc He.
  assert (Hr : 48 <= c <= 57 \/ 65 <= c <= 90 \/ 97 <= c <= 122).
  { unfold isalnum, isalpha, isupper, islower, isdigit, in_range in Hc.
    destruct (Z.leb_spec 65 c), (Z.leb_spec c 90), (Z.leb_spec 97 c),
      (Z.leb_spec c 122), (Z.leb_spec 48 c), (Z.leb_spec c 57);
      cbn in Hc; try discriminate; lia. }
  split; [apply Z.eqb_neq; lia|]. split.
  { apply Z.eqb_neq. intros ->. rewrite Hc in He. discriminate. }
  split.
  { unfold isspace, in_range.
    destruct (Z.leb_spec 9 c), (Z.leb_spec c 13), (Z.eqb_spec c 32); cbn;
      try reflexivity; lia. }
  split; [apply Z.eqb_neq; unfold dquote; lia|].
  intros a Ha. unfold eqc. apply Z.eqb_neq.
  cbn [In] in Ha.
  repeat (destruct Ha as [<-|Ha]; [cbn; lia|]). contradiction.
Qed.

Section Word.

Variable rex_ : string.
Variable ind : Location -> bool * Index.
Variable len : nat.
Hypothesis rex_word : forall k, 0 <= k < Z.of_nat len -> isalnum (at_ rex_ k) = true.
Hypothesis rex_end : at_ rex_ (Z.of_nat len) = 0 \/ at_ rex_ (Z.of_nat len) = ch ")".

Lemma escape_at_word st k :
  plain st -> 0 <= k < Z.of_nat len ->
  escape_at rex_ (opt_ st) k = 0.
Proof.
  intros Hp Hk. unfold escape_at.
  destruct (alnum_tests _ _ (rex_word k Hk) Hp) as (_ & He & _).
  rewrite He, andb_false_r. reflexivity.
Qed.

Lemma escapes_at_word st k escapes :
  plain st -> 0 <= k < Z.of_nat len ->
  escapes_at rex_ (opt_ st) k escapes = 0.
Proof.
  intros Hp Hk. unfold escapes_at. rewrite escape_at_word by assumption. reflexivity.
Qed.

(** The character after an atom of a word: a letter, a digit, the end or the
    [)]; none of them is a space or a quantifier. *)
Lemma after_atom k :
  0 <= k <= Z.of_nat len ->
  isspace (at_ rex_ k) = false /\
  forall a, In a ["*"; "+"; "?"; "{"; "}"]%char -> eqc (at_ rex_ k) a = false.
Proof.
  intros Hk. destruct (Z.eq_dec k (Z.of_nat len)) as [->|Hne].
  - destruct rex_end as [E|E]; rewrite E; (split; [reflexivity|]);
      intros a Ha; cbn [In] in Ha;
      repeat (destruct Ha as [<-|Ha]; [reflexivity|]); contradiction.
  - assert (Hn : isalnum 0 = false) by reflexivity.
    destruct (alnum_tests _ 0 (rex_word k ltac:(lia)) Hn) as (_ & _ & Hs & _ & Ht).
    split; [exact Hs|]. intros a Ha. apply Ht. cbn [In] in *. tauto.
Qed.

Lemma parse_esc_word n st k :
  plain st -> 0 <= k < Z.of_nat len ->
  parse_esc rex_ n k st = Return (k + 1) st.
Proof.
  intros Hp Hk. unfold parse_esc. rewrite bind_get_opt.
  destruct (alnum_tests _ _ (rex_word k Hk) Hp) as (_ & He & _).
  rewrite He. reflexivity.
Qed.

Lemma parse4_body_word n P1 P2 begin fr st :
  plain st -> 0 <= loc fr < Z.of_nat len ->
  parse4_body rex_ n P1 P2 begin fr st = Return (atom_at (loc fr)) st.
Proof.
  intros Hp Hk. unfold parse4_body. cbv zeta. cbn [loc].
  rewrite bind_get_opt.
  destruct (alnum_tests _ _ (rex_word _ Hk) Hp) as (H0 & He & Hs & Hq & Ht).
  rewrite (Ht "("%char), (Ht "["%char), (Ht "#"%char), (Ht "/"%char), (Ht "|"%char),
    (Ht ")"%char), (Ht "?"%char), (Ht "*"%char), (Ht "+"%char), (Ht "$"%char)
    by (cbn [In]; tauto).
  rewrite Hq, Hs, H0, escape_at_word, escapes_at_word by assumption.
  cbn [andb orb negb]. change (eqc 0 "Q") with false. change (0 =? 0) with true.
  cbn [andb orb negb]. rewrite andb_false_r.
  rewrite bind_ret.
  cbn [with_firstpos with_lastpos with_nullable firstpos lastpos loc nullable lazypos iter
       insert].
  rewrite (bind_run _ _ _ _ _ (parse_esc_word n st (loc fr) Hp Hk)).
  reflexivity.
Qed.

Lemma parse4_word n begin fr st :
  plain st -> 0 <= loc fr < Z.of_nat len -> (0 < n)%nat ->
  parse4 rex_ ind n begin fr st = Return (atom_at (loc fr)) st.
Proof.
  intros Hp Hk Hn. destruct n as [|m]; [lia|].
  cbn [parse4]. cbv zeta. apply parse4_body_word; assumption.
Qed.

Lemma scan_stops n stop k st :
  (0 < n)%nat -> stop k = true -> scan n stop k st = Return k st.
Proof. intros Hn Hs. destruct n as [|m]; [lia|]. cbn [scan]. rewrite Hs. reflexivity. Qed.

Lemma parse3_word n begin fr st :
  plain st -> 0 <= loc fr < Z.of_nat len -> (0 < n)%nat ->
  parse3_ rex_ ind n begin fr st = Return (atom_at (loc fr)) st.
Proof.
  intros Hp Hk Hn. unfold parse3_, parse3.
  rewrite (bind_run _ _ _ _ _ (parse4_word n begin fr st Hp Hk Hn)).
  rewrite bind_get_opt.
  destruct (after_atom (loc fr + 1) ltac:(lia)) as (Hs & Ht).
  assert (E : (if Opt.x (opt_ st)
               then scan n (fun j => negb (isspace (at_ rex_ j))) (loc (atom_at (loc fr)))
               else ret (loc (atom_at (loc fr)))) st = Return (loc fr + 1) st).
  { cbn [atom_at loc]. destruct (Opt.x (opt_ st)); [|reflexivity].
    apply scan_stops; [assumption|]. rewrite Hs. reflexivity. }
  rewrite (bind_run _ _ _ _ _ E).
  rewrite (Ht "*"%char), (Ht "+"%char), (Ht "?"%char), (Ht "{"%char), (Ht "}"%char)
    by (cbn [In]; tauto).
  reflexivity.
Qed.

Lemma anchors_word n st :
  plain st -> (0 < len)%nat -> (0 < n)%nat ->
  anchors rex_ n [] 0 st = Return (true, [], 0) st.
Proof.
  intros Hp Hl Hn. destruct n as [|m]; [lia|]. cbn [anchors].
  rewrite bind_get_opt.
  assert (Hk : 0 <= 0 < Z.of_nat len) by lia.
  destruct (alnum_tests _ _ (rex_word _ Hk) Hp) as (H0 & He & Hs & Hq & Ht).
  assert (E : (if Opt.x (opt_ st)
               then scan (S m) (fun j => negb (isspace (at_ rex_ j))) 0
               else ret 0) st = Return 0 st).
  { destruct (Opt.x (opt_ st)); [|reflexivity].
    apply scan_stops; [lia|]. rewrite Hs. reflexivity. }
  rewrite (bind_run _ _ _ _ _ E).
  rewrite (Ht "^"%char) by (cbn [In]; tauto).
  rewrite !escapes_at_word by assumption. reflexivity.
Qed.

Lemma parse2_loop_word (P3 : Parser) m : forall n k fr1 st,
  plain st -> 1 <= k -> k + Z.of_nat m = Z.of_nat len -> (m < n)%nat ->
  (forall begin fr st, plain st -> 0 <= loc fr < Z.of_nat len ->
     P3 begin fr st = Return (atom_at (loc fr)) st) ->
  parse2_loop rex_ n P3 (atoms_upto k) fr1 None st
  = Return (atoms_upto (Z.of_nat len), None)
           (with_followpos st (links m k (followpos st))).
Proof.
  induction m as [|m IH]; intros n k fr1 st Hp Hk Hm Hn HP3.
  - destruct n as [|n]; [lia|]. cbn [parse2_loop links]. cbv zeta.
    cbn [atoms_upto loc]. replace k with (Z.of_nat len) by lia.
    assert (E : negb (at_ rex_ (Z.of_nat len) =? 0)
                && negb (eqc (at_ rex_ (Z.of_nat len)) "|")
                && negb (eqc (at_ rex_ (Z.of_nat len)) ")") = false)
      by (destruct rex_end as [E|E]; rewrite E; reflexivity).
    rewrite E.
    destruct st; reflexivity.
  - destruct n as [|n]; [lia|]. cbn [parse2_loop]. cbv zeta. cbn [atoms_upto loc].
    assert (Hin : 0 <= k < Z.of_nat len) by lia.
    assert (Hn0 : isalnum 0 = false) by reflexivity.
    destruct (alnum_tests _ _ (rex_word _ Hin) Hn0) as (H0 & _ & _ & _ & Ht).
    rewrite H0, (Ht "|"%char), (Ht ")"%char), (Ht "/"%char) by (cbn [In]; tauto).
    cbn [negb andb]. rewrite bind_get_opt.
    assert (E : P3 false (with_loc fr1 k) st = Return (atom_at k) st).
    { rewrite HP3; [reflexivity|assumption|cbn [with_loc loc]; lia]. }
    rewrite (bind_run _ _ _ _ _ E).
    cbn [atom_at atoms_upto lazypos empty negb nullable firstpos lastpos with_lastpos with_nullable
         with_lazypos with_loc with_iter iter loc set_insert fold_left].
    change (1 <? 1) with false. cbv iota.
    unfold modify_followpos. rewrite bind_modify.
    cbn [with_lastpos with_nullable with_lazypos with_loc with_iter iter loc firstpos
         lastpos nullable lazypos].
    match goal with
    | |- parse2_loop _ _ _ ?f ?f1 None ?s = _ =>
        replace f with (atoms_upto (k + 1))
          by (unfold atoms_upto; cbn; replace (k + 1 - 1) with k by lia; reflexivity);
        rewrite (IH n (k + 1) f1 s); [|exact Hp|lia|lia|lia|exact HP3]
    end.
    cbn [links followpos with_followpos]. replace (k + 1 - 1) with k by lia.
    reflexivity.
Qed.

Lemma parse2_word n fr st :
  plain st -> loc fr = 0 -> (0 < len)%nat ->
  (len <= n)%nat ->
  parse2_ rex_ ind n true fr st
  = Return (atoms_upto (Z.of_nat len))
           (with_followpos st (links (len - 1) 1 (followpos st))).
Proof.
  intros Hp Hf Hl Hn. unfold parse2_, parse2. rewrite Hf.
  rewrite (bind_run _ _ _ _ _ (anchors_word n st Hp Hl ltac:(lia))).
  assert (E : parse3_ rex_ ind n true (with_loc fr 0) st = Return (atom_at 0) st).
  { rewrite parse3_word; [reflexivity|assumption|cbn [with_loc loc]; lia|lia]. }
  rewrite (bind_run _ _ _ _ _ E).
  destruct (ind 0) as [nullable1 iter1].
  change (atom_at 0) with (atoms_upto 1).
  erewrite bind_run;
    [|apply (parse2_loop_word (parse3_ rex_ ind n) (len - 1) n 1 _ st Hp); try lia;
      intros b f s Hs Hk; apply parse3_word; [assumption|assumption|lia]].
  reflexivity.
Qed.

End Word.

Lemma of_loc_compare j k : j <> k -> Position.compare (Position.of_loc j) (Position.of_loc k) <> Eq.
Proof.
  intros Hne E. apply Position_compare_eq in E. injection E as E. contradiction.
Qed.

Lemma follow_at_update k g fp :
  follow_at k (follow_update k g fp) = g (follow_at k fp).
Proof. unfold follow_at at 1. rewrite follow_find_update_same. reflexivity. Qed.

Lemma follow_at_update_other j k g fp :
  j <> k ->
  follow_at (Position.of_loc j) (follow_update (Position.of_loc k) g fp)
  = follow_at (Position.of_loc j) fp.
Proof.
  intros Hne. unfold follow_at.
  rewrite follow_find_update_other by (apply of_loc_compare; assumption). reflexivity.
Qed.

(** The follow sets after the concatenation of atoms_upto. *)
Lemma follow_at_links m : forall k fp j,
  follow_at (Position.of_loc j) (links m k fp)
  = if (k - 1 <=? j) && (j <? k - 1 + Z.of_nat m)
    then set_insert (follow_at (Position.of_loc j) fp) [Position.of_loc (j + 1)]
    else follow_at (Position.of_loc j) fp.
Proof.
  induction m as [|m IH]; intros k fp j.
  - cbn [links]. destruct (Z.leb_spec (k - 1) j), (Z.ltb_spec j (k - 1 + Z.of_nat 0));
      cbn [andb]; try reflexivity; lia.
  - cbn [links]. rewrite IH. unfold follow_all. cbn [fold_left].
    unfold follow_set_insert. change (Position.pos (Position.of_loc (k - 1)))
      with (Position.of_loc (k - 1)).
    destruct (Z.eq_dec j (k - 1)) as [->|Hne].
    + rewrite follow_at_update.
      destruct (Z.leb_spec (k + 1 - 1) (k - 1)), (Z.leb_spec (k - 1) (k - 1)),
        (Z.ltb_spec (k - 1) (k - 1 + Z.of_nat (S m))); cbn [andb]; try lia.
      replace (k - 1 + 1) with k by lia. reflexivity.
    + rewrite follow_at_update_other by assumption.
      destruct (Z.leb_spec (k + 1 - 1) j), (Z.leb_spec (k - 1) j),
        (Z.ltb_spec j (k + 1 - 1 + Z.of_nat m)),
        (Z.ltb_spec j (k - 1 + Z.of_nat (S m))); cbn [andb]; try reflexivity; lia.
Qed.

(** The follow sets of a word. *)
Lemma follow_at_word len k :
  0 <= k < Z.of_nat len ->
  follow_at (Position.of_loc k) (word_follow len)
  = [if k + 1 <? Z.of_nat len
     then Position.of_loc (k + 1)
     else Position.set_accept (Position.of_loc 1) true].
Proof.
  intros Hk. unfold word_follow, follow_insert.
  destruct (Z.ltb_spec (k + 1) (Z.of_nat len)) as [Hlt|Hge].
  - rewrite follow_at_update_other by lia. rewrite follow_at_links.
    destruct (Z.leb_spec (1 - 1) k), (Z.ltb_spec k (1 - 1 + Z.of_nat (len - 1)));
      cbn [andb]; try lia.
    reflexivity.
  - replace k with (Z.of_nat len - 1) by lia.
    rewrite follow_at_update, follow_at_links.
    destruct (Z.leb_spec (1 - 1) (Z.of_nat len - 1)),
      (Z.ltb_spec (Z.of_nat len - 1) (1 - 1 + Z.of_nat (len - 1))); cbn [andb]; try lia;
      reflexivity.
Qed.

(** The run of [parse] on a regex that starts with a word of [len]
    characters and ends there or goes on with a [)]. *)
Lemma parse_word_before_run rex_ ind n o len :
  word_before rex_ len -> (0 < len)%nat -> isalnum (Opt.e o) = false ->
  (len <= n)%nat ->
  parse rex_ ind n (initial o)
  = Return (mkParsed [Position.of_loc 0] [Z.of_nat len]
                     (map_update 1 (fun _ => []) []))
           (mkPState o (word_follow len) [] [] []).
Proof.
  intros [Hw Hend] Hl He Hn. unfold parse.
  destruct (ind 0) as [nullable0 iter0].
  destruct n as [|n']; [lia|]. cbn [parse_rules].
  rewrite bind_modify.
  set (st0 := with_lookahead (initial o) (map_at 1 (lookaheads (mkParsed [] [] [])))).
  assert (Hp : plain st0) by exact He.
  erewrite bind_run;
    [|apply (parse2_word rex_ ind len Hw Hend); [exact Hp|reflexivity|lia|lia]].
  unfold bind at 1. cbn [get_lookahead].
  cbn [atoms_upto nullable lastpos firstpos lazypos loc].
  unfold modify_followpos. rewrite bind_modify.
  assert (E : eqc (at_ rex_ (Z.of_nat len)) "|" = false)
    by (destruct Hend as [E|E]; rewrite E; reflexivity).
  rewrite E. reflexivity.
Qed.

Lemma word_word_before rex_ : word rex_ -> word_before rex_ (String.length rex_).
Proof. intros H. split; [exact H|]. left. apply at_past. lia. Qed.

(** The run of [parse] on a word. *)
Lemma parse_word_run rex_ ind n o :
  word rex_ -> (0 < String.length rex_)%nat -> isalnum (Opt.e o) = false ->
  (String.length rex_ <= n)%nat ->
  parse rex_ ind n (initial o)
  = Return (mkParsed [Position.of_loc 0] [Z.of_nat (String.length rex_)]
                     (map_update 1 (fun _ => []) []))
           (mkPState o (word_follow (String.length rex_)) [] [] []).
Proof.
  intros Hw Hl He Hn. apply parse_word_before_run; try assumption.
  apply word_word_before. exact Hw.
Qed.

(** The parse of a word: for a non-empty regex of letters and digits only,
    with an escape character that is neither, [parse] returns without
    reporting an error once the step budget covers the length of the regex.
    The only start position is the first character, the one rule ends at the
    end of the regex, each character is followed by exactly the next one, and
    the last character by the accepting position of rule 1. *)
Theorem parse_word : forall rex_ ind n o,
  word rex_ -> (0 < String.length rex_)%nat -> isalnum (Opt.e o) = false ->
  (String.length rex_ <= n)%nat ->
  exists parsed st',
    parse rex_ ind n (initial o) = Return parsed st' /\
    startpos parsed = [Position.of_loc 0] /\
    end_ parsed = [Z.of_nat (String.length rex_)] /\
    shown st' = [] /\ opt_ st' = o /\
    forall k, 0 <= k < Z.of_nat (String.length rex_) ->
      follow_at (Position.of_loc k) (followpos st')
      = [if k + 1 <? Z.of_nat (String.length rex_)
         then Position.of_loc (k + 1)
         else Position.set_accept (Position.of_loc 1) true].
Proof.
  intros rex_ ind n o Hw Hl He Hn.
  eexists _, _. split; [apply parse_word_run; assumption|].
  split; [reflexivity|]. split; [reflexivity|]. split; [reflexivity|].
  split; [reflexivity|].
  intros k Hk. cbn [followpos]. apply follow_at_word. exact Hk.
Qed.

Lemma word_ab1 : word "ab1".
Proof.
  intros k Hk. cbn in Hk.
  assert (H : k = 0 \/ k = 1 \/ k = 2) by lia.
  destruct H as [->|[->| ->]]; reflexivity.
Qed.

(** The word [ab1] with a budget of three steps: [a] is followed by [b], and
    [1] by the accepting position of rule 1. *)
Lemma parse_word_example :
  exists parsed st',
    parse "ab1" (fun _ => (false, 0)) 3 (initial Opt.default) = Return parsed st' /\
    startpos parsed = [Position.of_loc 0] /\ end_ parsed = [3] /\
    follow_at (Position.of_loc 0) (followpos st') = [Position.of_loc 1] /\
    follow_at (Position.of_loc 2) (followpos st')
    = [Position.set_accept (Position.of_loc 1) true].
Proof.
  destruct (parse_word "ab1" (fun _ => (false, 0)) 3 Opt.default word_ab1)
    as (parsed & st' & E & Hs & He & _ & _ & Hf).
  - cbn. lia.
  - reflexivity.
  - cbn. lia.
  - exists parsed, st'. split; [exact E|]. split; [exact Hs|]. split; [exact He|].
    split.
    + apply (Hf 0). cbn. lia.
    + apply (Hf 2). cbn. lia.
Defined.

(** ** The DFA of a plain word *)

Lemma bind_assoc {A B C} (c : M A) (k : A -> M B) (k2 : B -> M C) st :
  bind (bind c k) k2 st = bind c (fun x => bind (k x) k2) st.
Proof. unfold bind. destruct (c st); reflexivity. Qed.

Lemma set_nth_middle {A} (l : list A) : forall k v x r,
  List.length l = k -> set_nth k v (l ++ x :: r) = l ++ v :: r.
Proof.
  induction l as [|a l IH]; intros k v x r Hk; cbn in Hk; subst k; cbn.
  - reflexivity.
  - rewrite IH; reflexivity.
Qed.

Lemma nth_error_map_seq {A} (f : nat -> A) k : forall a j,
  (j < k)%nat -> nth_error (map f (seq a k)) j = Some (f (a + j)%nat).
Proof.
  induction k as [|k IH]; intros a j Hj; [lia|].
  destruct j as [|j]; cbn.
  - rewrite Nat.add_0_r. reflexivity.
  - rewrite IH by lia. f_equal. f_equal. lia.
Qed.

Lemma nth_error_middle {A} (l : list A) x r k :
  List.length l = k -> nth_error (l ++ x :: r) k = Some x.
Proof. intros <-. induction l as [|a l IH]; cbn; [reflexivity|exact IH]. Qed.

Lemma word_chars_any o c : any (word_chars o c) = true.
Proof. unfold word_chars. destruct (isalpha c && Opt.i o); reflexivity. Qed.

Lemma follow_find_word len k :
  0 <= k < Z.of_nat len ->
  follow_find (Position.of_loc k) (word_follow len)
  = Some [if k + 1 <? Z.of_nat len
          then Position.of_loc (k + 1)
          else Position.set_accept (Position.of_loc 1) true].
Proof.
  intros Hk. pose proof (follow_at_word len k Hk) as H. unfold follow_at in H.
  destruct (follow_find (Position.of_loc k) (word_follow len)); [|discriminate].
  rewrite H. reflexivity.
Qed.

Lemma word_pos_next len k :
  [if Z.of_nat k + 1 <? Z.of_nat len
   then Position.of_loc (Z.of_nat k + 1)
   else Position.set_accept (Position.of_loc 1) true]
  = [word_pos len (S k)].
Proof.
  unfold word_pos.
  destruct (Z.ltb_spec (Z.of_nat k + 1) (Z.of_nat len)), (Nat.ltb_spec (S k) len);
    try lia; [|reflexivity].
  do 2 f_equal. lia.
Qed.

Lemma word_pos_lazy len k : Position.lazy (word_pos len k) = 0.
Proof. unfold word_pos. destruct (k <? len)%nat; reflexivity. Qed.

Lemma alpha_cases c :
  isalpha c = true -> toupper c + 32 = tolower c /\ 65 <= toupper c <= 90.
Proof.
  unfold isalpha, toupper, tolower, isupper, islower, in_range.
  destruct (Z.leb_spec 65 c), (Z.leb_spec c 90), (Z.leb_spec 97 c), (Z.leb_spec c 122);
    cbn; intros Hc; try discriminate; lia.
Qed.

Section WordDfa.

Variable rex_ : string.
Variable strtoul : string -> Z -> Z.
Variable o : Opt.Option.
Variable lookahead : Map.
Variable len : nat.
Hypothesis rex_word : forall k, 0 <= k < Z.of_nat len -> isalnum (at_ rex_ k) = true.
Hypothesis plain_e : isalnum (Opt.e o) = false.

Local Abbreviation stc := (mkPState o (word_follow len) [] [] []).

Lemma chars_at_word n k :
  0 <= k < Z.of_nat len ->
  chars_at rex_ strtoul n [] (Position.of_loc k) false stc
  = Return (word_chars o (at_ rex_ k)) stc.
Proof.
  intros Hk. unfold chars_at. cbv zeta. rewrite bind_get_opt.
  change (Position.loc (Position.of_loc k)) with k.
  assert (Hp : plain stc) by exact plain_e.
  destruct (alnum_tests _ _ (rex_word k Hk) plain_e) as (H0 & He & Hs & Hq & Ht).
  rewrite (Ht "."%char), (Ht "^"%char), (Ht "$"%char), (Ht "["%char) by (cbn [In]; tauto).
  cbn [andb]. rewrite (escape_at_word rex_ len rex_word stc k Hp Hk).
  change (eqc 0 "i") with false. change (eqc 0 "j") with false.
  change (eqc 0 "A") with false. change (eqc 0 "Z") with false.
  change (eqc 0 "B") with false. change (eqc 0 "b") with false.
  change (eqc 0 "<") with false. change (eqc 0 ">") with false.
  change (0 =? 0) with true. cbv iota.
  change (is_modified (ch "i") [] k) with false. rewrite orb_false_r.
  change (opt_ stc) with o. unfold word_chars.
  destruct (isalpha (at_ rex_ k) && Opt.i o) eqn:E; [|reflexivity].
  apply andb_true_iff in E. destruct E as [Ea _].
  destruct (alpha_cases _ Ea) as [E1 E2].
  unfold ret, ranges_insert1, ranges_insert. cbn [ranges_add].
  destruct (Z.ltb_spec (toupper (at_ rex_ k) + 1) (tolower (at_ rex_ k))); [|lia].
  reflexivity.
Qed.

Lemma compile_position_word n k s :
  0 <= k < Z.of_nat len -> (0 < n)%nat ->
  compile_position rex_ strtoul n [] lookahead (Position.of_loc k) (s, []) stc
  = Return (s, [(word_chars o (at_ rex_ k),
                 [if k + 1 <? Z.of_nat len
                  then Position.of_loc (k + 1)
                  else Position.set_accept (Position.of_loc 1) true])]) stc.
Proof.
  intros Hk Hn. unfold compile_position. cbv zeta.
  change (Position.accept (Position.of_loc k)) with false. cbv iota.
  change (Position.loc (Position.of_loc k)) with k.
  change (is_modified (ch "q") [] k) with false.
  rewrite bind_get_opt.
  destruct (alnum_tests _ _ (rex_word k Hk) plain_e) as (H0 & He & Hs & Hq & Ht).
  rewrite (Ht "/"%char), (Ht "("%char), (Ht ")"%char) by (cbn [In]; tauto).
  cbn [andb]. unfold bind at 1. cbn [get_followpos].
  change (followpos stc) with (word_follow len).
  change (Position.pos (Position.of_loc k)) with (Position.of_loc k).
  rewrite (follow_find_word len k Hk).
  unfold lazy_follow. change (Position.lazy (Position.of_loc k) =? 0) with true.
  cbn [negb]. rewrite bind_ret.
  rewrite (bind_run _ _ _ _ _ (chars_at_word n k Hk)).
  unfold transition at 1, bind at 1.
  destruct n as [|n']; [lia|]. cbn [transition_loop].
  rewrite word_chars_any. reflexivity.
Qed.

(** The positions of a later state come after those of every state before
    it, so the search goes right. *)
Lemma word_pos_after j k :
  (j < k)%nat ->
  positions_compare [word_pos len k] [Position.of_loc (Z.of_nat j)] = Gt.
Proof.
  intros Hj. unfold word_pos. destruct (k <? len)%nat; [|reflexivity].
  cbn [positions_compare]. unfold Position.compare, Position.key, Position.of_loc.
  cbn [Position.lazy Position.accept Position.anchor Position.greedy Position.ticked
       Position.iter Position.loc Position.b2z Position.lex Z.compare].
  assert (E : (Z.of_nat k ?= Z.of_nat j) = Gt) by (apply Z.compare_gt_iff; lia).
  rewrite E. reflexivity.
Qed.

Lemma word_building_nth k j :
  (j < k)%nat -> nth_error (word_building o rex_ len k) j = Some (word_state o rex_ j).
Proof.
  intros Hj. unfold word_building.
  rewrite nth_error_app1 by (rewrite length_map, length_seq; exact Hj).
  rewrite nth_error_map_seq by exact Hj. reflexivity.
Qed.

Lemma word_building_last k :
  nth_error (word_building o rex_ len k) k
  = Some (new_State [word_pos len k]).
Proof.
  unfold word_building. apply nth_error_middle.
  rewrite length_map, length_seq. reflexivity.
Qed.

Lemma word_building_length k : List.length (word_building o rex_ len k) = S k.
Proof.
  unfold word_building. rewrite length_app, length_map, length_seq. cbn. lia.
Qed.

(** The search for the positions of state [k + 1] ends at state [k]. *)
Lemma search_word k m : forall fuel j,
  (k < len)%nat -> (j + m = k)%nat -> (m < fuel)%nat ->
  search fuel (word_building o rex_ len k) [word_pos len (S k)] j = Some (inr (k, false)).
Proof.
  induction m as [|m IH]; intros fuel j Hk Hj Hf.
  - destruct fuel as [|fuel]; [lia|]. cbn [search].
    assert (j = k) by lia. subst j.
    rewrite word_building_last.
    unfold word_pos at 2. destruct (Nat.ltb_spec k len); [|lia].
    cbn [positions new_State]. rewrite word_pos_after by lia. reflexivity.
  - destruct fuel as [|fuel]; [lia|]. cbn [search].
    rewrite word_building_nth by lia.
    cbn [positions word_state]. rewrite word_pos_after by lia.
    cbn [right]. apply IH; lia.
Qed.

Lemma compile_transition_word n k :
  (k < len)%nat -> (0 < n)%nat ->
  compile_transition rex_ strtoul n (new_State [word_pos len k]) [] lookahead stc
  = Return (new_State [word_pos len k],
            [(word_chars o (at_ rex_ (Z.of_nat k)), [word_pos len (S k)])]) stc.
Proof.
  intros Hk Hn. unfold compile_transition. cbn [positions new_State compile_positions].
  assert (Ep : word_pos len k = Position.of_loc (Z.of_nat k)).
  { unfold word_pos. destruct (Nat.ltb_spec k len); [reflexivity|lia]. }
  rewrite !Ep.
  assert (Hz : 0 <= Z.of_nat k < Z.of_nat len) by lia.
  rewrite (bind_run _ _ _ _ _ (compile_position_word n (Z.of_nat k) _ Hz Hn)).
  rewrite word_pos_next. reflexivity.
Qed.

(** The edges of state [k] of a word are made, and the next state. *)
Lemma commit_moves_word k eno :
  (k < len)%nat ->
  commit_moves k [(word_chars o (at_ rex_ (Z.of_nat k)), [word_pos len (S k)])]
               (word_building o rex_ len k, eno) stc
  = Return (word_building o rex_ len (S k),
            eno + word_count o (at_ rex_ (Z.of_nat k))) stc.
Proof.
  intros Hk.
  cbn [commit_moves]. unfold commit_move at 1. cbn [snd fst].
  assert (Et : trim_lazy [word_pos len (S k)] stc = Return [word_pos len (S k)] stc).
  { unfold trim_lazy. cbn [List.length Nat.mul Nat.add rev app trim_lazy_loop].
    rewrite word_pos_lazy. reflexivity. }
  rewrite bind_assoc, (bind_run _ _ _ _ _ Et).
  cbn [empty negb].
  assert (Eg : target (word_building o rex_ len k) [word_pos len (S k)] stc
               = Return (map (word_state o rex_) (seq 0 k)
                           ++ [with_right (new_State [Position.of_loc (Z.of_nat k)])
                                          (Some (S k));
                               new_State [word_pos len (S k)]], S k) stc).
  { unfold target. rewrite (search_word k k) by (rewrite ?word_building_length; lia).
    rewrite word_building_last, word_building_length.
    unfold word_pos at 1. destruct (Nat.ltb_spec k len); [|lia].
    unfold word_building.
    rewrite set_nth_middle by (rewrite length_map, length_seq; reflexivity).
    rewrite <- app_assoc. reflexivity. }
  rewrite bind_assoc, (bind_run _ _ _ _ _ Eg).
  replace (nth_error _ k)
    with (Some (with_right (new_State [Position.of_loc (Z.of_nat k)]) (Some (S k))))
    by (symmetry; apply nth_error_middle; rewrite length_map, length_seq; reflexivity).
  rewrite bind_ret.
  unfold ret. f_equal. apply f_equal2.
  - rewrite set_nth_middle by (rewrite length_map, length_seq; reflexivity).
    unfold word_building. rewrite seq_S, map_app, <- app_assoc. cbn [map app Nat.add].
    f_equal. f_equal.
    unfold word_state, with_edges, with_right, new_State.
    cbn [positions left right edges index accept heads tails redo]. f_equal.
    unfold word_chars, word_edges.
    destruct (isalpha (at_ rex_ (Z.of_nat k)) && Opt.i o) eqn:E.
    + apply andb_true_iff in E. destruct E as [Ea _].
      destruct (alpha_cases _ Ea) as [E1 E2].
      cbn [fold_left fst snd edges_set].
      destruct (Z.eqb_spec (tolower (at_ rex_ (Z.of_nat k)))
                           (toupper (at_ rex_ (Z.of_nat k)))); [lia|].
      destruct (Z.ltb_spec (tolower (at_ rex_ (Z.of_nat k)))
                           (toupper (at_ rex_ (Z.of_nat k)))); [lia|].
      rewrite !Z.add_simpl_r. reflexivity.
    + cbn [fold_left fst snd edges_set]. rewrite Z.add_simpl_r. reflexivity.
  - unfold word_chars, word_count.
    destruct (isalpha (at_ rex_ (Z.of_nat k)) && Opt.i o); cbn [fold_left fst snd]; lia.
Qed.

(** The last state of a word has the accepting position only. *)
Lemma compile_transition_final n :
  compile_transition rex_ strtoul n (new_State [word_pos len len]) [] lookahead stc
  = Return (with_accept (new_State [word_pos len len]) 1, []) stc.
Proof.
  unfold compile_transition. cbn [positions new_State compile_positions].
  unfold word_pos. rewrite Nat.ltb_irrefl. reflexivity.
Qed.

(** The loop of [compile] from state [k] of a word to the end. *)
Lemma compile_states_word m : forall n k,
  (k + m = len)%nat -> (m + 2 <= n)%nat ->
  compile_states rex_ strtoul n [] lookahead 1 k (word_building o rex_ len k)
                 (mkCounts (Z.of_nat k) (word_eno o rex_ k) [false]) stc
  = Return (word_dfa o rex_ len,
            mkCounts (Z.of_nat len + 1) (word_eno o rex_ len) [true]) stc.
Proof.
  induction m as [|m IH]; intros n k Hk Hn.
  - destruct n as [|n]; [lia|]. cbn [compile_states].
    rewrite word_building_last.
    assert (k = len) by lia. subst k.
    rewrite (bind_run _ _ _ _ _ (compile_transition_final (S n))).
    cbn [commit_moves]. rewrite bind_ret.
    cbn [accept with_accept new_State eno_ acc_ vno_].
    change ((0 <? 1) && (1 <=? 1)) with true. cbv iota.
    destruct n as [|n]; [lia|]. cbn [compile_states].
    match goal with
    | |- context [nth_error ?d (S len)] =>
        replace (nth_error d (S len)) with (@None State)
          by (symmetry; apply nth_error_None;
              rewrite set_nth_length, word_building_length; lia)
    end.
    unfold ret. f_equal.
    unfold word_building.
    rewrite set_nth_middle by (rewrite length_map, length_seq; reflexivity).
    unfold word_dfa, word_final, word_pos. rewrite Nat.ltb_irrefl.
    cbn [set_nth Z.to_nat Z.sub Z.of_nat]. reflexivity.
  - destruct n as [|n]; [lia|]. cbn [compile_states].
    rewrite word_building_last.
    rewrite (bind_run _ _ _ _ _ (compile_transition_word (S n) k ltac:(lia) ltac:(lia))).
    assert (Es : set_nth k (new_State [word_pos len k]) (word_building o rex_ len k)
                 = word_building o rex_ len k).
    { unfold word_building. rewrite set_nth_middle
        by (rewrite length_map, length_seq; reflexivity).
      reflexivity. }
    rewrite Es. cbn [eno_ acc_ vno_].
    rewrite (bind_run _ _ _ _ _ (commit_moves_word k _ ltac:(lia))).
    cbn [accept new_State]. change ((0 <? 0) && (0 <=? 1)) with false. cbv iota.
    replace (Z.of_nat k + 1) with (Z.of_nat (S k)) by lia.
    change (word_eno o rex_ k + word_count o (at_ rex_ (Z.of_nat k)))
      with (word_eno o rex_ (S k)).
    apply IH; lia.
Qed.

Lemma compile_word n end_ :
  (0 < len)%nat -> (len + 2 <= n)%nat -> List.length end_ = 1%nat ->
  compile rex_ strtoul n (new_State [Position.of_loc 0]) [] lookahead end_ stc
  = Return (word_dfa o rex_ len,
            mkCounts (Z.of_nat len + 1) (word_eno o rex_ len) [true]) stc.
Proof.
  intros Hl Hn He. unfold compile. cbn [positions new_State left right edges index accept
                                          heads tails redo].
  assert (Et : trim_lazy [Position.of_loc 0] stc = Return [Position.of_loc 0] stc)
    by reflexivity.
  rewrite (bind_run _ _ _ _ _ Et). unfold size. rewrite He. cbn [repeat Z.of_nat].
  pose proof (compile_states_word len n 0%nat ltac:(lia) ltac:(lia)) as E.
  unfold word_building, word_pos in E. cbn [seq map app word_eno Z.of_nat] in E.
  destruct (Nat.ltb_spec 0 len); [|lia]. exact E.
Qed.

End WordDfa.

(** The run of [build] on a regex that starts with a word of [len]
    characters and ends there or goes on with a [)]. *)
Lemma build_word_before_run rex_ ind strtoul n o len :
  word_before rex_ len -> (0 < len)%nat -> isalnum (Opt.e o) = false ->
  (len + 2 <= n)%nat ->
  build rex_ ind strtoul n (initial o)
  = Return (mkParsed [Position.of_loc 0] [Z.of_nat len] (map_update 1 (fun _ => []) []),
            word_dfa o rex_ len,
            mkCounts (Z.of_nat len + 1) (word_eno o rex_ len) [true])
           (mkPState o (word_follow len) [] [] []).
Proof.
  intros Hw Hl He Hn. unfold build.
  rewrite (bind_run _ _ _ _ _
             (parse_word_before_run rex_ ind n o len Hw Hl He ltac:(lia))).
  unfold bind at 1. cbn [modifiers startpos lookaheads end_].
  rewrite (bind_run _ _ _ _ _
             (compile_word rex_ strtoul o (map_update 1 (fun _ => []) []) len
                           (proj1 Hw) He n [Z.of_nat len] Hl Hn eq_refl)).
  reflexivity.
Qed.

(** The DFA of a word is a chain: for a non-empty regex of letters and digits
    only, with an escape character that is neither, [build] (the parser, then
    [compile]) returns without reporting an error once the step budget covers
    the length of the regex, with one state for each character and a last
    one.  State [k] is not accepting and its only edges take the character
    at [k] (both cases of a letter under option [i]) to state [k + 1]; the
    last state accepts rule 1 and has no edges. *)
Theorem build_word : forall rex_ ind strtoul n o,
  word rex_ -> (0 < String.length rex_)%nat -> isalnum (Opt.e o) = false ->
  (String.length rex_ + 2 <= n)%nat ->
  exists parsed cnt st',
    build rex_ ind strtoul n (initial o)
    = Return (parsed, word_dfa o rex_ (String.length rex_), cnt) st' /\
    end_ parsed = [Z.of_nat (String.length rex_)] /\
    vno_ cnt = Z.of_nat (String.length rex_) + 1 /\ acc_ cnt = [true] /\
    shown st' = [].
Proof.
  intros rex_ ind strtoul n o Hw Hl He Hn.
  eexists _, _, _. split.
  - apply build_word_before_run; try assumption. apply word_word_before. exact Hw.
  - repeat split.
Qed.

Lemma at_append_left w suf k :
  0 <= k < Z.of_nat (String.length w) -> at_ (w ++ suf) k = at_ w k.
Proof.
  intros Hk. unfold at_. destruct (Z.ltb_spec k 0); [lia|].
  rewrite <- append_correct1 by lia. reflexivity.
Qed.

Lemma word_eno_append o w suf : forall k,
  (k <= String.length w)%nat -> word_eno o (w ++ suf) k = word_eno o w k.
Proof.
  induction k as [|k IH]; intros Hk; [reflexivity|].
  cbn [word_eno]. rewrite IH, at_append_left by lia. reflexivity.
Qed.

Lemma word_dfa_append o w suf :
  word_dfa o (w ++ suf) (String.length w) = word_dfa o w (String.length w).
Proof.
  unfold word_dfa. f_equal. apply map_ext_in. intros k Hk. apply in_seq in Hk.
  unfold word_state. rewrite at_append_left by lia. reflexivity.
Qed.

(** A [)] that no group opened ends the compilation silently: the pattern
    made from a word followed by a [)] and anything else is the pattern made
    from the word alone.  [build] returns the same DFA in the same state with
    nothing written to the error stream, and [init] ends in the same outcome
    (the same opcodes). *)
Theorem unopened_close_ignored : forall w rest ind strtoul beyond n opt o,
  word w -> (0 < String.length w)%nat ->
  init_options beyond n opt = Some o -> isalnum (Opt.e o) = false ->
  (String.length w + 2 <= n)%nat ->
  (exists r st',
     build (w ++ String ")" rest) ind strtoul n (initial o) = Return r st' /\
     build w ind strtoul n (initial o) = Return r st' /\
     shown st' = []) /\
  init (w ++ String ")" rest) ind strtoul beyond n opt = init w ind strtoul beyond n opt.
Proof.
  intros w rest ind strtoul beyond n opt o Hw Hl Ho He Hn.
  assert (Hb : word_before (w ++ String ")" rest) (String.length w)).
  { split.
    - intros k Hk. rewrite at_append_left by exact Hk. apply Hw. exact Hk.
    - right. apply at_append. }
  pose proof (build_word_before_run _ ind strtoul n o _ Hb Hl He Hn) as E1.
  pose proof (build_word_before_run _ ind strtoul n o _ (word_word_before w Hw) Hl He Hn)
    as E2.
  rewrite word_dfa_append, word_eno_append in E1 by lia.
  split.
  - eexists _, _. split; [exact E1|]. split; [exact E2|]. reflexivity.
  - unfold init. rewrite Ho. unfold bind at 1 4. rewrite E1, E2. reflexivity.
Qed.

(** The word [ab1] under option [i]: the two letters have an edge for each
    case, the digit has one, and the fourth state accepts. *)
Lemma build_word_example :
  let o := Opt.set_i Opt.default true in
  exists parsed cnt st',
    build "ab1" (fun _ => (false, 0)) (fun _ _ => 0) 5 (initial o)
    = Return (parsed, word_dfa o "ab1" 3, cnt) st' /\
    map edges (word_dfa o "ab1" 3)
    = [[(65, (65, Some 1%nat)); (97, (97, Some 1%nat))];
       [(66, (66, Some 2%nat)); (98, (98, Some 2%nat))];
       [(49, (49, Some 3%nat))]; []] /\
    map accept (word_dfa o "ab1" 3) = [0; 0; 0; 1] /\
    vno_ cnt = 4.
Proof.
  cbv zeta.
  destruct (build_word "ab1" (fun _ => (false, 0)) (fun _ _ => 0) 5
              (Opt.set_i Opt.default true) word_ab1)
    as (parsed & cnt & st' & E & _ & Hv & _).
  - cbn. lia.
  - reflexivity.
  - cbn. lia.
  - exists parsed, cnt, st'. split; [exact E|]. split; [reflexivity|].
    split; [reflexivity|exact Hv].
Defined.

Lemma word_ab : word "ab".
Proof.
  intros k Hk. cbn in Hk.
  assert (H : k = 0 \/ k = 1) by lia.
  destruct H as [->| ->]; reflexivity.
Qed.

(** The regex [ab)c(] under the options [r] and [w]: the unclosed group
    after the [)] raises no error, and the pattern is that of [ab]. *)
Lemma unopened_close_ignored_example :
  init "ab)c(" (fun _ => (false, 0)) (fun _ _ => 0) (fun _ => 0) 10 (Some "rw"%string)
  = init "ab" (fun _ => (false, 0)) (fun _ _ => 0) (fun _ => 0) 10 (Some "rw"%string).
Proof.
  apply (proj2 (unopened_close_ignored "ab" "c(" (fun _ => (false, 0)) (fun _ _ => 0)
                  (fun _ => 0) 10 (Some "rw"%string)
                  (Opt.mk false 92 [] false false false EmptyString false true false true
                          false)
                  word_ab ltac:(cbn; lia) eq_refl eq_refl ltac:(cbn; lia))).
Defined.
